(** * ngeo_flowspace: intervals, network covers, paint maps and flowspace layers

    A shallow embedding of the parts of the library that the specification
    talks about, and the properties that hold (or fail) on them.

    - [Interval]  : [ngeo::interval<T>]            (include/ngeo/interval.hpp)
    - [Ip4]       : [ngeo::ip4_addr], [ip4_mask], [ip4_net], [ip4_range],
                    [ip4_net_generator]            (include/ngeo/ip_base.hpp, src/ip_base.cpp)
    - [Cn]        : [Cn::IpAddr], [Cn::IpRange], [Cn::IpSet], [Cn::IpMap]
                                                   (cnip/...)
    - [Flowspace] : [ngeo::flowspace::imp::node_base], [layer<METRIC, PAYLOAD>]
                    (include/flowspace/flowspace-layer.h, src/flowspace-layer.cpp)

    Metrics are integers ([Z]); the 32-bit unsigned arithmetic of the address
    types is written out with [wrap32]. *)

From Stdlib Require Import ZArith List Bool Lia Sorted Permutation Setoid Morphisms.
Import ListNotations.
Open Scope Z_scope.

(* ===================================================================== *)
(** * Definitions                                                         *)
(* ===================================================================== *)

(** ** 32-bit unsigned arithmetic *)

Definition two32 : Z := 2 ^ 32.
Definition MAX32 : Z := two32 - 1.
Definition wrap32 (z : Z) : Z := z mod two32.

(** ** [ngeo::interval<T>] *)

Module Interval.

(** [struct interval { T _min; T _max; }] *)
Record interval : Type := Build { _min : Z; _max : Z }.

(** [interval(arg_type x1, arg_type x2) : _min(std::min(x1,x2)), _max(std::max(x1,x2))]
    -- the two-argument constructor sorts its arguments. *)
Definition make (x1 x2 : Z) : interval :=
  {| _min := Z.min x1 x2; _max := Z.max x1 x2 |}.

(** [interval(arg_type single)] *)
Definition singleton (x : Z) : interval := {| _min := x; _max := x |}.

Section Extrema.
(** [extrema_functor::min()] and [extrema_functor::max()] of the metric. *)
Variables MINv MAXv : Z.

(** [interval() : _min(extrema_functor::max()), _max(extrema_functor::min())] *)
Definition default : interval := {| _min := MAXv; _max := MINv |}.

(** [static self all()] *)
Definition all : interval := make MINv MAXv.
End Extrema.

(** [bool is_empty() const { return _min > _max; }] *)
Definition is_empty (i : interval) : bool := _max i <? _min i.

(** [bool operator ! () const { return _min > _max; }] *)
Definition op_not (i : interval) : bool := _max i <? _min i.

(** [has_intersection]:
    [(that._min <= _min && _min <= that._max) || (_min <= that._min && that._min <= _max)] *)
Definition has_intersection (this that : interval) : bool :=
  ((_min that <=? _min this) && (_min this <=? _max that))
  || ((_min this <=? _min that) && (_min that <=? _max this)).

(** [intersection]: [return self(std::max(_min, that._min), std::min(_max, that._max));] *)
Definition intersection (this that : interval) : interval :=
  make (Z.max (_min this) (_min that)) (Z.min (_max this) (_max that)).

(** [hull]:
    [!*this ? that : !that ? *this : interval(std::min(_min, that._min), std::max(_max, that._max))] *)
Definition hull (this that : interval) : interval :=
  if op_not this then that
  else if op_not that then this
  else make (Z.min (_min this) (_min that)) (Z.max (_max this) (_max that)).

(** [operator ==] on intervals *)
Definition eqb (a b : interval) : bool :=
  (_min a =? _min b) && (_max a =? _max b).

End Interval.

(** ** [ngeo::ip4_addr], [ip4_mask], [ip4_net], [ip4_range] *)

Module Ip4.
Import Interval.

(** [ip4_addr::WIDTH], [ip4_mask::WIDTH] *)
Definition WIDTH : Z := 32.

(** [ip4_addr::MIN], [ip4_addr::MAX] (src/ip_static.hpp) *)
Definition MIN : Z := 0.
Definition MAX : Z := MAX32.

(** The loop of [ip4_addr::lsb_count]:
    [while (zret < WIDTH && (((m & _addr) != 0) == set)) { ++zret; m <<= 1; }].
    The counter bounds the number of iterations by [WIDTH]. *)
Fixpoint lsb_count_loop (n : nat) (set : bool) (addr m zret : Z) : Z :=
  match n with
  | O => zret
  | S n' =>
      if (zret <? WIDTH) && Bool.eqb (negb (Z.land m addr =? 0)) set
      then lsb_count_loop n' set addr (wrap32 (Z.shiftl m 1)) (zret + 1)
      else zret
  end.

(** [int ip4_addr::lsb_count(bool set) const] *)
Definition lsb_count (addr : Z) (set : bool) : Z :=
  lsb_count_loop 32 set addr 1 0.

(** [ip4_mask::bounded_count]: [std::min(WIDTH, std::max(0, count))] *)
Definition bounded_count (count : Z) : Z := Z.min WIDTH (Z.max 0 count).

(** [ip4_mask::host_order]: [_count ? ~0u << (WIDTH - _count) : 0] *)
Definition mask_host_order (count : Z) : Z :=
  if count =? 0 then 0 else wrap32 (Z.shiftl MAX32 (WIDTH - count)).

(** [ip4_mask::operator>>=] through [boost::shiftable]: set bits are shifted in. *)
Definition mask_shr (count n : Z) : Z := bounded_count (count + n).

(** [operator & (ip4_addr const&, ip4_mask const&)] *)
Definition addr_and_mask (addr count : Z) : Z := Z.land (mask_host_order count) addr.

(** [operator ~ (ip4_mask const&)] : [ip4_addr(~(mask.host_order()))] *)
Definition mask_compl (count : Z) : Z := MAX32 - mask_host_order count.

(** [class ip4_net { ip4_addr m_addr; ip4_mask m_mask; }] *)
Record ip4_net : Type := Net { m_addr : Z; m_mask : Z }.

(** [ip4_net() : m_addr(ip4_addr::MAX), m_mask(0)] -- the empty network *)
Definition net_default : ip4_net := {| m_addr := MAX; m_mask := 0 |}.

(** [ip4_net(addr, mask) : m_addr(addr & mask), m_mask(mask)], also [ip4_net::set] *)
Definition net_make (addr count : Z) : ip4_net :=
  {| m_addr := addr_and_mask addr count; m_mask := count |}.

(** [ip4_addr max_addr() const { return m_addr | ~m_mask; }] *)
Definition max_addr (n : ip4_net) : Z := Z.lor (m_addr n) (mask_compl (m_mask n)).

(** [operator == (ip4_net, ip4_net)] *)
Definition net_eqb (a b : ip4_net) : bool :=
  (m_addr a =? m_addr b) && (m_mask a =? m_mask b).

(** [class ip4_range : public interval<ip4_addr>]; [ip4_range()] is the empty interval. *)
Definition ip4_range := interval.
Definition range_default : ip4_range := Interval.default MIN MAX.

(** [while (net.max_addr() > _max) net = ip4_net(_min, net.mask() >> 1);]
    [None] when the iteration bound is used up. *)
Fixpoint shrink_loop (fuel : nat) (rmin rmax : Z) (net : ip4_net) : option ip4_net :=
  if rmax <? max_addr net then
    match fuel with
    | O => None
    | S f => shrink_loop f rmin rmax (net_make rmin (mask_shr (m_mask net) 1))
    end
  else Some net.

(** [bool ip4_range::extract_next_network(ip4_net& net)]: the new range, the
    network and the returned flag. *)
Definition extract_next_network (r : ip4_range) : option (ip4_range * ip4_net * bool) :=
  if op_not r then Some (r, net_default, false)
  else
    let width := lsb_count (_min r) false in
    let net0 := net_make (_min r) (bounded_count (WIDTH - width)) in
    match shrink_loop 33 (_min r) (_max r) net0 with
    | None => None
    | Some net =>
        let m := max_addr net in
        let r' := if m =? _max r then range_default
                  else {| _min := wrap32 (m + 1); _max := _max r |} in
        Some (r', net, op_not r')
    end.

(** [class ip4_net_generator { ip4_range m_range; ip4_net m_data; }] *)
Record ip4_net_generator : Type := Gen { m_range : ip4_range; m_data : ip4_net }.

(** [ip4_net_generator()] *)
Definition gen_default : ip4_net_generator :=
  {| m_range := range_default; m_data := net_default |}.

(** [self& operator ++ () { m_range.extract_next_network(m_data); return *this; }] *)
Definition gen_incr (g : ip4_net_generator) : option ip4_net_generator :=
  match extract_next_network (m_range g) with
  | None => None
  | Some (r', net, _) => Some {| m_range := r'; m_data := net |}
  end.

(** [ip4_net_generator(ip4_range const& r) : m_range(r) { ++*this; }] *)
Definition gen_make (r : ip4_range) : option ip4_net_generator :=
  gen_incr {| m_range := r; m_data := net_default |}.

(** [operator == (ip4_net_generator, ip4_net_generator)] *)
Definition gen_eqb (a b : ip4_net_generator) : bool :=
  net_eqb (m_data a) (m_data b) && Interval.eqb (m_range a) (m_range b).

(** [copy(first, last, out)] with [last = ip4_net_generator()]:
    [while (first != last) { *out++ = *first; ++first; }] *)
Fixpoint gen_copy (fuel : nat) (g : ip4_net_generator) : option (list ip4_net) :=
  match fuel with
  | O => None
  | S f =>
      if gen_eqb g gen_default then Some []
      else match gen_incr g with
           | None => None
           | Some g' =>
               match gen_copy f g' with
               | None => None
               | Some l => Some (m_data g :: l)
               end
           end
  end.

(** [copy(r.net_begin(), r.net_end(), out)] *)
Definition networks (fuel : nat) (r : ip4_range) : option (list ip4_net) :=
  match gen_make r with
  | None => None
  | Some g => gen_copy fuel g
  end.

(** [bool ip4_net::contains(ip4_addr const& addr) const { return (addr & m_mask) == m_addr; }] *)
Definition contains (n : ip4_net) (addr : Z) : bool :=
  addr_and_mask addr (m_mask n) =? m_addr n.

(** *** Vocabulary of the network-cover properties *)

(** A 32-bit address. *)
Definition is_addr (a : Z) : Prop := 0 <= a <= MAX32.

(** A CIDR network: a prefix length in [0..32] and a base address without
    host bits (the constructor leaves it unchanged). *)
Definition is_cidr (n : ip4_net) : Prop :=
  0 <= m_mask n <= 32 /\ is_addr (m_addr n) /\ net_make (m_addr n) (m_mask n) = n.

(** Two networks can be unioned into a single network: some CIDR network
    contains exactly the addresses of the two. *)
Definition unionable (n1 n2 : ip4_net) : Prop :=
  exists n, is_cidr n /\
    forall a, is_addr a ->
      (contains n a = true <-> contains n1 a = true \/ contains n2 a = true).

(** A network of prefix length [c] based at [rmin] fits below [rmax]. *)
Definition fits (rmin rmax c : Z) : Prop := rmin + 2 ^ (32 - c) - 1 <= rmax.

(** The greedy choice: whenever the base address would also be the base
    of the next larger network, that larger network does not fit. *)
Definition greedy (n : ip4_net) (rmax : Z) : Prop :=
  1 <= m_mask n -> m_addr n mod 2 ^ (32 - m_mask n + 1) = 0 ->
  ~ fits (m_addr n) rmax (m_mask n - 1).

(** [cover lo hi l]: [l] is a chain of greedy CIDR networks that starts at
    [lo], ends at [hi], each network starting right after its predecessor. *)
Inductive cover : Z -> Z -> list ip4_net -> Prop :=
| cover_last lo hi n :
    is_cidr n -> m_addr n = lo -> max_addr n = hi -> greedy n hi ->
    cover lo hi [n]
| cover_cons lo hi n l :
    is_cidr n -> m_addr n = lo -> max_addr n < hi -> greedy n hi ->
    cover (max_addr n + 1) hi l ->
    cover lo hi (n :: l).

(** A property of every two neighbours of a sequence. *)
Fixpoint consecutive {A : Type} (P : A -> A -> Prop) (l : list A) : Prop :=
  match l with
  | a :: (b :: _) as t => P a b /\ consecutive P t
  | _ => True
  end.

(** Dotted-quad notation for host-order addresses. *)
Definition quad (a b c d : Z) : Z := ((a * 256 + b) * 256 + c) * 256 + d.

End Ip4.

(** ** [Cn::IpAddr], [Cn::IpRange], [Cn::IpSet], [Cn::IpMap] *)

Module Cn.

(** *** Outcomes of running the container code

    The code walks [std::set] / [std::map] iterators.  Reading through,
    incrementing or erasing the past-the-end iterator, decrementing the
    first one and reading through a null handle have no defined result;
    the model stops there with the corresponding [fault]. *)
Inductive fault : Type :=
| DerefEnd      (* [*it] or [it->] with [it == end()] *)
| IncrEnd       (* [++it] with [it == end()] *)
| DecrBegin     (* [--it] with [it == begin()] *)
| EraseEnd      (* [erase(end())] *)
| NullHandle    (* [*h] with a null [SharedHandle] *)
| InvalidIter   (* an iterator to an element that was erased *)
| OutOfFuel.    (* the iteration bound of the model is used up *)

Inductive result (A : Type) : Type :=
| Ok (a : A)
| Fault (f : fault).
Arguments Ok {A} a.
Arguments Fault {A} f.

Definition bind {A B : Type} (r : result A) (k : A -> result B) : result B :=
  match r with
  | Ok a => k a
  | Fault f => Fault f
  end.

Notation "x <- r ;; k" := (bind r (fun x => k))
  (at level 61, r at next level, right associativity).
Notation "' p <- r ;; k" := (bind r (fun p => k))
  (at level 61, p pattern, r at next level, right associativity).

(** *** [Cn::IpAddr]: [unsigned int], "no wrap checks" *)

(** [operator + (IpAddr const& src, unsigned int i) { return src.m_addr + i; }] *)
Definition addr_add (a i : Z) : Z := wrap32 (a + i).
(** [operator - (IpAddr const& src, unsigned int i) { return src.m_addr - i; }] *)
Definition addr_sub (a i : Z) : Z := wrap32 (a - i).

(** *** [Cn::IpRange] *)

Record IpRange : Type := Range { m_low : Z; m_high : Z }.

(** [IpRange() : m_low(IpAddr::Min()), m_high(IpAddr::Max())] *)
Definition IpRange_default : IpRange := Range 0 MAX32.

(** [IpRange(IpAddr lower, IpAddr upper) : m_low(std::min(lower, upper)), m_high(std::max(lower, upper))] *)
Definition IpRange_make (lower upper : Z) : IpRange :=
  Range (Z.min lower upper) (Z.max lower upper).

Definition GetLowerBound (r : IpRange) : Z := m_low r.
Definition GetUpperBound (r : IpRange) : Z := m_high r.

(** [IsCompatible(addr)]: [m_low <= addr && addr <= m_high] *)
Definition IsCompatible (r : IpRange) (addr : Z) : bool :=
  (m_low r <=? addr) && (addr <=? m_high r).

(** [HasOverlap(src)]: [src.IsCompatible(m_low) || this->IsCompatible(src.m_low)] *)
Definition HasOverlap (this src : IpRange) : bool :=
  IsCompatible src (m_low this) || IsCompatible this (m_low src).

(** [CalcOverlap(out, src)]: writes the bounds of [out] when the ranges overlap. *)
Definition CalcOverlap (this out src : IpRange) : IpRange * bool :=
  if HasOverlap this src
  then (Range (Z.max (m_low src) (m_low this)) (Z.min (m_high this) (m_high src)), true)
  else (out, false).

(** [IsSubset(other)]: [m_high <= other.m_high && m_low >= other.m_low] *)
Definition IsSubset (this other : IpRange) : bool :=
  (m_high this <=? m_high other) && (m_low other <=? m_low this).

(** [operator == (IpRange, IpRange)] *)
Definition range_eqb (x y : IpRange) : bool :=
  (m_low x =? m_low y) && (m_high x =? m_high y).

(** [operator < (IpRange, IpRange)]: lexicographic on (low, high) *)
Definition range_ltb (x y : IpRange) : bool :=
  (m_low x <? m_low y) || ((m_low x =? m_low y) && (m_high x <? m_high y)).

(** *** Ordered containers ([std::set<IpRange>], [std::map<IpRange, Handle>])

    A container is the list of its elements in key order.  An iterator
    designates an element (by its key, which is unique) or is [End]:
    iterators to other elements stay valid across [insert] and [erase]. *)

Inductive iterator : Type :=
| It (k : IpRange)
| End.

Definition iter_eqb (a b : iterator) : bool :=
  match a, b with
  | It x, It y => range_eqb x y
  | End, End => true
  | _, _ => false
  end.

Section Container.
Context {E : Type}.
Variable key : E -> IpRange.

Fixpoint find (c : list E) (k : IpRange) : option E :=
  match c with
  | [] => None
  | e :: t => if range_eqb (key e) k then Some e else find t k
  end.

(** [c.begin()] *)
Definition begin (c : list E) : iterator :=
  match c with
  | [] => End
  | e :: _ => It (key e)
  end.

(** The position after the element of key [k]. *)
Fixpoint after (c : list E) (k : IpRange) : iterator :=
  match c with
  | [] => End
  | e :: t => if range_eqb (key e) k then begin t else after t k
  end.

(** The key of the element before the element of key [k]; [prev] is the
    key before the head of [c]. *)
Fixpoint before (c : list E) (k : IpRange) (prev : option IpRange) : option IpRange :=
  match c with
  | [] => prev
  | e :: t => if range_eqb (key e) k then prev else before t k (Some (key e))
  end.

(** [++it] *)
Definition incr (c : list E) (it : iterator) : result iterator :=
  match it with
  | End => Fault IncrEnd
  | It k =>
      match find c k with
      | None => Fault InvalidIter
      | Some _ => Ok (after c k)
      end
  end.

(** [--it] *)
Definition decr (c : list E) (it : iterator) : result iterator :=
  match it with
  | End =>
      match last (map (fun e => Some (key e)) c) None with
      | None => Fault DecrBegin
      | Some k => Ok (It k)
      end
  | It k =>
      match find c k with
      | None => Fault InvalidIter
      | Some _ =>
          match before c k None with
          | None => Fault DecrBegin
          | Some k' => Ok (It k')
          end
      end
  end.

(** [*it] *)
Definition deref (c : list E) (it : iterator) : result E :=
  match it with
  | End => Fault DerefEnd
  | It k =>
      match find c k with
      | None => Fault InvalidIter
      | Some e => Ok e
      end
  end.

(** [c.lower_bound(r)]: the first element whose key is not less than [r]. *)
Fixpoint lower_bound (c : list E) (r : IpRange) : iterator :=
  match c with
  | [] => End
  | e :: t => if range_ltb (key e) r then lower_bound t r else It (key e)
  end.

(** The element [e] put at its place in key order; a container that
    already has the key is left as it is. *)
Fixpoint put (c : list E) (e : E) : list E :=
  match c with
  | [] => [e]
  | x :: t =>
      if range_ltb (key e) (key x) then e :: x :: t
      else if range_eqb (key x) (key e) then x :: t
      else x :: put t e
  end.

(** [c.insert(hint, e)]: the hint does not change where the element
    goes; the result designates the element with the key of [e]. *)
Definition insert (c : list E) (hint : iterator) (e : E) : list E * iterator :=
  (put c e, It (key e)).

Fixpoint remove (c : list E) (k : IpRange) : list E :=
  match c with
  | [] => []
  | e :: t => if range_eqb (key e) k then t else e :: remove t k
  end.

(** [c.erase(it)], returning the position after the erased element. *)
Definition erase (c : list E) (it : iterator) : result (list E * iterator) :=
  match it with
  | End => Fault EraseEnd
  | It k =>
      match find c k with
      | None => Fault InvalidIter
      | Some _ => Ok (remove c k, after c k)
      end
  end.

(** [c.erase(first, last)] *)
Fixpoint erase_range (fuel : nat) (c : list E) (first last : iterator)
  : result (list E * iterator) :=
  if iter_eqb first last then Ok (c, last)
  else
    match fuel with
    | O => Fault OutOfFuel
    | S f =>
        '(c', next) <- erase c first ;;
        erase_range f c' next last
    end.

End Container.

(** *** [Cn::IpSet] *)

Definition IpSet : Type := list IpRange.

Definition set_key (r : IpRange) : IpRange := r.

(** The loop of [IpSet::Remove(const IpRange& range)]. *)
Fixpoint Remove_loop (fuel : nat) (m_set : IpSet) (iter : iterator) (range : IpRange)
  : result IpSet :=
  match fuel with
  | O => Fault OutOfFuel
  | S f =>
      if iter_eqb iter End then Ok m_set
      else
        cur <- deref set_key m_set iter ;;
        if HasOverlap cur range then
          let tmpRange := cur in
          let overlap := IpRange_default in
          '(m_set1, iter1) <- erase set_key m_set iter ;;
          let overlap := fst (CalcOverlap tmpRange overlap range) in
          '(m_set2, iter2) <-
             (if GetLowerBound tmpRange <=? addr_sub (GetLowerBound overlap) 1 then
                let '(s, i) := insert set_key m_set1 iter1
                                 (IpRange_make (GetLowerBound tmpRange)
                                               (addr_sub (GetLowerBound overlap) 1)) in
                i' <- incr set_key s i ;;
                Ok (s, i')
              else Ok (m_set1, iter1)) ;;
          let '(m_set3, iter3) :=
            if negb (iter_eqb iter2 End)
               && (addr_add (GetUpperBound overlap) 1 <=? GetUpperBound tmpRange)
            then insert set_key m_set2 iter2
                   (IpRange_make (GetLowerBound tmpRange)
                                 (addr_sub (GetLowerBound overlap) 1))
            else (m_set2, iter2) in
          Remove_loop f m_set3 iter3 range
        else
          iter' <- incr set_key m_set iter ;;
          Remove_loop f m_set iter' range
  end.

(** [void IpSet::Remove(const IpRange& range)] *)
Definition Remove (fuel : nat) (m_set : IpSet) (range : IpRange) : result IpSet :=
  Remove_loop fuel m_set (begin set_key m_set) range.

(** An address is a member of the set. *)
Definition set_mem (s : IpSet) (a : Z) : bool :=
  existsb (fun r => IsCompatible r a) s.

(** *** Colors and handles *)

(** Modelled from the spec: [Cn::SharedHandle<Color>], whose header
    (core/cn-sharedhandle.hpp) is not among the sources: a shared reference
    to a client color, possibly null.  The color itself is the
    [int m_color] of [class Color] (cn-ip-map.h), taken as an integer. *)
Definition Handle : Type := option Z.

(** [*h] *)
Definition handle_deref (h : Handle) : result Z :=
  match h with
  | Some c => Ok c
  | None => Fault NullHandle
  end.

(** [operator+ (Handle, Handle)]: [zret = new Color(handle1->m_color); *zret += handle2;] *)
Definition handle_add (h1 h2 : Handle) : result Handle :=
  a <- handle_deref h1 ;; b <- handle_deref h2 ;; Ok (Some (a + b)).

(** [operator- (Handle, Handle)] *)
Definition handle_sub (h1 h2 : Handle) : result Handle :=
  a <- handle_deref h1 ;; b <- handle_deref h2 ;; Ok (Some (a - b)).

(** [*(h1) == *(h2)], with [operator== (const Color&, const Color&)] *)
Definition color_eqb (h1 h2 : Handle) : result bool :=
  a <- handle_deref h1 ;; b <- handle_deref h2 ;; Ok (a =? b).

(** Equality of handles; the code only compares against the null handle
    of [Pair()]. *)
Definition handle_eqb (h1 h2 : Handle) : bool :=
  match h1, h2 with
  | Some a, Some b => a =? b
  | None, None => true
  | _, _ => false
  end.

(** *** [Cn::IpMap] *)

(** [typedef std::pair<IpRange, Handle> Pair;] *)
Definition Pair : Type := (IpRange * Handle)%type.

(** [Pair()] *)
Definition Pair_default : Pair := (IpRange_default, None).

Definition pair_eqb (a b : Pair) : bool :=
  range_eqb (fst a) (fst b) && handle_eqb (snd a) (snd b).

(** [typedef std::map<IpRange, Handle> Container;] *)
Definition Container : Type := list Pair.

Definition map_key (e : Pair) : IpRange := fst e.

(** The variables that the three phases of an operation share:
    [m_map], and the locals [pos], [mapUnit] (the parameter [tmpPair]) and
    [isLeftSpan] passed by reference. *)
Record phase : Type := Phase {
  m_map : Container;
  pos : iterator;
  tmpPair : Pair;
  isLeftSpan : bool
}.

(** [bool IpMap::InsertToMap(lowAddr, highAddr, color, spanMap, pos)] *)
Definition InsertToMap (lowAddr highAddr : Z) (color : Handle)
           (spanMap : Container) (pos : iterator) : Container * iterator * bool :=
  if lowAddr <=? highAddr then
    let '(m, p) := insert map_key spanMap pos (IpRange_make lowAddr highAddr, color) in
    (m, p, true)
  else (spanMap, pos, false).

(** [void IpMap::LeftSkew(Pair& tmpPair, iterator& pos, const IpRange& range)] *)
Definition LeftSkew (s : phase) (range : IpRange) : result phase :=
  tmp <- deref map_key (m_map s) (pos s) ;;
  '(m, p) <- erase map_key (m_map s) (pos s) ;;
  let '(m, p, insert) :=
    InsertToMap (GetLowerBound (fst tmp)) (addr_sub (GetLowerBound range) 1) (snd tmp) m p in
  p <- (if insert then incr map_key m p else Ok p) ;;
  Ok (Phase m p tmp (isLeftSpan s)).

(** [void IpMap::Pt_left(range, color, pos, tmpPair)] *)
Definition Pt_left (range : IpRange) (color : Handle) (s : phase) : result phase :=
  if iter_eqb (pos s) (begin map_key (m_map s)) then Ok s
  else
    p <- decr map_key (m_map s) (pos s) ;;
    e <- deref map_key (m_map s) p ;;
    if HasOverlap range (fst e)
    then LeftSkew (Phase (m_map s) p (tmpPair s) (isLeftSpan s)) range
    else
      p <- incr map_key (m_map s) p ;;
      Ok (Phase (m_map s) p (tmpPair s) (isLeftSpan s)).

(** [while( pos != m_map.end() && (pos->first).IsSubset(range) ) pos = m_map.erase(pos);] *)
Fixpoint Pt_middle_loop (fuel : nat) (range : IpRange) (m : Container) (p : iterator)
  : result (Container * iterator) :=
  match fuel with
  | O => Fault OutOfFuel
  | S f =>
      if iter_eqb p End then Ok (m, p)
      else
        e <- deref map_key m p ;;
        if IsSubset (fst e) range then
          '(m, p) <- erase map_key m p ;;
          Pt_middle_loop f range m p
        else Ok (m, p)
  end.

(** The test after the loop of every middle phase:
    [if( range.HasOverlap(pos->first) ) { tmpPair = *pos; isLeftSpan = false; }] *)
Definition right_overhang (range : IpRange) (s : phase) : result phase :=
  e <- deref map_key (m_map s) (pos s) ;;
  if HasOverlap range (fst e)
  then Ok (Phase (m_map s) (pos s) e false)
  else Ok s.

(** [void IpMap::Pt_middle(range, color, pos, tmpPair, isLeftSpan)] *)
Definition Pt_middle (range : IpRange) (color : Handle) (s : phase) : result phase :=
  '(m, p) <- Pt_middle_loop (S (length (m_map s))) range (m_map s) (pos s) ;;
  right_overhang range (Phase m p (tmpPair s) (isLeftSpan s)).

(** [void IpMap::Pt_right(range, color, pos, tmpPair, isLeftSpan)] *)
Definition Pt_right (range : IpRange) (color : Handle) (s : phase) : result phase :=
  if negb (pair_eqb (tmpPair s) Pair_default) then
    '(m, p) <- (if negb (isLeftSpan s) then erase map_key (m_map s) (pos s)
                else Ok (m_map s, pos s)) ;;
    let '(m, p) := insert map_key m p (range, color) in
    p <- incr map_key m p ;;
    let '(m, p, _) :=
      InsertToMap (addr_add (GetUpperBound range) 1) (GetUpperBound (fst (tmpPair s)))
                  (snd (tmpPair s)) m p in
    Ok (Phase m p (tmpPair s) (isLeftSpan s))
  else
    let '(m, _) := insert map_key (m_map s) (pos s) (range, color) in
    Ok (Phase m (pos s) (tmpPair s) (isLeftSpan s)).

(** [void IpMap::Upt_left(range, color, pos, tmpPair)] *)
Definition Upt_left (range : IpRange) (color : Handle) (s : phase) : result phase :=
  if iter_eqb (pos s) (begin map_key (m_map s)) then Ok s
  else
    p <- decr map_key (m_map s) (pos s) ;;
    e <- deref map_key (m_map s) p ;;
    same <- (if HasOverlap range (fst e) then color_eqb (snd e) color else Ok false) ;;
    if same
    then LeftSkew (Phase (m_map s) p (tmpPair s) (isLeftSpan s)) range
    else
      p <- incr map_key (m_map s) p ;;
      Ok (Phase (m_map s) p (tmpPair s) (isLeftSpan s)).

(** The loop of [Upt_middle]. *)
Fixpoint Upt_middle_loop (fuel : nat) (range : IpRange) (color : Handle)
         (m : Container) (p : iterator) : result (Container * iterator) :=
  match fuel with
  | O => Fault OutOfFuel
  | S f =>
      if iter_eqb p End then Ok (m, p)
      else
        e <- deref map_key m p ;;
        if IsSubset (fst e) range then
          same <- color_eqb (snd e) color ;;
          '(m, p) <- (if same then erase map_key m p
                      else p' <- incr map_key m p ;; Ok (m, p')) ;;
          Upt_middle_loop f range color m p
        else Ok (m, p)
  end.

(** [void IpMap::Upt_middle(range, color, pos, tmpPair, isLeftSpan)] *)
Definition Upt_middle (range : IpRange) (color : Handle) (s : phase) : result phase :=
  '(m, p) <- Upt_middle_loop (S (length (m_map s))) range color (m_map s) (pos s) ;;
  right_overhang range (Phase m p (tmpPair s) (isLeftSpan s)).

(** [void IpMap::Upt_right(range, color, pos, tmpPair, isLeftSpan)] *)
Definition Upt_right (range : IpRange) (color : Handle) (s : phase) : result phase :=
  if negb (pair_eqb (tmpPair s) Pair_default) then
    '(m, p) <- (if negb (isLeftSpan s) then erase map_key (m_map s) (pos s)
                else Ok (m_map s, pos s)) ;;
    p <- incr map_key m p ;;
    let '(m, p, _) :=
      InsertToMap (addr_add (GetUpperBound range) 1) (GetUpperBound (fst (tmpPair s)))
                  (snd (tmpPair s)) m p in
    Ok (Phase m p (tmpPair s) (isLeftSpan s))
  else Ok s.

(** [void IpMap::Bd_left(range, color, pos, tmpPair)] *)
Definition Bd_left (range : IpRange) (color : Handle) (s : phase) : result phase :=
  if iter_eqb (pos s) (begin map_key (m_map s)) then Ok s
  else
    p <- decr map_key (m_map s) (pos s) ;;
    e <- deref map_key (m_map s) p ;;
    if HasOverlap range (fst e) then
      s1 <- LeftSkew (Phase (m_map s) p (tmpPair s) (isLeftSpan s)) range ;;
      c <- handle_add (snd (tmpPair s1)) color ;;
      let '(m, p, _) :=
        InsertToMap (GetLowerBound range)
                    (Z.min (GetUpperBound range) (GetUpperBound (fst (tmpPair s1))))
                    c (m_map s1) (pos s1) in
      p <- incr map_key m p ;;
      Ok (Phase m p (tmpPair s1) (isLeftSpan s1))
    else
      p <- incr map_key (m_map s) p ;;
      Ok (Phase (m_map s) p (tmpPair s) (isLeftSpan s)).

(** The loop of [Bd_middle]; [lastPair] is carried along. *)
Fixpoint Bd_middle_loop (fuel : nat) (range : IpRange) (color : Handle)
         (m : Container) (p : iterator) (lastPair : Pair)
  : result (Container * iterator * Pair) :=
  match fuel with
  | O => Fault OutOfFuel
  | S f =>
      if iter_eqb p End then Ok (m, p, lastPair)
      else
        e <- deref map_key m p ;;
        if IsSubset (fst e) range then
          let '(m, p, insert) :=
            if pair_eqb lastPair Pair_default
            then InsertToMap (GetLowerBound range)
                             (addr_sub (GetLowerBound (fst e)) 1) color m p
            else InsertToMap (addr_add (GetUpperBound (fst lastPair)) 1)
                             (addr_sub (GetLowerBound (fst e)) 1) color m p in
          p <- (if insert then incr map_key m p else Ok p) ;;
          lastPair <- deref map_key m p ;;
          '(m, p) <- erase map_key m p ;;
          c <- handle_add (snd lastPair) color ;;
          let '(m, p, _) :=
            InsertToMap (GetLowerBound (fst lastPair)) (GetUpperBound (fst lastPair)) c m p in
          p <- incr map_key m p ;;
          Bd_middle_loop f range color m p lastPair
        else Ok (m, p, lastPair)
  end.

(** [void IpMap::Bd_middle(range, color, pos, tmpPair, isLeftSpan)] *)
Definition Bd_middle (range : IpRange) (color : Handle) (s : phase) : result phase :=
  '(m, p, lastPair) <-
     Bd_middle_loop (S (length (m_map s))) range color (m_map s) (pos s) (tmpPair s) ;;
  e <- deref map_key m p ;;
  if HasOverlap range (fst e) then
    let '(m', p') :=
      if negb (iter_eqb p (begin map_key m)) then
        let '(m', p', _) :=
          InsertToMap (addr_add (GetUpperBound (fst lastPair)) 1)
                      (addr_sub (GetLowerBound (fst e)) 1) color m p in
        (m', p')
      else (m, p) in
    Ok (Phase m' p' e false)
  else
    let '(m', p', _) :=
      InsertToMap (addr_add (GetUpperBound (fst lastPair)) 1) (GetUpperBound range)
                  color m p in
    Ok (Phase m' p' (tmpPair s) (isLeftSpan s)).

(** The body shared by [Bd_right] (with [operator+]) and [Ubd_right]
    (with [operator-]) when [tmpPair != Pair()]. *)
Definition blend_right (op : Handle -> Handle -> result Handle)
           (range : IpRange) (color : Handle) (s : phase) : result phase :=
  '(m, p) <-
     (if negb (isLeftSpan s) then
        '(m, p) <- erase map_key (m_map s) (pos s) ;;
        c <- op (snd (tmpPair s)) color ;;
        p <- incr map_key m p ;;
        let '(m, p, _) :=
          InsertToMap (GetLowerBound (fst (tmpPair s))) (GetUpperBound range) c m p in
        Ok (m, p)
      else Ok (m_map s, pos s)) ;;
  '(m, p) <-
     (if GetUpperBound range <? GetUpperBound (fst (tmpPair s)) then
        p <- incr map_key m p ;;
        let '(m, p, _) :=
          InsertToMap (addr_add (GetUpperBound range) 1) (GetUpperBound (fst (tmpPair s)))
                      (snd (tmpPair s)) m p in
        Ok (m, p)
      else Ok (m, p)) ;;
  Ok (Phase m p (tmpPair s) (isLeftSpan s)).

(** [void IpMap::Bd_right(range, color, pos, tmpPair, isLeftSpan)] *)
Definition Bd_right (range : IpRange) (color : Handle) (s : phase) : result phase :=
  if negb (pair_eqb (tmpPair s) Pair_default) then blend_right handle_add range color s
  else
    let '(m, _) := insert map_key (m_map s) (pos s) (range, color) in
    Ok (Phase m (pos s) (tmpPair s) (isLeftSpan s)).

(** [void IpMap::Ubd_left(range, color, pos, tmpPair)] *)
Definition Ubd_left (range : IpRange) (color : Handle) (s : phase) : result phase :=
  if iter_eqb (pos s) (begin map_key (m_map s)) then Ok s
  else
    p <- decr map_key (m_map s) (pos s) ;;
    e <- deref map_key (m_map s) p ;;
    if HasOverlap range (fst e) then
      s1 <- LeftSkew (Phase (m_map s) p (tmpPair s) (isLeftSpan s)) range ;;
      c <- handle_sub (snd (tmpPair s1)) color ;;
      let '(m, p, insert) :=
        InsertToMap (GetLowerBound range)
                    (Z.min (GetUpperBound range) (GetUpperBound (fst (tmpPair s1))))
                    c (m_map s1) (pos s1) in
      p <- (if insert then incr map_key m p else Ok p) ;;
      Ok (Phase m p (tmpPair s1) (isLeftSpan s1))
    else
      p <- incr map_key (m_map s) p ;;
      Ok (Phase (m_map s) p (tmpPair s) (isLeftSpan s)).

(** The loop of [Ubd_middle]. *)
Fixpoint Ubd_middle_loop (fuel : nat) (range : IpRange) (color : Handle)
         (m : Container) (p : iterator) : result (Container * iterator) :=
  match fuel with
  | O => Fault OutOfFuel
  | S f =>
      if iter_eqb p End then Ok (m, p)
      else
        e <- deref map_key m p ;;
        if IsSubset (fst e) range then
          let lastPair := e in
          '(m, p) <- erase map_key m p ;;
          c <- handle_sub (snd lastPair) color ;;
          let '(m, p, _) :=
            InsertToMap (GetLowerBound (fst lastPair)) (GetUpperBound (fst lastPair)) c m p in
          p <- incr map_key m p ;;
          Ubd_middle_loop f range color m p
        else Ok (m, p)
  end.

(** [void IpMap::Ubd_middle(range, color, pos, tmpPair, isLeftSpan)] *)
Definition Ubd_middle (range : IpRange) (color : Handle) (s : phase) : result phase :=
  '(m, p) <- Ubd_middle_loop (S (length (m_map s))) range color (m_map s) (pos s) ;;
  right_overhang range (Phase m p (tmpPair s) (isLeftSpan s)).

(** [void IpMap::Ubd_right(range, color, pos, tmpPair, isLeftSpan)] *)
Definition Ubd_right (range : IpRange) (color : Handle) (s : phase) : result phase :=
  if negb (pair_eqb (tmpPair s) Pair_default) then blend_right handle_sub range color s
  else Ok s.

(** The inner loop of [Coalesce]:
    [while (pos->first.GetUpperBound() == (next_pos->first).GetLowerBound() - 1
            && *(pos->second) == *(next_pos->second))
       { high = (next_pos->first).GetUpperBound(); pos = next_pos ++; }] *)
Fixpoint Coalesce_run (fuel : nat) (m : Container) (p next_pos : iterator) (high : Z)
  : result (iterator * iterator * Z) :=
  match fuel with
  | O => Fault OutOfFuel
  | S f =>
      e <- deref map_key m p ;;
      n <- deref map_key m next_pos ;;
      same <- (if GetUpperBound (fst e) =? addr_sub (GetLowerBound (fst n)) 1
               then color_eqb (snd e) (snd n) else Ok false) ;;
      if same then
        next' <- incr map_key m next_pos ;;
        Coalesce_run f m next_pos next' (GetUpperBound (fst n))
      else Ok (p, next_pos, high)
  end.

(** The outer loop of [Coalesce]. *)
Fixpoint Coalesce_loop (fuel : nat) (m : Container) (p next_pos : iterator) (high : Z)
  : result Container :=
  match fuel with
  | O => Fault OutOfFuel
  | S f =>
      if iter_eqb p End then Ok m
      else
        let begin_pos := p in
        b <- deref map_key m p ;;
        let low := GetLowerBound (fst b) in
        '(p, next_pos, high) <- Coalesce_run (S (length m)) m p next_pos high ;;
        m <- (if negb (iter_eqb begin_pos p) then
                e <- deref map_key m p ;;
                let tmpColor := snd e in
                _ <- incr map_key m p ;;
                '(m, tmp_pos) <- erase_range map_key (S (length m)) m begin_pos next_pos ;;
                let '(m, _) := insert map_key m tmp_pos (IpRange_make low high, tmpColor) in
                Ok m
              else Ok m) ;;
        next' <- incr map_key m next_pos ;;
        Coalesce_loop f m next_pos next' high
  end.

(** [void IpMap::Coalesce()] *)
Definition Coalesce (m : Container) : result Container :=
  let next_pos := begin map_key m in
  let p := next_pos in
  next_pos <- incr map_key m next_pos ;;
  Coalesce_loop (S (length m)) m p next_pos 0.

(** The common frame of the public operations:
    [iterator pos = m_map.lower_bound(range); bool isLeftSpan = true; Pair mapUnit;]
    followed by the three phases. *)
Definition three_phases (l m r : IpRange -> Handle -> phase -> result phase)
           (c : Container) (range : IpRange) (color : Handle) : result Container :=
  let s := Phase c (lower_bound map_key c range) Pair_default true in
  s <- l range color s ;;
  s <- m range color s ;;
  s <- r range color s ;;
  Ok (m_map s).

(** [void Paint(const IpRange& range, const Handle& color)] *)
Definition Paint (c : Container) (range : IpRange) (color : Handle) : result Container :=
  c <- three_phases Pt_left Pt_middle Pt_right c range color ;;
  Coalesce c.

(** [void Unpaint(const IpRange& range, const Handle& color)] *)
Definition Unpaint (c : Container) (range : IpRange) (color : Handle) : result Container :=
  three_phases Upt_left Upt_middle Upt_right c range color.

(** [void UnColor(const IpRange& range)], with [Handle color;] *)
Definition UnColor (c : Container) (range : IpRange) : result Container :=
  three_phases Pt_left Pt_middle Upt_right c range None.

(** [void Blend(const IpRange& range, const Handle& color)] *)
Definition Blend (c : Container) (range : IpRange) (color : Handle) : result Container :=
  c <- three_phases Bd_left Bd_middle Bd_right c range color ;;
  Coalesce c.

(** [void Unblend(const IpRange& range, const Handle& color)] *)
Definition Unblend (c : Container) (range : IpRange) (color : Handle) : result Container :=
  c <- three_phases Ubd_left Ubd_middle Ubd_right c range color ;;
  Coalesce c.

(** *** The paint-map invariants *)

(** Two segments have an address in common. *)
Definition segments_overlap (a b : Pair) : bool := HasOverlap (fst a) (fst b).

(** Neighbouring segments [a], [b]: [a] ends before [b] starts, and they
    do not touch with equal colors. *)
Definition neighbours_ok (a b : Pair) : bool :=
  (m_high (fst a) <? m_low (fst b))
  && negb ((m_high (fst a) + 1 =? m_low (fst b)) && handle_eqb (snd a) (snd b)).

(** Disjoint, ordered by lower bound, coalesced. *)
Fixpoint map_invariant (c : Container) : bool :=
  match c with
  | a :: ((b :: _) as t) =>
      (m_low (fst a) <=? m_high (fst a)) && neighbours_ok a b && map_invariant t
  | [a] => m_low (fst a) <=? m_high (fst a)
  | [] => true
  end.

(** Example colors. *)
Definition RED : Handle := Some 1.
Definition BLUE : Handle := Some 2.

End Cn.

(** ** The flowspace layer: [ngeo::flowspace::imp::node_base], [layer<METRIC,PAYLOAD>::node] *)

Module Flowspace.
Import Interval.

(** [typedef enum { RED, BLACK } color;] *)
Inductive color : Type := RED | BLACK.

(** [typedef enum { NONE, LEFT, RIGHT } direction;] *)
Inductive direction : Type := NONE | LEFT | RIGHT.

Definition color_eqb (a b : color) : bool :=
  match a, b with
  | RED, RED | BLACK, BLACK => true
  | _, _ => false
  end.

Definition direction_eqb (a b : direction) : bool :=
  match a, b with
  | NONE, NONE | LEFT, LEFT | RIGHT, RIGHT => true
  | _, _ => false
  end.

(** [direction flip(direction d)] *)
Definition flip (d : direction) : direction :=
  match d with
  | LEFT => RIGHT
  | RIGHT => LEFT
  | NONE => NONE
  end.

(** The interval is not empty. *)
Definition valid (i : interval) : Prop := _min i <= _max i.

(** Subsequences of a list of metrics. *)
Inductive subseq : list Z -> list Z -> Prop :=
| subseq_nil : subseq [] []
| subseq_skip a l1 l2 : subseq l1 l2 -> subseq l1 (a :: l2)
| subseq_keep a l1 l2 : subseq l1 l2 -> subseq (a :: l1) (a :: l2).

Section Tree.

(** The mapped type of the inner set: the client payload at the bottom
    layer, the nested layer at an upper layer. *)
Context {X : Type}.

(** The fields of [node_base] and [layer::node].  The children are the
    subtrees of [tree] below; [m_parent] is the enclosing node; [m_next]
    holds the metric of the next node in order (metrics identify the nodes
    of one tree).  [m_maxima] lists the inner set in key order. *)
Record node : Type := Node {
  m_color : color;
  m_metric : Z;
  m_maxima : list (Z * X);
  m_sti : interval;
  m_next : option Z
}.

(** A node handle is a subtree: [Nil] is the null handle, [T l n r] the
    node [n] with [m_left = l] and [m_right = r]. *)
Inductive tree : Type :=
| Nil
| T (l : tree) (n : node) (r : tree).

Definition set_color (c : color) (n : node) : node :=
  Node c (m_metric n) (m_maxima n) (m_sti n) (m_next n).
Definition set_maxima (m : list (Z * X)) (n : node) : node :=
  Node (m_color n) (m_metric n) m (m_sti n) (m_next n).
Definition set_sti (i : interval) (n : node) : node :=
  Node (m_color n) (m_metric n) (m_maxima n) i (m_next n).
Definition set_next (k : option Z) (n : node) : node :=
  Node (m_color n) (m_metric n) (m_maxima n) (m_sti n) k.

(** [handle get_child(direction d)] *)
Definition get_child (d : direction) (t : tree) : tree :=
  match t with
  | Nil => Nil
  | T l _ r =>
      match d with
      | RIGHT => r
      | LEFT => l
      | NONE => Nil
      end
  end.

(** The node [n] with the child [c] in direction [d] and [s] in the other. *)
Definition mk (d : direction) (c : tree) (n : node) (s : tree) : tree :=
  match d with
  | RIGHT => T s n c
  | _ => T c n s
  end.

(** [operator == (handle, color)]: a NIL node is BLACK. *)
Definition tree_color (t : tree) : color :=
  match t with
  | Nil => BLACK
  | T _ n _ => m_color n
  end.

Definition is_red (t : tree) : bool := color_eqb (tree_color t) RED.

Definition set_tree_color (c : color) (t : tree) : tree :=
  match t with
  | Nil => Nil
  | T l n r => T l (set_color c n) r
  end.

(** [interval_type local_interval() const]: [zret(m_metric, m_maxima.rbegin()->first)].
    The source asserts that the inner set is not empty. *)
Definition local_interval (n : node) : interval :=
  Interval.make (m_metric n) (last (map fst (m_maxima n)) (m_metric n)).

(** [m_sti |= c->tree_interval()] when the child [c] is there. *)
Definition extend (i : interval) (c : tree) : interval :=
  match c with
  | Nil => i
  | T _ n _ => Interval.hull i (m_sti n)
  end.

(** The value that [structure_fixup] stores in [m_sti]. *)
Definition fixup_value (l : tree) (n : node) (r : tree) : interval :=
  extend (extend (local_interval n) l) r.

(** [virtual void structure_fixup()] *)
Definition structure_fixup (t : tree) : tree :=
  match t with
  | Nil => Nil
  | T l n r => T l (set_sti (fixup_value l n r) n) r
  end.

(** [structure_fixup] on the child in direction [d]. *)
Definition fixup_child (d : direction) (t : tree) : tree :=
  match t with
  | Nil => Nil
  | T l n r =>
      match d with
      | LEFT => T (structure_fixup l) n r
      | RIGHT => T l n (structure_fixup r)
      | NONE => t
      end
  end.

(** [handle rotate(direction d)]: the child in the other direction becomes
    the root of the subtree, this node its child in direction [d]; then
    [child->structure_fixup(); this->structure_fixup();] in that order. *)
Definition rotate (d : direction) (t : tree) : tree :=
  match t with
  | Nil => Nil
  | T l n r =>
      match d, l, r with
      | LEFT, _, T cl cn cr => fixup_child LEFT (structure_fixup (T (T l n cl) cn cr))
      | RIGHT, T cl cn cr, _ => fixup_child RIGHT (structure_fixup (T cl cn (T cr n r)))
      | _, _, _ => t
      end
  end.

(** The way up from a node: for each ancestor, the direction of the way
    down, the ancestor and its other child. *)
Inductive frame : Type := F (d : direction) (n : node) (s : tree).

Definition path : Type := list frame.

(** The whole tree around the subtree [t]. *)
Fixpoint plug (t : tree) (p : path) : tree :=
  match p with
  | [] => t
  | F d n s :: p' => plug (mk d t n s) p'
  end.

(** The metrics of the nodes, in order. *)
Fixpoint keys (t : tree) : list Z :=
  match t with
  | Nil => []
  | T l n r => keys l ++ m_metric n :: keys r
  end.

Definition has_key (k : Z) (t : tree) : bool := existsb (Z.eqb k) (keys t).

(** [handle ripple_structure_fixup()] called on the node of metric [k]:
    [structure_fixup] on that node and on each of its ancestors, from the
    node up to the root. *)
Fixpoint ripple_structure_fixup (k : Z) (t : tree) : tree :=
  match t with
  | Nil => Nil
  | T l n r =>
      if has_key k l then structure_fixup (T (ripple_structure_fixup k l) n r)
      else if has_key k r then structure_fixup (T l n (ripple_structure_fixup k r))
      else if m_metric n =? k then structure_fixup t
      else t
  end.

(** The loop of [rebalance_after_insert] on the node [x] below [p]:
    [while (x && x->m_parent == RED)].  The result is the whole tree. *)
Fixpoint rebalance_insert_loop (x : tree) (p : path) : tree :=
  match p with
  | F dx pn sx :: F dp gn sg :: rest =>
      if color_eqb (m_color pn) RED then
        let child_dir := dp in
        let other_dir := flip child_dir in
        let y := sg in
        if is_red y then
          (* x->m_parent->m_color = BLACK; y->m_color = BLACK;
             x = x->m_parent->m_parent; x->m_color = RED; *)
          rebalance_insert_loop
            (mk dp (mk dx x (set_color BLACK pn) sx) (set_color RED gn) (set_tree_color BLACK y))
            rest
        else
          (* if (x->m_parent->get_child(other_dir) == x)
               { x = x->m_parent; x->rotate(child_dir); } *)
          let psub :=
            if direction_eqb dx other_dir
            then rotate child_dir (mk dx x pn sx)
            else mk dx x pn sx in
          (* x->m_parent->m_color = BLACK; x->m_parent->m_parent->m_color = RED;
             x->m_parent->m_parent->rotate(other_dir);
             the parent of x is BLACK now and the loop ends *)
          plug (rotate other_dir (mk dp (set_tree_color BLACK psub) (set_color RED gn) sg)) rest
      else plug x p
  | _ => plug x p
  end.

(** [handle rebalance_after_insert()] called on the node of metric [k]
    placed at [x] below [p]; then the ripple from that node, and
    [root->m_color = BLACK]. *)
Definition rebalance_after_insert (k : Z) (x : tree) (p : path) : tree :=
  set_tree_color BLACK (ripple_structure_fixup k (rebalance_insert_loop x p)).

(** [direction compare_metric(metric_type const& m)] *)
Definition compare_metric (n : node) (m : Z) : direction :=
  if m_metric n <? m then RIGHT
  else if m <? m_metric n then LEFT
  else NONE.

(** [node::search] with [compare_metric]: the node found or the node that
    would be the parent, the way up from it, and the direction. *)
Fixpoint search (m : Z) (t : tree) (p : path) : tree * path * direction :=
  match t with
  | Nil => (Nil, p, NONE)
  | T l n r =>
      match compare_metric n m with
      | RIGHT =>
          match r with
          | Nil => (t, p, RIGHT)
          | _ => search m r (F RIGHT n l :: p)
          end
      | LEFT =>
          match l with
          | Nil => (t, p, LEFT)
          | _ => search m l (F LEFT n r :: p)
          end
      | NONE => (t, p, NONE)
      end
  end.

(** [p->m_next = n] on the first ancestor [p] with [p->m_next == this]:
    [for ( p = m_parent ; p && p->m_next != this ; p = p->m_parent ) ;] *)
Fixpoint retarget_next (this new : Z) (p : path) : path :=
  match p with
  | [] => []
  | F d n s :: p' =>
      match m_next n with
      | Some k => if k =? this then F d (set_next (Some new) n) s :: p'
                  else F d n s :: retarget_next this new p'
      | None => F d n s :: retarget_next this new p'
      end
  end.

(** [handle insert_child(handle const& n, direction d)] on the node
    [T l this r] below [p], which has no child in direction [d]. *)
Definition insert_child (new : node) (d : direction) (l : tree) (this : node) (r : tree)
           (p : path) : tree :=
  match d with
  | RIGHT =>
      (* n->m_next = m_next; m_next = n.get(); *)
      let new' := set_next (m_next this) new in
      let this' := set_next (Some (m_metric new)) this in
      rebalance_after_insert (m_metric new) (T Nil new' Nil) (F RIGHT this' l :: p)
  | LEFT =>
      (* n->m_next = this; and the predecessor is redirected to n *)
      let new' := set_next (Some (m_metric this)) new in
      let p' := retarget_next (m_metric this) (m_metric new) p in
      rebalance_after_insert (m_metric new) (T Nil new' Nil) (F LEFT this r :: p')
  | NONE => plug (T l this r) p
  end.

(** [inner_insert]'s update of the cached hull:
    [m_sti = interval_type(std::min(m_sti.min(), v.first.head.min()),
                           std::max(m_sti.max(), v.first.head.max()))] *)
Definition widen (sti head : interval) : interval :=
  Interval.make (Z.min (_min sti) (_min head)) (Z.max (_max sti) (_max head)).

(** [node(value_type const& v)]: [m_metric(v.first.head.min()), m_sti(v.first.head)],
    then [inner_insert(v)]; [ins] is what the inserter does to the inner set. *)
Definition new_node (ins : list (Z * X) -> list (Z * X)) (head : interval) : node :=
  Node RED (_min head) (ins []) (widen head head) None.

(** [layer::insert] on the tree of one layer: [head] is [v.first.head]. *)
Definition tree_insert (ins : list (Z * X) -> list (Z * X)) (head : interval) (m_root : tree)
  : tree :=
  match m_root with
  | Nil => T Nil (set_color BLACK (new_node ins head)) Nil
  | T l n r =>
      match search (_min head) m_root [] with
      | (T xl xn xr, p, NONE) =>
          (* n->insert(v); n->ripple_structure_fixup(); *)
          let xn' := set_sti (widen (m_sti xn) head) (set_maxima (ins (m_maxima xn)) xn) in
          ripple_structure_fixup (m_metric xn) (plug (T xl xn' xr) p)
      | (T xl xn xr, p, d) => insert_child (new_node ins head) d xl xn xr p
      | (Nil, _, _) => m_root
      end
  end.

(** *** Removal *)

(** [m_next = k] on the rightmost node. *)
Fixpoint set_next_rightmost (k : option Z) (t : tree) : tree :=
  match t with
  | Nil => Nil
  | T l n Nil => T l (set_next k n) Nil
  | T l n r => T l n (set_next_rightmost k r)
  end.

(** [m_next = k] on the first ancestor that has this node on its right. *)
Fixpoint set_next_first_right (k : option Z) (p : path) : path :=
  match p with
  | [] => []
  | F RIGHT n s :: p' => F RIGHT (set_next k n) s :: p'
  | f :: p' => f :: set_next_first_right k p'
  end.

(** The leftmost node of the subtree, its right child, and the way up
    from it to the root of the subtree put before [p]. *)
Fixpoint leftmost (t : tree) (p : path) : option (node * tree * path) :=
  match t with
  | Nil => None
  | T Nil n r => Some (n, r, p)
  | T l n r => leftmost l (F LEFT n r :: p)
  end.

(** [n] put in the place of a node of color [c], without its own children
    ([replace_with]: [n->set_color(m_color); n->m_left = n->m_right = 0;]). *)
Definition as_leaf (c : color) (n : tree) : tree :=
  match n with
  | Nil => Nil
  | T _ nn _ => T Nil (set_color c nn) Nil
  end.

Definition root_key (t : tree) : option Z :=
  match t with
  | Nil => None
  | T _ n _ => Some (m_metric n)
  end.

(** The last two cases of the loop of [rebalance_after_remove], for the
    node [n] in direction [near] below [pn] with sibling [w]:
    [if (w->get_child(far) == BLACK) { w->get_child(near)->m_color = BLACK;
       w->m_color = RED; rotate(w, far); w = parent->get_child(far); }
     w->m_color = parent->m_color; parent->m_color = BLACK;
     w->get_child(far)->m_color = BLACK; rotate(parent, near);] *)
Definition remove_cases_3_4 (near : direction) (n : tree) (pn : node) (w : tree) : tree :=
  let far := flip near in
  let w1 :=
    if is_red (get_child far w) then w
    else
      match w with
      | Nil => Nil
      | T _ wn _ =>
          rotate far (mk near (set_tree_color BLACK (get_child near w))
                         (set_color RED wn) (get_child far w))
      end in
  match w1 with
  | Nil => Nil
  | T _ w1n _ =>
      rotate near
        (mk near n (set_color BLACK pn)
            (mk near (get_child near w1) (set_color (m_color pn) w1n)
                (set_tree_color BLACK (get_child far w1))))
  end.

Definition both_black (w : tree) : bool :=
  negb (is_red (get_child LEFT w)) && negb (is_red (get_child RIGHT w)).

(** The loop of [rebalance_after_remove] on the node [n] (the null handle
    for a leaf pseudo-node) below [p]: [while (parent)].  The sibling [w]
    must be there ([assert(w)] and [w->m_color]); otherwise [None]. *)
Fixpoint rebalance_remove_loop (n : tree) (p : path) : option tree :=
  match p with
  | [] => Some n
  | F d pn w :: rest =>
      if is_red n then
        (* n->set_color(BLACK); break; *)
        Some (plug (set_tree_color BLACK n) p)
      else
        (* direction near(LEFT), far(RIGHT); and the other way round when
           the node is the right child *)
        let near := match d with RIGHT => RIGHT | _ => LEFT end in
        match w with
        | Nil => None
        | T wl wn wr =>
            if color_eqb (m_color wn) RED then
              (* w->m_color = BLACK; parent->m_color = RED; rotate(parent, near);
                 w = parent->get_child(far); *)
              let top := rotate near (mk near n (set_color RED pn) (T wl (set_color BLACK wn) wr)) in
              match top, get_child near top with
              | T _ topn _, T _ pn2 _ =>
                  let far := flip near in
                  let w2 := get_child far (get_child near top) in
                  let rest2 := F near topn (get_child far top) :: rest in
                  match w2 with
                  | Nil => None
                  | T _ w2n _ =>
                      if both_black w2 then
                        (* w->m_color = RED; n = parent; and the next turn of the
                           loop finds n RED: n->set_color(BLACK); break; *)
                        Some (plug (set_tree_color BLACK
                                      (mk near n pn2 (set_tree_color RED w2))) rest2)
                      else Some (plug (remove_cases_3_4 near n pn2 w2) rest2)
                  end
              | _, _ => None
              end
            else if both_black w then
              (* w->m_color = RED; n = parent; parent = n->m_parent; d = NONE; *)
              rebalance_remove_loop (mk near n pn (set_tree_color RED w)) rest
            else Some (plug (remove_cases_3_4 near n pn w) rest)
        end
  end.

(** [handle rebalance_after_remove(color c, direction d)] called on the
    node of metric [k]; [n] below [p] is that node ([d == NONE]) or the
    leaf pseudo-node below it. *)
Definition rebalance_after_remove (k : Z) (c : color) (n : tree) (p : path) : option tree :=
  match (if color_eqb c BLACK then rebalance_remove_loop n p else Some (plug n p)) with
  | None => None
  | Some t => Some (ripple_structure_fixup k t)
  end.

(** The way from the leftmost node of the right subtree up to the root:
    the frames inside the right subtree, then the node that took the place
    of [this], then the way up from [this]. *)
Definition removal_path (ps : path) (sn : node) (l : tree) (p : path) : path :=
  ps ++ F RIGHT sn l :: p.

(** [handle remove()] on the node [T l this r] below [p]: the new root. *)
Definition remove (l : tree) (this : node) (r : tree) (p : path) : option tree :=
  (* prev_node = this->get_prev(); if (prev_node) prev_node->m_next = this->m_next; *)
  let l := match l with Nil => l | _ => set_next_rightmost (m_next this) l end in
  let p := match l with Nil => set_next_first_right (m_next this) p | _ => p end in
  match p, l, r with
  | [], Nil, _ => Some (set_tree_color BLACK r)
  | [], _, Nil => Some (set_tree_color BLACK l)
  | _, T _ _ _, T _ _ _ =>
      (* remove_node = m_next: the leftmost node of the right subtree *)
      match leftmost r [] with
      | None => None
      | Some (sn, sr, ps) =>
      if match m_next this with Some k => k =? m_metric sn | None => false end then
        let sn' := set_color (m_color this) sn in
        match sr with
        | T _ srn _ =>
            (* remove_node->replace_with(splice_node); this->replace_with(remove_node); *)
            option_map (set_tree_color BLACK)
              (rebalance_after_remove (m_metric srn) (m_color srn)
                 (as_leaf (m_color sn) sr) (removal_path ps sn' l p))
        | Nil =>
            (* splice_node = remove_node->m_parent, or remove_node when that is this *)
            let k := match ps with
                     | F _ pn _ :: _ => m_metric pn
                     | [] => m_metric sn
                     end in
            option_map (set_tree_color BLACK)
              (rebalance_after_remove k (m_color sn) Nil (removal_path ps sn' l p))
        end
      else None
      end
  | _, _, _ =>
      match (match l with Nil => r | _ => l end) with
      | T _ spn _ as splice =>
          option_map (set_tree_color BLACK)
            (rebalance_after_remove (m_metric spn) (m_color spn)
               (as_leaf (m_color this) splice) p)
      | Nil =>
          match p with
          | F _ pn _ :: _ =>
              option_map (set_tree_color BLACK)
                (rebalance_after_remove (m_metric pn) (m_color this) Nil p)
          | [] => Some Nil
          end
      end
  end.

(** *** The subtree hull invariant *)

(** The cached hull of [n] is what [structure_fixup] would store now. *)
Definition local_ok (l : tree) (n : node) (r : tree) : Prop :=
  m_sti n = fixup_value l n r.

(** The subtree hull invariant at every node of the tree. *)
Fixpoint hull_all (t : tree) : Prop :=
  match t with
  | Nil => True
  | T l n r => local_ok l n r /\ hull_all l /\ hull_all r
  end.

(** The invariant at every node that is not the node of metric [k] or one
    of its ancestors. *)
Fixpoint ok_off (k : Z) (t : tree) : Prop :=
  match t with
  | Nil => True
  | T l n r => (local_ok l n r \/ In k (keys t)) /\ ok_off k l /\ ok_off k r
  end.

(** No node of the path to the root is out of order with the siblings. *)
Definition siblings (P : tree -> Prop) (p : path) : Prop :=
  Forall (fun f => match f with F _ _ s => P s end) p.

(** The metrics before and after the subtree at the end of a path, in
    order: [keys (plug t p) = lefts p ++ keys t ++ rights p]. *)
Fixpoint lefts (p : path) : list Z :=
  match p with
  | [] => []
  | F RIGHT n s :: p' => lefts p' ++ keys s ++ [m_metric n]
  | F _ n s :: p' => lefts p'
  end.

Fixpoint rights (p : path) : list Z :=
  match p with
  | [] => []
  | F RIGHT n s :: p' => rights p'
  | F _ n s :: p' => m_metric n :: keys s ++ rights p'
  end.

(** The metrics of the tree are in strictly increasing order. *)
Definition ordered (t : tree) : Prop := StronglySorted Z.lt (keys t).

(** The cached hull of the root is not empty. *)
Definition sti_valid (t : tree) : Prop :=
  match t with
  | Nil => True
  | T _ n _ => valid (m_sti n)
  end.

(** What [search] finds in a tree that is in order. *)
Definition found (m : Z) (x : tree) (d : direction) : Prop :=
  match x with
  | Nil => False
  | T xl xn xr =>
      match d with
      | NONE => m_metric xn = m
      | LEFT => xl = Nil /\ m < m_metric xn
      | RIGHT => xr = Nil /\ m_metric xn < m
      end
  end.

(** The node of metric [k] is in [x] or is the parent of [x]. *)
Definition anchored (k : Z) (x : tree) (p : path) : Prop :=
  In k (keys x) \/ match p with
                   | F _ pn _ :: _ => m_metric pn = k
                   | [] => False
                   end.

(** *** Erasing through a cursor *)

(** The node that a handle refers to and the way up from it; handles are
    modelled by the metric of the node. *)
Fixpoint locate (k : Z) (t : tree) (p : path) : option (tree * path) :=
  match t with
  | Nil => None
  | T l n r =>
      if m_metric n =? k then Some (t, p)
      else match locate k l (F LEFT n r :: p) with
           | Some z => Some z
           | None => locate k r (F RIGHT n l :: p)
           end
  end.

(** [m_maxima.erase(spot)] for the iterator at position [i]. *)
Fixpoint erase_nth (i : nat) (c : list (Z * X)) : list (Z * X) :=
  match i, c with
  | _, [] => []
  | O, _ :: c' => c'
  | S j, e :: c' => e :: erase_nth j c'
  end.

(** The end of [cursor::erase] on the node [m_node] of metric [k] with
    [m_inner] at position [i], and of [layer::erase]:
    [m_node->erase(m_inner);
     if (m_node->is_empty()) { root = m_node->remove(); valid = true; }
     else { m_node->ripple_structure_fixup(); }] and [if (flag) m_root = r;].
    [None] where the handle refers to no node of the tree or [remove]
    fails. *)
Definition erase_inner (k : Z) (i : nat) (m_root : tree) : option tree :=
  match locate k m_root [] with
  | Some (T l n r, p) =>
      let n' := set_maxima (erase_nth i (m_maxima n)) n in
      match m_maxima n' with
      | [] => remove l n' r p
      | _ :: _ => Some (ripple_structure_fixup k (plug (T l n' r) p))
      end
  | _ => None
  end.

(** The mapped value at position [i] of the inner set replaced by [v]:
    what the erase in a lower layer does to this layer when the lower
    layer is not empty afterwards. *)
Fixpoint set_nth (i : nat) (v : X) (c : list (Z * X)) : list (Z * X) :=
  match i, c with
  | _, [] => []
  | O, (m, _) :: c' => (m, v) :: c'
  | S j, e :: c' => e :: set_nth j v c'
  end.

Definition set_inner (k : Z) (i : nat) (v : X) (m_root : tree) : option tree :=
  match locate k m_root [] with
  | Some (T l n r, p) => Some (plug (T l (set_maxima (set_nth i v (m_maxima n)) n) r) p)
  | _ => None
  end.

(** The inner set of the node of metric [k]. *)
Definition inner_of (k : Z) (m_root : tree) : option (list (Z * X)) :=
  match locate k m_root [] with
  | Some (T _ n _, _) => Some (m_maxima n)
  | _ => None
  end.

(** *** The states of a layer *)

(** The trees that [insert] and [erase] make from the empty layer.  [ins]
    is what the inner inserter does to the inner set: it puts
    [v.first.head.max()] into an empty one. *)
Inductive reachable : tree -> Prop :=
| reach_empty : reachable Nil
| reach_insert ins head t :
    reachable t -> map fst (ins []) = [_max head] -> reachable (tree_insert ins head t)
| reach_erase k i t t' :
    reachable t -> erase_inner k i t = Some t' -> reachable t'
| reach_set k i v t t' :
    reachable t -> set_inner k i v t = Some t' -> reachable t'.

End Tree.

Arguments node X : clear implicits.
Arguments tree X : clear implicits.
Arguments frame X : clear implicits.
Arguments path X : clear implicits.

(** *** Layers *)

(** [bottom_inner_tree_inserter]: [c.insert(value_type(v.first.head.max(), v.second))]
    on a [std::multimap], after the entries of the same key. *)
Fixpoint bottom_inner_tree_inserter {V : Type} (i_max : Z) (v : V) (c : list (Z * V))
  : list (Z * V) :=
  match c with
  | [] => [(i_max, v)]
  | (m, v') :: c' =>
      if i_max <? m then (i_max, v) :: c
      else (m, v') :: bottom_inner_tree_inserter i_max v c'
  end.

(** [upper_inner_tree_inserter]: [spot = c.find(i_max)], the entry
    [(i_max, PAYLOAD())] inserted when there is none, then
    [spot->second.insert(...)], which is [f]. *)
Fixpoint upper_inner_tree_inserter {V : Type} (i_max : Z) (empty : V) (f : V -> V)
         (c : list (Z * V)) : list (Z * V) :=
  match c with
  | [] => [(i_max, f empty)]
  | (m, v') :: c' =>
      if i_max <? m then (i_max, f empty) :: c
      else if i_max =? m then (m, f v') :: c'
      else (m, v') :: upper_inner_tree_inserter i_max empty f c'
  end.

Section Layers.

(** The client payload. *)
Context {P : Type}.

(** [layer<METRIC, PAYLOAD>]: the bottom layer maps to the client payload,
    an upper layer to the next lower layer.  A layer is its [m_root]. *)
Fixpoint layer (n : nat) : Type :=
  match n with
  | O => tree P
  | S k => tree (layer k)
  end.

(** [region]: the intervals of the dimensions, [head] first. *)
Fixpoint region (n : nat) : Type :=
  match n with
  | O => interval
  | S k => (interval * region k)%type
  end.

Definition head {n : nat} : region n -> interval :=
  match n with
  | O => fun r => r
  | S _ => fun r => fst r
  end.

(** [PAYLOAD()]: the empty layer. *)
Definition empty (n : nat) : layer n :=
  match n with
  | O => Nil
  | S _ => Nil
  end.

(** [bool is_empty() const { return !m_root; }] *)
Definition is_empty {n : nat} : layer n -> bool :=
  match n with
  | O => fun t => match t with Nil => true | _ => false end
  | S _ => fun t => match t with Nil => true | _ => false end
  end.

(** [bool insert(value_type const& v)] *)
Fixpoint insert (n : nat) : region n -> P -> layer n -> layer n :=
  match n with
  | O => fun r v m_root =>
      tree_insert (bottom_inner_tree_inserter (_max r) v) r m_root
  | S k => fun r v m_root =>
      tree_insert (upper_inner_tree_inserter (_max (fst r)) (empty k) (insert k (snd r) v))
                  (fst r) m_root
  end.

(** A cursor: [m_node] (no node for an invalid cursor), the position of
    [m_inner] in the inner set, and [m_lower] in an upper layer. *)
Fixpoint cursor (n : nat) : Type :=
  match n with
  | O => (option Z * nat)%type
  | S k => (option Z * nat * cursor k)%type
  end.

(** [void erase(cursor const& spot)]: nothing is done for a cursor that
    is not valid ([m_node && m_inner != m_node->end()]).  In an upper
    layer [erase_lower] comes first, and the inner entry is erased when
    the lower layer is empty afterwards. *)
Fixpoint erase (n : nat) : cursor n -> layer n -> option (layer n) :=
  match n with
  | O => fun spot m_root =>
      match spot with
      | (Some k, i) =>
          match inner_of k m_root with
          | Some c => if (i <? length c)%nat then erase_inner k i m_root else Some m_root
          | None => None
          end
      | (None, _) => Some m_root
      end
  | S j => fun spot m_root =>
      match spot with
      | (Some k, i, m_lower) =>
          match inner_of k m_root with
          | Some c =>
              match nth_error c i with
              | Some (_, lower) =>
                  match erase j m_lower lower with
                  | Some lower' =>
                      if is_empty lower' then erase_inner k i m_root
                      else set_inner k i lower' m_root
                  | None => None
                  end
              | None => Some m_root
              end
          | None => None
          end
      | (None, _, _) => Some m_root
      end
  end.

(** The states of a flowspace of [n + 1] dimensions: what [insert] and
    [erase] make from the empty one. *)
Inductive layer_reachable (n : nat) : layer n -> Prop :=
| lr_empty : layer_reachable n (empty n)
| lr_insert r v L : layer_reachable n L -> layer_reachable n (insert n r v L)
| lr_erase spot L L' :
    layer_reachable n L -> erase n spot L = Some L' -> layer_reachable n L'.

(** The subtree hull invariant of the tree of a layer. *)
Definition layer_hull {n : nat} : layer n -> Prop :=
  match n with
  | O => fun m_root => hull_all m_root
  | S _ => fun m_root => hull_all m_root
  end.

(** The tree of a layer is in a state that [tree_insert], [erase_inner]
    and [set_inner] make from the empty tree. *)
Definition layer_tree_reachable {n : nat} : layer n -> Prop :=
  match n with
  | O => fun m_root => reachable m_root
  | S _ => fun m_root => reachable m_root
  end.

End Layers.

Arguments layer P n : clear implicits.

(** A flowspace of two dimensions after three inserts and an erase. *)
Definition sample : option (layer nat 1) :=
  erase 1 (Some 10, 0%nat, (Some 3, 0%nat))
    (insert 1 (Interval.make 10 20, Interval.make 3 4) 7%nat
       (insert 1 (Interval.make 5 30, Interval.make 1 2) 8%nat
          (insert 1 (Interval.make 40 50, Interval.make 0 9) 9%nat (empty 1)))).

End Flowspace.

(** ** Region queries: [find_intersecting], the cursors and the iterator *)

Module Cursor.
Import Interval Flowspace.

Section Tree.
Context {X : Type}.

(** [bool intersects_local(interval_type const& intv)]: [intv ^ this->local_interval()] *)
Definition intersects_local (intv : interval) (n : node X) : bool :=
  has_intersection intv (local_interval n).

(** [bool intersects_tree(interval_type const& intv)]: [intv ^ m_sti] *)
Definition intersects_tree (intv : interval) (n : node X) : bool :=
  has_intersection intv (m_sti n).

(** The nodes of the tree, in order. *)
Fixpoint nodes (t : tree X) : list (node X) :=
  match t with
  | Nil => []
  | T l n r => nodes l ++ n :: nodes r
  end.

Definition size (t : tree X) : nat := length (nodes t).

(** The node that the handle of metric [k] refers to. *)
Definition node_of (k : Z) (m_root : tree X) : option (node X) :=
  match locate k m_root [] with
  | Some (T _ n _, _) => Some n
  | _ => None
  end.

(** The nodes before and after the subtree at the end of a path:
    [nodes (plug t p) = nlefts p ++ nodes t ++ nrights p]. *)
Fixpoint nlefts (p : path X) : list (node X) :=
  match p with
  | [] => []
  | F RIGHT n s :: p' => nlefts p' ++ nodes s ++ [n]
  | F _ n s :: p' => nlefts p'
  end.

Fixpoint nrights (p : path X) : list (node X) :=
  match p with
  | [] => []
  | F RIGHT n s :: p' => nrights p'
  | F _ n s :: p' => n :: nodes s ++ nrights p'
  end.

(** [m_next] of every node refers to the next node in order. *)
Fixpoint threaded (ns : list (node X)) : Prop :=
  match ns with
  | [] => True
  | n :: rest =>
      m_next n = match rest with
                 | [] => None
                 | n' :: _ => Some (m_metric n')
                 end
      /\ threaded rest
  end.

(** The inner set of a node is not empty, its keys are in order and none
    is below the metric of the node. *)
Definition inner_ok (n : node X) : Prop :=
  m_maxima n <> [] /\
  StronglySorted Z.le (map fst (m_maxima n)) /\
  Forall (fun e => m_metric n <= fst e) (m_maxima n).

(** The tree of a layer in a consistent state. *)
Definition well_formed (t : tree X) : Prop :=
  ordered t /\ hull_all t /\ threaded (nodes t) /\ Forall inner_ok (nodes t).

(** Interval [a] lies within interval [b]. *)
Definition within (a b : interval) : Prop := _min b <= _min a /\ _max a <= _max b.

(** The first node in order of the subtree whose local interval
    intersects [intv], as far as the cached hulls let one look. *)
Fixpoint first (intv : interval) (t : tree X) : option Z :=
  match t with
  | Nil => None
  | T l n r =>
      if intersects_local intv n then
        match first intv l with
        | Some k => Some k
        | None => Some (m_metric n)
        end
      else if intersects_tree intv n then
        match first intv l with
        | Some k => Some k
        | None => first intv r
        end
      else None
  end.

(** What is left to look at above a subtree where nothing was found. *)
Fixpoint up (intv : interval) (candidate : option Z) (p : path X) : option Z :=
  match p with
  | [] => candidate
  | F d pn s :: p' =>
      if match candidate with Some c => c =? m_metric pn | None => false end
      then candidate
      else
        match d, s with
        | RIGHT, _ => up intv candidate p'
        | _, Nil => up intv candidate p'
        | _, T _ _ _ =>
            match first intv s with
            | Some k => Some k
            | None => up intv candidate p'
            end
        end
  end.

(** The metrics of the ancestors, and a bound on the turns of the loop
    of [find_intersecting] that are left at a place in the tree. *)
Definition path_keys (p : path X) : list Z :=
  map (fun f => match f with F _ n _ => m_metric n end) p.

Fixpoint pcost (p : path X) : nat :=
  match p with
  | [] => O
  | F RIGHT _ _ :: p' => pcost p'
  | F _ _ s :: p' => (2 * size s + 1 + pcost p')%nat
  end.

(** The candidate, when there is one, is an ancestor. *)
Definition cand_ok (c : option Z) (p : path X) : Prop :=
  match c with
  | None => True
  | Some k => In k (path_keys p)
  end.

(** The handle of the first node of a list. *)
Definition head_key (B : list (node X)) : option Z :=
  match B with
  | [] => None
  | n :: _ => Some (m_metric n)
  end.

(** *** [find_intersecting] *)

(** How the backtracking loop ends: [return n;], or [n = rc; break;] with
    the right subtree to look at next, or a read through the null handle. *)
Inductive walk : Type :=
| Return (n : option Z)
| Onward (x : tree X) (p : path X)
| Lost.

(** The backtracking loop of [find_intersecting] from the node [child]:
    [while (n) { child = n; n = n->get_parent();
                 if (n == candidate) return n;
                 rc = n->get_right();
                 if (rc && child != rc) { n = rc; break; } }] *)
Fixpoint backtrack (candidate : option Z) (child : tree X) (p : path X) : walk :=
  match p with
  | [] =>
      match candidate with
      | None => Return None
      | Some _ => Lost
      end
  | F d pn s :: p' =>
      if match candidate with Some c => c =? m_metric pn | None => false end
      then Return candidate
      else
        match d, s with
        | RIGHT, _ => backtrack candidate (mk d child pn s) p'
        | _, Nil => backtrack candidate (mk d child pn s) p'
        | _, T _ _ _ => Onward s (F RIGHT pn child :: p')
        end
  end.

(** The loop of [find_intersecting] at the node [x] below [p]. *)
Fixpoint find_loop (fuel : nat) (intv : interval) (candidate : option Z)
         (x : tree X) (p : path X) : option (option Z) :=
  match fuel with
  | O => None
  | S fuel' =>
      match x with
      | Nil => Some candidate
      | T l n r =>
          if intersects_local intv n then
            (* candidate = n; n = n->get_left(); *)
            find_loop fuel' intv (Some (m_metric n)) l (F LEFT n r :: p)
          else if intersects_tree intv n then
            (* n = lc ? lc : n->get_right(); *)
            match l with
            | Nil => find_loop fuel' intv candidate r (F RIGHT n l :: p)
            | T _ _ _ => find_loop fuel' intv candidate l (F LEFT n r :: p)
            end
          else
            match backtrack candidate x p with
            | Return k => Some k
            | Onward x' p' => find_loop fuel' intv candidate x' p'
            | Lost => None
            end
      end
  end.

(** [typename node::handle find_intersecting(interval_type const& intv)];
    [None] for a read through the null handle. *)
Definition find_intersecting (intv : interval) (m_root : tree X) : option (option Z) :=
  find_loop (2 * size m_root + 1) intv None m_root [].

(** *** [cursor_base] *)

(** [m_maxima.lower_bound(m)]: the position of the first key not less than [m]. *)
Fixpoint lower_bound (m : Z) (c : list (Z * X)) : nat :=
  match c with
  | [] => O
  | (k, _) :: c' => if k <? m then S (lower_bound m c') else O
  end.

(** [bool is_valid() const { return m_node && m_inner != m_node->end(); }] *)
Definition is_valid (c : option Z * nat) (m_root : tree X) : bool :=
  match fst c with
  | Some k =>
      match node_of k m_root with
      | Some n => (snd c <? length (m_maxima n))%nat
      | None => false
      end
  | None => false
  end.

(** The rightmost descendant: [while (n = m_node->get_right()) m_node = n;] *)
Fixpoint rightmost (n : node X) (r : tree X) : node X :=
  match r with
  | Nil => n
  | T _ rn rr => rightmost rn rr
  end.

(** The loop of [scan] with [m_node] at the handle [m_node]:
    [while (m_node && !m_node->intersects_local(region.head))]. *)
Fixpoint scan_loop (fuel : nat) (head : interval) (m_node : option Z) (m_root : tree X)
  : option (option Z) :=
  match fuel with
  | O => None
  | S fuel' =>
      match m_node with
      | None => Some None
      | Some k =>
          match locate k m_root [] with
          | Some (T _ n r, _) =>
              if intersects_local head n then Some (Some k)
              else if _max head <? m_metric n then Some None
              else if intersects_tree head n then scan_loop fuel' head (m_next n) m_root
              else scan_loop fuel' head (m_next (rightmost n r)) m_root
          | _ => None
          end
      end
  end.

(** [bool scan(interval_cons const& region)]: the new [m_node] and
    [m_inner]; [None] where the source reads through a null or dangling
    handle ([assert(m_node)]). *)
Definition scan (head : interval) (c : option Z * nat) (m_root : tree X)
  : option (option Z * nat) :=
  match fst c with
  | None => None
  | Some k =>
      match node_of k m_root with
      | None => None
      | Some n =>
          match scan_loop (S (size m_root)) head (m_next n) m_root with
          | Some (Some k') =>
              match node_of k' m_root with
              | Some n' => Some (Some k', lower_bound (_min head) (m_maxima n'))
              | None => None
              end
          | Some None => Some (None, snd c)
          | None => None
          end
      end
  end.

(** [cursor_base(n)] and [fill_inner_cursor]: [m_inner = m_node->begin(region.head.min())] *)
Definition fill_inner_cursor (head : interval) (k : Z) (m_root : tree X)
  : option (option Z * nat) :=
  match node_of k m_root with
  | Some n => Some (Some k, lower_bound (_min head) (m_maxima n))
  | None => None
  end.

(** [load_client_data]: [location.head = interval_type(m_node->get_metric(), m_inner->first)]
    and the mapped value at [m_inner]. *)
Definition inner_at (c : option Z * nat) (m_root : tree X) : option (interval * X) :=
  match fst c with
  | Some k =>
      match node_of k m_root with
      | Some n =>
          match nth_error (m_maxima n) (snd c) with
          | Some (mx, v) => Some (Interval.make (m_metric n) mx, v)
          | None => None
          end
      | None => None
      end
  | None => None
  end.

(** *** [bottom_cursor_variant] *)

(** [validate_forward]: [if (this->is_valid() || this->scan(region))] *)
Definition bottom_validate_forward (head : interval) (c : option Z * nat) (m_root : tree X)
  : option (option Z * nat) :=
  if is_valid c m_root then Some c else scan head c m_root.

(** [make_cursor]: [cursor spot(this->find_intersecting(r.head), r, l, d)] *)
Definition bottom_make_cursor (head : interval) (m_root : tree X) : option (option Z * nat) :=
  match find_intersecting head m_root with
  | Some (Some k) =>
      match fill_inner_cursor head k m_root with
      | Some c => bottom_validate_forward head c m_root
      | None => None
      end
  | Some None => Some (None, O)
  | None => None
  end.

(** [next]: [if (this->is_valid()) { ++m_inner; validate_forward(...); }] *)
Definition bottom_next (head : interval) (c : option Z * nat) (m_root : tree X)
  : option (option Z * nat) :=
  if is_valid c m_root then bottom_validate_forward head (fst c, S (snd c)) m_root
  else Some c.

(** A bound on the turns of the loop of [validate_forward] of an upper
    cursor over these nodes: one for each inner entry and one for each node. *)
Definition turns (B : list (node X)) : nat :=
  fold_right (fun n a => (length (m_maxima n) + 1 + a)%nat) O B.

End Tree.

(** *** What a query finds in a layer *)

Section Matching.
Context {X E : Type}.

(** The elements under one entry of the inner set of a node. *)
Variable expand : node X -> Z * X -> list E.

(** The elements under a node that the query finds: those under the
    inner entries from [m_node->begin(head.min())] on, when the local
    interval intersects. *)
Definition node_matching (head : interval) (n : node X) : list E :=
  if intersects_local head n
  then flat_map (expand n) (skipn (lower_bound (_min head) (m_maxima n)) (m_maxima n))
  else [].

Definition tree_matching (head : interval) (m_root : tree X) : list E :=
  flat_map (node_matching head) (nodes m_root).

(** The elements after the inner entry at position [i] of the node [n],
    which has the nodes [B] after it. *)
Definition later (head : interval) (n : node X) (i : nat) (B : list (node X)) : list E :=
  flat_map (expand n) (skipn (S i) (m_maxima n)) ++ flat_map (node_matching head) B.

End Matching.

(** The element of a bottom layer under an inner entry, and the elements
    that a bottom cursor has before it. *)
Definition bottom_expand {X : Type} (n : node X) (e : Z * X) : list (interval * X) :=
  [(Interval.make (m_metric n) (fst e), snd e)].

Inductive bottom_at {X : Type} (head : interval) (m_root : tree X)
  : option Z * nat -> list (interval * X) -> Prop :=
| bottom_at_end i : bottom_at head m_root (None, i) []
| bottom_at_node A n B i e :
    nodes m_root = A ++ n :: B -> nth_error (m_maxima n) i = Some e ->
    bottom_at head m_root (Some (m_metric n), i)
              (bottom_expand n e ++ later bottom_expand head n i B).

(** *** [upper_cursor_variant] *)

Section Upper.

(** The next lower layer [PAYLOAD], its cursor, the tail of a region and
    the client payload. *)
Context {Lo C R P : Type}.

(** [PAYLOAD::make_cursor], [PAYLOAD::cursor::next], [is_valid], the
    dereference, and the default cursor. *)
Variable lo_make_cursor : R -> Lo -> option C.
Variable lo_next : R -> C -> Lo -> option C.
Variable lo_is_valid : C -> Lo -> bool.
Variable lo_deref : C -> Lo -> option (R * P).
Variable lo_default : C.

(** The lower layer [m_inner->second]. *)
Definition lower_of (c : option Z * nat) (m_root : tree Lo) : option Lo :=
  option_map snd (inner_at c m_root).

(** [m_lower.is_valid()]; a cursor that is left from an inner position
    that is gone is not valid. *)
Definition lower_is_valid (c : option Z * nat * C) (m_root : tree Lo) : bool :=
  match lower_of (fst c) m_root with
  | Some lo => lo_is_valid (snd c) lo
  | None => false
  end.

(** [fill_lower_cursor]: [m_lower = util::make_lower_cursor(m_inner->second, r, location, data)] *)
Definition fill_lower_cursor (tail : R) (c : option Z * nat) (m_root : tree Lo)
  : option (option Z * nat * C) :=
  match lower_of c m_root with
  | Some lo =>
      match lo_make_cursor tail lo with
      | Some lc => Some (c, lc)
      | None => None
      end
  | None => None
  end.

(** The loop of [validate_forward]: [while (m_node && !m_lower.is_valid())] *)
Fixpoint upper_validate_loop (fuel : nat) (head : interval) (tail : R)
         (c : option Z * nat * C) (m_root : tree Lo) : option (option Z * nat * C) :=
  match fuel with
  | O => None
  | S fuel' =>
      match fst (fst c) with
      | None => Some c
      | Some _ =>
          if lower_is_valid c m_root then Some c
          else if is_valid (fst c) m_root then
            (* ++m_inner; should_do_fill = this->is_valid(); *)
            let b := (fst (fst c), S (snd (fst c))) in
            if is_valid b m_root then
              match fill_lower_cursor tail b m_root with
              | Some c' => upper_validate_loop fuel' head tail c' m_root
              | None => None
              end
            else upper_validate_loop fuel' head tail (b, snd c) m_root
          else
            (* should_do_fill = this->scan(region); *)
            match scan head (fst c) m_root with
            | Some (Some k, i) =>
                match fill_lower_cursor tail (Some k, i) m_root with
                | Some c' => upper_validate_loop fuel' head tail c' m_root
                | None => None
                end
            | Some (None, i) => upper_validate_loop fuel' head tail ((None, i), snd c) m_root
            | None => None
            end
      end
  end.

Definition upper_validate_forward (head : interval) (tail : R)
           (c : option Z * nat * C) (m_root : tree Lo) : option (option Z * nat * C) :=
  upper_validate_loop (turns (nodes m_root) + 2) head tail c m_root.

(** [make_cursor] in an upper layer: [fill_inner_cursor] fills
    [m_lower] when this layer is valid, then [validate_forward]. *)
Definition upper_make_cursor (head : interval) (tail : R) (m_root : tree Lo)
  : option (option Z * nat * C) :=
  match find_intersecting head m_root with
  | Some (Some k) =>
      match fill_inner_cursor head k m_root with
      | Some b =>
          if is_valid b m_root then
            match fill_lower_cursor tail b m_root with
            | Some c => upper_validate_forward head tail c m_root
            | None => None
            end
          else upper_validate_forward head tail (b, lo_default) m_root
      | None => None
      end
  | Some None => Some ((None, O), lo_default)
  | None => None
  end.

(** [next]: [if (this->is_valid()) { m_lower.next(region.tail, location.tail, data);
                                     this->validate_forward(region, location, data); }] *)
Definition upper_next (head : interval) (tail : R) (c : option Z * nat * C)
           (m_root : tree Lo) : option (option Z * nat * C) :=
  if is_valid (fst c) m_root then
    match lower_of (fst c) m_root with
    | Some lo =>
        match lo_next tail (snd c) lo with
        | Some lc => upper_validate_forward head tail (fst c, lc) m_root
        | None => None
        end
    | None => None
    end
  else Some c.

(** The element that the cursor refers to: the region of this layer put
    before the one of the lower layers. *)
Definition upper_deref (c : option Z * nat * C) (m_root : tree Lo)
  : option ((interval * R) * P) :=
  match inner_at (fst c) m_root with
  | Some (i, lo) =>
      match lo_deref (snd c) lo with
      | Some (r, v) => Some ((i, r), v)
      | None => None
      end
  | None => None
  end.

(** The elements that a query finds in a lower layer, and the elements
    that a lower cursor has before it. *)
Variable lo_matching : R -> Lo -> list (R * P).
Variable lo_at : R -> Lo -> C -> list (R * P) -> Prop.

Definition prefix (n : node Lo) (e : Z * Lo) (x : R * P) : (interval * R) * P :=
  ((Interval.make (m_metric n) (fst e), fst x), snd x).

Definition upper_expand (tail : R) (n : node Lo) (e : Z * Lo) : list ((interval * R) * P) :=
  map (prefix n e) (lo_matching tail (snd e)).

Inductive upper_at (head : interval) (tail : R) (m_root : tree Lo)
  : option Z * nat * C -> list ((interval * R) * P) -> Prop :=
| upper_at_end i lc : upper_at head tail m_root ((None, i), lc) []
| upper_at_node A n B i e lc les :
    nodes m_root = A ++ n :: B -> nth_error (m_maxima n) i = Some e ->
    lo_at tail (snd e) lc les -> les <> [] ->
    upper_at head tail m_root ((Some (m_metric n), i), lc)
             (map (prefix n e) les ++ later (upper_expand tail) head n i B).

End Upper.

(** *** The cursor and the iterator of a flowspace *)

Section Layers.
Context {P : Type}.

(** [cursor()]: the cursor that refers to nothing. *)
Fixpoint default_cursor (n : nat) : cursor n :=
  match n with
  | O => (None, O)
  | S k => ((None, O), default_cursor k)
  end.

Definition cursor_is_valid (n : nat) : cursor n -> layer P n -> bool :=
  match n with
  | O => fun c m_root => is_valid c m_root
  | S k => fun c m_root => is_valid (fst c) m_root
  end.

(** [cursor make_cursor(interval_cons const& r, ...)] *)
Fixpoint make_cursor (n : nat) : region n -> layer P n -> option (cursor n) :=
  match n with
  | O => fun r m_root => bottom_make_cursor r m_root
  | S k => fun r m_root =>
      upper_make_cursor (make_cursor k) (cursor_is_valid k) (default_cursor k)
                        (fst r) (snd r) m_root
  end.

(** [m_cursor.next(m_region, r, m_ptr)] *)
Fixpoint next (n : nat) : region n -> cursor n -> layer P n -> option (cursor n) :=
  match n with
  | O => fun r c m_root => bottom_next r c m_root
  | S k => fun r c m_root =>
      upper_next (make_cursor k) (next k) (cursor_is_valid k) (fst r) (snd r) c m_root
  end.

(** [operator *]: the stored region and the payload that the cursor
    refers to. *)
Fixpoint deref (n : nat) : cursor n -> layer P n -> option (region n * P) :=
  match n with
  | O => fun c m_root => inner_at c m_root
  | S k => fun c m_root => upper_deref (deref k) c m_root
  end.

(** [it == end()]: [m_cursor == rhs.m_cursor] with the default cursor,
    which is [!m_node]. *)
Definition at_end {n : nat} : cursor n -> bool :=
  match n with
  | O => fun c => match fst c with None => true | Some _ => false end
  | S _ => fun c => match fst (fst c) with None => true | Some _ => false end
  end.

(** The stored elements, in the order of the nodes, of the inner sets and
    of the lower layers. *)
Fixpoint all_entries (n : nat) : layer P n -> list (region n * P) :=
  match n with
  | O => fun m_root =>
      flat_map (fun nd => flat_map (bottom_expand nd) (m_maxima nd)) (nodes m_root)
  | S k => fun m_root =>
      flat_map (fun nd =>
                  flat_map (fun e => map (prefix nd e) (all_entries k (snd e))) (m_maxima nd))
               (nodes m_root)
  end.

(** The elements that [for (i = begin(q); i != end(); ++i)] visits. *)
Fixpoint iterate_loop (fuel : nat) (n : nat) (q : region n) (c : cursor n) (m_root : layer P n)
  : option (list (region n * P)) :=
  match fuel with
  | O => None
  | S fuel' =>
      if at_end c then Some []
      else
        match deref n c m_root, next n q c m_root with
        | Some e, Some c' =>
            match iterate_loop fuel' n q c' m_root with
            | Some es => Some (e :: es)
            | None => None
            end
        | _, _ => None
        end
  end.

(** [iterator begin(region const& r)] and the loop up to [end()]. *)
Definition visit (n : nat) (q : region n) (m_root : layer P n) : option (list (region n * P)) :=
  match make_cursor n q m_root with
  | Some c => iterate_loop (S (length (all_entries n m_root))) n q c m_root
  | None => None
  end.

(** The regions intersect in every dimension. *)
Fixpoint region_intersects (n : nat) : region n -> region n -> bool :=
  match n with
  | O => fun q r => has_intersection q r
  | S k => fun q r => has_intersection (fst q) (fst r) && region_intersects k (snd q) (snd r)
  end.

(** The elements that the query [q] finds in a flowspace. *)
Fixpoint matching (n : nat) : region n -> layer P n -> list (region n * P) :=
  match n with
  | O => fun q m_root => tree_matching bottom_expand q m_root
  | S k => fun q m_root =>
      tree_matching (upper_expand (matching k) (snd q)) (fst q) m_root
  end.

(** The cursor has these elements before it. *)
Fixpoint stands_at (n : nat) : region n -> layer P n -> cursor n -> list (region n * P) -> Prop :=
  match n with
  | O => fun q m_root c es => bottom_at q m_root c es
  | S k => fun q m_root c es =>
      upper_at (matching k) (stands_at k) (fst q) (snd q) m_root c es
  end.

(** A flowspace in a consistent state, through the layers; the inner set
    of an upper layer is a [std::map], with one entry for a key. *)
Fixpoint layer_wf (n : nat) : layer P n -> Prop :=
  match n with
  | O => fun m_root => well_formed m_root
  | S k => fun m_root =>
      well_formed m_root /\
      Forall (fun nd => Forall (fun e => layer_wf k (snd e)) (m_maxima nd)) (nodes m_root) /\
      Forall (fun nd => StronglySorted Z.lt (map fst (m_maxima nd))) (nodes m_root)
  end.

(** The order of the intervals by minimum, then maximum, and the
    lexicographic order of the regions through the dimensions. *)
Definition interval_lt (a b : interval) : Prop :=
  _min a < _min b \/ (_min a = _min b /\ _max a < _max b).

Fixpoint region_le (n : nat) : region n -> region n -> Prop :=
  match n with
  | O => fun a b => interval_lt a b \/ a = b
  | S k => fun a b =>
      interval_lt (fst a) (fst b) \/ (fst a = fst b /\ region_le k (snd a) (snd b))
  end.

(** [imp::is_valid]: no interval of the region is empty. *)
Fixpoint region_valid (n : nat) : region n -> Prop :=
  match n with
  | O => fun r => valid r
  | S k => fun r => valid (fst r) /\ region_valid k (snd r)
  end.

End Layers.

(** A query in two dimensions. *)
Definition sample_query : region 1 := (Interval.make 8 45, Interval.make 2 3).

End Cursor.

(** ** What the nodes hold, apart from colors and cached hulls *)

Module Views.
Import Interval Flowspace Cursor.

Section Tree.
Context {X : Type}.

(** The values of [f] on the nodes, in order. *)
Fixpoint proj {A : Type} (f : node X -> A) (t : tree X) : list A :=
  match t with
  | Nil => []
  | T l n r => proj f l ++ f n :: proj f r
  end.

(** [f] does not look at the color or at the cached hull. *)
Definition stable {A : Type} (f : node X -> A) : Prop :=
  (forall c n, f (set_color c n) = f n) /\ (forall i n, f (set_sti i n) = f n).

(** The metric, the inner set and the link to the next node. *)
Definition view (n : node X) : Z * list (Z * X) * option Z :=
  (m_metric n, m_maxima n, m_next n).

(** The metric and the inner set. *)
Definition content (n : node X) : Z * list (Z * X) := (m_metric n, m_maxima n).

(** The values of [f] on the nodes before and after the end of a path. *)
Fixpoint plefts {A : Type} (f : node X -> A) (p : path X) : list A :=
  match p with
  | [] => []
  | F RIGHT n s :: p' => plefts f p' ++ proj f s ++ [f n]
  | F _ n s :: p' => plefts f p'
  end.

Fixpoint prights {A : Type} (f : node X -> A) (p : path X) : list A :=
  match p with
  | [] => []
  | F RIGHT n s :: p' => prights f p'
  | F _ n s :: p' => f n :: proj f s ++ prights f p'
  end.

(** A property of the metric and the inner set of a node. *)
Definition node_inv (R : Z -> list (Z * X) -> Prop) (n : node X) : Prop :=
  R (m_metric n) (m_maxima n).

(** [m_next] of the last node of the list set to [k]. *)
Fixpoint set_last_next (k : option Z) (ns : list (node X)) : list (node X) :=
  match ns with
  | [] => []
  | [n] => [set_next k n]
  | n :: rest => n :: set_last_next k rest
  end.

End Tree.

(** The flowspace that holds the elements of the list, the last one
    inserted first. *)
Definition build {P : Type} (n : nat) (elems : list (region n * P)) : layer P n :=
  fold_right (fun e m_root => insert n (fst e) (snd e) m_root) (empty n) elems.

(** Three elements in two dimensions. *)
Definition sample_elems : list (region 1 * nat) :=
  [((Interval.make 10 20, Interval.make 3 4), 7%nat);
   ((Interval.make 5 30, Interval.make 1 2), 8%nat);
   ((Interval.make 40 50, Interval.make 0 9), 9%nat)].

End Views.

(** ** The red-black conditions *)

Module Balance.
Import Interval Flowspace Cursor Views.

Section Tree.
Context {X : Type}.

(** A red node has black children, and every way down from the root of the
    subtree to a null handle passes [h] black nodes. *)
Fixpoint balanced (t : tree X) (h : nat) : Prop :=
  match t with
  | Nil => h = O
  | T l n r =>
      match m_color n with
      | RED => tree_color l = BLACK /\ tree_color r = BLACK /\ balanced l h /\ balanced r h
      | BLACK =>
          match h with
          | O => False
          | S h' => balanced l h' /\ balanced r h'
          end
      end
  end.

(** The root is black and the tree is balanced. *)
Definition red_black (t : tree X) : Prop :=
  tree_color t = BLACK /\ exists h, balanced t h.

(** The node at the end of the path has a parent, which is black. *)
Definition parent_black (p : path X) : Prop :=
  match p with
  | [] => False
  | F _ n _ :: _ => m_color n = BLACK
  end.

(** The red-black conditions around the end of a path, where a subtree
    with [h] black nodes on every way down belongs; [H] is the number for
    the whole tree. *)
Fixpoint pbal (p : path X) (h H : nat) : Prop :=
  match p with
  | [] => h = H
  | F d n s :: p' =>
      d <> NONE /\ balanced s h /\
      match m_color n with
      | RED => tree_color s = BLACK /\ parent_black p' /\ pbal p' h H
      | BLACK => pbal p' (S h) H
      end
  end.

(** Every step of the path is to the left or to the right. *)
Definition dirs_ok (p : path X) : Prop :=
  Forall (fun f => match f with F d _ _ => d <> NONE end) p.

(** The node [n] at the end of a path, after a black node was taken from
    its ways down: it is black with [h] black nodes on every way down, or
    it is red (and is made black by [rebalance_after_remove]). *)
Definition hole_ok (n : tree X) (h : nat) : Prop :=
  (tree_color n = BLACK /\ balanced n h) \/
  (tree_color n = RED /\ balanced (set_tree_color BLACK n) (S h)).

(** [bool structure_validate()]: the cached hull against the metric, the
    last key of the inner set and the cached hulls of the children. *)
Definition structure_validate (t : tree X) : bool :=
  match t with
  | Nil => true
  | T l n r =>
      let max_value := m_metric n in
      let min_value := m_metric n in
      let max_value :=
        match m_maxima n with
        | [] => max_value
        | _ :: _ => Z.max max_value (last (map fst (m_maxima n)) max_value)
        end in
      let min_value :=
        match l with
        | Nil => min_value
        | T _ ln _ => Z.min min_value (_min (m_sti ln))
        end in
      let max_value :=
        match l with
        | Nil => max_value
        | T _ ln _ => Z.max max_value (_max (m_sti ln))
        end in
      let max_value :=
        match r with
        | Nil => max_value
        | T _ rn _ => Z.max max_value (_max (m_sti rn))
        end in
      negb (negb (_min (m_sti n) =? min_value) || negb (_max (m_sti n) =? max_value))
  end.

(** [int node_base::validate()]: the number of black nodes on the ways
    down plus one, or [0] for a tree that is not valid.  A missing child
    counts [1], and the right child is not looked at when the left one is
    not valid. *)
Fixpoint validate (t : tree X) : Z :=
  match t with
  | Nil => 1
  | T l n r =>
      let black_ht1 := validate l in
      let black_ht2 := if 0 <? black_ht1 then validate r else 1 in
      let black_ht :=
        if black_ht1 =? black_ht2 then
          if color_eqb (m_color n) BLACK then black_ht1 + 1
          else if is_red l then 0
          else if is_red r then 0
          else black_ht1
        else 0 in
      if (0 <? black_ht) && negb (structure_validate t) then 0 else black_ht
  end.

End Tree.

(** [bool layer::validate() { return !m_root || m_root->validate(); }] *)
Definition layer_validate {P : Type} {n : nat} : layer P n -> bool :=
  match n with
  | O => fun m_root => match m_root with Nil => true | _ => negb (validate m_root =? 0) end
  | S _ => fun m_root => match m_root with Nil => true | _ => negb (validate m_root =? 0) end
  end.

(** The red-black conditions in the tree of every layer of a flowspace. *)
Fixpoint layer_red_black {P : Type} (n : nat) : layer P n -> Prop :=
  match n with
  | O => fun m_root => red_black m_root
  | S k => fun m_root =>
      red_black m_root /\
      Forall (fun nd => Forall (fun e => layer_red_black k (snd e)) (m_maxima nd))
             (nodes m_root)
  end.

End Balance.

(** ** Exact lookup: [layer::find] *)

Module Exact.
Import Interval Flowspace Cursor.

Section Tree.
Context {X : Type}.

(** [local_iterator find(interval_type const& intv)]: the node with the
    minimum of [intv] as metric and the position [n->begin(intv.max())]
    in its inner set when the key there is the maximum of [intv]; nothing
    for the default [local_iterator]. *)
Definition find_local (intv : interval) (m_root : tree X) : option (Z * nat) :=
  match m_root with
  | Nil => None
  | T _ _ _ =>
      match search (_min intv) m_root [] with
      | (T _ n _, _, NONE) =>
          let ii := lower_bound (_max intv) (m_maxima n) in
          match nth_error (m_maxima n) ii with
          | Some (mx, _) => if mx =? _max intv then Some (m_metric n, ii) else None
          | None => None
          end
      | _ => None
      end
  end.

End Tree.

Section Bottom.
Context {P : Type}.

(** [operator ==] of the client payload. *)
Variable payload_eqb : P -> P -> bool.

(** The loop of [bottom_cursor_variant::fill_exact] from position [i],
    where [rest] is the inner set from there on:
    [for ( ; is_valid() && m_inner->first == r.head.max() ; ++m_inner )
       if (m_inner->second == p) return;] *)
Fixpoint fill_exact_loop (mx : Z) (p : P) (rest : list (Z * P)) (i : nat) : option nat :=
  match rest with
  | [] => None
  | (k, v) :: rest' =>
      if k =? mx then
        if payload_eqb v p then Some i else fill_exact_loop mx p rest' (S i)
      else None
  end.

(** The exact region constructor of the cursor in the bottom layer:
    [m_inner = spot.m_spot; fill_exact(r, p, location, data);], with
    [invalidate()] when the loop finds nothing. *)
Definition bottom_cursor_exact (spot : option (Z * nat)) (r : interval) (p : P)
           (m_root : tree P) : option Z * nat :=
  match spot with
  | None => (None, O)
  | Some (k, i) =>
      match node_of k m_root with
      | Some n =>
          match fill_exact_loop (_max r) p (skipn i (m_maxima n)) i with
          | Some j => (Some k, j)
          | None => (None, O)
          end
      | None => (None, O)
      end
  end.

End Bottom.

Section Upper.
Context {Lo C R P : Type}.

(** [PAYLOAD::make_cursor_exact], [PAYLOAD::cursor::is_valid] and the
    default cursor of the next lower layer. *)
Variable lo_make_cursor_exact : R -> P -> Lo -> C.
Variable lo_is_valid : C -> Lo -> bool.
Variable lo_default : C.

(** The exact region constructor of the cursor in an upper layer, with
    [upper_cursor_variant::fill_exact]: the lower cursor is made in the
    lower layer [m_inner->second], and this layer is invalidated when the
    lower cursor is not valid. *)
Definition upper_cursor_exact (spot : option (Z * nat)) (tail : R) (p : P)
           (m_root : tree Lo) : option Z * nat * C :=
  match spot with
  | None => ((None, O), lo_default)
  | Some (k, i) =>
      if is_valid (Some k, i) m_root then
        match lower_of (Some k, i) m_root with
        | Some lo =>
            let m_lower := lo_make_cursor_exact tail p lo in
            if lo_is_valid m_lower lo then ((Some k, i), m_lower)
            else ((None, O), m_lower)
        | None => ((Some k, i), lo_default)
        end
      else ((Some k, i), lo_default)
  end.

End Upper.

Section Layers.
Context {P : Type}.
Variable payload_eqb : P -> P -> bool.

(** [cursor make_cursor_exact(key_type const& r, mapped_type const& p, ...)]:
    [cursor spot(this->find(r.head), r, p, location, data)] *)
Fixpoint make_cursor_exact (n : nat) : region n -> P -> layer P n -> cursor n :=
  match n with
  | O => fun r p m_root => bottom_cursor_exact payload_eqb (find_local r m_root) r p m_root
  | S k => fun r p m_root =>
      upper_cursor_exact (make_cursor_exact k) (cursor_is_valid k) (default_cursor k)
                         (find_local (fst r) m_root) (snd r) p m_root
  end.

(** [iterator find(value_type const& v)]: the cursor of
    [iterator(this->find(v.first.head), v)]. *)
Definition find (n : nat) (v : region n * P) (m_root : layer P n) : cursor n :=
  make_cursor_exact n (fst v) (snd v) m_root.

End Layers.

End Exact.

(** ** The whole flowspace: [layer::all] and [layer::begin()] *)

Module Extent.
Import Interval Flowspace Cursor.

Section Bounds.
(** [extrema_functor::min()] and [extrema_functor::max()] of the metric. *)
Variables MINv MAXv : Z.

(** [imp::maximize_region(r)]: [r.head = H::all()] in every dimension;
    [static key_type all()] of the layer returns this region. *)
Fixpoint maximize_region (n : nat) : region n :=
  match n with
  | O => Interval.all MINv MAXv
  | S k => (Interval.all MINv MAXv, maximize_region k)
  end.

(** [iterator begin() { return this->begin(this->all()); }] and the
    iteration up to [end()]. *)
Definition visit_all {P : Type} (n : nat) (m_root : layer P n)
  : option (list (region n * P)) :=
  visit n (maximize_region n) m_root.

(** The bounds of the region are values of the metric type. *)
Fixpoint in_bounds (n : nat) : region n -> Prop :=
  match n with
  | O => fun r => MINv <= _min r /\ _max r <= MAXv
  | S k => fun r => (MINv <= _min (fst r) /\ _max (fst r) <= MAXv) /\ in_bounds k (snd r)
  end.

End Bounds.

End Extent.

(** ** Relations between intervals (include/ngeo/interval.hpp) *)

Module IntervalRelations.
Import Interval.

(** [bool is_adjacent_to(self const& that) const]:
    [if (_max < that._min) { T x(_max); return ++x == that._min; }
     else if (that._max < _min) { T x(that._max); return ++x == _min; }
     return false;]
    The value that is incremented is below another value of the metric, so
    [++x] does not leave the metric. *)
Definition is_adjacent_to (this that : interval) : bool :=
  if _max this <? _min that then _max this + 1 =? _min that
  else if _max that <? _min this then _max that + 1 =? _min this
  else false.

(** [bool has_union(self const& that) const] *)
Definition has_union (this that : interval) : bool :=
  has_intersection this that || is_adjacent_to this that.

(** [bool is_superset_of(self const& that) const] *)
Definition is_superset_of (this that : interval) : bool :=
  (_min this <=? _min that) && (_max that <=? _max this).

(** [bool is_subset_of(self const& that) const] *)
Definition is_subset_of (this that : interval) : bool := is_superset_of that this.

(** [bool is_strict_superset_of(self const& that) const] *)
Definition is_strict_superset_of (this that : interval) : bool :=
  ((_min this <? _min that) && (_max that <=? _max this))
  || ((_min this <=? _min that) && (_max that <? _max this)).

(** [bool is_strict_subset_of(self const& that) const] *)
Definition is_strict_subset_of (this that : interval) : bool :=
  is_strict_superset_of that this.

(** [operator <], [operator <=], [operator >] and [operator >=]: the
    containment ordering. *)
Definition lt (lhs rhs : interval) : bool := is_strict_superset_of rhs lhs.
Definition le (lhs rhs : interval) : bool := is_superset_of rhs lhs.
Definition gt (lhs rhs : interval) : bool := is_strict_superset_of lhs rhs.
Definition ge (lhs rhs : interval) : bool := is_superset_of lhs rhs.

(** [interval_types::relation] *)
Inductive relation : Type :=
| NONE | EQUAL | SUBSET | SUPERSET | OVERLAP | ADJACENT | ADJACENT_OVERLAP.

Definition relation_eqb (a b : relation) : bool :=
  match a, b with
  | NONE, NONE | EQUAL, EQUAL | SUBSET, SUBSET | SUPERSET, SUPERSET
  | OVERLAP, OVERLAP | ADJACENT, ADJACENT | ADJACENT_OVERLAP, ADJACENT_OVERLAP => true
  | _, _ => false
  end.

(** [relation relationship(self const& that) const] *)
Definition relationship (this that : interval) : relation :=
  if has_intersection this that then
    if eqb this that then EQUAL
    else if is_subset_of this that then SUBSET
    else if is_superset_of this that then SUPERSET
    else OVERLAP
  else if is_adjacent_to this that then ADJACENT
  else NONE.

(** [bool is_singleton() const] *)
Definition is_singleton (i : interval) : bool := _min i =? _max i.

(** [lexicographic_order::operator ()] *)
Definition lexicographic_order (lhs rhs : interval) : bool :=
  if _min lhs =? _min rhs then _max lhs <? _max rhs else _min lhs <? _min rhs.

(** [detail::calc_region_functor]: [_relation] after [operator ()] on the
    intervals [r1] and [r2] of one dimension. *)
Definition calc_region_step (_relation : relation) (r1 r2 : interval) : relation :=
  if negb (relation_eqb _relation NONE) then
    let layerm_relationship := relationship r1 r2 in
    if relation_eqb layerm_relationship NONE then layerm_relationship
    else if negb (relation_eqb layerm_relationship EQUAL) then
      if relation_eqb _relation EQUAL then layerm_relationship
      else if relation_eqb _relation ADJACENT || relation_eqb layerm_relationship ADJACENT
      then NONE
      else if negb (relation_eqb layerm_relationship _relation) then OVERLAP
      else _relation
    else _relation
  else _relation.

(** [calc_tuple_helper::calc_tuples] with a [calc_region_functor]: the
    functor, constructed with [_relation(EQUAL)], is applied to the pairs of
    intervals of the two regions, one dimension after the other. *)
Definition calc_region (dims : list (interval * interval)) : relation :=
  fold_left (fun acc d => calc_region_step acc (fst d) (snd d)) dims EQUAL.

(** [bool calc_region_functor::overlaps() const] *)
Definition overlaps (_relation : relation) : bool :=
  negb (relation_eqb _relation NONE) && negb (relation_eqb _relation ADJACENT).

(** The value [x] is in the interval. *)
Definition member (x : Z) (i : interval) : Prop := _min i <= x <= _max i.

End IntervalRelations.

(** ** Masks, networks and ranges (include/ngeo/ip_base.hpp, src/ip_base.cpp) *)

Module Ip4Nets.
Import Interval Ip4.

(** [static const host_type ZERO_MSB = ~(host_type(1) << (WIDTH-1));] *)
Definition ZERO_MSB : Z := MAX32 - 2 ^ (WIDTH - 1).

(** The loop of [ip4_addr::msb_count]:
    [while (zret < WIDTH && (((m & _addr) != 0) == set))
       { ++zret; m >>= 1; m &= ZERO_MSB; }] *)
Fixpoint msb_count_loop (n : nat) (set : bool) (addr m zret : Z) : Z :=
  match n with
  | O => zret
  | S n' =>
      if (zret <? WIDTH) && Bool.eqb (negb (Z.land m addr =? 0)) set
      then msb_count_loop n' set addr (Z.land (Z.shiftr m 1) ZERO_MSB) (zret + 1)
      else zret
  end.

(** [int ip4_addr::msb_count(bool set) const], with [m = ~ZERO_MSB] at the start. *)
Definition msb_count (addr : Z) (set : bool) : Z :=
  msb_count_loop 32 set addr (MAX32 - ZERO_MSB) 0.

(** [explicit ip4_mask(ip4_addr const& a) : _count(a.msb_count(true))] *)
Definition mask_of_addr (a : Z) : Z := msb_count a true.

(** [static ip4_mask cover(ip4_addr const& a)]:
    [ip4_mask(WIDTH - a.lsb_count(false))] *)
Definition cover_mask (a : Z) : Z := bounded_count (WIDTH - lsb_count a false).

(** [bool ip4_net::is_empty() const] *)
Definition net_is_empty (n : ip4_net) : bool :=
  (m_mask n =? 0) && negb (m_addr n =? MIN).

(** [bool ip4_net::is_strict_subset_of(ip4_net const& that) const] *)
Definition is_strict_subset_of (this that : ip4_net) : bool :=
  (addr_and_mask (m_addr this) (m_mask that) =? m_addr that) && (m_mask that <? m_mask this).

(** [bool ip4_net::is_subset_of(ip4_net const& that) const] *)
Definition is_subset_of (this that : ip4_net) : bool :=
  (addr_and_mask (m_addr this) (m_mask that) =? m_addr that) && (m_mask that <=? m_mask this).

(** [bool ip4_net::is_superset_of(self const& that) const] *)
Definition is_superset_of (this that : ip4_net) : bool := is_subset_of that this.

(** [bool ip4_net::has_intersection(ip4_net const& that) const]:
    [ip4_mask m(std::min(m_mask, that.m_mask));
     return (m_addr & m) == (that.m_addr & m);] *)
Definition has_intersection (this that : ip4_net) : bool :=
  let m := Z.min (m_mask this) (m_mask that) in
  addr_and_mask (m_addr this) m =? addr_and_mask (m_addr that) m.

(** [bool ip4_range::is_network() const]; [1 << size_k] is [2 ^ size_k]
    as an unsigned value for [size_k] below [32]. *)
Definition is_network (r : ip4_range) : bool :=
  if negb (op_not r) then
    let size := wrap32 (_max r - _min r + 1) in
    let size_k := lsb_count size false in
    if (size_k =? 32) || (size =? wrap32 (Z.shiftl 1 size_k))
    then size_k <=? lsb_count (_min r) false
    else false
  else false.

End Ip4Nets.

(** ** Unions of [Cn::IpRange] and [IpSet::Contains] *)

Module CnRanges.
Import Cn.

(** [IsAdjacentTo(other)]: [m_high + 1 == other.m_low || other.m_high + 1 == m_low],
    with the addition of [IpAddr], which wraps. *)
Definition IsAdjacentTo (this other : IpRange) : bool :=
  (addr_add (m_high this) 1 =? m_low other) || (addr_add (m_high other) 1 =? m_low this).

(** [HasUnion(src)]: [HasOverlap(src) || IsAdjacentTo(src)] *)
Definition HasUnion (this src : IpRange) : bool :=
  HasOverlap this src || IsAdjacentTo this src.

(** [CalcUnion(out, src)]: writes the bounds of [out] when the ranges
    have a union. *)
Definition CalcUnion (this out src : IpRange) : IpRange * bool :=
  if HasUnion this src
  then (Range (Z.min (m_low src) (m_low this)) (Z.max (m_high this) (m_high src)), true)
  else (out, false).

(** *** [IpSet::Contains] *)

(** The loop of [IpSet::Contains(const IpRange& range)]:
    [while( iter != end() && !range.IsSubset( *iter ) ) ++iter;] *)
Fixpoint Contains_loop (fuel : nat) (m_set : IpSet) (iter : iterator) (range : IpRange)
  : result iterator :=
  match fuel with
  | O => Fault OutOfFuel
  | S f =>
      if iter_eqb iter End then Ok iter
      else
        cur <- deref set_key m_set iter ;;
        if negb (IsSubset range cur) then
          iter' <- incr set_key m_set iter ;;
          Contains_loop f m_set iter' range
        else Ok iter
  end.

(** [bool IpSet::Contains(const IpRange& range)]:
    [if(iter == end()) return false; else return true;] *)
Definition Contains (fuel : nat) (m_set : IpSet) (range : IpRange) : result bool :=
  iter <- Contains_loop fuel m_set (begin set_key m_set) range ;;
  Ok (if iter_eqb iter End then false else true).

End CnRanges.

(* ===================================================================== *)
(** * Theorems                                                            *)
(* ===================================================================== *)

Module IntervalFacts.
Import Interval.

Lemma make_sorted x1 x2 : _min (make x1 x2) <= _max (make x1 x2).
Proof. unfold make; simpl; lia. Qed.

(** The two-argument constructor never produces an empty interval, so
    neither does [intersection]. *)
Lemma intersection_never_empty a b : is_empty (intersection a b) = false.
Proof.
  unfold is_empty, intersection.
  apply Z.ltb_ge, make_sorted.
Qed.

(** C9 (as evaluated on the code): for the disjoint non-empty intervals
    [0..1] and [3..4], [has_intersection] is false but
    [intersection(...).is_empty()] is false as well: the result is the
    sorted pair [1..3]. *)
Lemma C9_intersection_disjoint_not_empty :
  let a := make 0 1 in
  let b := make 3 4 in
  is_empty a = false /\ is_empty b = false /\
  has_intersection a b = false /\
  intersection a b = make 1 3 /\
  is_empty (intersection a b) = false.
Proof. repeat split. Qed.

(** C9, the claim as stated fails: it is not the case that for all
    non-empty [a], [b] the intersection is empty exactly when
    [has_intersection] is false. *)
Lemma C9_counterexample :
  ~ (forall a b, is_empty a = false -> is_empty b = false ->
       (is_empty (intersection a b) = true <-> has_intersection a b = false)).
Proof.
  intro H.
  specialize (H (make 0 1) (make 3 4) eq_refl eq_refl).
  destruct H as [_ H]. specialize (H eq_refl). discriminate H.
Qed.

End IntervalFacts.

Module Ip4Facts.
Import Interval Ip4.

(** *** Bit-level facts about masks *)

Lemma land_pow2_zero z a :
  0 <= z -> (Z.land (2 ^ z) a = 0 <-> Z.testbit a z = false).
Proof.
  intros Hz; split; intros H.
  - assert (E : Z.testbit (Z.land (2 ^ z) a) z = false)
      by (rewrite H; apply Z.bits_0).
    rewrite Z.land_spec, Z.pow2_bits_true in E by assumption. exact E.
  - apply Z.bits_inj'; intros n Hn.
    rewrite Z.land_spec, Z.bits_0, Z.pow2_bits_eqb by assumption.
    destruct (Z.eqb_spec z n) as [->|]; simpl; auto.
Qed.

Lemma mod_pow2_succ a z :
  0 <= z -> a mod 2 ^ (z + 1) = a mod 2 ^ z + 2 ^ z * Z.b2z (Z.testbit a z).
Proof.
  intros Hz. rewrite Z.pow_add_r, Z.pow_1_r by lia.
  rewrite Z.rem_mul_r by lia.
  rewrite Z.testbit_spec' by assumption. reflexivity.
Qed.

Lemma wrap32_small z : 0 <= z < two32 -> wrap32 z = z.
Proof. intros H; unfold wrap32; apply Z.mod_small; exact H. Qed.

Lemma pow2_lt_two32 z : 0 <= z < 32 -> 0 < 2 ^ z < two32.
Proof.
  intros H; unfold two32; split.
  - apply Z.pow_pos_nonneg; lia.
  - apply Z.pow_lt_mono_r; lia.
Qed.

Lemma lsb_count_loop_spec n : forall z a,
  Z.of_nat n = 32 - z -> 0 <= z ->
  a mod 2 ^ z = 0 ->
  let w := lsb_count_loop n false a (wrap32 (2 ^ z)) z in
  z <= w <= 32 /\ a mod 2 ^ w = 0 /\ (w < 32 -> a mod 2 ^ (w + 1) <> 0).
Proof.
  induction n as [|n IH]; intros z a Hn Hz Hmod; cbn [lsb_count_loop].
  - repeat split; try lia; auto.
  - assert (Hz32 : z < 32) by lia.
    unfold WIDTH. replace (z <? 32) with true by (symmetry; apply Z.ltb_lt; lia).
    rewrite (wrap32_small (2 ^ z)) by (pose proof (pow2_lt_two32 z); lia).
    cbn [andb].
    destruct (Z.eqb_spec (Z.land (2 ^ z) a) 0) as [E|E]; cbn [negb Bool.eqb].
    + apply land_pow2_zero in E; [|assumption].
      rewrite Z.shiftl_mul_pow2, Z.pow_1_r by lia.
      replace (2 ^ z * 2) with (2 ^ (z + 1))
        by (rewrite Z.pow_add_r, Z.pow_1_r by lia; reflexivity).
      assert (Hm : a mod 2 ^ (z + 1) = 0).
      { rewrite mod_pow2_succ, Hmod, E by assumption. simpl. lia. }
      destruct (IH (z + 1) a ltac:(lia) ltac:(lia) Hm) as (H1 & H2 & H3).
      repeat split; try lia; auto.
    + repeat split; try lia; auto.
      intros _ Hc.
      assert (Hb : Z.testbit a z = false).
      { rewrite mod_pow2_succ, Hmod in Hc by assumption.
        destruct (Z.testbit a z); simpl in Hc; auto.
        pose proof (pow2_lt_two32 z). lia. }
      apply land_pow2_zero in Hb; auto.
Qed.

Lemma lsb_count_spec a :
  let w := lsb_count a false in
  0 <= w <= 32 /\ a mod 2 ^ w = 0 /\ (w < 32 -> a mod 2 ^ (w + 1) <> 0).
Proof.
  unfold lsb_count.
  pose proof (lsb_count_loop_spec 32 0 a eq_refl (Z.le_refl 0) (Z.mod_1_r a)) as H.
  change (wrap32 (2 ^ 0)) with 1 in H. exact H.
Qed.

Lemma mask_host_order_eq c :
  0 <= c <= 32 -> mask_host_order c = two32 - 2 ^ (32 - c).
Proof.
  intros Hc. unfold mask_host_order.
  destruct (Z.eqb_spec c 0) as [->|Hne].
  - reflexivity.
  - unfold WIDTH, wrap32, MAX32.
    rewrite Z.shiftl_mul_pow2 by lia.
    assert (Hp : 0 < 2 ^ (32 - c) < two32) by (apply pow2_lt_two32; lia).
    replace ((two32 - 1) * 2 ^ (32 - c))
      with ((two32 - 2 ^ (32 - c)) + (2 ^ (32 - c) - 1) * two32) by ring.
    rewrite Z.mod_add by (unfold two32; lia).
    apply Z.mod_small. lia.
Qed.

(** [addr & mask] clears the low [32 - c] bits of a 32-bit address. *)
Lemma addr_and_mask_eq a c :
  0 <= a < two32 -> 0 <= c <= 32 ->
  addr_and_mask a c = a - a mod 2 ^ (32 - c).
Proof.
  intros Ha Hc. unfold addr_and_mask.
  rewrite mask_host_order_eq by assumption.
  set (k := 32 - c). assert (Hk : 0 <= k <= 32) by (unfold k; lia).
  assert (E : two32 - 2 ^ k = Z.ldiff (Z.ones 32) (Z.ones k)).
  { rewrite <- Z.sub_nocarry_ldiff.
    - rewrite !Z.ones_equiv. unfold two32. lia.
    - apply Z.bits_inj'; intros n Hn.
      rewrite Z.ldiff_spec, Z.bits_0, !Z.testbit_ones_nonneg by lia.
      destruct (Z.ltb_spec n k), (Z.ltb_spec n 32); simpl; auto; lia. }
  rewrite E.
  assert (E2 : Z.land (Z.ldiff (Z.ones 32) (Z.ones k)) a = Z.ldiff a (Z.ones k)).
  { apply Z.bits_inj'; intros n Hn.
    rewrite Z.land_spec, !Z.ldiff_spec, Z.testbit_ones_nonneg by lia.
    destruct (Z.ltb_spec n 32); simpl.
    - rewrite andb_comm. reflexivity.
    - replace (Z.testbit a n) with false; [reflexivity|].
      symmetry. apply Z.bits_above_log2; [lia|].
      destruct (Z.eq_dec a 0) as [->|]; [simpl; lia|].
      apply Z.log2_lt_pow2; [lia|].
      apply Z.lt_le_trans with (2 ^ 32); [unfold two32 in Ha; lia|].
      apply Z.pow_le_mono_r; lia. }
  rewrite E2, Z.ldiff_ones_r by lia.
  rewrite Z.shiftl_mul_pow2, Z.shiftr_div_pow2 by lia.
  pose proof (Z.div_mod a (2 ^ k)) as D.
  assert (0 < 2 ^ k) by (apply Z.pow_pos_nonneg; lia). lia.
Qed.

(** *** Networks as address ranges *)

Lemma pow2_pos k : 0 <= k -> 0 < 2 ^ k.
Proof. intros; apply Z.pow_pos_nonneg; lia. Qed.

Lemma cidr_aligned n : is_cidr n -> m_addr n mod 2 ^ (32 - m_mask n) = 0.
Proof.
  intros (Hm & Ha & E). unfold net_make in E.
  destruct n as [a c]; cbn [m_addr m_mask] in *. injection E as E.
  rewrite addr_and_mask_eq in E; [lia | unfold is_addr, MAX32 in Ha; lia | lia].
Qed.

Lemma max_addr_eq a c :
  0 <= c <= 32 -> 0 <= a -> a mod 2 ^ (32 - c) = 0 ->
  max_addr (Net a c) = a + 2 ^ (32 - c) - 1.
Proof.
  intros Hc Ha Hal. unfold max_addr, mask_compl; cbn [m_addr m_mask].
  rewrite mask_host_order_eq by assumption.
  replace (MAX32 - (two32 - 2 ^ (32 - c))) with (Z.ones (32 - c))
    by (rewrite Z.ones_equiv; unfold MAX32; lia).
  assert (L : Z.land a (Z.ones (32 - c)) = 0)
    by (rewrite Z.land_ones by lia; assumption).
  rewrite <- Z.lxor_lor, <- Z.add_nocarry_lxor by assumption.
  rewrite Z.ones_equiv. lia.
Qed.

Lemma cidr_max_addr n :
  is_cidr n -> max_addr n = m_addr n + 2 ^ (32 - m_mask n) - 1.
Proof.
  intros H. pose proof (cidr_aligned n H) as Hal.
  destruct H as (Hm & Ha & _). destruct n as [a c]; cbn [m_addr m_mask] in *.
  apply max_addr_eq; auto. unfold is_addr in Ha; lia.
Qed.

Lemma net_make_aligned a c :
  0 <= a < two32 -> 0 <= c <= 32 -> a mod 2 ^ (32 - c) = 0 ->
  net_make a c = Net a c.
Proof.
  intros Ha Hc Hal. unfold net_make.
  rewrite addr_and_mask_eq by assumption. f_equal. lia.
Qed.

Lemma is_cidr_intro a c :
  0 <= a < two32 -> 0 <= c <= 32 -> a mod 2 ^ (32 - c) = 0 ->
  is_cidr (Net a c).
Proof.
  intros Ha Hc Hal. repeat split; cbn [m_addr m_mask]; try lia.
  - unfold MAX32; lia.
  - apply net_make_aligned; assumption.
Qed.

Lemma contains_iff n a :
  is_cidr n -> is_addr a ->
  (contains n a = true <-> m_addr n <= a <= max_addr n).
Proof.
  intros Hn Ha. rewrite cidr_max_addr by assumption.
  pose proof (cidr_aligned n Hn) as Hal.
  destruct Hn as (Hm & Hb & _). destruct n as [b c]; cbn [m_addr m_mask] in *.
  unfold contains; cbn [m_addr m_mask]. unfold is_addr, MAX32 in *.
  rewrite addr_and_mask_eq by lia.
  set (k := 32 - c) in *.
  assert (Hp : 0 < 2 ^ k) by (apply pow2_pos; unfold k; lia).
  pose proof (Z.mod_pos_bound a (2 ^ k) Hp) as Hr.
  rewrite Z.eqb_eq. split.
  - intros E. lia.
  - intros H.
    apply Z.mod_divide in Hal; [|lia]. destruct Hal as [q Hq].
    assert (E : a mod 2 ^ k = a - b).
    { replace a with ((a - b) + q * 2 ^ k) at 1 by lia.
      rewrite Z.mod_add by lia. apply Z.mod_small. lia. }
    lia.
Qed.

(** *** The shrinking loop of [extract_next_network] *)

Lemma shrink_loop_spec rmin rmax c0 :
  0 <= rmin <= rmax -> rmax < two32 ->
  0 <= c0 <= 32 -> rmin mod 2 ^ (32 - c0) = 0 ->
  forall fuel c,
    c0 <= c <= 32 -> (Z.to_nat (32 - c) <= fuel)%nat ->
    exists c', shrink_loop fuel rmin rmax (Net rmin c) = Some (Net rmin c')
               /\ c <= c' <= 32 /\ fits rmin rmax c'
               /\ (forall c'', c <= c'' < c' -> ~ fits rmin rmax c'').
Proof.
  intros Hr Hmax Hc0 Hal0.
  assert (Hal : forall c, c0 <= c <= 32 -> rmin mod 2 ^ (32 - c) = 0).
  { intros c Hc.
    apply Z.mod_divide in Hal0; [|pose proof (pow2_pos (32 - c0)); lia].
    destruct Hal0 as [q Hq].
    replace (32 - c0) with ((32 - c) + (c - c0)) in Hq by lia.
    rewrite Z.pow_add_r in Hq by lia.
    rewrite Hq, Z.mul_comm, <- Z.mul_assoc.
    rewrite Z.mul_comm. apply Z.mod_mul.
    pose proof (pow2_pos (32 - c)); lia. }
  induction fuel as [|fuel IH]; intros c Hc Hf; cbn [shrink_loop].
  - assert (c = 32) by lia. subst c.
    rewrite max_addr_eq by (try lia; apply Hal; lia).
    replace (32 - 32) with 0 by lia. rewrite Z.pow_0_r.
    replace (rmax <? rmin + 1 - 1) with false by (symmetry; apply Z.ltb_ge; lia).
    exists 32. repeat split; try lia.
    unfold fits. replace (32 - 32) with 0 by lia. rewrite Z.pow_0_r. lia.
  - rewrite max_addr_eq by (try lia; apply Hal; lia).
    destruct (Z.ltb_spec rmax (rmin + 2 ^ (32 - c) - 1)) as [Hlt|Hge].
    + assert (c < 32).
      { destruct (Z.eq_dec c 32) as [->|]; [|lia].
        replace (32 - 32) with 0 in Hlt by lia. rewrite Z.pow_0_r in Hlt. lia. }
      unfold mask_shr, bounded_count, WIDTH. cbn [m_mask].
      replace (Z.min 32 (Z.max 0 (c + 1))) with (c + 1) by lia.
      rewrite net_make_aligned by (try lia; apply Hal; lia).
      destruct (IH (c + 1)) as (c' & E & Hc' & Hfit & Hmin); try lia.
      exists c'. repeat split; try lia; auto.
      intros c'' Hc''. destruct (Z.eq_dec c'' c) as [->|].
      * unfold fits. lia.
      * apply Hmin. lia.
    + exists c. repeat split; try lia; auto.
Qed.

(** *** One step of the generator *)

Lemma extract_next_network_spec r :
  0 <= _min r <= _max r -> _max r < two32 ->
  exists c,
    let n := Net (_min r) c in
    let r' := if max_addr n =? _max r then range_default
              else {| _min := max_addr n + 1; _max := _max r |} in
    extract_next_network r = Some (r', n, op_not r')
    /\ is_cidr n /\ max_addr n <= _max r /\ greedy n (_max r).
Proof.
  intros Hr Hmax. destruct r as [rmin rmax]; cbn [_min _max] in *.
  unfold extract_next_network, op_not; cbn [_min _max].
  replace (rmax <? rmin) with false by (symmetry; apply Z.ltb_ge; lia).
  destruct (lsb_count_spec rmin) as (Hw & Hal & Hnext).
  set (w := lsb_count rmin false) in *.
  unfold bounded_count, WIDTH.
  replace (Z.min 32 (Z.max 0 (32 - w))) with (32 - w) by lia.
  assert (Hal0 : rmin mod 2 ^ (32 - (32 - w)) = 0)
    by (replace (32 - (32 - w)) with w by lia; assumption).
  rewrite net_make_aligned by (try lia; assumption).
  destruct (shrink_loop_spec rmin rmax (32 - w) Hr Hmax ltac:(lia) Hal0 33%nat (32 - w))
    as (c & E & Hc & Hfit & Hmin); [lia | lia |].
  rewrite E. exists c.
  assert (Halc : rmin mod 2 ^ (32 - c) = 0).
  { apply Z.mod_divide in Hal; [|pose proof (pow2_pos w); lia].
    destruct Hal as [q Hq].
    replace w with ((32 - c) + (w - (32 - c))) in Hq by lia.
    rewrite Z.pow_add_r in Hq by lia.
    rewrite Hq, Z.mul_comm, <- Z.mul_assoc, Z.mul_comm.
    apply Z.mod_mul. pose proof (pow2_pos (32 - c)); lia. }
  assert (Hm : max_addr (Net rmin c) = rmin + 2 ^ (32 - c) - 1)
    by (apply max_addr_eq; lia).
  unfold fits in Hfit.
  repeat split; cbn [m_addr m_mask]; try lia.
  - destruct (Z.eqb_spec (max_addr (Net rmin c)) rmax) as [Heq|Hne]; [reflexivity|].
    rewrite wrap32_small by lia. reflexivity.
  - unfold MAX32; lia.
  - apply net_make_aligned; lia.
  - unfold greedy; cbn [m_addr m_mask]. intros Hc1 Hal1 Hf.
    destruct (Z.eq_dec c (32 - w)) as [Ec|Ec].
    + subst c. apply Hnext; [lia|].
      replace (w + 1) with (32 - (32 - w) + 1) by lia. exact Hal1.
    + apply (Hmin (c - 1)); [lia | exact Hf].
Qed.

Lemma net_not_default n : is_cidr n -> net_eqb n net_default = false.
Proof.
  intros H. pose proof (cidr_aligned n H) as Hal.
  destruct H as (Hm & Ha & _). destruct n as [a c]; cbn [m_addr m_mask] in *.
  unfold net_eqb, net_default; cbn [m_addr m_mask].
  destruct (Z.eqb_spec c 0) as [->|]; [|apply andb_false_r].
  rewrite andb_true_r. apply Z.eqb_neq.
  unfold is_addr in Ha. replace (32 - 0) with 32 in Hal by lia.
  fold two32 in Hal. unfold MAX, MAX32 in *.
  rewrite Z.mod_small in Hal by lia. unfold two32 in *. lia.
Qed.

Lemma gen_copy_end fuel : gen_copy (S fuel) gen_default = Some [].
Proof. reflexivity. Qed.

Lemma gen_incr_default d :
  gen_incr {| m_range := range_default; m_data := d |} = Some gen_default.
Proof. reflexivity. Qed.

(** The generator started on a non-empty range emits a cover of it. *)
Lemma generator_cover N : forall r d,
  0 <= _min r <= _max r -> _max r < two32 ->
  (Z.to_nat (_max r - _min r) <= N)%nat ->
  exists g l,
    gen_incr {| m_range := r; m_data := d |} = Some g
    /\ cover (_min r) (_max r) l
    /\ forall fuel, (N + 2 <= fuel)%nat -> gen_copy fuel g = Some l.
Proof.
  induction N as [|N IH]; intros r d Hr Hmax HN.
  - destruct (extract_next_network_spec r Hr Hmax) as (c & E & Hcidr & Hle & Hgr).
    cbv zeta in E.
    assert (Hm : max_addr (Net (_min r) c) = _max r).
    { rewrite cidr_max_addr in * by assumption. cbn [m_addr m_mask] in *.
      pose proof (pow2_pos (32 - c)) as Hp. destruct Hcidr as (Hc & _). cbn in Hc.
      specialize (Hp ltac:(lia)). lia. }
    rewrite Hm, Z.eqb_refl in E.
    unfold gen_incr; cbn [m_range]. rewrite E.
    exists {| m_range := range_default; m_data := Net (_min r) c |}, [Net (_min r) c].
    split; [reflexivity|]. split.
    + apply cover_last; auto.
    + intros [|fuel] Hf; [lia|]. cbn [gen_copy].
      unfold gen_eqb; cbn [m_data m_range]. rewrite net_not_default by assumption.
      cbn [andb]. rewrite gen_incr_default.
      destruct fuel as [|fuel]; [lia|]. rewrite gen_copy_end. reflexivity.
  - destruct (extract_next_network_spec r Hr Hmax) as (c & E & Hcidr & Hle & Hgr).
    cbv zeta in E.
    unfold gen_incr at 1; cbn [m_range]. rewrite E.
    destruct (Z.eqb_spec (max_addr (Net (_min r) c)) (_max r)) as [Hm|Hm].
    + exists {| m_range := range_default; m_data := Net (_min r) c |}, [Net (_min r) c].
      split; [reflexivity|]. split.
      * apply cover_last; auto.
      * intros [|fuel] Hf; [lia|]. cbn [gen_copy].
        unfold gen_eqb; cbn [m_data m_range]. rewrite net_not_default by assumption.
        cbn [andb]. rewrite gen_incr_default.
        destruct fuel as [|fuel]; [lia|]. rewrite gen_copy_end. reflexivity.
    + set (n := Net (_min r) c) in *.
      assert (Hmx : max_addr n = _min r + 2 ^ (32 - c) - 1).
      { rewrite cidr_max_addr by assumption. reflexivity. }
      assert (Hp : 0 < 2 ^ (32 - c)).
      { apply pow2_pos. destruct Hcidr as (Hc & _). cbn in Hc. lia. }
      set (r' := {| _min := max_addr n + 1; _max := _max r |}).
      destruct (IH r' n) as (g' & l' & Eg & Hcov & Hcopy);
        unfold r'; cbn [_min _max]; try lia.
      exists {| m_range := r'; m_data := n |}, (n :: l').
      split; [reflexivity|]. split.
      * apply cover_cons; auto. lia.
      * intros [|fuel] Hf; [lia|]. cbn [gen_copy].
        unfold gen_eqb; cbn [m_data m_range]. rewrite net_not_default by assumption.
        cbn [andb]. fold r'. rewrite Eg.
        rewrite Hcopy by lia. reflexivity.
Qed.

(** *** What a cover is *)

Lemma mod_pow2_le a k K :
  0 <= k <= K -> a mod 2 ^ K = 0 -> a mod 2 ^ k = 0.
Proof.
  intros Hk H.
  apply Z.mod_divide in H; [|pose proof (pow2_pos K); lia].
  destruct H as [q Hq].
  replace K with (k + (K - k)) in Hq by lia.
  rewrite Z.pow_add_r in Hq by lia.
  rewrite Hq, Z.mul_comm, <- Z.mul_assoc, Z.mul_comm.
  apply Z.mod_mul. pose proof (pow2_pos k); lia.
Qed.

Lemma cidr_le_max n : is_cidr n -> m_addr n <= max_addr n.
Proof.
  intros H. rewrite cidr_max_addr by assumption.
  destruct H as (Hc & _). pose proof (pow2_pos (32 - m_mask n)). lia.
Qed.

Lemma cidr_max_addr_bound n : is_cidr n -> max_addr n <= MAX32.
Proof.
  intros H. rewrite cidr_max_addr by assumption.
  pose proof (cidr_aligned n H) as Hal.
  destruct H as (Hc & Ha & _). unfold is_addr, MAX32 in *.
  set (k := 32 - m_mask n) in *.
  assert (Hp : 0 < 2 ^ k) by (apply pow2_pos; unfold k; lia).
  apply Z.mod_divide in Hal; [|lia]. destruct Hal as [q Hq].
  assert (E : two32 = 2 ^ (32 - k) * 2 ^ k).
  { unfold two32. rewrite <- Z.pow_add_r by (unfold k; lia). f_equal. lia. }
  assert (Hq2 : q < 2 ^ (32 - k)) by nia.
  nia.
Qed.

Lemma cover_cidr lo hi l : cover lo hi l -> Forall is_cidr l.
Proof. induction 1; constructor; auto. Qed.

Lemma cover_bounds lo hi l :
  cover lo hi l ->
  lo <= hi /\ forall n, In n l -> lo <= m_addr n /\ max_addr n <= hi.
Proof.
  induction 1 as [lo hi n Hc Ha Hm Hg | lo hi n l Hc Ha Hm Hg Hcov IH].
  - pose proof (cidr_le_max n Hc). split; [lia|].
    intros n' [<-|[]]. lia.
  - pose proof (cidr_le_max n Hc). destruct IH as [IH1 IH2]. split; [lia|].
    intros n' [<-|Hin]; [lia|].
    specialize (IH2 n' Hin). lia.
Qed.

Lemma cover_union lo hi l :
  cover lo hi l ->
  forall a, is_addr a ->
    (lo <= a <= hi <-> exists n, In n l /\ contains n a = true).
Proof.
  induction 1 as [lo hi n Hc Ha Hm Hg | lo hi n l Hc Ha Hm Hg Hcov IH];
    intros a Haddr.
  - split.
    + intros H. exists n. split; [left; reflexivity|].
      apply contains_iff; auto. lia.
    + intros (n' & [<-|[]] & Hin). apply contains_iff in Hin; auto. lia.
  - pose proof (cidr_le_max n Hc).
    pose proof (cover_bounds _ _ _ Hcov) as [Hb _].
    split.
    + intros Hr. destruct (Z_le_gt_dec a (max_addr n)) as [Hle|Hgt].
      * exists n. split; [left; reflexivity|]. apply contains_iff; auto. lia.
      * destruct (proj1 (IH a Haddr)) as (n' & Hin & Hct); [lia|].
        exists n'. split; [right; assumption|assumption].
    + intros (n' & [<-|Hin] & Hct).
      * apply contains_iff in Hct; auto. lia.
      * assert (max_addr n + 1 <= a <= hi) by (apply IH; eauto). lia.
Qed.

Lemma cover_sorted lo hi l :
  cover lo hi l ->
  StronglySorted (fun n1 n2 => max_addr n1 < m_addr n2) l.
Proof.
  induction 1 as [lo hi n Hc Ha Hm Hg | lo hi n l Hc Ha Hm Hg Hcov IH].
  - repeat constructor.
  - constructor; [assumption|].
    apply Forall_forall. intros n' Hin.
    destruct (cover_bounds _ _ _ Hcov) as [_ Hb].
    specialize (Hb n' Hin). lia.
Qed.

Lemma greedy_not_unionable n1 n2 hi :
  is_cidr n1 -> is_cidr n2 -> greedy n1 hi ->
  m_addr n2 = max_addr n1 + 1 -> max_addr n2 <= hi -> hi <= MAX32 ->
  ~ unionable n1 n2.
Proof.
  intros H1 H2 Hg Hadj Hle Hhi (N & HN & Hiff).
  pose proof (cidr_le_max _ H1) as L1. pose proof (cidr_le_max _ H2) as L2.
  pose proof (cidr_le_max _ HN) as LN.
  pose proof (cidr_max_addr_bound _ HN) as BN.
  assert (A1 : is_addr (m_addr n1)) by apply H1.
  assert (AN : is_addr (m_addr N)) by apply HN.
  assert (C : forall a, is_addr a ->
            (m_addr N <= a <= max_addr N
             <-> m_addr n1 <= a <= max_addr n1 \/ m_addr n2 <= a <= max_addr n2)).
  { intros a Ha. rewrite <- !contains_iff by assumption. apply Hiff; assumption. }
  assert (Elo : m_addr N = m_addr n1).
  { pose proof (proj2 (C _ A1) ltac:(lia)).
    pose proof (proj1 (C _ AN) ltac:(lia)). lia. }
  assert (Ehi : max_addr N = max_addr n2).
  { assert (A2 : is_addr (max_addr n2)) by (unfold is_addr in *; lia).
    assert (A3 : is_addr (max_addr N)) by (unfold is_addr in *; lia).
    pose proof (proj2 (C _ A2) ltac:(lia)).
    pose proof (proj1 (C _ A3) ltac:(lia)). lia. }
  pose proof (cidr_aligned _ HN) as AlN.
  rewrite (cidr_max_addr _ HN) in Ehi.
  rewrite (cidr_max_addr _ H2) in Ehi, Hle.
  rewrite (cidr_max_addr _ H1) in Hadj.
  destruct H1 as (Hc1 & _ & _). destruct H2 as (Hc2 & _ & _).
  destruct HN as (HcN & _ & _).
  set (k1 := 32 - m_mask n1) in *. set (k2 := 32 - m_mask n2) in *.
  set (K := 32 - m_mask N) in *.
  pose proof (pow2_pos k1 ltac:(unfold k1; lia)).
  pose proof (pow2_pos k2 ltac:(unfold k2; lia)).
  assert (HK : k1 < K).
  { apply (Z.pow_lt_mono_r_iff 2); [lia | unfold K; lia | lia]. }
  assert (Hpow : 2 ^ (k1 + 1) <= 2 ^ K) by (apply Z.pow_le_mono_r; lia).
  apply Hg.
  - unfold k1, K in *. lia.
  - rewrite <- Elo. apply (mod_pow2_le _ _ K); [unfold k1 in *; fold k1; lia|].
    exact AlN.
  - unfold fits. replace (32 - (m_mask n1 - 1)) with (k1 + 1) by (unfold k1; lia).
    lia.
Qed.

Lemma cover_consecutive lo hi l :
  cover lo hi l -> hi <= MAX32 ->
  consecutive (fun n1 n2 => m_addr n2 = max_addr n1 + 1 /\ ~ unionable n1 n2) l.
Proof.
  induction 1 as [lo hi n Hc Ha Hm Hg | lo hi n l Hc Ha Hm Hg Hcov IH]; intros Hhi.
  - exact I.
  - specialize (IH Hhi).
    pose proof (cover_bounds _ _ _ Hcov) as [_ Hb].
    destruct l as [|n2 l2]; [inversion Hcov|].
    assert (Hn2 : m_addr n2 = max_addr n + 1 /\ is_cidr n2)
      by (inversion Hcov; subst; auto).
    destruct Hn2 as [Hadj Hc2].
    cbn [consecutive]. split; [|exact IH]. split; [assumption|].
    apply (greedy_not_unionable n n2 hi); auto.
    apply Hb. left. reflexivity.
Qed.

Lemma cover_whole_space l : cover 0 MAX32 l -> l = [Net 0 0].
Proof.
  intros H.
  assert (G : forall n, is_cidr n -> m_addr n = 0 -> greedy n MAX32 -> m_mask n = 0).
  { intros n Hc Ha Hg. destruct (Z.eq_dec (m_mask n) 0) as [|Hne]; [assumption|].
    exfalso. destruct Hc as (Hm & _ & _). apply Hg; [lia | rewrite Ha; apply Z.mod_0_l | ].
    - pose proof (pow2_pos (32 - m_mask n + 1)); lia.
    - unfold fits, MAX32, two32. rewrite Ha.
      assert (2 ^ (32 - (m_mask n - 1)) <= 2 ^ 32) by (apply Z.pow_le_mono_r; lia).
      lia. }
  inversion H as [? ? n Hc Ha Hm Hg | ? ? n l' Hc Ha Hm Hg Hcov]; subst.
  - pose proof (G n Hc Ha Hg) as E0. destruct n as [a c]; cbn [m_addr m_mask] in *.
    subst. reflexivity.
  - pose proof (G n Hc Ha Hg) as E0. exfalso.
    rewrite cidr_max_addr in Hm by assumption. rewrite Ha, E0 in Hm.
    unfold MAX32, two32 in Hm. replace (32 - 0) with 32 in Hm by lia. lia.
Qed.

(** C6: for every non-empty range [lo..hi] of 32-bit addresses the
    generator emits (given enough iterations) a finite list of CIDR
    networks; an address lies in the range exactly when one of the networks
    contains it; the networks come in increasing order without overlap;
    each network starts right after its predecessor ends (computed without
    wrap-around) and no two neighbours can be unioned into one network; and
    for the whole address space the list is exactly 0.0.0.0/0. *)
Theorem C6_network_cover lo hi :
  0 <= lo <= hi -> hi <= MAX32 ->
  exists l,
    (forall fuel, (Z.to_nat (hi - lo) + 2 <= fuel)%nat ->
       networks fuel (Interval.make lo hi) = Some l)
    /\ Forall is_cidr l
    /\ (forall a, is_addr a ->
          (lo <= a <= hi <-> exists n, In n l /\ contains n a = true))
    /\ StronglySorted (fun n1 n2 => max_addr n1 < m_addr n2) l
    /\ consecutive
         (fun n1 n2 => m_addr n2 = max_addr n1 + 1 /\ ~ unionable n1 n2) l
    /\ (lo = 0 -> hi = MAX32 -> l = [Net 0 0]).
Proof.
  intros Hr Hhi.
  assert (Em : Interval.make lo hi = {| _min := lo; _max := hi |}).
  { unfold Interval.make. f_equal; lia. }
  destruct (generator_cover (Z.to_nat (hi - lo)) {| _min := lo; _max := hi |} net_default)
    as (g & l & Eg & Hcov & Hcopy); cbn [_min _max]; try lia.
  { unfold MAX32 in Hhi; lia. }
  cbn [_min _max] in Hcov.
  exists l. split; [|split; [|split; [|split; [|split]]]].
  - intros fuel Hf. unfold networks, gen_make. rewrite Em, Eg. apply Hcopy, Hf.
  - eapply cover_cidr; eassumption.
  - eapply cover_union; eassumption.
  - eapply cover_sorted; eassumption.
  - eapply cover_consecutive; eassumption.
  - intros -> ->. apply cover_whole_space. assumption.
Qed.

(** C6 at a concrete range: 10.0.0.5 .. 10.0.0.10. *)
Lemma C6_network_cover_witness :
  exists l,
    (forall fuel, (Z.to_nat (quad 10 0 0 10 - quad 10 0 0 5) + 2 <= fuel)%nat ->
       networks fuel (Interval.make (quad 10 0 0 5) (quad 10 0 0 10)) = Some l)
    /\ Forall is_cidr l
    /\ (forall a, is_addr a ->
          (quad 10 0 0 5 <= a <= quad 10 0 0 10
           <-> exists n, In n l /\ contains n a = true))
    /\ StronglySorted (fun n1 n2 => max_addr n1 < m_addr n2) l
    /\ consecutive
         (fun n1 n2 => m_addr n2 = max_addr n1 + 1 /\ ~ unionable n1 n2) l
    /\ (quad 10 0 0 5 = 0 -> quad 10 0 0 10 = MAX32 -> l = [Net 0 0]).
Proof.
  apply (C6_network_cover (quad 10 0 0 5) (quad 10 0 0 10)).
  - vm_compute. split; discriminate.
  - vm_compute. discriminate.
Defined.

(** C7 (as evaluated on the code): the cover of 10.0.0.5 .. 10.0.0.10 is
    10.0.0.5/32, 10.0.0.6/31, 10.0.0.8/31, 10.0.0.10/32. *)
Lemma C7_cover_10_0_0_5_to_10 :
  networks 8 (make (quad 10 0 0 5) (quad 10 0 0 10))
  = Some [ Net (quad 10 0 0 5) 32; Net (quad 10 0 0 6) 31;
           Net (quad 10 0 0 8) 31; Net (quad 10 0 0 10) 32 ].
Proof. vm_compute. reflexivity. Qed.

(** C7, the claim as stated fails: the generated sequence is not
    10.0.0.5/32, 10.0.0.6/31, 10.0.0.8/30 (the last of these would reach
    10.0.0.11, outside the range). *)
Lemma C7_counterexample :
  networks 8 (make (quad 10 0 0 5) (quad 10 0 0 10))
  <> Some [ Net (quad 10 0 0 5) 32; Net (quad 10 0 0 6) 31;
            Net (quad 10 0 0 8) 30 ].
Proof. vm_compute. discriminate. Qed.

End Ip4Facts.

Module CnFacts.
Import Cn.

(** On an empty map every middle phase reaches its overlap test with
    [pos == m_map.end()] and reads through it. *)
Lemma middle_phases_on_empty_map range color tmp left :
  let s := Phase [] End tmp left in
  Pt_middle range color s = Fault DerefEnd
  /\ Upt_middle range color s = Fault DerefEnd
  /\ Bd_middle range color s = Fault DerefEnd
  /\ Ubd_middle range color s = Fault DerefEnd.
Proof. repeat split. Qed.

(** C10 (as evaluated on the code): the position is the end of the map at
    the dereference that follows the loop of each middle phase, (1) for the
    empty map, whatever the range and color, in all five operations, and
    (2) for the map [{[0..3]=RED}] and the range [10..20], where the left
    phase steps back to the only segment and forward again to the end. *)
Theorem C10_middle_phase_reads_end :
  (forall range color,
      Pt_middle range color (Phase [] (lower_bound map_key [] range) Pair_default true)
        = Fault DerefEnd
      /\ Upt_middle range color (Phase [] (lower_bound map_key [] range) Pair_default true)
        = Fault DerefEnd
      /\ Bd_middle range color (Phase [] (lower_bound map_key [] range) Pair_default true)
        = Fault DerefEnd
      /\ Ubd_middle range color (Phase [] (lower_bound map_key [] range) Pair_default true)
        = Fault DerefEnd)
  /\ (forall range color,
        Paint [] range color = Fault DerefEnd
        /\ Unpaint [] range color = Fault DerefEnd
        /\ UnColor [] range = Fault DerefEnd
        /\ Blend [] range color = Fault DerefEnd
        /\ Unblend [] range color = Fault DerefEnd)
  /\ map_invariant [(Range 0 3, RED)] = true
  /\ Pt_left (Range 10 20) BLUE
       (Phase [(Range 0 3, RED)] (lower_bound map_key [(Range 0 3, RED)] (Range 10 20))
              Pair_default true)
     = Ok (Phase [(Range 0 3, RED)] End Pair_default true)
  /\ Pt_middle (Range 10 20) BLUE (Phase [(Range 0 3, RED)] End Pair_default true)
     = Fault DerefEnd.
Proof. repeat split. Qed.

(** C3 (as evaluated on the code): the first operation of the scenario,
    [Paint([0..10], RED)] on the empty map, reads through the end iterator
    in [Pt_middle]; no map results, and so neither do the three segments. *)
Theorem C3_paint_on_empty_map_faults :
  Paint [] (Range 0 10) RED = Fault DerefEnd
  /\ (m <- Paint [] (Range 0 10) RED ;; Paint m (Range 5 7) BLUE) = Fault DerefEnd
  /\ (m <- Paint [] (Range 0 10) RED ;; Paint m (Range 5 7) BLUE)
     <> Ok [(Range 0 4, RED); (Range 5 7, BLUE); (Range 8 10, RED)].
Proof. repeat split. discriminate. Qed.

(** C5 (as evaluated on the code): the first operation of the scenario,
    [Blend([0..4], R)] on the empty map, reads through the end iterator in
    [Bd_middle], whatever the colors [R] and [B]. *)
Theorem C5_blend_on_empty_map_faults (R B : Z) :
  Blend [] (Range 0 4) (Some R) = Fault DerefEnd
  /\ (m <- Blend [] (Range 0 4) (Some R) ;; Blend m (Range 2 6) (Some B)) = Fault DerefEnd
  /\ (m <- Blend [] (Range 0 4) (Some R) ;; Blend m (Range 2 6) (Some B))
     <> Ok [(Range 0 1, Some R); (Range 2 4, Some (R + B)); (Range 5 6, Some B)].
Proof. repeat split. discriminate. Qed.

(** C4 (as evaluated on the code): [Unpaint([0..10], RED)] on the map
    [{[0..3]=RED, [20..30]=RED}], which satisfies the invariants, runs
    without fault and leaves [{[0..4294967295]=RED, [20..30]=RED}]: in
    [LeftSkew] the bound [range.GetLowerBound() - 1] wraps around to the
    largest address.  The two segments overlap (both hold address 25), so
    the result violates the invariants. *)
Theorem C4_unpaint_breaks_disjointness :
  let m := [(Range 0 3, RED); (Range 20 30, RED)] in
  let m' := [(Range 0 MAX32, RED); (Range 20 30, RED)] in
  map_invariant m = true
  /\ Unpaint m (Range 0 10) RED = Ok m'
  /\ map_invariant m' = false
  /\ IsCompatible (Range 0 MAX32) 25 = true
  /\ IsCompatible (Range 20 30) 25 = true.
Proof. vm_compute. repeat split. Qed.

(** C8 (as evaluated on the code): removing [3..5] from the set
    [{[0..10]}] leaves [{[0..2]}]; the part [6..10] above the removed
    range is lost (address 7 is no longer a member). *)
Theorem C8_remove_loses_upper_part (n : nat) :
  Remove (2 + n) [Range 0 10] (Range 3 5) = Ok [Range 0 2]
  /\ set_mem [Range 0 10] 7 = true
  /\ IsCompatible (Range 3 5) 7 = false
  /\ set_mem [Range 0 2] 7 = false.
Proof. repeat split. Qed.

(** The same loss when a later range follows: the second [insert] of
    [IpSet::Remove] inserts the lower portion once more instead of the
    upper one. *)
Lemma remove_with_successor (n : nat) :
  Remove (4 + n) [Range 0 10; Range 20 30] (Range 3 5)
  = Ok [Range 0 2; Range 20 30].
Proof. reflexivity. Qed.

End CnFacts.

Module FlowspaceFacts.
Import Interval Flowspace Cursor Views Balance Extent.

(** *** Hulls of non-empty intervals *)


Lemma make_valid a b : valid (Interval.make a b).
Proof. unfold valid, Interval.make; cbn [_min _max]; lia. Qed.

Lemma op_not_valid i : valid i -> op_not i = false.
Proof. unfold valid, op_not. intros H. apply Z.ltb_ge. exact H. Qed.

Lemma hull_valid_eq a b :
  valid a -> valid b ->
  hull a b = {| _min := Z.min (_min a) (_min b); _max := Z.max (_max a) (_max b) |}.
Proof.
  intros Ha Hb. unfold hull. rewrite !op_not_valid by assumption.
  unfold valid in *. unfold Interval.make. f_equal; lia.
Qed.

Lemma hull_valid a b : valid a -> valid b -> valid (hull a b).
Proof.
  intros Ha Hb. rewrite hull_valid_eq by assumption.
  unfold valid in *; cbn [_min _max]; lia.
Qed.

Lemma interval_eq a b : _min a = _min b -> _max a = _max b -> a = b.
Proof. destruct a, b; cbn; intros; subst; reflexivity. Qed.

Lemma hull_assoc a b c :
  valid a -> valid b -> valid c -> hull (hull a b) c = hull a (hull b c).
Proof.
  intros Ha Hb Hc.
  rewrite (hull_valid_eq (hull a b) c), (hull_valid_eq a (hull b c)),
    (hull_valid_eq a b), (hull_valid_eq b c); auto using hull_valid.
  cbn [_min _max]. f_equal; lia.
Qed.

Lemma hull_comm a b : valid a -> valid b -> hull a b = hull b a.
Proof.
  intros Ha Hb. rewrite !hull_valid_eq by assumption. f_equal; lia.
Qed.

Lemma hull_idem a : valid a -> hull a a = a.
Proof.
  intros Ha. rewrite hull_valid_eq by assumption.
  apply interval_eq; cbn [_min _max]; lia.
Qed.

Section HullFacts.
Context {X : Type}.
Implicit Types (t l r : tree X) (n : node X) (p : path X).

Lemma local_interval_valid n : valid (local_interval n).
Proof. apply make_valid. Qed.

Lemma local_interval_set_sti i n : local_interval (set_sti i n) = local_interval n.
Proof. reflexivity. Qed.

Lemma local_interval_set_color c n : local_interval (set_color c n) = local_interval n.
Proof. reflexivity. Qed.


Lemma extend_valid i t : valid i -> sti_valid t -> valid (extend i t).
Proof. destruct t; cbn; auto using hull_valid. Qed.

Lemma fixup_value_valid l n r :
  sti_valid l -> sti_valid r -> valid (fixup_value l n r).
Proof.
  intros. unfold fixup_value.
  auto using extend_valid, local_interval_valid.
Qed.

Lemma hull_all_sti_valid t : hull_all t -> sti_valid t.
Proof.
  induction t as [|l IHl n r IHr]; cbn [hull_all sti_valid]; [auto|].
  intros (Hn & Hl & Hr). rewrite Hn. apply fixup_value_valid; auto.
Qed.

Lemma hull_all_ok_off k t : hull_all t -> ok_off k t.
Proof.
  induction t as [|l IHl n r IHr]; cbn [hull_all ok_off]; [auto|].
  intros (Hn & Hl & Hr). auto.
Qed.

Lemma ok_off_hull_all k t : ok_off k t -> ~ In k (keys t) -> hull_all t.
Proof.
  induction t as [|l IHl n r IHr]; cbn [ok_off hull_all keys]; auto.
  intros ([Hn|Hn] & Hl & Hr) Hk; [|contradiction].
  split; [assumption|]. split.
  - apply IHl; auto. intro; apply Hk. apply in_or_app; auto.
  - apply IHr; auto. intro; apply Hk. apply in_or_app; right; right; auto.
Qed.

Lemma has_key_In k t : has_key k t = true <-> In k (keys t).
Proof.
  unfold has_key. rewrite existsb_exists. split.
  - intros (x & Hin & E). apply Z.eqb_eq in E. subst. assumption.
  - intros H. exists k. split; [assumption | apply Z.eqb_refl].
Qed.

Lemma has_key_false k t : has_key k t = false <-> ~ In k (keys t).
Proof.
  rewrite <- has_key_In. destruct (has_key k t); split; intros H; congruence.
Qed.

(** *** [structure_fixup] and the ripple *)

Lemma keys_structure_fixup t : keys (structure_fixup t) = keys t.
Proof. destruct t; reflexivity. Qed.

Lemma keys_ripple k t : keys (ripple_structure_fixup k t) = keys t.
Proof.
  induction t as [|l IHl n r IHr]; cbn [ripple_structure_fixup]; auto.
  destruct (has_key k l); [cbn; rewrite IHl; reflexivity|].
  destruct (has_key k r); [cbn; rewrite IHr; reflexivity|].
  destruct (m_metric n =? k); reflexivity.
Qed.

Lemma local_ok_fixup l n r : local_ok l (set_sti (fixup_value l n r) n) r.
Proof. reflexivity. Qed.

Lemma hull_all_fixup l n r :
  hull_all l -> hull_all r -> hull_all (structure_fixup (T l n r)).
Proof. cbn. auto using local_ok_fixup. Qed.

Lemma ripple_hull_all k t :
  NoDup (keys t) -> ok_off k t -> hull_all (ripple_structure_fixup k t).
Proof.
  induction t as [|l IHl n r IHr]; cbn [ripple_structure_fixup]; auto.
  intros Hnd Hok. cbn [keys] in Hnd.
  pose proof (NoDup_app_remove_r _ _ Hnd) as Hndl.
  pose proof (NoDup_app_remove_l _ _ Hnd) as Hndr0.
  assert (Hndr : NoDup (keys r)) by (inversion Hndr0; assumption).
  assert (Hdisj : forall x, In x (keys l) -> ~ In x (m_metric n :: keys r)).
  { intros x Hx Hx'. revert Hnd Hx Hx'. clear.
    induction (keys l) as [|a kl IH]; cbn; [tauto|].
    intros Hnd [->|Hx] Hx'.
    - inversion Hnd as [|? ? Hnin _]; subst. apply Hnin. apply in_or_app; auto.
    - inversion Hnd; subst. auto. }
  cbn [ok_off] in Hok. destruct Hok as (Hn & Hl & Hr).
  destruct (has_key k l) eqn:Ekl.
  - apply has_key_In in Ekl. apply hull_all_fixup.
    + apply IHl; auto.
    + apply (ok_off_hull_all k); auto.
      intro Hin. apply (Hdisj k Ekl). right. assumption.
  - apply has_key_false in Ekl.
    destruct (has_key k r) eqn:Ekr.
    + apply hull_all_fixup.
      * apply (ok_off_hull_all k); auto.
      * apply IHr; auto.
    + apply has_key_false in Ekr.
      destruct (Z.eqb_spec (m_metric n) k) as [E|E].
      * apply hull_all_fixup; apply (ok_off_hull_all k); auto.
      * cbn [hull_all]. split; [|split]; try (apply (ok_off_hull_all k); auto).
        destruct Hn as [Hn|Hn]; [assumption|].
        cbn [keys] in Hn. apply in_app_or in Hn.
        destruct Hn as [Hn|[Hn|Hn]]; [contradiction | congruence | contradiction].
Qed.

(** *** Rotations *)

Lemma hull_min a b : valid a -> valid b -> _min (hull a b) = Z.min (_min a) (_min b).
Proof. intros; rewrite hull_valid_eq by assumption; reflexivity. Qed.

Lemma hull_max a b : valid a -> valid b -> _max (hull a b) = Z.max (_max a) (_max b).
Proof. intros; rewrite hull_valid_eq by assumption; reflexivity. Qed.

Ltac validity :=
  repeat first
    [ assumption
    | apply local_interval_valid
    | apply hull_valid
    | apply make_valid ].

Ltac hull_eq :=
  apply interval_eq;
  repeat (first [ rewrite hull_min by validity | rewrite hull_max by validity ]);
  lia.

Lemma keys_rotate d t : keys (rotate d t) = keys t.
Proof.
  destruct t as [|l n r]; [reflexivity|].
  destruct d; cbn [rotate]; try reflexivity.
  - destruct r as [|cl cn cr]; [destruct l; reflexivity|].
    destruct l; cbn [structure_fixup fixup_child keys]; rewrite <- app_assoc; reflexivity.
  - destruct l as [|cl cn cr]; [reflexivity|].
    cbn [structure_fixup fixup_child keys]. rewrite <- app_assoc. reflexivity.
Qed.

(** The promoted child gets the hull that the demoted node had before the
    rotation, which is the right one when the subtree satisfied the
    invariant. *)
Lemma rotate_root_ok (l : tree X) (n : node X) (cl : tree X) (cn : node X) (cr : tree X) :
  sti_valid l -> sti_valid cl -> sti_valid cr ->
  m_sti n = hull (extend (local_interval n) l) (m_sti cn) ->
  m_sti cn = extend (extend (local_interval cn) cl) cr ->
  extend (hull (local_interval cn) (m_sti n)) cr
  = extend (hull (local_interval cn) (extend (extend (local_interval n) l) cl)) cr.
Proof.
  intros Vl Vcl Vcr En Ecn. rewrite En, Ecn.
  pose proof (local_interval_valid n) as Vn.
  pose proof (local_interval_valid cn) as Vcn.
  destruct l as [|? ln ?], cl as [|? cln ?], cr as [|? crn ?];
    cbn [extend sti_valid] in *; hull_eq.
Qed.

Lemma rotate_root_ok' (r : tree X) (n : node X) (cl : tree X) (cn : node X) (cr : tree X) :
  sti_valid r -> sti_valid cl -> sti_valid cr ->
  m_sti n = extend (hull (local_interval n) (m_sti cn)) r ->
  m_sti cn = extend (extend (local_interval cn) cl) cr ->
  hull (extend (local_interval cn) cl) (m_sti n)
  = hull (extend (local_interval cn) cl) (extend (extend (local_interval n) cr) r).
Proof.
  intros Vl Vcl Vcr En Ecn. rewrite En, Ecn.
  pose proof (local_interval_valid n) as Vn.
  pose proof (local_interval_valid cn) as Vcn.
  destruct r as [|? ln ?], cl as [|? cln ?], cr as [|? crn ?];
    cbn [extend sti_valid] in *; hull_eq.
Qed.

Lemma ok_off_sti_valid k t : ok_off k t -> ~ In k (keys t) -> sti_valid t.
Proof. intros. apply hull_all_sti_valid. eapply ok_off_hull_all; eauto. Qed.

Lemma rotate_ok_off k d t : ok_off k t -> ok_off k (rotate d t).
Proof.
  destruct t as [|l n r]; [auto|].
  destruct d; cbn [rotate]; auto.
  - (* LEFT: the right child is promoted *)
    destruct r as [|cl cn cr]; [destruct l; auto|].
    intros (Hn & Hl & Hcn & Hcl & Hcr).
    assert (E : fixup_child LEFT (structure_fixup (T (T l n cl) cn cr))
                = T (T l (set_sti (fixup_value l n cl) n) cl)
                    (set_sti (fixup_value (T l n cl) cn cr) cn) cr)
      by (destruct l; reflexivity).
    replace (match l with Nil => _ | T _ _ _ => _ end)
      with (fixup_child LEFT (structure_fixup (T (T l n cl) cn cr)))
      by (destruct l; reflexivity).
    rewrite E. cbn [ok_off]. repeat split; auto.
    + destruct (in_dec Z.eq_dec k (keys (T l n (T cl cn cr)))) as [Hin|Hnin].
      * right. cbn [keys] in *. rewrite <- app_assoc. exact Hin.
      * left. destruct Hn as [Hn|]; [|contradiction].
        assert (Hnc : ~ In k (keys (T cl cn cr))).
        { intro; apply Hnin. cbn [keys] in *. apply in_or_app. right. right. assumption. }
        destruct Hcn as [Hcn|]; [|contradiction].
        assert (~ In k (keys l)) by (intro; apply Hnin; cbn [keys]; apply in_or_app; auto).
        assert (~ In k (keys cl)) by (intro; apply Hnc; cbn [keys]; apply in_or_app; auto).
        assert (~ In k (keys cr))
          by (intro; apply Hnc; cbn [keys]; apply in_or_app; right; right; auto).
        unfold local_ok in *. unfold fixup_value in *. cbn [m_sti set_sti extend] in *.
        rewrite !local_interval_set_sti.
        apply rotate_root_ok; eauto using ok_off_sti_valid.
    + left. apply local_ok_fixup.
  - (* RIGHT: the left child is promoted *)
    destruct l as [|cl cn cr]; [auto|].
    intros (Hn & (Hcn & Hcl & Hcr) & Hr).
    cbn [structure_fixup fixup_child ok_off]. repeat split; auto.
    + destruct (in_dec Z.eq_dec k (keys (T (T cl cn cr) n r))) as [Hin|Hnin].
      * right. cbn [keys] in *. rewrite <- app_assoc in Hin. exact Hin.
      * left. destruct Hn as [Hn|]; [|contradiction].
        assert (Hnc : ~ In k (keys (T cl cn cr))).
        { intro; apply Hnin. cbn [keys] in *. apply in_or_app. left. assumption. }
        destruct Hcn as [Hcn|]; [|contradiction].
        assert (~ In k (keys r))
          by (intro; apply Hnin; cbn [keys]; apply in_or_app; right; right; auto).
        assert (~ In k (keys cl)) by (intro; apply Hnc; cbn [keys]; apply in_or_app; auto).
        assert (~ In k (keys cr))
          by (intro; apply Hnc; cbn [keys]; apply in_or_app; right; right; auto).
        unfold local_ok in *. unfold fixup_value in *. cbn [m_sti set_sti extend] in *.
        rewrite !local_interval_set_sti.
        apply rotate_root_ok'; eauto using ok_off_sti_valid.
    + left. apply local_ok_fixup.
Qed.

(** *** Colors do not matter *)

Lemma keys_set_tree_color c t : keys (set_tree_color c t) = keys t.
Proof. destruct t; reflexivity. Qed.

Lemma extend_set_tree_color i c (t : tree X) : extend i (set_tree_color c t) = extend i t.
Proof. destruct t; reflexivity. Qed.

Lemma ok_off_set_tree_color k c t : ok_off k t -> ok_off k (set_tree_color c t).
Proof. destruct t; cbn; auto. Qed.

Lemma hull_all_set_tree_color c t : hull_all t -> hull_all (set_tree_color c t).
Proof. destruct t; cbn; auto. Qed.

(** *** Paths *)

Lemma keys_mk d (c : tree X) (n : node X) (s : tree X) k :
  In k (keys (mk d c n s)) <-> In k (keys c) \/ k = m_metric n \/ In k (keys s).
Proof.
  destruct d; cbn [mk keys]; rewrite in_app_iff; cbn [In]; intuition auto.
Qed.

Lemma ok_off_mk k d (c : tree X) (n : node X) (s : tree X) :
  In k (keys c) -> ok_off k c -> ok_off k s -> ok_off k (mk d c n s).
Proof.
  intros Hin Hc Hs.
  assert (In k (keys (mk d c n s))) by (apply keys_mk; auto).
  destruct d; cbn [mk ok_off] in *; auto.
Qed.

Lemma keys_mk_congr d (c c' : tree X) (n n' : node X) (s s' : tree X) :
  keys c = keys c' -> m_metric n = m_metric n' -> keys s = keys s' ->
  keys (mk d c n s) = keys (mk d c' n' s').
Proof. intros E1 E2 E3. destruct d; cbn [mk keys]; rewrite E1, E2, E3; reflexivity. Qed.

Lemma keys_plug_congr p : forall t t',
  keys t = keys t' -> keys (plug t p) = keys (plug t' p).
Proof.
  induction p as [|[d n s] p IH]; intros t t' E; cbn [plug]; auto.
  apply IH. apply keys_mk_congr; auto.
Qed.

Lemma In_keys_plug k p : forall t, In k (keys t) -> In k (keys (plug t p)).
Proof.
  induction p as [|[d n s] p IH]; intros t H; cbn [plug]; auto.
  apply IH. apply keys_mk. auto.
Qed.

Lemma ok_off_plug k p : forall t,
  In k (keys t) -> ok_off k t -> siblings (ok_off k) p -> ok_off k (plug t p).
Proof.
  induction p as [|[d n s] p IH]; intros t Hin Ht Hp; cbn [plug]; auto.
  inversion Hp; subst. apply IH; auto.
  - apply keys_mk; auto.
  - apply ok_off_mk; auto.
Qed.

Lemma hull_all_mk_inv d (c : tree X) (n : node X) (s : tree X) : hull_all (mk d c n s) -> hull_all c /\ hull_all s.
Proof. destruct d; cbn; tauto. Qed.

Lemma hull_all_plug_inv p : forall t,
  hull_all (plug t p) -> hull_all t /\ siblings hull_all p.
Proof.
  induction p as [|[d n s] p IH]; intros t H; cbn [plug] in H.
  - split; [assumption | constructor].
  - destruct (IH _ H) as [Hm Hp]. apply hull_all_mk_inv in Hm. destruct Hm.
    split; [assumption|]. constructor; assumption.
Qed.

Lemma siblings_impl (P Q : tree X -> Prop) p :
  (forall t, P t -> Q t) -> siblings P p -> siblings Q p.
Proof.
  intros H Hp. unfold siblings in *. eapply Forall_impl; [|exact Hp].
  intros [d n s]; auto.
Qed.

(** *** The rebalancing loop after an insertion *)

Lemma rebalance_insert_loop_keys m : forall p x,
  (length p <= m)%nat ->
  keys (rebalance_insert_loop x p) = keys (plug x p).
Proof.
  induction m as [|m IH]; intros p x Hlen.
  - destruct p; [reflexivity | cbn in Hlen; lia].
  - destruct p as [|[dx pn sx] [|[dp gn sg] rest]]; try reflexivity.
    cbn [rebalance_insert_loop].
    destruct (color_eqb (m_color pn) RED); [|reflexivity].
    destruct (is_red sg).
    + rewrite IH by (cbn in Hlen; lia). cbn [plug].
      apply keys_plug_congr. apply keys_mk_congr; auto using keys_set_tree_color.
      apply keys_mk_congr; auto.
    + cbn [plug]. apply keys_plug_congr. rewrite keys_rotate.
      apply keys_mk_congr; auto. rewrite keys_set_tree_color.
      destruct (direction_eqb dx (flip dp)); [apply keys_rotate | reflexivity].
Qed.

Lemma rebalance_insert_loop_ok k m : forall p x,
  (length p <= m)%nat ->
  In k (keys x) -> ok_off k x -> siblings (ok_off k) p ->
  ok_off k (rebalance_insert_loop x p).
Proof.
  induction m as [|m IH]; intros p x Hlen Hin Hx Hp.
  - destruct p; [assumption | cbn in Hlen; lia].
  - destruct p as [|[dx pn sx] [|[dp gn sg] rest]];
      try (apply ok_off_plug; assumption).
    cbn [rebalance_insert_loop].
    inversion Hp as [|? ? Hsx Hp1]; subst. inversion Hp1 as [|? ? Hsg Hrest]; subst.
    destruct (color_eqb (m_color pn) RED); [|apply ok_off_plug; assumption].
    assert (Hinp : In k (keys (mk dx x pn sx))) by (apply keys_mk; auto).
    assert (Hokp : ok_off k (mk dx x pn sx)) by (apply ok_off_mk; auto).
    destruct (is_red sg).
    + apply IH; [cbn in Hlen; lia | | | assumption].
      * apply keys_mk. left. apply keys_mk. auto.
      * apply ok_off_mk; [apply keys_mk; auto | | apply ok_off_set_tree_color; assumption].
        apply ok_off_mk; auto.
    + set (psub := if direction_eqb dx (flip dp) then rotate dp (mk dx x pn sx)
                   else mk dx x pn sx).
      assert (Hps : In k (keys psub) /\ ok_off k psub).
      { unfold psub. destruct (direction_eqb dx (flip dp)).
        - rewrite keys_rotate. split; [assumption | apply rotate_ok_off; assumption].
        - split; assumption. }
      destruct Hps as [Hps1 Hps2].
      apply ok_off_plug; [ | | assumption].
      * rewrite keys_rotate. apply keys_mk. left. rewrite keys_set_tree_color. assumption.
      * apply rotate_ok_off. apply ok_off_mk; auto.
        -- rewrite keys_set_tree_color. assumption.
        -- apply ok_off_set_tree_color. assumption.
Qed.

End HullFacts.

(** *** Lists in strictly increasing order *)

Lemma sorted_app (a b : list Z) :
  StronglySorted Z.lt (a ++ b) <->
  StronglySorted Z.lt a /\ StronglySorted Z.lt b /\ (forall x y, In x a -> In y b -> x < y).
Proof.
  induction a as [|h a IH]; cbn [app].
  - split.
    + intros H. repeat split; auto. constructor. intros x y [].
    + tauto.
  - split.
    + intros H. inversion H as [|? ? Hs Hf]; subst.
      apply IH in Hs. destruct Hs as (Ha & Hb & Hab).
      rewrite Forall_app in Hf. destruct Hf as [Hfa Hfb].
      repeat split; auto.
      * constructor; auto.
      * intros x y [->|Hx] Hy; auto.
        rewrite Forall_forall in Hfb. auto.
    + intros (Ha & Hb & Hab). inversion Ha as [|? ? Hs Hf]; subst.
      constructor.
      * apply IH. repeat split; auto. intros x y Hx Hy. apply Hab; [right|]; auto.
      * rewrite Forall_app. split; auto.
        rewrite Forall_forall. intros y Hy. apply Hab; [left|]; auto.
Qed.

Lemma sorted_cons (h : Z) (a : list Z) :
  StronglySorted Z.lt (h :: a) <-> StronglySorted Z.lt a /\ (forall y, In y a -> h < y).
Proof.
  split.
  - intros H. inversion H; subst. split; auto. rewrite <- Forall_forall. auto.
  - intros [Ha Hh]. constructor; auto. rewrite Forall_forall. auto.
Qed.

Lemma sorted_NoDup (a : list Z) : StronglySorted Z.lt a -> NoDup a.
Proof.
  induction a as [|h a IH]; intros H.
  - constructor.
  - apply sorted_cons in H. destruct H as [Ha Hh]. constructor; auto.
    intros Hin. apply Hh in Hin. lia.
Qed.

Section InsertFacts.
Context {X : Type}.
Implicit Types (t l r x : tree X) (n : node X) (p : path X).

Lemma keys_plug p : forall t, keys (plug t p) = lefts p ++ keys t ++ rights p.
Proof.
  induction p as [|[d n s] p IH]; intros t.
  - cbn. rewrite app_nil_r. reflexivity.
  - cbn [plug]. rewrite IH. destruct d; cbn [mk keys lefts rights];
      repeat rewrite <- app_assoc; cbn [app]; try reflexivity.
Qed.

(** *** [search] *)

Lemma search_plug m : forall t p x p' d,
  search m t p = (x, p', d) -> plug x p' = plug t p.
Proof.
  induction t as [|l IHl n r IHr]; intros p x p' d H; cbn [search] in H.
  - inversion H; subst. reflexivity.
  - destruct (compare_metric n m).
    + inversion H; subst. reflexivity.
    + destruct l as [|ll ln lr].
      * inversion H; subst. reflexivity.
      * apply IHl in H. rewrite H. reflexivity.
    + destruct r as [|rl rn rr].
      * inversion H; subst. reflexivity.
      * apply IHr in H. rewrite H. reflexivity.
Qed.


Lemma search_found m : forall t p x p' d,
  t <> Nil -> ordered t ->
  (forall k, In k (lefts p) -> k < m) -> (forall k, In k (rights p) -> m < k) ->
  search m t p = (x, p', d) ->
  found m x d /\ ordered x /\
  (forall k, In k (lefts p') -> k < m) /\ (forall k, In k (rights p') -> m < k).
Proof.
  unfold ordered.
  induction t as [|l IHl n r IHr]; intros p x p' d Hnil Hs Hl Hr H; [congruence|].
  cbn [keys] in Hs. apply sorted_app in Hs. destruct Hs as (Hsl & Hsr & Hlr).
  apply sorted_cons in Hsr. destruct Hsr as [Hsr Hnr].
  assert (Hself : StronglySorted Z.lt (keys (T l n r))).
  { cbn [keys]. apply sorted_app. repeat split; auto. apply sorted_cons. auto. }
  cbn [search] in H. unfold compare_metric in H.
  destruct (m_metric n <? m) eqn:E1; [|destruct (m <? m_metric n) eqn:E2].
  - apply Z.ltb_lt in E1. destruct r as [|rl rn rr].
    + inversion H; subst. cbn [found]. auto.
    + apply IHr in H; auto; try congruence.
      * intros k. cbn [lefts]. rewrite !in_app_iff. cbn [In].
        intros [Hk|[Hk|[<-|[]]]]; auto.
        assert (k < m_metric n) by (apply Hlr; cbn; auto). lia.
  - apply Z.ltb_lt in E2. destruct l as [|ll ln lr].
    + inversion H; subst. cbn [found]. auto.
    + apply IHl in H; auto; try congruence.
      * intros k. cbn [rights In]. rewrite !in_app_iff.
        intros [<-|[Hk|Hk]]; auto.
        assert (m_metric n < k) by auto. lia.
  - apply Z.ltb_ge in E1. apply Z.ltb_ge in E2. inversion H; subst. cbn [found].
    split; [lia|auto].
Qed.

(** *** [tree_insert] *)

Lemma lefts_retarget a b p : lefts (retarget_next a b p) = lefts p.
Proof.
  induction p as [|[d n s] p IH]; [reflexivity|].
  cbn [retarget_next]. destruct (m_next n) as [k|].
  - destruct (k =? a); destruct d; cbn [lefts set_next m_metric]; congruence.
  - destruct d; cbn [lefts]; congruence.
Qed.

Lemma rights_retarget a b p : rights (retarget_next a b p) = rights p.
Proof.
  induction p as [|[d n s] p IH]; [reflexivity|].
  cbn [retarget_next]. destruct (m_next n) as [k|].
  - destruct (k =? a); destruct d; cbn [rights set_next m_metric]; congruence.
  - destruct d; cbn [rights]; congruence.
Qed.

Lemma siblings_retarget (P : tree X -> Prop) a b p :
  siblings P p -> siblings P (retarget_next a b p).
Proof.
  unfold siblings. induction 1 as [|[d n s] p Hs Hp IH]; [constructor|].
  cbn [retarget_next]. destruct (m_next n) as [k|].
  - destruct (k =? a); constructor; auto.
  - constructor; auto.
Qed.

Lemma keys_rebalance_after_insert k x p :
  keys (rebalance_after_insert k x p) = keys (plug x p).
Proof.
  unfold rebalance_after_insert.
  rewrite keys_set_tree_color, keys_ripple.
  apply (rebalance_insert_loop_keys (length p)). lia.
Qed.

Lemma rebalance_after_insert_hull k x p :
  NoDup (keys (plug x p)) ->
  In k (keys x) -> ok_off k x -> siblings hull_all p ->
  hull_all (rebalance_after_insert k x p).
Proof.
  intros Hnd Hk Hx Hp. unfold rebalance_after_insert.
  apply hull_all_set_tree_color. apply ripple_hull_all.
  - rewrite (rebalance_insert_loop_keys (length p)); auto.
  - apply (rebalance_insert_loop_ok k (length p)); auto.
    eapply siblings_impl; [|exact Hp]. intros t. apply hull_all_ok_off.
Qed.

Lemma sorted_insert (a b : list Z) (m : Z) :
  StronglySorted Z.lt (a ++ b) ->
  (forall k, In k a -> k < m) -> (forall k, In k b -> m < k) ->
  StronglySorted Z.lt (a ++ m :: b).
Proof.
  intros H Ha Hb. apply sorted_app in H. destruct H as (Hsa & Hsb & Hab).
  apply sorted_app. repeat split; auto.
  - apply sorted_cons. auto.
  - intros x y Hx [<-|Hy]; auto.
Qed.

(** The metrics after [tree_insert]: the metric of the region is put in
    its place when it is not there yet. *)
Lemma tree_insert_keys ins head t :
  ordered t ->
  (In (_min head) (keys t) /\ keys (tree_insert ins head t) = keys t) \/
  (exists a b, keys t = a ++ b /\ keys (tree_insert ins head t) = a ++ _min head :: b /\
     (forall k, In k a -> k < _min head) /\ (forall k, In k b -> _min head < k)).
Proof.
  intros Hs. destruct t as [|l n r].
  - right. exists [], []. cbn. repeat split; auto; intros k [].
  - unfold tree_insert.
    destruct (search (_min head) (T l n r) []) as [[x p] d] eqn:E.
    pose proof (search_plug _ _ _ _ _ _ E) as Hplug. cbn [plug] in Hplug.
    apply search_found in E; auto; try congruence; try (intros k []).
    destruct E as (Hf & Hx & Hl & Hr).
    destruct x as [|xl xn xr]; [destruct Hf|].
    assert (Hk : keys (T l n r) = lefts p ++ keys (T xl xn xr) ++ rights p)
      by (rewrite <- Hplug; apply keys_plug).
    destruct d; cbn [found] in Hf.
    + left. split.
      * rewrite Hk. rewrite !in_app_iff. right. left. cbn [keys].
        rewrite in_app_iff. right. left. assumption.
      * rewrite keys_ripple. rewrite <- Hplug. apply keys_plug_congr. reflexivity.
    + destruct Hf as [-> Hlt]. right.
      exists (lefts p), (keys (T Nil xn xr) ++ rights p). split; [exact Hk|].
      unfold ordered in Hx. cbn [keys app] in Hx. apply sorted_cons in Hx.
      cbn [insert_child]. rewrite keys_rebalance_after_insert.
      rewrite keys_plug. cbn [plug mk keys lefts rights app new_node set_next m_metric].
      rewrite lefts_retarget, rights_retarget.
      split; [reflexivity|]. split; [exact Hl|].
      intros k. cbn [keys app In]. rewrite in_app_iff.
      intros [<-|[Hk'|Hk']]; auto.
      destruct Hx as [_ Hx]. apply Hx in Hk'. lia.
    + destruct Hf as [-> Hlt]. right.
      exists (lefts p ++ keys xl ++ [m_metric xn]), (rights p).
      split; [rewrite Hk; cbn [keys]; repeat rewrite <- app_assoc; reflexivity|].
      unfold ordered in Hx. cbn [keys] in Hx. apply sorted_app in Hx.
      destruct Hx as (_ & _ & Hx).
      cbn [insert_child]. rewrite keys_rebalance_after_insert.
      rewrite keys_plug. cbn [plug mk keys lefts rights app new_node set_next m_metric].
      split; [|split]; [| |exact Hr].
      * repeat rewrite <- app_assoc. reflexivity.
      * intros k. rewrite !in_app_iff. cbn [In].
        intros [Hk'|[Hk'|[<-|[]]]]; auto.
        assert (k < m_metric xn) by (apply Hx; cbn; auto). lia.
Qed.

Lemma tree_insert_ordered ins head t :
  ordered t -> ordered (tree_insert ins head t).
Proof.
  intros Hs. destruct (tree_insert_keys ins head t Hs) as [[_ E]|(a & b & E1 & E2 & Ha & Hb)];
    unfold ordered in *.
  - rewrite E. assumption.
  - rewrite E2. apply sorted_insert; auto. rewrite <- E1. assumption.
Qed.

Lemma tree_insert_In ins head t k :
  ordered t ->
  In k (keys (tree_insert ins head t)) <-> k = _min head \/ In k (keys t).
Proof.
  intros Hs. destruct (tree_insert_keys ins head t Hs) as [[Hin E]|(a & b & E1 & E2 & Ha & Hb)].
  - rewrite E. split; auto. intros [->|]; auto.
  - rewrite E1, E2. rewrite !in_app_iff. cbn [In]. intuition.
Qed.

Lemma widen_same head : widen head head = Interval.make (_min head) (_max head).
Proof. unfold widen. rewrite Z.min_id, Z.max_id. reflexivity. Qed.

(** [tree_insert] keeps the subtree hull invariant. *)
Lemma tree_insert_hull ins head t :
  ordered t -> hull_all t ->
  map fst (ins []) = [_max head] ->
  hull_all (tree_insert ins head t).
Proof.
  intros Hs Hh Hins.
  pose proof (tree_insert_ordered ins head t Hs) as Hs'.
  destruct t as [|l n r].
  - cbn [tree_insert hull_all]. split; [|split; exact I].
    unfold local_ok, fixup_value, local_interval.
    cbn [extend new_node set_color m_sti m_metric m_maxima].
    rewrite Hins. cbn [last]. apply widen_same.
  - unfold tree_insert in *.
    destruct (search (_min head) (T l n r) []) as [[x p] d] eqn:E.
    pose proof (search_plug _ _ _ _ _ _ E) as Hplug. cbn [plug] in Hplug.
    apply search_found in E; auto; try congruence; try (intros k []).
    destruct E as (Hf & _ & _ & _).
    destruct x as [|xl xn xr]; [destruct Hf|].
    rewrite <- Hplug in Hh. apply hull_all_plug_inv in Hh. destruct Hh as [Hx Hp].
    cbn [hull_all] in Hx. destruct Hx as (_ & Hxl & Hxr).
    unfold ordered in Hs'.
    destruct d; cbv beta iota in Hs' |- *.
    + apply ripple_hull_all.
      * apply sorted_NoDup. rewrite keys_ripple in Hs'. exact Hs'.
      * apply ok_off_plug.
        -- cbn [keys set_sti set_maxima m_metric]. rewrite in_app_iff. right. left. reflexivity.
        -- cbn [ok_off]. split; [|split; apply hull_all_ok_off; assumption].
           right. cbn [keys set_sti set_maxima m_metric]. rewrite in_app_iff.
           right. left. reflexivity.
        -- eapply siblings_impl; [|exact Hp]. intros t. apply hull_all_ok_off.
    + cbn [insert_child] in *. apply rebalance_after_insert_hull.
      * apply sorted_NoDup. rewrite keys_rebalance_after_insert in Hs'. exact Hs'.
      * cbn. auto.
      * cbn [ok_off]. split; [|split; exact I]. right. cbn. auto.
      * constructor; [assumption|]. apply siblings_retarget. exact Hp.
    + cbn [insert_child] in *. apply rebalance_after_insert_hull.
      * apply sorted_NoDup. rewrite keys_rebalance_after_insert in Hs'. exact Hs'.
      * cbn. auto.
      * cbn [ok_off]. split; [|split; exact I]. right. cbn. auto.
      * constructor; [assumption|]. exact Hp.
Qed.

End InsertFacts.

(** *** Subsequences *)


Lemma subseq_refl l : subseq l l.
Proof. induction l; [apply subseq_nil|apply subseq_keep; assumption]. Qed.

Lemma subseq_nil_l l : subseq [] l.
Proof. induction l; [apply subseq_nil|apply subseq_skip; assumption]. Qed.

Lemma subseq_app a a' b b' : subseq a a' -> subseq b b' -> subseq (a ++ b) (a' ++ b').
Proof.
  induction 1; cbn [app]; intros; auto.
  - apply subseq_skip. auto.
  - apply subseq_keep. auto.
Qed.

Lemma subseq_In a b : subseq a b -> forall x, In x a -> In x b.
Proof.
  induction 1; intros x Hx; auto.
  - right. auto.
  - destruct Hx as [->|Hx]; [left|right]; auto.
Qed.

Lemma subseq_trans a b c : subseq a b -> subseq b c -> subseq a c.
Proof.
  intros Hab Hbc. revert a Hab.
  induction Hbc; intros x Hab.
  - assumption.
  - apply subseq_skip. auto.
  - inversion Hab; subst.
    + apply subseq_skip. auto.
    + apply subseq_keep. auto.
Qed.

Lemma sorted_subseq a b : subseq a b -> StronglySorted Z.lt b -> StronglySorted Z.lt a.
Proof.
  induction 1; intros Hs; auto.
  - apply sorted_cons in Hs. tauto.
  - apply sorted_cons in Hs. destruct Hs as [Hs Hlt]. apply sorted_cons. split; auto.
    intros y Hy. apply Hlt. eapply subseq_In; eauto.
Qed.

Section RemoveFacts.
Context {X : Type}.
Implicit Types (t l r x w : tree X) (n : node X) (p : path X).

(** *** Pieces of the rebalancing after a removal *)

Lemma ok_off_T k l n r :
  In k (keys (T l n r)) -> ok_off k l -> ok_off k r -> ok_off k (T l n r).
Proof. intros. cbn [ok_off]. auto. Qed.

Lemma ok_off_inv k l n r : ok_off k (T l n r) -> ok_off k l /\ ok_off k r.
Proof. cbn [ok_off]. tauto. Qed.

Lemma ok_off_set_color k c l n r : ok_off k (T l n r) -> ok_off k (T l (set_color c n) r).
Proof. intros H. apply (ok_off_set_tree_color k c) in H. exact H. Qed.

Lemma ok_off_get_child k d t : ok_off k t -> ok_off k (get_child d t).
Proof.
  destruct t as [|l n r]; [auto|]. intros H. apply ok_off_inv in H.
  destruct d; cbn [get_child ok_off]; tauto.
Qed.

Lemma keys_get_child_mk d t :
  d <> NONE ->
  match t with
  | Nil => True
  | T _ n _ => keys (mk d (get_child d t) n (get_child (flip d) t)) = keys t
  end.
Proof. destruct t; [auto|]. destruct d; cbn; congruence. Qed.

Lemma ok_off_mk_in k d (c : tree X) n (s : tree X) :
  In k (keys (mk d c n s)) -> ok_off k c -> ok_off k s -> ok_off k (mk d c n s).
Proof. destruct d; cbn [mk]; intros; apply ok_off_T; auto. Qed.

Lemma keys_mk_eq d (c : tree X) n (s : tree X) :
  keys (mk d c n s) = match d with
                      | RIGHT => keys s ++ m_metric n :: keys c
                      | _ => keys c ++ m_metric n :: keys s
                      end.
Proof. destruct d; reflexivity. Qed.

Lemma ok_off_color_left k c l n r : ok_off k (T l n r) -> ok_off k (T (set_tree_color c l) n r).
Proof.
  cbn [ok_off keys]. intros (H & Hl & Hr). rewrite keys_set_tree_color.
  split; [|split; auto using ok_off_set_tree_color].
  destruct H as [H|H]; [left|right; exact H].
  unfold local_ok, fixup_value in *. rewrite extend_set_tree_color. exact H.
Qed.

Lemma ok_off_color_right k c l n r : ok_off k (T l n r) -> ok_off k (T l n (set_tree_color c r)).
Proof.
  cbn [ok_off keys]. intros (H & Hl & Hr). rewrite keys_set_tree_color.
  split; [|split; auto using ok_off_set_tree_color].
  destruct H as [H|H]; [left|right; exact H].
  unfold local_ok, fixup_value in *. rewrite extend_set_tree_color. exact H.
Qed.

Lemma keys_remove_cases_3_4 near (x : tree X) (pn : node X) w :
  near <> NONE -> w <> Nil ->
  keys (remove_cases_3_4 near x pn w) = keys (mk near x pn w).
Proof.
  intros Hnear Hw. destruct w as [|wl wn wr]; [congruence|].
  unfold remove_cases_3_4.
  destruct near; [congruence| |]; cbn [flip get_child].
  - destruct (is_red wr).
    + rewrite keys_rotate. cbn [mk keys set_color m_metric].
      rewrite keys_set_tree_color. reflexivity.
    + destruct (rotate RIGHT (mk LEFT (set_tree_color BLACK wl) (set_color RED wn) wr))
        as [|a m b] eqn:E.
      * apply (f_equal keys) in E. rewrite keys_rotate in E. cbn in E.
        destruct (keys (set_tree_color BLACK wl)); discriminate.
      * apply (f_equal keys) in E. rewrite keys_rotate in E.
        cbn [mk keys set_color m_metric] in E. rewrite keys_set_tree_color in E.
        rewrite keys_rotate. cbn [mk keys set_color m_metric get_child].
        rewrite keys_set_tree_color. rewrite E. reflexivity.
  - destruct (is_red wl).
    + rewrite keys_rotate. cbn [mk keys set_color m_metric].
      rewrite keys_set_tree_color. reflexivity.
    + destruct (rotate LEFT (mk RIGHT (set_tree_color BLACK wr) (set_color RED wn) wl))
        as [|a m b] eqn:E.
      * apply (f_equal keys) in E. rewrite keys_rotate in E. cbn in E.
        destruct (keys wl); discriminate.
      * apply (f_equal keys) in E. rewrite keys_rotate in E.
        cbn [mk keys set_color m_metric] in E. rewrite keys_set_tree_color in E.
        rewrite keys_rotate. cbn [mk keys set_color m_metric get_child].
        rewrite keys_set_tree_color. rewrite E. reflexivity.
Qed.

Lemma ok_off_remove_cases_3_4 k near (x : tree X) (pn : node X) w :
  near <> NONE -> w <> Nil ->
  In k (keys (mk near x pn w)) -> ok_off k x -> ok_off k w ->
  ok_off k (remove_cases_3_4 near x pn w).
Proof.
  intros Hnear Hw Hin Hn Hok.
  pose proof (keys_remove_cases_3_4 near x pn w Hnear Hw) as Hkeys.
  unfold remove_cases_3_4 in *.
  set (w1 := if is_red (get_child (flip near) w) then w
             else match w with
                  | Nil => Nil
                  | T _ wn _ =>
                      rotate (flip near)
                        (mk near (set_tree_color BLACK (get_child near w))
                           (set_color RED wn) (get_child (flip near) w))
                  end) in *.
  assert (Hw1 : ok_off k w1).
  { subst w1. destruct (is_red (get_child (flip near) w)); [assumption|].
    destruct w as [|wl wn wr]; [exact I|].
    apply rotate_ok_off.
    destruct near; [congruence| |]; cbn [mk get_child flip].
    - apply ok_off_color_left. apply ok_off_set_color. assumption.
    - apply ok_off_color_right. apply ok_off_set_color. assumption. }
  destruct w1 as [|a m b]; [exact I|].
  apply rotate_ok_off. apply ok_off_mk_in.
  - rewrite <- Hkeys in Hin. rewrite keys_rotate in Hin. exact Hin.
  - assumption.
  - destruct near; [congruence| |]; cbn [mk get_child flip].
    + apply ok_off_color_right. apply ok_off_set_color. assumption.
    + apply ok_off_color_left. apply ok_off_set_color. assumption.
Qed.


Lemma siblings_cons (P : tree X -> Prop) d n s p :
  siblings P (F d n s :: p) <-> P s /\ siblings P p.
Proof. unfold siblings. rewrite Forall_cons_iff. reflexivity. Qed.

Lemma anchored_plug k p x :
  anchored k x p -> ok_off k x -> siblings (ok_off k) p -> ok_off k (plug x p).
Proof.
  intros [Hin|Hp] Hx Hs.
  - apply ok_off_plug; assumption.
  - destruct p as [|[d pn s] rest]; [destruct Hp|].
    inversion Hs; subst. cbn [plug]. apply ok_off_plug; auto.
    + apply keys_mk. auto.
    + apply ok_off_mk_in; auto. apply keys_mk. auto.
Qed.

Lemma in_keys_T k l n r :
  In k (keys (T l n r)) <-> In k (keys l) \/ k = m_metric n \/ In k (keys r).
Proof. cbn [keys]. rewrite in_app_iff. cbn [In]. intuition. Qed.

Ltac keys_norm :=
  repeat (rewrite ?keys_plug, ?keys_set_tree_color, ?keys_rotate;
          cbn [lefts rights keys set_color set_sti m_metric mk plug]);
  repeat rewrite <- app_assoc; cbn [app].

Ltac in_keys :=
  repeat (rewrite ?in_keys_T, ?keys_set_tree_color;
          rewrite ?keys_remove_cases_3_4 by congruence;
          cbn [mk set_sti set_color m_metric]).

(** The loop of [rebalance_after_remove] keeps the metrics in their
    order, and leaves a cached hull out of date only at the node of
    metric [k] and above it. *)
Lemma rebalance_remove_loop_spec k : forall p (x : tree X) t,
  rebalance_remove_loop x p = Some t ->
  keys t = keys (plug x p) /\
  (anchored k x p -> ok_off k x -> siblings (ok_off k) p -> ok_off k t).
Proof.
  induction p as [|[d pn w] rest IH]; intros x t H.
  - cbn in H. inversion H. auto.
  - cbn [rebalance_remove_loop] in H. destruct (is_red x).
    { assert (Ht : t = plug (set_tree_color BLACK x) (F d pn w :: rest)) by congruence.
      subst t. split.
      - apply (keys_plug_congr (F d pn w :: rest)). apply keys_set_tree_color.
      - intros Ha Hx Hs. apply anchored_plug; auto using ok_off_set_tree_color.
        destruct Ha as [Ha|Ha]; [left|right; exact Ha].
        rewrite keys_set_tree_color. exact Ha. }
    destruct w as [|wl wn wr]; [discriminate|].
    assert (Hanch : anchored k x (F d pn (T wl wn wr) :: rest) ->
                    forall s : tree X, In k (keys x) \/ k = m_metric pn \/ In k (keys s)).
    { intros [Ha|Ha] s; auto. }
    destruct (color_eqb (m_color wn) RED).
    + assert (Hcase :
        (d <> RIGHT /\ exists a b c, wl = T a b c /\
           ((both_black wl = true /\
             t = plug (set_tree_color BLACK
                   (T x (set_sti (fixup_value x (set_color RED pn) wl) (set_color RED pn))
                      (set_tree_color RED wl)))
                   (F LEFT (set_sti (fixup_value (T x (set_color RED pn) wl)
                                       (set_color BLACK wn) wr) (set_color BLACK wn)) wr
                    :: rest)) \/
            t = plug (remove_cases_3_4 LEFT x
                        (set_sti (fixup_value x (set_color RED pn) wl) (set_color RED pn)) wl)
                   (F LEFT (set_sti (fixup_value (T x (set_color RED pn) wl)
                                       (set_color BLACK wn) wr) (set_color BLACK wn)) wr
                    :: rest))) \/
        (d = RIGHT /\ exists a b c, wr = T a b c /\
           ((both_black wr = true /\
             t = plug (set_tree_color BLACK
                   (T (set_tree_color RED wr)
                      (set_sti (fixup_value wr (set_color RED pn) x) (set_color RED pn)) x))
                   (F RIGHT (set_sti (fixup_value wl (set_color BLACK wn)
                                        (T wr (set_color RED pn) x)) (set_color BLACK wn)) wl
                    :: rest)) \/
            t = plug (remove_cases_3_4 RIGHT x
                        (set_sti (fixup_value wr (set_color RED pn) x) (set_color RED pn)) wr)
                   (F RIGHT (set_sti (fixup_value wl (set_color BLACK wn)
                                        (T wr (set_color RED pn) x)) (set_color BLACK wn)) wl
                    :: rest)))).
      { destruct d; cbn [rotate mk fixup_child structure_fixup get_child flip] in H.
        - left. split; [congruence|]. destruct wl as [|a b c]; [discriminate|].
          exists a, b, c. split; [reflexivity|].
          destruct (both_black (T a b c)); inversion H; auto.
        - left. split; [congruence|]. destruct wl as [|a b c]; [discriminate|].
          exists a, b, c. split; [reflexivity|].
          destruct (both_black (T a b c)); inversion H; auto.
        - right. split; [reflexivity|]. destruct wr as [|a b c]; [discriminate|].
          exists a, b, c. split; [reflexivity|].
          destruct (both_black (T a b c)); inversion H; auto. }
      clear H.
      destruct Hcase as [(Hd & a & b & c & Ewl & Ht)|(Hd & a & b & c & Ewr & Ht)].
      * assert (Hmk : forall y, mk d y pn (T wl wn wr) = T y pn (T wl wn wr))
          by (intros y; destruct d; [reflexivity|reflexivity|congruence]).
        assert (Hwl : wl <> Nil) by congruence.
        cbn [plug]. rewrite Hmk.
        destruct Ht as [[_ ->]| ->]; (split;
          [ keys_norm; rewrite ?keys_remove_cases_3_4 by congruence; keys_norm; reflexivity
          | intros Ha Hx Hs; apply siblings_cons in Hs; destruct Hs as [Hw Hrest];
            apply ok_off_inv in Hw; destruct Hw as [Hokl Hokr];
            specialize (Hanch Ha);
            cbn [plug mk]; apply ok_off_plug; auto;
            [ in_keys; destruct (Hanch wl) as [?|[?|?]]; tauto
            | apply ok_off_T; auto;
              [ in_keys; destruct (Hanch wl) as [?|[?|?]]; tauto
              | ] ] ]).
        -- apply ok_off_set_tree_color. apply ok_off_T; auto using ok_off_set_tree_color.
           in_keys. destruct (Hanch wl) as [?|[?|?]]; tauto.
        -- apply ok_off_remove_cases_3_4; auto; try congruence.
           in_keys. destruct (Hanch wl) as [?|[?|?]]; tauto.
      * subst d.
        assert (Hwr : wr <> Nil) by congruence.
        cbn [plug mk].
        destruct Ht as [[_ ->]| ->]; (split;
          [ keys_norm; rewrite ?keys_remove_cases_3_4 by congruence; keys_norm; reflexivity
          | intros Ha Hx Hs; apply siblings_cons in Hs; destruct Hs as [Hw Hrest];
            apply ok_off_inv in Hw; destruct Hw as [Hokl Hokr];
            specialize (Hanch Ha);
            cbn [plug mk]; apply ok_off_plug; auto;
            [ in_keys; destruct (Hanch wr) as [?|[?|?]]; tauto
            | apply ok_off_T; auto;
              [ in_keys; destruct (Hanch wr) as [?|[?|?]]; tauto
              | ] ] ]).
        -- apply ok_off_set_tree_color. apply ok_off_T; auto using ok_off_set_tree_color.
           in_keys. destruct (Hanch wr) as [?|[?|?]]; tauto.
        -- apply ok_off_remove_cases_3_4; auto; try congruence.
           in_keys. destruct (Hanch wr) as [?|[?|?]]; tauto.
    + set (near := match d with RIGHT => RIGHT | _ => LEFT end) in *.
      assert (Hnear : near <> NONE) by (subst near; destruct d; congruence).
      assert (Hmk : forall y s, mk d y pn s = mk near y pn s)
        by (intros y s; subst near; destruct d; reflexivity).
      cbn [plug]. rewrite Hmk.
      destruct (both_black (T wl wn wr)).
      * apply IH in H. destruct H as [Hk Hok]. split.
        -- rewrite Hk. apply keys_plug_congr.
           apply keys_mk_congr; auto using keys_set_tree_color.
        -- intros Ha Hx Hs. apply siblings_cons in Hs; destruct Hs as [Hw Hrest].
           specialize (Hanch Ha (T wl wn wr)).
           apply Hok; auto.
           ++ left. apply keys_mk. rewrite keys_set_tree_color. exact Hanch.
           ++ apply ok_off_mk_in; auto using ok_off_set_tree_color.
              apply keys_mk. rewrite keys_set_tree_color. exact Hanch.
      * inversion H. split.
        -- apply keys_plug_congr. apply keys_remove_cases_3_4; congruence.
        -- intros Ha Hx Hs. apply siblings_cons in Hs; destruct Hs as [Hw Hrest].
           specialize (Hanch Ha (T wl wn wr)).
           apply ok_off_plug; auto.
           ++ rewrite keys_remove_cases_3_4 by congruence. apply keys_mk. exact Hanch.
           ++ apply ok_off_remove_cases_3_4; auto; try congruence.
              apply keys_mk. exact Hanch.
Qed.

(** *** [remove] *)

Lemma keys_set_next_rightmost k t : keys (set_next_rightmost k t) = keys t.
Proof.
  induction t as [|l IHl n r IHr]; [reflexivity|].
  cbn [set_next_rightmost]. destruct r; [reflexivity|].
  cbn [keys] in *. rewrite IHr. reflexivity.
Qed.

Lemma extend_set_next_rightmost i k t : extend i (set_next_rightmost k t) = extend i t.
Proof. destruct t as [|l n r]; [reflexivity|]. cbn [set_next_rightmost]. destruct r; reflexivity. Qed.

Lemma hull_all_set_next_rightmost k t : hull_all t -> hull_all (set_next_rightmost k t).
Proof.
  induction t as [|l IHl n r IHr]; [auto|].
  cbn [set_next_rightmost]. destruct r as [|rl rn rr].
  - cbn [hull_all]. intros (H & Hl & Hr). auto.
  - intros (H & Hl & Hr). split; [|split; auto].
    unfold local_ok, fixup_value in *. rewrite extend_set_next_rightmost. exact H.
Qed.

Lemma set_next_rightmost_nil k t : set_next_rightmost k t = Nil -> t = Nil.
Proof. destruct t as [|l n r]; [auto|]. cbn. destruct r; discriminate. Qed.

Lemma lefts_set_next_first_right k p : lefts (set_next_first_right k p) = lefts p.
Proof.
  induction p as [|[d n s] p IH]; [reflexivity|].
  destruct d; cbn [set_next_first_right lefts set_next m_metric]; congruence.
Qed.

Lemma rights_set_next_first_right k p : rights (set_next_first_right k p) = rights p.
Proof.
  induction p as [|[d n s] p IH]; [reflexivity|].
  destruct d; cbn [set_next_first_right rights set_next m_metric]; congruence.
Qed.

Lemma siblings_set_next_first_right (P : tree X -> Prop) k p :
  siblings P p -> siblings P (set_next_first_right k p).
Proof.
  induction p as [|[d n s] p IH]; [auto|]. intros H. apply siblings_cons in H.
  destruct d; cbn [set_next_first_right]; apply siblings_cons; tauto.
Qed.

Lemma siblings_app (P : tree X -> Prop) p q :
  siblings P (p ++ q) <-> siblings P p /\ siblings P q.
Proof. unfold siblings. apply Forall_app. Qed.

Lemma lefts_app p q : lefts (p ++ q) = lefts q ++ lefts p.
Proof.
  induction p as [|[d n s] p IH]; cbn [app lefts].
  - rewrite app_nil_r. reflexivity.
  - destruct d; rewrite IH; repeat rewrite <- app_assoc; reflexivity.
Qed.

Lemma rights_app p q : rights (p ++ q) = rights p ++ rights q.
Proof.
  induction p as [|[d n s] p IH]; cbn [app rights]; [reflexivity|].
  destruct d; rewrite IH; cbn [app]; repeat rewrite <- app_assoc; reflexivity.
Qed.

Lemma leftmost_spec : forall t p sn sr ps,
  leftmost t p = Some (sn, sr, ps) ->
  plug (T Nil sn sr) ps = plug t p /\ lefts ps = lefts p.
Proof.
  induction t as [|l IHl n r IHr]; intros p sn sr ps H; [discriminate|].
  cbn [leftmost] in H. destruct l as [|ll ln lr].
  - inversion H; subst. auto.
  - apply IHl in H. destruct H as [H1 H2]. split; [exact H1|exact H2].
Qed.

Lemma subseq_as_leaf c t : subseq (keys (as_leaf c t)) (keys t).
Proof.
  destruct t as [|l n r]; [apply subseq_nil|]. cbn [as_leaf keys set_color m_metric app].
  change (subseq ([] ++ m_metric n :: []) (keys l ++ m_metric n :: keys r)).
  apply subseq_app; [apply subseq_nil_l|]. apply subseq_keep. apply subseq_nil_l.
Qed.

Lemma ok_off_as_leaf c t : forall k, root_key t = Some k -> ok_off k (as_leaf c t).
Proof.
  destruct t as [|l n r]; intros k H; [exact I|]. cbn in H. inversion H; subst.
  cbn. auto.
Qed.

Lemma rebalance_after_remove_spec k c (x : tree X) p t :
  rebalance_after_remove k c x p = Some t ->
  keys t = keys (plug x p) /\
  (NoDup (keys (plug x p)) -> anchored k x p -> ok_off k x -> siblings (ok_off k) p ->
   hull_all t).
Proof.
  unfold rebalance_after_remove. intros H.
  destruct (color_eqb c BLACK).
  - destruct (rebalance_remove_loop x p) as [t0|] eqn:E; [|discriminate].
    inversion H; subst. apply (rebalance_remove_loop_spec k) in E. destruct E as [Hk Hok].
    rewrite keys_ripple. split; [exact Hk|].
    intros Hnd Ha Hx Hs. apply ripple_hull_all; [rewrite Hk; exact Hnd|auto].
  - inversion H; subst. rewrite keys_ripple. split; [reflexivity|].
    intros Hnd Ha Hx Hs. apply ripple_hull_all; [exact Hnd|].
    apply anchored_plug; auto.
Qed.

Lemma remove_finish k c (x : tree X) p t (S : list Z) :
  option_map (set_tree_color BLACK) (rebalance_after_remove k c x p) = Some t ->
  subseq (keys (plug x p)) S ->
  subseq (keys t) S /\
  (StronglySorted Z.lt S -> anchored k x p -> ok_off k x -> siblings hull_all p ->
   hull_all t).
Proof.
  intros H Hsub.
  destruct (rebalance_after_remove k c x p) as [t0|] eqn:E; [|discriminate].
  cbn in H. inversion H; subst. apply rebalance_after_remove_spec in E.
  destruct E as [Hk Hh]. rewrite keys_set_tree_color, Hk. split; [exact Hsub|].
  intros HS Ha Hx Hs. apply hull_all_set_tree_color. apply Hh; auto.
  - apply sorted_NoDup. eapply sorted_subseq; eauto.
  - eapply siblings_impl; [|exact Hs]. intros y. apply hull_all_ok_off.
Qed.

Lemma subseq_app_skip a b c : subseq b c -> subseq b (a ++ c).
Proof. induction a; cbn [app]; auto. intros. apply subseq_skip. auto. Qed.

Lemma subseq_app_r a b c : subseq a b -> subseq a (b ++ c).
Proof.
  intros H. rewrite <- (app_nil_r a). apply subseq_app; [exact H|apply subseq_nil_l].
Qed.

Lemma remove_two_children (l : tree X) (this : node X) r p t :
  match leftmost r [] with
  | None => None
  | Some (sn, sr, ps) =>
      if match m_next this with Some k => k =? m_metric sn | None => false end then
        let sn' := set_color (m_color this) sn in
        match sr with
        | T _ srn _ =>
            option_map (set_tree_color BLACK)
              (rebalance_after_remove (m_metric srn) (m_color srn)
                 (as_leaf (m_color sn) sr) (removal_path ps sn' l p))
        | Nil =>
            let k := match ps with
                     | F _ pn _ :: _ => m_metric pn
                     | [] => m_metric sn
                     end in
            option_map (set_tree_color BLACK)
              (rebalance_after_remove k (m_color sn) Nil (removal_path ps sn' l p))
        end
      else None
  end = Some t ->
  subseq (keys t) (lefts p ++ keys l ++ keys r ++ rights p) /\
  (StronglySorted Z.lt (lefts p ++ keys l ++ keys r ++ rights p) ->
   hull_all l -> hull_all r -> siblings hull_all p -> hull_all t).
Proof.
  intros H.
  destruct (leftmost r []) as [[[sn sr] ps]|] eqn:E; [|discriminate].
  destruct (match m_next this with Some k => k =? m_metric sn | None => false end);
    [|discriminate].
  apply leftmost_spec in E. destruct E as [Hr Hlf]. cbn [plug lefts] in Hr, Hlf.
  subst r. rewrite keys_plug, Hlf. cbn [keys app]. cbv zeta in H.
  assert (Hsub : forall x : tree X, subseq (keys x) (keys sr) ->
     subseq (keys (plug x (removal_path ps (set_color (m_color this) sn) l p)))
            (lefts p ++ keys l ++ (m_metric sn :: keys sr ++ rights ps) ++ rights p)).
  { intros x Hx. unfold removal_path. rewrite keys_plug, lefts_app, rights_app, Hlf.
    cbn [lefts rights set_color m_metric]. rewrite app_nil_r.
    repeat rewrite <- app_assoc. cbn [app]. repeat rewrite <- app_assoc.
    apply subseq_app; [apply subseq_refl|]. apply subseq_app; [apply subseq_refl|].
    apply subseq_keep. apply subseq_app; [exact Hx|apply subseq_refl]. }
  assert (Hsib : hull_all l -> hull_all (plug (T Nil sn sr) ps) -> siblings hull_all p ->
     siblings hull_all (removal_path ps (set_color (m_color this) sn) l p)).
  { intros Hl Hr Hp. apply hull_all_plug_inv in Hr. destruct Hr as [_ Hps].
    unfold removal_path. apply siblings_app. split; [exact Hps|].
    apply siblings_cons. auto. }
  destruct sr as [|sl srn srr].
  - apply remove_finish with (S := lefts p ++ keys l ++ (m_metric sn :: keys (@Nil X) ++ rights ps) ++ rights p) in H.
    + destruct H as [H1 H2]. split; [exact H1|].
      intros HS Hl Hr Hp. apply H2; auto.
      * right. unfold removal_path. destruct ps as [|[d pn s] ps']; reflexivity.
      * exact I.
    + apply Hsub. apply subseq_refl.
  - apply remove_finish with (S := lefts p ++ keys l ++ (m_metric sn :: keys (T sl srn srr) ++ rights ps) ++ rights p) in H.
    + destruct H as [H1 H2]. split; [exact H1|].
      intros HS Hl Hr Hp. apply H2; auto.
      * left. cbn. auto.
      * apply ok_off_as_leaf. reflexivity.
    + apply Hsub. apply subseq_as_leaf.
Qed.

(** [remove] takes the metric of the node out, keeps the order of the
    others and the subtree hull invariant. *)
Lemma remove_spec l (this : node X) r p t :
  remove l this r p = Some t ->
  subseq (keys t) (lefts p ++ keys l ++ keys r ++ rights p) /\
  (ordered (plug (T l this r) p) -> hull_all l -> hull_all r -> siblings hull_all p ->
   hull_all t).
Proof.
  unfold remove, ordered. rewrite keys_plug. cbn [keys].
  set (l' := match l with Nil => l | _ => set_next_rightmost (m_next this) l end).
  assert (Hkl : keys l' = keys l)
    by (subst l'; destruct l; [reflexivity|apply keys_set_next_rightmost]).
  assert (Hhl : hull_all l -> hull_all l')
    by (subst l'; destruct l; [auto|apply hull_all_set_next_rightmost]).
  set (p' := match l' with Nil => set_next_first_right (m_next this) p | _ => p end).
  assert (Hlp : lefts p' = lefts p)
    by (subst p'; destruct l'; [apply lefts_set_next_first_right|reflexivity]).
  assert (Hrp : rights p' = rights p)
    by (subst p'; destruct l'; [apply rights_set_next_first_right|reflexivity]).
  assert (Hsp : siblings hull_all p -> siblings hull_all p')
    by (subst p'; destruct l'; [apply siblings_set_next_first_right|auto]).
  rewrite <- Hkl, <- Hlp, <- Hrp. clearbody p'. clearbody l'.
  intros H.
  assert (Hgoal : forall S : list Z,
     subseq (keys t) (lefts p' ++ keys l' ++ keys r ++ rights p') /\
     (StronglySorted Z.lt (lefts p' ++ keys l' ++ keys r ++ rights p') ->
      hull_all l' -> hull_all r -> siblings hull_all p' -> hull_all t) ->
     subseq (keys t) (lefts p' ++ keys l' ++ keys r ++ rights p') /\
     (StronglySorted Z.lt (lefts p' ++ (keys l' ++ m_metric this :: keys r) ++ rights p') ->
      hull_all l -> hull_all r -> siblings hull_all p -> hull_all t)).
  { intros _ [H1 H2]. split; [exact H1|]. intros HS Hl Hr Hp. apply H2; auto.
    eapply sorted_subseq; [|exact HS].
    apply subseq_app; [apply subseq_refl|]. rewrite <- app_assoc.
    apply subseq_app; [apply subseq_refl|]. cbn [app]. apply subseq_skip. apply subseq_refl. }
  apply (Hgoal []). clear Hgoal Hkl Hhl Hlp Hrp Hsp l p.
  destruct l' as [|ll ln lr]; destruct r as [|rl rn rr].
  - destruct p' as [|[d pn s] rest].
    + inversion H; subst. cbn. split; [apply subseq_nil|auto].
    + apply remove_finish with (S := lefts (F d pn s :: rest) ++ keys (@Nil X) ++ keys (@Nil X) ++ rights (F d pn s :: rest)) in H.
      * destruct H as [H1 H2]. split; [exact H1|].
        intros HS Hl Hr Hp. apply H2; auto;
          try (right; reflexivity); try (left; cbn; auto); try exact I;
          try (apply ok_off_as_leaf; reflexivity).
      * rewrite keys_plug. apply subseq_refl.
  - destruct p' as [|[d pn s] rest].
    + assert (Ht : t = set_tree_color BLACK (T rl rn rr)) by (cbv beta iota in H; congruence).
      subst t. rewrite keys_set_tree_color. cbn [lefts rights app keys].
      rewrite app_nil_r. split; [apply subseq_refl|].
      intros. apply hull_all_set_tree_color. assumption.
    + cbv beta iota in H.
      apply remove_finish with (S := lefts (F d pn s :: rest) ++ keys (@Nil X) ++ keys (T rl rn rr) ++ rights (F d pn s :: rest)) in H.
      * destruct H as [H1 H2]. split; [exact H1|].
        intros HS Hl Hr Hp. apply H2; auto;
          try (right; reflexivity); try (left; cbn; auto); try exact I;
          try (apply ok_off_as_leaf; reflexivity).
      * rewrite keys_plug. apply subseq_app; [apply subseq_refl|].
        cbn [keys app]. apply subseq_app; [|apply subseq_refl].
        apply (subseq_as_leaf (m_color this) (T rl rn rr)).
  - destruct p' as [|[d pn s] rest].
    + assert (Ht : t = set_tree_color BLACK (T ll ln lr)) by (cbv beta iota in H; congruence).
      subst t. rewrite keys_set_tree_color. cbn [lefts rights app keys].
      rewrite !app_nil_r. split; [apply subseq_refl|].
      intros. apply hull_all_set_tree_color. assumption.
    + cbv beta iota in H.
      apply remove_finish with (S := lefts (F d pn s :: rest) ++ keys (T ll ln lr) ++ keys (@Nil X) ++ rights (F d pn s :: rest)) in H.
      * destruct H as [H1 H2]. split; [exact H1|].
        intros HS Hl Hr Hp. apply H2; auto;
          try (right; reflexivity); try (left; cbn; auto); try exact I;
          try (apply ok_off_as_leaf; reflexivity).
      * rewrite keys_plug. apply subseq_app; [apply subseq_refl|].
        cbn [keys app]. apply subseq_app; [|apply subseq_refl].
        apply (subseq_as_leaf (m_color this) (T ll ln lr)).
  - apply (remove_two_children (T ll ln lr) this (T rl rn rr) p' t).
    destruct p'; exact H.
Qed.

End RemoveFacts.

Section EraseFacts.
Context {X : Type}.
Implicit Types (t l r x w : tree X) (n : node X) (p : path X).

(** *** Erasing *)

Lemma locate_spec k : forall t p x p',
  locate k t p = Some (x, p') -> plug x p' = plug t p /\ root_key x = Some k.
Proof.
  induction t as [|l IHl n r IHr]; intros p x p' H; [discriminate|].
  cbn [locate] in H. destruct (m_metric n =? k) eqn:E.
  - inversion H; subst. apply Z.eqb_eq in E. cbn. split; congruence.
  - destruct (locate k l (F LEFT n r :: p)) as [z|] eqn:El.
    + inversion H; subst. apply IHl in El. exact El.
    + apply IHr in H. exact H.
Qed.

Lemma hull_all_plug_congr p : forall x x',
  (forall i, extend i x = extend i x') -> hull_all x' ->
  hull_all (plug x p) -> hull_all (plug x' p).
Proof.
  induction p as [|[d n s] p IH]; intros x x' He Hx' H; [exact Hx'|].
  cbn [plug] in *. apply (IH (mk d x n s)); auto.
  - intros i. destruct d; reflexivity.
  - apply hull_all_plug_inv in H. destruct H as [H _].
    destruct d; cbn [mk hull_all] in *; destruct H as (H & Hl & Hr);
      unfold local_ok, fixup_value in *; rewrite <- ?He; auto.
Qed.

Lemma map_fst_set_nth (v : X) : forall i c, map fst (set_nth i v c) = map fst c.
Proof.
  induction i as [|i IH]; intros [|[m v'] c]; cbn; try reflexivity.
  rewrite IH. reflexivity.
Qed.

Lemma set_inner_spec k i v t t' :
  set_inner k i v t = Some t' ->
  keys t' = keys t /\ (hull_all t -> hull_all t').
Proof.
  unfold set_inner. intros H.
  destruct (locate k t []) as [[[|l n r] p]|] eqn:E; try discriminate.
  inversion H; subst. apply locate_spec in E. destruct E as [E _]. cbn [plug] in E.
  subst t. split.
  - apply keys_plug_congr. reflexivity.
  - intros Hh. eapply hull_all_plug_congr; [| |exact Hh].
    + intros i0. reflexivity.
    + apply hull_all_plug_inv in Hh. destruct Hh as [Hh _].
      cbn [hull_all] in *. destruct Hh as (H1 & Hl & Hr). split; [|split]; auto.
      unfold local_ok, fixup_value, local_interval in *.
      cbn [set_maxima m_sti m_metric m_maxima]. rewrite map_fst_set_nth. exact H1.
Qed.

Lemma erase_inner_spec k i t t' :
  erase_inner k i t = Some t' ->
  ordered t -> hull_all t -> ordered t' /\ hull_all t'.
Proof.
  unfold erase_inner. intros H Hs Hh.
  destruct (locate k t []) as [[[|l n r] p]|] eqn:E; try discriminate.
  apply locate_spec in E. destruct E as [E Hk]. cbn [plug] in E. cbn in Hk.
  inversion Hk; subst k. subst t.
  set (n' := set_maxima (erase_nth i (m_maxima n)) n) in *.
  assert (Hkeys : keys (plug (T l n' r) p) = keys (plug (T l n r) p))
    by (apply keys_plug_congr; reflexivity).
  pose proof (hull_all_plug_inv _ _ Hh) as [Hx Hp].
  cbn [hull_all] in Hx. destruct Hx as (_ & Hl & Hr).
  destruct (m_maxima n') eqn:Em.
  - apply remove_spec in H. destruct H as [Hsub Hhull].
    unfold ordered in *. rewrite <- Hkeys in Hs. split.
    + eapply sorted_subseq; [exact Hsub|].
      rewrite keys_plug in Hs. eapply sorted_subseq; [|exact Hs].
      apply subseq_app; [apply subseq_refl|]. cbn [keys]. rewrite <- app_assoc.
      apply subseq_app; [apply subseq_refl|]. cbn [app]. apply subseq_skip. apply subseq_refl.
    + apply Hhull; auto.
  - inversion H; subst t'. unfold ordered in *. rewrite keys_ripple, Hkeys. split; [exact Hs|].
    apply ripple_hull_all.
    + rewrite Hkeys. apply sorted_NoDup. exact Hs.
    + apply ok_off_plug.
      * cbn. rewrite in_app_iff. right. left. reflexivity.
      * apply ok_off_T; auto using hull_all_ok_off.
        cbn. rewrite in_app_iff. right. left. reflexivity.
      * eapply siblings_impl; [|exact Hp]. intros y. apply hull_all_ok_off.
Qed.

(** Every state of a layer is in order and has the subtree hull invariant. *)
Lemma reachable_invariant t : reachable t -> ordered t /\ hull_all t.
Proof.
  induction 1 as [|ins head t Hr [IHs IHh] Hins|k i t t' Hr [IHs IHh] He|k i v t t' Hr [IHs IHh] He].
  - split; [constructor|exact I].
  - split; [apply tree_insert_ordered|apply tree_insert_hull]; assumption.
  - eapply erase_inner_spec; eassumption.
  - apply set_inner_spec in He. destruct He as [Hk Hh]. unfold ordered. rewrite Hk. auto.
Qed.

(** A rotation of a tree that has the invariant gives a tree that has it. *)
Lemma rotate_hull_all d t : hull_all t -> hull_all (rotate d t).
Proof.
  intros H.
  set (k := 1 + fold_right Z.max 0 (keys t)).
  assert (Hk : ~ In k (keys (rotate d t))).
  { rewrite keys_rotate. subst k. generalize (keys t). intros ks Hin.
    assert (forall y, In y ks -> y <= fold_right Z.max 0 ks).
    { clear Hin. induction ks as [|a ks IH]; intros y []; cbn [fold_right]; subst; try lia.
      apply IH in H0. lia. }
    apply H0 in Hin. lia. }
  apply (ok_off_hull_all k); [|exact Hk].
  apply rotate_ok_off. apply hull_all_ok_off. exact H.
Qed.

End EraseFacts.

Section LayerFacts.
Context {P : Type}.

Lemma insert_tree_reachable n : forall (r : region n) (v : P) (L : layer P n),
  layer_tree_reachable L -> layer_tree_reachable (insert n r v L).
Proof.
  destruct n as [|k]; intros r v L H; cbn [insert layer_tree_reachable] in *.
  - apply reach_insert; [exact H|reflexivity].
  - apply reach_insert; [exact H|reflexivity].
Qed.

Lemma erase_tree_reachable n : forall (spot : cursor n) (L L' : layer P n),
  layer_tree_reachable L -> erase n spot L = Some L' -> layer_tree_reachable L'.
Proof.
  destruct n as [|k]; intros spot L L' H He; cbn [erase layer_tree_reachable] in *.
  - destruct spot as [[key|] i]; [|inversion He; subst; exact H].
    destruct (inner_of key L) as [c|]; [|discriminate].
    destruct (i <? length c)%nat; [|inversion He; subst; exact H].
    eapply reach_erase; eassumption.
  - destruct spot as [[[key|] i] m_lower]; [|inversion He; subst; exact H].
    destruct (inner_of key L) as [c|]; [|discriminate].
    destruct (nth_error c i) as [[m lower]|]; [|inversion He; subst; exact H].
    destruct (erase k m_lower lower) as [lower'|]; [|discriminate].
    destruct (is_empty lower').
    + eapply reach_erase; eassumption.
    + eapply reach_set; eassumption.
Qed.

Lemma layer_reachable_tree n (L : layer P n) :
  layer_reachable n L -> layer_tree_reachable L.
Proof.
  induction 1 as [|r v L HL IH|spot L L' HL IH He].
  - destruct n; cbn; apply reach_empty.
  - apply insert_tree_reachable. exact IH.
  - eapply erase_tree_reachable; eassumption.
Qed.

Lemma layer_tree_reachable_hull n (L : layer P n) :
  layer_tree_reachable L -> layer_hull L.
Proof.
  destruct n; cbn [layer_tree_reachable layer_hull]; intros H;
    apply reachable_invariant in H; tauto.
Qed.

End LayerFacts.

(** C2: after every [insert] and every [erase] on a layer, every node of
    its tree has the subtree hull invariant: the cached hull [m_sti] is
    the hull of the local interval (the metric up to the largest key of the
    inner set) and of the cached hulls of the children.  A rotation
    recomputes the hull of the two rotated nodes, and the ripple from the
    node of metric [k] to the root then restores the invariant in a tree
    where it failed at that node and above it only. *)
Theorem C2_subtree_hull_invariant :
  (forall (P : Type) (n : nat) (L : layer P n), layer_reachable n L -> layer_hull L) /\
  (forall (X : Type) (d : direction) (k : Z) (t : tree X),
     NoDup (keys t) -> ok_off k t ->
     hull_all (ripple_structure_fixup k (rotate d t))).
Proof.
  split.
  - intros P n L H. apply layer_tree_reachable_hull. apply layer_reachable_tree. exact H.
  - intros X d k t Hnd Hok. apply ripple_hull_all.
    + rewrite keys_rotate. exact Hnd.
    + apply rotate_ok_off. exact Hok.
Qed.

Lemma C2_subtree_hull_invariant_witness :
  exists L : layer nat 1, sample = Some L /\ layer_reachable 1 L /\ layer_hull L.
Proof.
  destruct sample as [L|] eqn:E; [|vm_compute in E; discriminate].
  exists L. split; [reflexivity|].
  assert (H : layer_reachable 1 L).
  { eapply lr_erase; [|exact E]. repeat apply lr_insert. apply lr_empty. }
  split; [exact H|].
  exact (proj1 C2_subtree_hull_invariant nat 1%nat L H).
Defined.

(** *** Intersection and inclusion *)

Lemma has_intersection_within q a b :
  valid a -> within a b -> has_intersection q a = true -> has_intersection q b = true.
Proof.
  unfold valid, within, has_intersection. intros Ha [H1 H2] H.
  apply orb_true_iff in H. apply orb_true_iff.
  rewrite !andb_true_iff, !Z.leb_le in *.
  destruct H as [[H3 H4]|[H3 H4]].
  - left. lia.
  - destruct (Z_le_gt_dec (_min q) (_min b)); [right|left]; lia.
Qed.

Lemma within_refl a : within a a.
Proof. unfold within. lia. Qed.

Lemma within_trans a b c : within a b -> within b c -> within a c.
Proof. unfold within. lia. Qed.

Lemma within_hull_l a b : valid a -> valid b -> within a (hull a b).
Proof.
  intros Ha Hb. unfold within. rewrite hull_min, hull_max by assumption. lia.
Qed.

Lemma within_hull_r a b : valid a -> valid b -> within b (hull a b).
Proof.
  intros Ha Hb. unfold within. rewrite hull_min, hull_max by assumption. lia.
Qed.

Section CursorTreeFacts.
Context {X : Type}.
Implicit Types (t l r x : tree X) (n : node X) (p : path X).

(** *** The nodes in order *)

Lemma keys_nodes t : keys t = map (@m_metric X) (nodes t).
Proof.
  induction t as [|l IHl n r IHr]; [reflexivity|].
  cbn [keys nodes]. rewrite map_app. cbn [map]. congruence.
Qed.

Lemma nodes_plug p : forall t, nodes (plug t p) = nlefts p ++ nodes t ++ nrights p.
Proof.
  induction p as [|[d n s] p IH]; intros t.
  - cbn. rewrite app_nil_r. reflexivity.
  - cbn [plug]. rewrite IH. destruct d; cbn [mk nodes nlefts nrights];
      repeat rewrite <- app_assoc; cbn [app]; reflexivity.
Qed.

Lemma locate_some k : forall t p,
  In k (keys t) -> exists x p', locate k t p = Some (x, p').
Proof.
  induction t as [|l IHl n r IHr]; intros p H; [destruct H|].
  cbn [locate]. destruct (m_metric n =? k) eqn:E; [eauto|].
  apply Z.eqb_neq in E. cbn [keys] in H. apply in_app_iff in H.
  destruct H as [H|[H|H]]; [|congruence|].
  - destruct (IHl (F LEFT n r :: p) H) as (x & p' & Hx). rewrite Hx. eauto.
  - destruct (locate k l (F LEFT n r :: p)) as [[x p']|]; [eauto|].
    apply IHr. exact H.
Qed.

Lemma split_unique (A A' B B' : list (node X)) n n' :
  NoDup (map (@m_metric X) (A ++ n :: B)) ->
  A ++ n :: B = A' ++ n' :: B' -> m_metric n = m_metric n' ->
  A = A' /\ n = n' /\ B = B'.
Proof.
  revert A'. induction A as [|a A IH]; intros A' Hnd He Hk.
  - destruct A' as [|a' A']; cbn [app] in He.
    + inversion He. auto.
    + inversion He; subst. exfalso. cbn in Hnd. inversion Hnd as [|? ? Hni _]; subst.
      apply Hni. rewrite Hk, map_app. apply in_or_app. right. left. reflexivity.
  - destruct A' as [|a' A']; cbn [app] in He.
    + inversion He; subst. exfalso. cbn in Hnd. inversion Hnd as [|? ? Hni _]; subst.
      apply Hni. rewrite <- Hk, map_app. apply in_or_app. right. left. reflexivity.
    + inversion He; subst. cbn in Hnd. inversion Hnd; subst.
      destruct (IH A') as (-> & -> & ->); auto.
Qed.

(** The handle of a node of the tree is found, with the nodes before and
    after it. *)
Lemma locate_node t (A B : list (node X)) n :
  NoDup (keys t) -> nodes t = A ++ n :: B ->
  exists l r p, locate (m_metric n) t [] = Some (T l n r, p) /\
    plug (T l n r) p = t /\
    A = nlefts p ++ nodes l /\ B = nodes r ++ nrights p.
Proof.
  intros Hnd Hn.
  assert (Hin : In (m_metric n) (keys t)).
  { rewrite keys_nodes, Hn, map_app. apply in_or_app. right. left. reflexivity. }
  destruct (locate_some _ t [] Hin) as (x & p & Hl).
  pose proof (locate_spec _ _ _ _ _ Hl) as [Hp Hk]. cbn [plug] in Hp.
  destruct x as [|l n' r]; [discriminate|]. cbn in Hk. inversion Hk as [Hk'].
  pose proof (nodes_plug p (T l n' r)) as Hnp. rewrite Hp, Hn in Hnp.
  cbn [nodes] in Hnp. rewrite <- app_assoc in Hnp. cbn [app] in Hnp.
  rewrite app_assoc in Hnp.
  rewrite keys_nodes, Hn in Hnd.
  destruct (split_unique _ _ _ _ _ _ Hnd Hnp (eq_sym Hk')) as (HA & Hnn & HB).
  subst n'. exists l, r, p. auto.
Qed.

Lemma node_of_node t (A B : list (node X)) n :
  NoDup (keys t) -> nodes t = A ++ n :: B -> node_of (m_metric n) t = Some n.
Proof.
  intros Hnd Hn. destruct (locate_node t A B n Hnd Hn) as (l & r & p & Hl & _).
  unfold node_of. rewrite Hl. reflexivity.
Qed.

(** *** The cached hull covers the subtree *)

Lemma hull_all_within t :
  hull_all t ->
  match t with
  | Nil => True
  | T _ rn _ => Forall (fun n => within (local_interval n) (m_sti rn)) (nodes t)
  end.
Proof.
  induction t as [|l IHl n r IHr]; [auto|]. intros H.
  pose proof H as (Hloc & Hl & Hr).
  pose proof (hull_all_sti_valid _ Hl) as Hvl.
  pose proof (hull_all_sti_valid _ Hr) as Hvr.
  specialize (IHl Hl). specialize (IHr Hr).
  unfold local_ok, fixup_value in Hloc.
  pose proof (local_interval_valid n) as Hvn.
  assert (Hvx : valid (extend (local_interval n) l)) by (apply extend_valid; assumption).
  assert (H1 : within (extend (local_interval n) l) (m_sti n)).
  { rewrite Hloc. destruct r as [|rl rn rr]; cbn [extend]; [apply within_refl|].
    apply within_hull_l; assumption. }
  cbn [nodes]. apply Forall_app. split; [|constructor].
  - destruct l as [|ll ln lr]; [constructor|]. cbn [extend] in *.
    eapply Forall_impl; [|exact IHl]. intros a Ha.
    eapply within_trans; [exact Ha|]. eapply within_trans; [|exact H1].
    apply within_hull_r; assumption.
  - eapply within_trans; [|exact H1].
    destruct l as [|ll ln lr]; cbn [extend]; [apply within_refl|].
    apply within_hull_l; assumption.
  - destruct r as [|rl rn rr]; [constructor|]. cbn [extend] in *.
    eapply Forall_impl; [|exact IHr]. intros a Ha.
    eapply within_trans; [exact Ha|]. rewrite Hloc.
    apply within_hull_r; assumption.
Qed.

Lemma no_tree_no_local q t :
  hull_all t ->
  match t with
  | Nil => True
  | T _ rn _ => intersects_tree q rn = false ->
                Forall (fun n => intersects_local q n = false) (nodes t)
  end.
Proof.
  intros H. pose proof (hull_all_within t H) as Hw. destruct t as [|l rn r]; [auto|].
  intros Hq. eapply Forall_impl; [|exact Hw]. intros a Ha.
  unfold intersects_local, intersects_tree in *.
  destruct (has_intersection q (local_interval a)) eqn:E; [|reflexivity].
  apply (has_intersection_within q _ _ (local_interval_valid a) Ha) in E. congruence.
Qed.

(** [first] is the first node in order with an intersecting local interval. *)
Lemma first_nodes q t :
  hull_all t ->
  first q t = option_map (@m_metric X) (find (intersects_local q) (nodes t)).
Proof.
  induction t as [|l IHl n r IHr]; [reflexivity|]. intros H.
  pose proof (no_tree_no_local q _ H) as Hno.
  destruct H as (_ & Hl & Hr). specialize (IHl Hl). specialize (IHr Hr).
  cbn [first nodes]. rewrite IHl.
  assert (Hfind : forall (a b : list (node X)),
     find (intersects_local q) (a ++ b) =
     match find (intersects_local q) a with Some z => Some z | None => find (intersects_local q) b end).
  { induction a as [|h a IHa]; intros b; [reflexivity|]. cbn [app find].
    destruct (intersects_local q h); auto. }
  rewrite Hfind. cbn [find].
  destruct (intersects_local q n) eqn:En.
  - destruct (find (intersects_local q) (nodes l)); reflexivity.
  - destruct (intersects_tree q n) eqn:Et.
    + rewrite IHr. destruct (find (intersects_local q) (nodes l)); reflexivity.
    + cbv beta iota in Hno. specialize (Hno Et). cbn [nodes] in Hno.
      assert (Hnone : forall (a : list (node X)),
         Forall (fun n => intersects_local q n = false) a -> find (intersects_local q) a = None).
      { induction a as [|h a IHa]; intros Hf; [reflexivity|]. inversion Hf; subst.
        cbn [find]. rewrite H1. auto. }
      apply Forall_app in Hno. destruct Hno as [Hnl Hnr]. inversion Hnr; subst.
      rewrite (Hnone _ Hnl), (Hnone _ H2). reflexivity.
Qed.

(** *** [find_intersecting] *)

Lemma path_keys_plug k p : forall x,
  In k (path_keys p) -> In k (lefts p ++ rights p).
Proof.
  induction p as [|[d n s] p IH]; intros x H; [destruct H|].
  cbn [path_keys map] in H. destruct H as [<-|H].
  - destruct d; cbn [lefts rights]; rewrite ?in_app_iff; cbn [In]; rewrite ?in_app_iff;
      cbn [In]; tauto.
  - specialize (IH x H). apply in_app_iff in IH.
    destruct d; cbn [lefts rights]; rewrite ?in_app_iff; cbn [In]; rewrite ?in_app_iff; tauto.
Qed.

Lemma path_key_not_below k p x :
  NoDup (keys (plug x p)) -> In k (path_keys p) -> ~ In k (keys x).
Proof.
  intros Hnd Hk Hx. rewrite keys_plug in Hnd.
  apply (path_keys_plug k p x) in Hk.
  destruct (in_split _ _ Hx) as (K1 & K2 & HK). rewrite HK in Hnd.
  replace (lefts p ++ (K1 ++ k :: K2) ++ rights p)
    with ((lefts p ++ K1) ++ k :: (K2 ++ rights p)) in Hnd
    by (repeat rewrite <- app_assoc; reflexivity).
  apply NoDup_remove_2 in Hnd. apply Hnd.
  rewrite !in_app_iff. apply in_app_iff in Hk. tauto.
Qed.

Lemma backtrack_spec q c : forall p child,
  cand_ok c p ->
  match backtrack c child p with
  | Return k => up q c p = k
  | Onward s p' =>
      s <> Nil /\
      up q c p = match first q s with Some k => Some k | None => up q c p' end /\
      plug s p' = plug child p /\ cand_ok c p' /\
      (2 * size s + 1 + pcost p' <= pcost p)%nat
  | Lost => False
  end.
Proof.
  induction p as [|[d pn s] p IH]; intros child Hc.
  - cbn [backtrack]. destruct c; [destruct Hc|reflexivity].
  - cbn [backtrack up].
    destruct (match c with Some c0 => c0 =? m_metric pn | None => false end) eqn:E;
      [reflexivity|].
    assert (Hc' : cand_ok c p).
    { destruct c as [k|]; [|exact I]. cbn in Hc. destruct Hc as [Hc|Hc]; [|exact Hc].
      apply Z.eqb_neq in E. congruence. }
    assert (Hrec : match backtrack c (mk d child pn s) p with
      | Return k => up q c p = k
      | Onward s0 p' =>
          s0 <> Nil /\
          up q c p = match first q s0 with Some k => Some k | None => up q c p' end /\
          plug s0 p' = plug child (F d pn s :: p) /\ cand_ok c p' /\
          (2 * size s0 + 1 + pcost p' <= pcost (F d pn s :: p))%nat
      | Lost => False
      end).
    { specialize (IH (mk d child pn s) Hc').
      destruct (backtrack c (mk d child pn s) p) as [k|s0 p'|]; auto.
      destruct IH as (H1 & H2 & H3 & H4 & H5). repeat split; auto.
      destruct d; cbn [pcost]; lia. }
    destruct d; [destruct s|destruct s|]; try exact Hrec.
    + split; [discriminate|]. split; [|split; [|split]].
      * cbn [up]. rewrite E. reflexivity.
      * reflexivity.
      * destruct c as [k|]; [|exact I]. cbn in Hc |- *. exact Hc.
      * cbn [pcost]. lia.
    + split; [discriminate|]. split; [|split; [|split]].
      * cbn [up]. rewrite E. reflexivity.
      * reflexivity.
      * destruct c as [k|]; [|exact I]. cbn in Hc |- *. exact Hc.
      * cbn [pcost]. lia.
Qed.

Lemma leaf_tree_local q n :
  hull_all (T Nil n Nil) -> intersects_tree q n = intersects_local q n.
Proof.
  intros (H & _). unfold local_ok, fixup_value in H. cbn [extend] in H.
  unfold intersects_tree, intersects_local. rewrite H. reflexivity.
Qed.

Lemma cand_not_here c p l n r :
  NoDup (keys (plug (T l n r) p)) -> cand_ok c p ->
  match c with Some k => k =? m_metric n | None => false end = false.
Proof.
  intros Hnd Hc. destruct c as [k|]; [|reflexivity].
  apply Z.eqb_neq. intros ->.
  apply (path_key_not_below _ _ _ Hnd Hc). cbn [keys]. apply in_app_iff. right. left.
  reflexivity.
Qed.

Lemma find_loop_spec q : forall fuel l n r p c,
  (2 * size (T l n r) + 1 + pcost p <= fuel)%nat ->
  hull_all (plug (T l n r) p) -> NoDup (keys (plug (T l n r) p)) -> cand_ok c p ->
  find_loop fuel q c (T l n r) p
  = Some (match first q (T l n r) with Some k => Some k | None => up q c p end).
Proof.
  induction fuel as [|fuel IH]; intros l n r p c Hf Hh Hnd Hc; [lia|].
  assert (Hsz : size (T l n r) = (size l + 1 + size r)%nat).
  { unfold size. cbn [nodes]. rewrite length_app. cbn [length]. lia. }
  pose proof (hull_all_plug_inv _ _ Hh) as [Hx _].
  pose proof (cand_not_here c p l n r Hnd Hc) as Hcn.
  cbn [find_loop first].
  destruct (intersects_local q n) eqn:El.
  - destruct l as [|ll ln lr].
    + destruct fuel; [lia|]. reflexivity.
    + rewrite IH; auto.
      * cbn [up]. rewrite Z.eqb_refl. destruct (first q (T ll ln lr)); reflexivity.
      * cbn [pcost]. lia.
      * cbn. auto.
  - destruct (intersects_tree q n) eqn:Et.
    + destruct l as [|ll ln lr].
      * destruct r as [|rl rn rr].
        -- rewrite (leaf_tree_local q n Hx) in Et. congruence.
        -- rewrite IH; auto.
           ++ cbn [first up]. rewrite Hcn. reflexivity.
           ++ cbn [pcost]. unfold size in *. cbn [nodes length app] in *. lia.
           ++ destruct c; [right|]; auto.
      * rewrite IH; auto.
        -- cbn [up]. rewrite Hcn.
           destruct (first q (T ll ln lr)); [reflexivity|].
           destruct r; reflexivity.
        -- cbn [pcost]. lia.
        -- destruct c; [right|]; auto.
    + pose proof (backtrack_spec q c p (T l n r) Hc) as Hb.
      destruct (backtrack c (T l n r) p) as [k|s p'|]; [congruence| |destruct Hb].
      destruct Hb as (Hs & Hup & Hpl & Hc' & Hcost).
      destruct s as [|sl sn sr]; [congruence|].
      rewrite IH; auto.
      * rewrite Hup. reflexivity.
      * lia.
      * rewrite Hpl. exact Hh.
      * rewrite Hpl. exact Hnd.
Qed.

(** [find_intersecting] gives the first node in order whose local
    interval intersects. *)
Lemma find_intersecting_spec q t :
  hull_all t -> NoDup (keys t) ->
  find_intersecting q t
  = Some (option_map (@m_metric X) (find (intersects_local q) (nodes t))).
Proof.
  intros Hh Hnd. unfold find_intersecting. rewrite <- first_nodes by assumption.
  destruct t as [|l n r]; [reflexivity|].
  rewrite find_loop_spec; auto.
  - destruct (first q (T l n r)); reflexivity.
  - cbn [pcost]. lia.
  - exact I.
Qed.

(** *** [scan] *)

Lemma threaded_app (A B : list (node X)) :
  threaded (A ++ B) -> threaded B.
Proof. induction A as [|a A IH]; cbn [app threaded]; [auto|]. intros [_ H]. auto. Qed.

Lemma threaded_next (A B : list (node X)) n :
  threaded (A ++ n :: B) -> m_next n = head_key B.
Proof.
  intros H. apply threaded_app in H. cbn [threaded] in H. destruct H as [H _].
  rewrite H. destruct B; reflexivity.
Qed.

Lemma threaded_last (A B C : list (node X)) n :
  threaded (A ++ (C ++ [n]) ++ B) -> m_next n = head_key B.
Proof.
  intros H. rewrite <- app_assoc in H. rewrite app_assoc in H. cbn [app] in H.
  eapply threaded_next. exact H.
Qed.

Lemma rightmost_last n r : exists C, n :: nodes r = C ++ [rightmost n r].
Proof.
  revert n. induction r as [|rl IHl rn rr IHr]; intros n.
  - exists []. reflexivity.
  - cbn [rightmost nodes]. destruct (IHr rn) as [C HC].
    exists (n :: nodes rl ++ C). cbn [app]. rewrite HC, <- app_assoc. reflexivity.
Qed.

Lemma find_none (f : node X -> bool) (B : list (node X)) :
  Forall (fun n => f n = false) B -> find f B = None.
Proof.
  induction 1 as [|h B Hh _ IH]; [reflexivity|]. cbn [find]. rewrite Hh. exact IH.
Qed.

Lemma find_app_none (f : node X -> bool) (A B : list (node X)) :
  Forall (fun n => f n = false) A -> find f (A ++ B) = find f B.
Proof.
  induction 1 as [|h A Hh _ IH]; [reflexivity|]. cbn [app find]. rewrite Hh. exact IH.
Qed.

Lemma find_split (f : node X -> bool) (B : list (node X)) n :
  find f B = Some n ->
  exists B0 B1, B = B0 ++ n :: B1 /\ Forall (fun n => f n = false) B0 /\ f n = true.
Proof.
  induction B as [|h B IH]; [discriminate|]. cbn [find].
  destruct (f h) eqn:E.
  - intros H. inversion H; subst. exists [], B. auto.
  - intros H. destruct (IH H) as (B0 & B1 & -> & H0 & H1).
    exists (h :: B0), B1. auto.
Qed.

Lemma last_in (ks : list Z) (d : Z) : ks <> [] -> In (last ks d) ks.
Proof.
  induction ks as [|a ks IH]; [congruence|]. intros _. destruct ks as [|b ks].
  - cbn. auto.
  - right. apply IH. discriminate.
Qed.

Lemma local_interval_ok n :
  inner_ok n ->
  _min (local_interval n) = m_metric n /\ m_metric n <= _max (local_interval n).
Proof.
  intros (Hne & _ & Hle). unfold local_interval, Interval.make. cbn [_min _max].
  assert (m_metric n <= last (map fst (m_maxima n)) (m_metric n)).
  { destruct (m_maxima n) as [|e c] eqn:E; [congruence|].
    assert (Hin : In (last (map fst (e :: c)) (m_metric n)) (map fst (e :: c)))
      by (apply last_in; discriminate).
    apply in_map_iff in Hin. destruct Hin as (e' & He' & Hin).
    rewrite Forall_forall in Hle. specialize (Hle e' Hin). lia. }
  lia.
Qed.

Lemma beyond_no_local q (B : list (node X)) m :
  valid q -> _max q < m ->
  Forall inner_ok B -> Forall (fun n => m <= m_metric n) B ->
  Forall (fun n => intersects_local q n = false) B.
Proof.
  intros Hq Hm Hok Hge. rewrite Forall_forall in *. intros n Hn.
  destruct (local_interval_ok n (Hok n Hn)) as [H1 H2]. specialize (Hge n Hn).
  unfold intersects_local, has_intersection, valid in *.
  apply orb_false_iff. rewrite !andb_false_iff, !Z.leb_gt. lia.
Qed.

Lemma sorted_after (A B : list (node X)) n :
  StronglySorted Z.lt (map (@m_metric X) (A ++ n :: B)) ->
  Forall (fun n' => m_metric n <= m_metric n') B.
Proof.
  rewrite map_app. cbn [map]. intros H. apply sorted_app in H.
  destruct H as (_ & H & _). apply sorted_cons in H. destruct H as [_ H].
  rewrite Forall_forall. intros n' Hn'. assert (m_metric n < m_metric n'); [|lia].
  apply H. apply in_map. exact Hn'.
Qed.

Lemma scan_loop_spec q t :
  well_formed t -> valid q ->
  forall fuel (A B : list (node X)),
  nodes t = A ++ B -> (length B < fuel)%nat ->
  scan_loop fuel q (head_key B) t
  = Some (option_map (@m_metric X) (find (intersects_local q) B)).
Proof.
  intros (Hord & Hh & Hth & Hin) Hq.
  pose proof (sorted_NoDup _ Hord) as Hnd.
  induction fuel as [|fuel IH]; intros A B Hn Hlen; [lia|].
  destruct B as [|n B']; [reflexivity|].
  cbn [head_key scan_loop].
  destruct (locate_node t A B' n Hnd Hn) as (l & r & p & Hl & Hp & HA & HB).
  rewrite Hl. cbn [find length] in *.
  destruct (intersects_local q n) eqn:El; [reflexivity|].
  destruct (_max q <? m_metric n) eqn:Em.
  - apply Z.ltb_lt in Em. rewrite find_none; [reflexivity|].
    apply (beyond_no_local q B' (m_metric n)); auto.
    + rewrite Hn in Hin. apply Forall_app in Hin. destruct Hin as [_ Hin].
      inversion Hin; assumption.
    + unfold ordered in Hord. rewrite keys_nodes, Hn in Hord.
      apply (sorted_after A B' n Hord).
  - destruct (intersects_tree q n) eqn:Et.
    + rewrite Hn in Hth. rewrite (threaded_next A B' n Hth).
      apply (IH (A ++ [n])); [|lia]. rewrite Hn, <- app_assoc. reflexivity.
    + destruct (rightmost_last n r) as [C HC].
      assert (Hn' : nodes t = A ++ (C ++ [rightmost n r]) ++ nrights p).
      { rewrite Hn, HB, <- HC. reflexivity. }
      rewrite Hn' in Hth. rewrite (threaded_last A (nrights p) C _ Hth).
      rewrite HB. rewrite find_app_none.
      * apply (IH (A ++ C ++ [rightmost n r])).
        -- rewrite Hn'. repeat rewrite <- app_assoc. reflexivity.
        -- rewrite HB, length_app in Hlen. lia.
      * rewrite <- Hp in Hh. apply hull_all_plug_inv in Hh. destruct Hh as [Hx _].
        pose proof (no_tree_no_local q _ Hx) as Hno. cbv beta iota in Hno.
        specialize (Hno Et). cbn [nodes] in Hno. apply Forall_app in Hno.
        destruct Hno as [_ Hno]. inversion Hno; assumption.
Qed.

(** [scan] moves to the next node with an intersecting local interval. *)
Lemma scan_spec q t (A B : list (node X)) n i :
  well_formed t -> valid q -> nodes t = A ++ n :: B ->
  scan q (Some (m_metric n), i) t
  = Some match find (intersects_local q) B with
         | Some n' => (Some (m_metric n'), lower_bound (_min q) (m_maxima n'))
         | None => (None, i)
         end.
Proof.
  intros Hwf Hq Hn. pose proof Hwf as (Hord & Hh & Hth & Hin).
  pose proof (sorted_NoDup _ Hord) as Hnd.
  unfold scan. cbn [fst snd]. rewrite (node_of_node t A B n Hnd Hn).
  rewrite Hn in Hth. rewrite (threaded_next A B n Hth).
  rewrite (scan_loop_spec q t Hwf Hq (S (size t)) (A ++ [n]) B).
  - destruct (find (intersects_local q) B) as [n'|] eqn:Ef; [|reflexivity].
    cbn [option_map]. apply find_split in Ef. destruct Ef as (B0 & B1 & -> & _ & _).
    rewrite (node_of_node t (A ++ n :: B0) B1 n' Hnd); [reflexivity|].
    rewrite Hn, <- app_assoc. reflexivity.
  - rewrite Hn, <- app_assoc. reflexivity.
  - unfold size. rewrite Hn, length_app. cbn [length]. lia.
Qed.

End CursorTreeFacts.

Section InnerFacts.
Context {X : Type}.
Implicit Types (c : list (Z * X)) (n : node X).

Lemma lower_bound_le m c : (lower_bound m c <= length c)%nat.
Proof.
  induction c as [|[k v] c IH]; cbn [lower_bound length]; [lia|].
  destruct (k <? m); lia.
Qed.

Lemma lower_bound_lt m c :
  (exists e, In e c /\ m <= fst e) -> (lower_bound m c < length c)%nat.
Proof.
  induction c as [|[k v] c IH]; intros (e & He & Hm); [destruct He|].
  cbn [lower_bound length]. destruct (k <? m) eqn:E; [|lia].
  apply Z.ltb_lt in E. destruct He as [<-|He]; [cbn in Hm; lia|].
  assert (lower_bound m c < length c)%nat by (apply IH; eauto). lia.
Qed.

Lemma local_max n :
  inner_ok n -> exists e, In e (m_maxima n) /\ _max (local_interval n) = fst e.
Proof.
  intros (Hne & _ & Hle).
  assert (Hin : In (last (map fst (m_maxima n)) (m_metric n)) (map fst (m_maxima n))).
  { apply last_in. destruct (m_maxima n); [congruence|discriminate]. }
  apply in_map_iff in Hin. destruct Hin as (e & He & Hin). exists e. split; [exact Hin|].
  rewrite Forall_forall in Hle. specialize (Hle e Hin).
  unfold local_interval, Interval.make. cbn [_max]. lia.
Qed.

Lemma intersecting_lower_bound q n :
  inner_ok n -> intersects_local q n = true ->
  (lower_bound (_min q) (m_maxima n) < length (m_maxima n))%nat.
Proof.
  intros Hok Hq. destruct (local_max n Hok) as (e & He & Hmax).
  destruct (local_interval_ok n Hok) as [Hmin Hle].
  apply lower_bound_lt. exists e. split; [exact He|]. rewrite <- Hmax.
  unfold intersects_local, has_intersection in Hq.
  apply orb_true_iff in Hq. rewrite !andb_true_iff, !Z.leb_le in Hq. lia.
Qed.

Lemma skipn_nth (A : Type) (l : list A) i e :
  nth_error l i = Some e -> skipn i l = e :: skipn (S i) l.
Proof.
  revert i. induction l as [|a l IH]; intros [|i] H; try discriminate.
  - inversion H. reflexivity.
  - cbn [nth_error] in H. cbn [skipn]. rewrite (IH i H). reflexivity.
Qed.

Lemma nth_error_lt (A : Type) (l : list A) i :
  (i < length l)%nat -> exists e, nth_error l i = Some e.
Proof.
  intros H. destruct (nth_error l i) as [e|] eqn:E; [eauto|].
  apply nth_error_None in E. lia.
Qed.

End InnerFacts.

Section MatchingFacts.
Context {X E : Type}.
Variable expand : node X -> Z * X -> list E.
Implicit Types (n : node X) (t : tree X).

Lemma node_matching_none q n :
  intersects_local q n = false -> node_matching expand q n = [].
Proof. unfold node_matching. intros ->. reflexivity. Qed.

Lemma matching_skip q (B : list (node X)) :
  Forall (fun n => intersects_local q n = false) B ->
  flat_map (node_matching expand q) B = [].
Proof.
  induction 1 as [|n B Hn _ IH]; [reflexivity|].
  cbn [flat_map]. rewrite IH, node_matching_none by assumption. reflexivity.
Qed.

Lemma matching_skip_app q (B0 B1 : list (node X)) :
  Forall (fun n => intersects_local q n = false) B0 ->
  flat_map (node_matching expand q) (B0 ++ B1) = flat_map (node_matching expand q) B1.
Proof.
  intros H. rewrite flat_map_app, matching_skip by assumption. reflexivity.
Qed.

(** The elements from the next intersecting node on. *)
Lemma matching_find q (B : list (node X)) :
  match find (intersects_local q) B with
  | Some n' =>
      exists B0 B1, B = B0 ++ n' :: B1 /\ intersects_local q n' = true /\
        flat_map (node_matching expand q) B
        = flat_map (expand n') (skipn (lower_bound (_min q) (m_maxima n')) (m_maxima n'))
          ++ flat_map (node_matching expand q) B1
  | None => flat_map (node_matching expand q) B = []
  end.
Proof.
  destruct (find (intersects_local q) B) as [n'|] eqn:Ef.
  - apply find_split in Ef. destruct Ef as (B0 & B1 & -> & H0 & H1).
    exists B0, B1. split; [reflexivity|]. split; [exact H1|].
    rewrite matching_skip_app by assumption. cbn [flat_map].
    unfold node_matching at 1. rewrite H1. reflexivity.
  - apply matching_skip. clear - Ef.
    induction B as [|h B IH]; [constructor|]. cbn [find] in Ef.
    destruct (intersects_local q h) eqn:E; [discriminate|]. constructor; auto.
Qed.

End MatchingFacts.

Section BottomFacts.
Context {X : Type}.
Implicit Types (n : node X) (t : tree X).

Lemma is_valid_node t (A B : list (node X)) n i :
  NoDup (keys t) -> nodes t = A ++ n :: B ->
  is_valid (Some (m_metric n), i) t = (i <? length (m_maxima n))%nat.
Proof.
  intros Hnd Hn. unfold is_valid. cbn [fst snd].
  rewrite (node_of_node t A B n Hnd Hn). reflexivity.
Qed.

Lemma inner_at_node t (A B : list (node X)) n i e :
  NoDup (keys t) -> nodes t = A ++ n :: B -> nth_error (m_maxima n) i = Some e ->
  inner_at (Some (m_metric n), i) t = Some (Interval.make (m_metric n) (fst e), snd e).
Proof.
  intros Hnd Hn He. unfold inner_at. cbn [fst snd].
  rewrite (node_of_node t A B n Hnd Hn), He. destruct e. reflexivity.
Qed.

Lemma wf_inner_ok t (A B : list (node X)) n :
  well_formed t -> nodes t = A ++ n :: B -> inner_ok n.
Proof.
  intros (_ & _ & _ & H) Hn. rewrite Hn in H. apply Forall_app in H.
  destruct H as [_ H]. inversion H; assumption.
Qed.

(** [validate_forward] on a bottom cursor at or after the last inner
    entry of its node. *)
Lemma bottom_validate_forward_spec q t (A B : list (node X)) n i :
  well_formed t -> valid q -> nodes t = A ++ n :: B ->
  (i <= length (m_maxima n))%nat ->
  exists c, bottom_validate_forward q (Some (m_metric n), i) t = Some c /\
    bottom_at q t c (flat_map (bottom_expand n) (skipn i (m_maxima n))
                     ++ flat_map (node_matching bottom_expand q) B).
Proof.
  intros Hwf Hq Hn Hi. pose proof Hwf as (Hord & _).
  pose proof (sorted_NoDup _ Hord) as Hnd.
  unfold bottom_validate_forward. rewrite (is_valid_node t A B n i Hnd Hn).
  destruct (i <? length (m_maxima n))%nat eqn:E.
  - apply Nat.ltb_lt in E. destruct (nth_error_lt _ _ _ E) as [e He].
    eexists. split; [reflexivity|]. rewrite (skipn_nth _ _ _ _ He). cbn [flat_map].
    rewrite <- app_assoc. apply (bottom_at_node q t A n B i e Hn He).
  - apply Nat.ltb_ge in E. rewrite skipn_all2 by lia. cbn [flat_map app].
    rewrite (scan_spec q t A B n i Hwf Hq Hn).
    pose proof (matching_find bottom_expand q B) as Hm.
    destruct (find (intersects_local q) B) as [n'|].
    + destruct Hm as (B0 & B1 & HB & Hloc & Hm). eexists. split; [reflexivity|].
      rewrite Hm.
      assert (Hn' : nodes t = (A ++ n :: B0) ++ n' :: B1)
        by (rewrite Hn, HB, <- app_assoc; reflexivity).
      pose proof (wf_inner_ok t _ _ n' Hwf Hn') as Hok.
      pose proof (intersecting_lower_bound q n' Hok Hloc) as Hlb.
      destruct (nth_error_lt _ _ _ Hlb) as [e He].
      rewrite (skipn_nth _ _ _ _ He). cbn [flat_map]. rewrite <- app_assoc.
      apply (bottom_at_node q t _ n' B1 _ e Hn' He).
    + eexists. split; [reflexivity|]. rewrite Hm. constructor.
Qed.

Lemma bottom_make_cursor_spec q t :
  well_formed t -> valid q ->
  exists c, bottom_make_cursor q t = Some c /\
    bottom_at q t c (tree_matching bottom_expand q t).
Proof.
  intros Hwf Hq. pose proof Hwf as (Hord & Hh & _).
  pose proof (sorted_NoDup _ Hord) as Hnd.
  unfold bottom_make_cursor, tree_matching.
  rewrite (find_intersecting_spec q t Hh Hnd).
  pose proof (matching_find bottom_expand q (nodes t)) as Hm.
  destruct (find (intersects_local q) (nodes t)) as [n|]; cbn [option_map].
  - destruct Hm as (A & B & Hn & Hloc & Hm).
    unfold fill_inner_cursor. rewrite (node_of_node t A B n Hnd Hn).
    rewrite Hm. apply (bottom_validate_forward_spec q t A B n); auto.
    apply lower_bound_le.
  - eexists. split; [reflexivity|]. rewrite Hm. constructor.
Qed.

Lemma bottom_next_spec q t c e es :
  well_formed t -> valid q -> bottom_at q t c (e :: es) ->
  inner_at c t = Some e /\
  exists c', bottom_next q c t = Some c' /\ bottom_at q t c' es.
Proof.
  intros Hwf Hq H. pose proof Hwf as (Hord & _).
  pose proof (sorted_NoDup _ Hord) as Hnd.
  inversion H as [|A n B i e0 Hn He Hc Hes]; subst.
  split.
  - apply (inner_at_node t A B n i e0 Hnd Hn He).
  - unfold bottom_next. rewrite (is_valid_node t A B n i Hnd Hn).
    assert (Hi : (i < length (m_maxima n))%nat) by (apply nth_error_Some; congruence).
    apply Nat.ltb_lt in Hi. rewrite Hi. cbn [fst snd].
    apply Nat.ltb_lt in Hi.
    apply (bottom_validate_forward_spec q t A B n (S i)); auto.
Qed.

Lemma bottom_at_valid q t c es :
  well_formed t -> bottom_at q t c es ->
  is_valid c t = match es with [] => false | _ => true end.
Proof.
  intros (Hord & _) H. pose proof (sorted_NoDup _ Hord) as Hnd.
  inversion H as [|A n B i e0 Hn He Hc Hes]; subst; [reflexivity|].
  rewrite (is_valid_node t A B n i Hnd Hn). cbn [bottom_expand app].
  apply Nat.ltb_lt. apply nth_error_Some. congruence.
Qed.

Lemma bottom_at_end_iff q t c es :
  bottom_at q t c es ->
  match fst c with None => true | Some _ => false end
  = match es with [] => true | _ => false end.
Proof. intros H. inversion H; subst; reflexivity. Qed.

End BottomFacts.

Section UpperFacts.
Context {Lo C R P : Type}.
Variable lo_make_cursor : R -> Lo -> option C.
Variable lo_next : R -> C -> Lo -> option C.
Variable lo_is_valid : C -> Lo -> bool.
Variable lo_deref : C -> Lo -> option (R * P).
Variable lo_default : C.
Variable lo_matching : R -> Lo -> list (R * P).
Variable lo_at : R -> Lo -> C -> list (R * P) -> Prop.
Variable lo_wf : Lo -> Prop.
Variable tail_valid : R -> Prop.

Hypothesis lo_make_cursor_spec : forall tail lo,
  lo_wf lo -> tail_valid tail ->
  exists c, lo_make_cursor tail lo = Some c /\ lo_at tail lo c (lo_matching tail lo).
Hypothesis lo_is_valid_spec : forall tail lo c es,
  lo_wf lo -> tail_valid tail -> lo_at tail lo c es ->
  lo_is_valid c lo = match es with [] => false | _ => true end.
Hypothesis lo_next_spec : forall tail lo c e es,
  lo_wf lo -> tail_valid tail -> lo_at tail lo c (e :: es) ->
  lo_deref c lo = Some e /\
  exists c', lo_next tail c lo = Some c' /\ lo_at tail lo c' es.

Variable q : interval.
Variable tail : R.
Variable t : tree Lo.
Hypothesis Hwf : well_formed t.
Hypothesis Hsub : Forall (fun n => Forall (fun e => lo_wf (snd e)) (m_maxima n)) (nodes t).
Hypothesis Hq : valid q.
Hypothesis Htail : tail_valid tail.

Local Abbreviation expand := (upper_expand lo_matching tail).
Local Abbreviation at_ := (upper_at lo_matching lo_at q tail t).

Lemma upper_nodup : NoDup (keys t).
Proof. destruct Hwf as (Hord & _). apply sorted_NoDup. exact Hord. Qed.

Lemma sub_wf (A B : list (node Lo)) n i e :
  nodes t = A ++ n :: B -> nth_error (m_maxima n) i = Some e -> lo_wf (snd e).
Proof.
  intros Hn He. rewrite Hn in Hsub. apply Forall_app in Hsub. destruct Hsub as [_ H].
  inversion H as [|? ? H1 _]; subst. rewrite Forall_forall in H1. apply H1.
  eapply nth_error_In. exact He.
Qed.

Lemma lower_of_node (A B : list (node Lo)) n i e :
  nodes t = A ++ n :: B -> nth_error (m_maxima n) i = Some e ->
  lower_of (Some (m_metric n), i) t = Some (snd e).
Proof.
  intros Hn He. unfold lower_of. rewrite (inner_at_node t A B n i e upper_nodup Hn He). reflexivity.
Qed.

Lemma lower_of_end (A B : list (node Lo)) n i :
  nodes t = A ++ n :: B -> (length (m_maxima n) <= i)%nat ->
  lower_of (Some (m_metric n), i) t = None.
Proof.
  intros Hn Hi. unfold lower_of, inner_at. cbn [fst snd].
  rewrite (node_of_node t A B n upper_nodup Hn).
  apply nth_error_None in Hi. rewrite Hi. reflexivity.
Qed.

Lemma fill_lower_cursor_spec (A B : list (node Lo)) n i e :
  nodes t = A ++ n :: B -> nth_error (m_maxima n) i = Some e ->
  exists lc, fill_lower_cursor lo_make_cursor tail (Some (m_metric n), i) t
             = Some ((Some (m_metric n), i), lc) /\
             lo_at tail (snd e) lc (lo_matching tail (snd e)).
Proof.
  intros Hn He. unfold fill_lower_cursor. rewrite (lower_of_node A B n i e Hn He).
  destruct (lo_make_cursor_spec tail (snd e) (sub_wf A B n i e Hn He) Htail) as (lc & H1 & H2).
  rewrite H1. eauto.
Qed.

Lemma turns_app (A B : list (node Lo)) : turns (A ++ B) = (turns A + turns B)%nat.
Proof. induction A as [|a A IH]; cbn [app turns fold_right] in *; [reflexivity|]. unfold turns in *. lia. Qed.

(** The loop of [validate_forward]: from an inner entry with a lower
    cursor, or from the end of the inner set of a node, it moves to the
    next inner entry under which the lower layer has an element. *)
Lemma upper_validate_loop_spec : forall fuel (A B : list (node Lo)) n i lc target,
  nodes t = A ++ n :: B ->
  ((exists e les, nth_error (m_maxima n) i = Some e /\ lo_at tail (snd e) lc les /\
      target = map (prefix n e) les ++ later expand q n i B) \/
   (i = length (m_maxima n) /\ target = flat_map (node_matching expand q) B)) ->
  (length (m_maxima n) - i + turns B + 2 <= fuel)%nat ->
  exists c', upper_validate_loop lo_make_cursor lo_is_valid fuel q tail
               ((Some (m_metric n), i), lc) t = Some c' /\
             at_ c' target.
Proof.
  induction fuel as [|fuel IH]; intros A B n i lc target Hn Hpre Hm; [lia|].
  cbn [upper_validate_loop fst snd].
  destruct Hpre as [(e & les & He & Hat & ->)|[-> ->]].
  - unfold lower_is_valid. cbn [fst snd]. rewrite (lower_of_node A B n i e Hn He).
    rewrite (lo_is_valid_spec tail (snd e) lc les (sub_wf A B n i e Hn He) Htail Hat).
    assert (Hi : (i < length (m_maxima n))%nat) by (apply nth_error_Some; congruence).
    destruct les as [|le les].
    + rewrite (is_valid_node t A B n i upper_nodup Hn).
      destruct (Nat.ltb_spec i (length (m_maxima n))) as [_|]; [|lia].
      rewrite (is_valid_node t A B n (S i) upper_nodup Hn).
      destruct (Nat.ltb_spec (S i) (length (m_maxima n))) as [Hi'|Hi'].
      * destruct (nth_error_lt _ _ _ Hi') as [e' He'].
        destruct (fill_lower_cursor_spec A B n (S i) e' Hn He') as (lc' & Hf & Hat').
        rewrite Hf. apply (IH A B n (S i) lc'); [exact Hn| |lia].
        left. exists e', (lo_matching tail (snd e')). split; [exact He'|]. split; [exact Hat'|].
        cbn [map app]. unfold later. rewrite (skipn_nth _ _ _ _ He'). cbn [flat_map].
        rewrite <- app_assoc. reflexivity.
      * apply (IH A B n (S i) lc); [exact Hn| |lia].
        right. split; [lia|]. cbn [map app]. unfold later.
        rewrite skipn_all2 by lia. reflexivity.
    + eexists. split; [reflexivity|]. apply (upper_at_node _ _ _ _ _ A n B i e lc); auto.
      discriminate.
  - unfold lower_is_valid. cbn [fst snd]. rewrite (lower_of_end A B n _ Hn) by lia.
    rewrite (is_valid_node t A B n _ upper_nodup Hn). rewrite Nat.ltb_irrefl.
    rewrite (scan_spec q t A B n _ Hwf Hq Hn).
    pose proof (matching_find expand q B) as Hmf.
    destruct (find (intersects_local q) B) as [n'|].
    + destruct Hmf as (B0 & B1 & HB & Hloc & Hmf).
      assert (Hn' : nodes t = (A ++ n :: B0) ++ n' :: B1)
        by (rewrite Hn, HB, <- app_assoc; reflexivity).
      pose proof (wf_inner_ok t _ _ n' Hwf Hn') as Hok.
      pose proof (intersecting_lower_bound q n' Hok Hloc) as Hlb.
      destruct (nth_error_lt _ _ _ Hlb) as [e' He'].
      destruct (fill_lower_cursor_spec _ B1 n' _ e' Hn' He') as (lc' & Hf & Hat').
      rewrite Hf. apply (IH (A ++ n :: B0) B1 n' _ lc'); [exact Hn'| |].
      * left. exists e', (lo_matching tail (snd e')). split; [exact He'|]. split; [exact Hat'|].
        rewrite Hmf. rewrite (skipn_nth _ _ _ _ He'). cbn [flat_map].
        rewrite <- app_assoc. reflexivity.
      * rewrite HB, turns_app in Hm. cbn [turns fold_right] in Hm. unfold turns. lia.
    + destruct fuel; [lia|]. cbn [upper_validate_loop fst snd].
      eexists. split; [reflexivity|]. rewrite Hmf. constructor.
Qed.

Lemma turns_bound (A B : list (node Lo)) n i :
  nodes t = A ++ n :: B ->
  (length (m_maxima n) - i + turns B + 2 <= turns (nodes t) + 2)%nat.
Proof.
  intros Hn. rewrite Hn, turns_app. cbn [turns fold_right]. unfold turns. lia.
Qed.

Lemma upper_make_cursor_spec :
  exists c, upper_make_cursor lo_make_cursor lo_is_valid lo_default q tail t = Some c /\
            at_ c (tree_matching expand q t).
Proof.
  pose proof Hwf as (_ & Hh & _).
  unfold upper_make_cursor, tree_matching.
  rewrite (find_intersecting_spec q t Hh upper_nodup).
  pose proof (matching_find expand q (nodes t)) as Hmf.
  destruct (find (intersects_local q) (nodes t)) as [n|]; cbn [option_map].
  - destruct Hmf as (A & B & Hn & Hloc & Hmf).
    unfold fill_inner_cursor. rewrite (node_of_node t A B n upper_nodup Hn).
    pose proof (wf_inner_ok t _ _ n Hwf Hn) as Hok.
    pose proof (intersecting_lower_bound q n Hok Hloc) as Hlb.
    rewrite (is_valid_node t A B n _ upper_nodup Hn).
    destruct (Nat.ltb_spec (lower_bound (_min q) (m_maxima n)) (length (m_maxima n)));
      [|lia].
    destruct (nth_error_lt _ _ _ Hlb) as [e He].
    destruct (fill_lower_cursor_spec A B n _ e Hn He) as (lc & Hf & Hat).
    rewrite Hf. unfold upper_validate_forward.
    apply (upper_validate_loop_spec _ A B n _ lc); [exact Hn| |apply (turns_bound A B n _ Hn)].
    left. exists e, (lo_matching tail (snd e)). split; [exact He|]. split; [exact Hat|].
    rewrite Hmf. rewrite (skipn_nth _ _ _ _ He). cbn [flat_map].
    rewrite <- app_assoc. reflexivity.
  - eexists. split; [reflexivity|]. rewrite Hmf. constructor.
Qed.

Lemma upper_next_spec c e es :
  at_ c (e :: es) ->
  upper_deref lo_deref c t = Some e /\
  exists c', upper_next lo_make_cursor lo_next lo_is_valid q tail c t = Some c' /\ at_ c' es.
Proof.
  intros H. inversion H as [|A n B i e0 lc les Hn He Hat Hne Hc Hes]; subst.
  destruct les as [|le les]; [congruence|]. cbn [map app] in Hes. inversion Hes; subst.
  pose proof (sub_wf A B n i e0 Hn He) as Hlo.
  destruct (lo_next_spec tail (snd e0) lc le les Hlo Htail Hat) as (Hd & lc' & Hnx & Hat').
  split.
  - unfold upper_deref. cbn [fst snd]. rewrite (inner_at_node t A B n i e0 upper_nodup Hn He).
    rewrite Hd. destruct le. reflexivity.
  - unfold upper_next. cbn [fst snd]. rewrite (is_valid_node t A B n i upper_nodup Hn).
    assert (Hi : (i < length (m_maxima n))%nat) by (apply nth_error_Some; congruence).
    destruct (Nat.ltb_spec i (length (m_maxima n))); [|lia].
    rewrite (lower_of_node A B n i e0 Hn He), Hnx. unfold upper_validate_forward.
    apply (upper_validate_loop_spec _ A B n i lc'); [exact Hn| |apply (turns_bound A B n _ Hn)].
    left. exists e0, les. auto.
Qed.

Lemma upper_at_valid c es :
  at_ c es -> is_valid (fst c) t = match es with [] => false | _ => true end.
Proof.
  intros H. inversion H as [|A n B i e0 lc les Hn He Hat Hne Hc Hes]; subst; [reflexivity|].
  cbn [fst]. rewrite (is_valid_node t A B n i upper_nodup Hn).
  assert (Hi : (i < length (m_maxima n))%nat) by (apply nth_error_Some; congruence).
  destruct (Nat.ltb_spec i (length (m_maxima n))); [|lia].
  destruct les; [congruence|reflexivity].
Qed.

Lemma upper_at_end_iff c es :
  at_ c es ->
  match fst (fst c) with None => true | Some _ => false end
  = match es with [] => true | _ => false end.
Proof.
  intros H. inversion H as [|A n B i e0 lc les Hn He Hat Hne Hc Hes]; subst; [reflexivity|].
  cbn [fst]. destruct les; [congruence|reflexivity].
Qed.

End UpperFacts.

(** *** What a query finds is what intersects *)

Lemma has_intersection_entry q a b :
  valid q -> a <= b ->
  has_intersection q (Interval.make a b) = (a <=? _max q) && (_min q <=? b).
Proof.
  unfold valid, has_intersection, Interval.make. cbn [_min _max]. intros Hq Hab.
  rewrite Z.min_l, Z.max_r by lia.
  destruct (Z.leb_spec a (_max q)); destruct (Z.leb_spec (_min q) b);
    destruct (Z.leb_spec a (_min q)); destruct (Z.leb_spec (_min q) a);
    cbn; try reflexivity; try lia.
Qed.

Section FilterFacts.
Context {X E : Type}.
Variable expand : node X -> Z * X -> list E.
Variable expand_all : node X -> Z * X -> list E.
Variable keep : E -> bool.
Variable q : interval.
Hypothesis Hq : valid q.

Lemma filter_flat_map (A : Type) (g : A -> list E) (l : list A) :
  filter keep (flat_map g l) = flat_map (fun x => filter keep (g x)) l.
Proof.
  induction l as [|a l IH]; [reflexivity|]. cbn [flat_map].
  rewrite filter_app, IH. reflexivity.
Qed.

Lemma sorted_last_max (ks : list Z) (d : Z) :
  StronglySorted Z.le ks -> Forall (fun k => k <= last ks d) ks.
Proof.
  induction 1 as [|a ks Hs IH Ha]; [constructor|].
  destruct ks as [|b ks].
  - constructor; [cbn; lia|constructor].
  - change (last (a :: b :: ks) d) with (last (b :: ks) d).
    constructor; [|exact IH].
    inversion IH; subst. inversion Ha; subst. lia.
Qed.

Lemma kept_all n (c : list (Z * X)) :
  (forall e, In e c -> filter keep (expand_all n e) = expand n e) ->
  flat_map (fun x => filter keep (expand_all n x)) c = flat_map (expand n) c.
Proof.
  induction c as [|e c IH]; intros H; [reflexivity|]. cbn [flat_map].
  rewrite H by (left; reflexivity). rewrite IH; [reflexivity|].
  intros e' He'. apply H. right. exact He'.
Qed.

Lemma kept_none n (c : list (Z * X)) :
  (forall e, In e c -> filter keep (expand_all n e) = []) ->
  flat_map (fun x => filter keep (expand_all n x)) c = [].
Proof.
  induction c as [|e c IH]; intros H; [reflexivity|]. cbn [flat_map].
  rewrite H by (left; reflexivity). rewrite IH; [reflexivity|].
  intros e' He'. apply H. right. exact He'.
Qed.

Lemma kept_from n (m : Z) (c : list (Z * X)) :
  StronglySorted Z.le (map fst c) ->
  (forall e, In e c ->
     filter keep (expand_all n e) = if m <=? fst e then expand n e else []) ->
  flat_map (fun x => filter keep (expand_all n x)) c
  = flat_map (expand n) (skipn (lower_bound m c) c).
Proof.
  induction c as [|[k v] c IH]; intros Hs H; [reflexivity|].
  cbn [map] in Hs. inversion Hs as [|? ? Hs' Hk]; subst.
  cbn [lower_bound]. destruct (Z.ltb_spec k m) as [Hlt|Hge].
  - cbn [skipn flat_map]. rewrite H by (left; reflexivity). cbn [fst].
    destruct (Z.leb_spec m k); [lia|]. cbn [app]. apply IH; auto.
    intros e He. apply H. right. exact He.
  - cbn [skipn]. apply kept_all. intros e He. rewrite (H e He).
    assert (k <= fst e).
    { destruct He as [<-|He]; [cbn; lia|]. rewrite Forall_forall in Hk. apply Hk.
      apply in_map. exact He. }
    destruct (Z.leb_spec m (fst e)); [reflexivity|lia].
Qed.

Lemma node_matching_filter n :
  inner_ok n ->
  (forall e, In e (m_maxima n) ->
     filter keep (expand_all n e)
     = if has_intersection q (Interval.make (m_metric n) (fst e)) then expand n e else []) ->
  node_matching expand q n = filter keep (flat_map (expand_all n) (m_maxima n)).
Proof.
  intros Hok Hexp. rewrite filter_flat_map.
  pose proof Hok as (Hne & Hs & Hle).
  unfold node_matching, intersects_local.
  assert (Hloc : local_interval n
                 = Interval.make (m_metric n) (last (map fst (m_maxima n)) (m_metric n)))
    by reflexivity.
  assert (Hlast : m_metric n <= last (map fst (m_maxima n)) (m_metric n)).
  { assert (Hin : In (last (map fst (m_maxima n)) (m_metric n)) (map fst (m_maxima n))).
    { apply last_in. destruct (m_maxima n); [congruence|discriminate]. }
    apply in_map_iff in Hin. destruct Hin as (e & He & Hin).
    rewrite Forall_forall in Hle. specialize (Hle e Hin). lia. }
  rewrite Hloc, has_intersection_entry by assumption.
  pose proof (sorted_last_max _ (m_metric n) Hs) as Hmax.
  assert (Hentry : forall e, In e (m_maxima n) ->
     filter keep (expand_all n e)
     = if (m_metric n <=? _max q) && (_min q <=? fst e) then expand n e else []).
  { intros e He. rewrite (Hexp e He). rewrite has_intersection_entry; auto.
    rewrite Forall_forall in Hle. auto. }
  destruct (m_metric n <=? _max q) eqn:E1; cbn [andb] in *.
  - destruct (Z.leb_spec (_min q) (last (map fst (m_maxima n)) (m_metric n))) as [E2|E2].
    + symmetry. apply kept_from; assumption.
    + symmetry. apply kept_none. intros e He. rewrite (Hentry e He).
      rewrite Forall_forall in Hmax. specialize (Hmax (fst e) (in_map fst _ _ He)).
      destruct (Z.leb_spec (_min q) (fst e)); [lia|reflexivity].
  - symmetry. apply kept_none. intros e He. apply (Hentry e He).
Qed.

End FilterFacts.
Lemma flat_map_ext_in (A B : Type) (f g : A -> list B) (l : list A) :
  (forall a, In a l -> f a = g a) -> flat_map f l = flat_map g l.
Proof.
  induction l as [|a l IH]; intros H; [reflexivity|]. cbn [flat_map].
  rewrite (H a) by (left; reflexivity). rewrite IH; [reflexivity|].
  intros b Hb. apply H. right. exact Hb.
Qed.

Section QueryFacts.
Context {P : Type}.

Lemma wf_tree n (L : layer P n) : layer_wf n L ->
  match n return layer P n -> Prop with
  | O => fun t => well_formed t
  | S _ => fun t => well_formed t
  end L.
Proof. destruct n; cbn [layer_wf]; tauto. Qed.

(** *** The order of the stored elements *)

Lemma sorted_flat_map (A B : Type) (Q : A -> A -> Prop) (R : B -> B -> Prop)
      (g : A -> list B) (l : list A) :
  StronglySorted Q l ->
  (forall a, In a l -> StronglySorted R (g a)) ->
  (forall a b, Q a b -> In a l -> In b l ->
     forall x y, In x (g a) -> In y (g b) -> R x y) ->
  StronglySorted R (flat_map g l).
Proof.
  induction 1 as [|a l Hs IH Ha]; intros Hg HQ; [constructor|].
  cbn [flat_map].
  assert (Happ : forall (u v : list B), StronglySorted R u -> StronglySorted R v ->
     (forall x y, In x u -> In y v -> R x y) -> StronglySorted R (u ++ v)).
  { induction u as [|h u IHu]; intros v Hu Hv Huv; [exact Hv|].
    cbn [app]. inversion Hu; subst. constructor.
    - apply IHu; auto. intros x y Hx Hy. apply Huv; [right|]; auto.
    - apply Forall_app. split; [assumption|].
      rewrite Forall_forall. intros y Hy. apply Huv; [left|]; auto. }
  apply Happ.
  - apply Hg. left. reflexivity.
  - apply IH.
    + intros b Hb. apply Hg. right. exact Hb.
    + intros b c Hbc Hb Hc. apply HQ; auto; right; assumption.
  - intros x y Hx Hy. apply in_flat_map in Hy. destruct Hy as (b & Hb & Hy).
    rewrite Forall_forall in Ha. apply (HQ a b); auto.
    + left. reflexivity.
    + right. exact Hb.
Qed.

Lemma sorted_map_inv (A : Type) (f : A -> Z) (R : Z -> Z -> Prop) (l : list A) :
  StronglySorted R (map f l) -> StronglySorted (fun a b => R (f a) (f b)) l.
Proof.
  induction l as [|a l IH]; intros H; [constructor|].
  cbn [map] in H. inversion H; subst. constructor; [auto|].
  rewrite Forall_forall in *. intros b Hb. apply H3. apply in_map. exact Hb.
Qed.

Lemma sorted_filter (A : Type) (R : A -> A -> Prop) (f : A -> bool) (l : list A) :
  StronglySorted R l -> StronglySorted R (filter f l).
Proof.
  induction 1 as [|a l Hs IH Ha]; [constructor|]. cbn [filter].
  destruct (f a); [|exact IH]. constructor; [exact IH|].
  rewrite Forall_forall in *. intros b Hb. apply filter_In in Hb. apply Ha. tauto.
Qed.

Lemma make_ordered a b : a <= b -> Interval.make a b = {| _min := a; _max := b |}.
Proof. intros H. unfold Interval.make. rewrite Z.min_l, Z.max_r by lia. reflexivity. Qed.

Lemma region_le_refl n : forall r : region n, region_le n r r.
Proof.
  induction n as [|k IH]; intros r; cbn [region_le]; [right; reflexivity|].
  right. split; [reflexivity|apply IH].
Qed.

Lemma head_lt_region_le n (a b : region n) :
  interval_lt (head a) (head b) -> region_le n a b.
Proof. destruct n; cbn [region_le head]; auto. Qed.

(** The stored elements are in lexicographic order of their regions. *)
Lemma all_entries_sorted n : forall L : layer P n,
  layer_wf n L ->
  StronglySorted (fun a b => region_le n (fst a) (fst b)) (all_entries n L).
Proof.
  induction n as [|k IH]; intros L Hwf.
  - cbn [layer_wf all_entries] in *. destruct Hwf as (Hord & _ & _ & Hin).
    rewrite Forall_forall in Hin.
    unfold ordered in Hord. rewrite keys_nodes in Hord. apply sorted_map_inv in Hord.
    eapply sorted_flat_map; [exact Hord| |].
    + intros nd Hnd. destruct (Hin nd Hnd) as (_ & Hs & Hle).
      apply sorted_map_inv in Hs. rewrite Forall_forall in Hle.
      eapply sorted_flat_map; [exact Hs| |].
      * intros e He. unfold bottom_expand. repeat constructor.
      * intros e1 e2 H12 H1 H2 x y [<-|[]] [<-|[]]. cbv beta in H12. cbn [fst region_le].
        rewrite !make_ordered by auto.
        destruct (Z.eq_dec (fst e1) (fst e2)) as [->|Hne]; [right; reflexivity|].
        left. right. cbn [_min _max]. split; [reflexivity|lia].
    + intros n1 n2 H12 H1 H2 x y Hx Hy. cbv beta in H12.
      apply in_flat_map in Hx. destruct Hx as (e1 & He1 & [<-|[]]).
      apply in_flat_map in Hy. destruct Hy as (e2 & He2 & [<-|[]]).
      destruct (Hin n1 H1) as (_ & _ & Hle1). destruct (Hin n2 H2) as (_ & _ & Hle2).
      rewrite Forall_forall in Hle1, Hle2. cbn [fst region_le].
      rewrite !make_ordered by auto. left. left. cbn [_min]. exact H12.
  - cbn [layer_wf all_entries] in *. destruct Hwf as ((Hord & _ & _ & Hin) & Hsub & Hstrict).
    rewrite Forall_forall in Hin, Hsub, Hstrict.
    unfold ordered in Hord. rewrite keys_nodes in Hord. apply sorted_map_inv in Hord.
    eapply sorted_flat_map; [exact Hord| |].
    + intros nd Hnd. destruct (Hin nd Hnd) as (_ & _ & Hle).
      pose proof (Hstrict nd Hnd) as Hs. specialize (Hsub nd Hnd).
      apply sorted_map_inv in Hs. rewrite Forall_forall in Hle, Hsub.
      eapply sorted_flat_map; [exact Hs| |].
      * intros e He. specialize (IH (snd e) (Hsub e He)).
        induction IH as [|x l Hl IHl Hx]; [constructor|]. cbn [map]. constructor; [exact IHl|].
        rewrite Forall_forall in *. intros y Hy. apply in_map_iff in Hy.
        destruct Hy as (z & <- & Hz). cbn [prefix fst region_le]. right.
        split; [reflexivity|]. apply Hx. exact Hz.
      * intros e1 e2 H12 H1 H2 x y Hx Hy. cbv beta in H12.
        apply in_map_iff in Hx. destruct Hx as (x' & <- & _).
        apply in_map_iff in Hy. destruct Hy as (y' & <- & _).
        cbn [prefix fst region_le]. rewrite !make_ordered by auto.
        left. right. cbn [_min _max]. split; [reflexivity|exact H12].
    + intros n1 n2 H12 H1 H2 x y Hx Hy. cbv beta in H12.
      apply in_flat_map in Hx. destruct Hx as (e1 & He1 & Hx).
      apply in_flat_map in Hy. destruct Hy as (e2 & He2 & Hy).
      apply in_map_iff in Hx. destruct Hx as (x' & <- & _).
      apply in_map_iff in Hy. destruct Hy as (y' & <- & _).
      destruct (Hin n1 H1) as (_ & _ & Hle1). destruct (Hin n2 H2) as (_ & _ & Hle2).
      rewrite Forall_forall in Hle1, Hle2. cbn [prefix fst region_le].
      rewrite !make_ordered by auto. left. left. cbn [_min]. exact H12.
Qed.


(** What the query finds are the stored elements whose region intersects
    the query region in every dimension, in their order. *)
Lemma matching_filter n : forall (L : layer P n) (q : region n),
  layer_wf n L -> region_valid n q ->
  matching n q L = filter (fun e => region_intersects n q (fst e)) (all_entries n L).
Proof.
  induction n as [|k IH]; intros L q Hwf Hq.
  - cbn [matching all_entries layer_wf region_valid region_intersects] in *.
    unfold tree_matching. rewrite filter_flat_map. apply flat_map_ext_in. intros nd Hnd.
    destruct Hwf as (_ & _ & _ & Hin). rewrite Forall_forall in Hin.
    apply (node_matching_filter bottom_expand bottom_expand _ q Hq nd (Hin nd Hnd)).
    intros e He. unfold bottom_expand. cbn [filter fst]. reflexivity.
  - cbn [matching all_entries layer_wf region_valid region_intersects] in *.
    destruct Hwf as (Hwf & Hsub & _). destruct Hq as [Hq Htail].
    unfold tree_matching. rewrite filter_flat_map. apply flat_map_ext_in. intros nd Hnd.
    destruct Hwf as (_ & _ & _ & Hin). rewrite Forall_forall in Hin, Hsub.
    apply (node_matching_filter _ (fun nd e => map (prefix nd e) (all_entries k (snd e)))
             _ (fst q) Hq nd (Hin nd Hnd)).
    intros e He. unfold upper_expand.
    specialize (Hsub nd Hnd). rewrite Forall_forall in Hsub.
    rewrite (IH (snd e) (snd q) (Hsub e He) Htail).
    generalize (all_entries k (snd e)). intros l.
    destruct (has_intersection (fst q) (Interval.make (m_metric nd) (fst e))) eqn:E.
    + induction l as [|x l IHl]; [reflexivity|]. cbn [map filter prefix fst snd].
      rewrite E. cbn [andb]. destruct (region_intersects k (snd q) (fst x)); cbn [map];
        rewrite IHl; reflexivity.
    + induction l as [|x l IHl]; [reflexivity|]. cbn [map filter prefix fst snd].
      rewrite E. cbn [andb]. exact IHl.
Qed.

(** Cursors through the layers: [make_cursor] stands before all that the
    query finds; a cursor is valid, and not at the end, when there is
    something before it; the dereference gives the first element and
    [next] moves past it. *)
Lemma cursor_spec n : forall (L : layer P n) (q : region n),
  layer_wf n L -> region_valid n q ->
  (exists c, make_cursor n q L = Some c /\ stands_at n q L c (matching n q L)) /\
  (forall c es, stands_at n q L c es ->
     cursor_is_valid n c L = match es with [] => false | _ => true end) /\
  (forall c e es, stands_at n q L c (e :: es) ->
     deref n c L = Some e /\
     exists c', next n q c L = Some c' /\ stands_at n q L c' es) /\
  (forall c es, stands_at n q L c es ->
     at_end c = match es with [] => true | _ => false end).
Proof.
  induction n as [|k IH]; intros L q Hwf Hq.
  - cbn [layer_wf region_valid make_cursor stands_at matching cursor_is_valid deref next at_end]
      in *.
    split; [|split; [|split]].
    + apply bottom_make_cursor_spec; assumption.
    + intros c es H. eapply bottom_at_valid; eassumption.
    + intros c e es H. apply bottom_next_spec; assumption.
    + intros c es H. eapply bottom_at_end_iff; eassumption.
  - cbn [layer_wf region_valid] in Hwf, Hq.
    destruct Hwf as (Hwf & Hsub & _). destruct Hq as [Hq Htail].
    assert (H1 : forall (tail : region k) (lo : layer P k), layer_wf k lo -> region_valid k tail ->
      exists c, make_cursor k tail lo = Some c /\ stands_at k tail lo c (matching k tail lo)).
    { intros tail lo Hlo Ht. apply (IH lo tail Hlo Ht). }
    assert (H2 : forall (tail : region k) (lo : layer P k) c es, layer_wf k lo -> region_valid k tail ->
      stands_at k tail lo c es ->
      cursor_is_valid k c lo = match es with [] => false | _ => true end).
    { intros tail lo c es Hlo Ht. apply (IH lo tail Hlo Ht). }
    assert (H3 : forall (tail : region k) (lo : layer P k) c e es, layer_wf k lo -> region_valid k tail ->
      stands_at k tail lo c (e :: es) ->
      deref k c lo = Some e /\
      exists c', next k tail c lo = Some c' /\ stands_at k tail lo c' es).
    { intros tail lo c e es Hlo Ht. apply (IH lo tail Hlo Ht). }
    cbn [make_cursor stands_at matching cursor_is_valid deref next at_end].
    split; [|split; [|split]].
    + eapply upper_make_cursor_spec; eauto.
    + intros c es H. eapply upper_at_valid; eauto.
    + intros c e es H. eapply upper_next_spec; eauto.
    + intros c es H. eapply upper_at_end_iff; eauto.
Qed.

Lemma iterate_loop_spec n (L : layer P n) (q : region n) :
  layer_wf n L -> region_valid n q ->
  forall es fuel c, stands_at n q L c es -> (length es < fuel)%nat ->
  iterate_loop fuel n q c L = Some es.
Proof.
  intros Hwf Hq. destruct (cursor_spec n L q Hwf Hq) as (_ & _ & Hnext & Hend).
  induction es as [|e es IH]; intros fuel c Hat Hf.
  - destruct fuel; [cbn in Hf; lia|]. cbn [iterate_loop].
    rewrite (Hend c [] Hat). reflexivity.
  - destruct fuel; [lia|]. cbn [iterate_loop]. rewrite (Hend c _ Hat).
    destruct (Hnext c e es Hat) as (Hd & c' & Hn & Hat'). rewrite Hd, Hn.
    rewrite (IH fuel c' Hat'); [reflexivity|]. cbn [length] in Hf. lia.
Qed.

(** The iteration from [begin(q)] to [end()] visits the stored elements
    whose region intersects [q], each one once, in their order. *)
Lemma visit_spec n (L : layer P n) (q : region n) :
  layer_wf n L -> region_valid n q ->
  visit n q L = Some (filter (fun e => region_intersects n q (fst e)) (all_entries n L)).
Proof.
  intros Hwf Hq. unfold visit.
  destruct (cursor_spec n L q Hwf Hq) as ((c & Hm & Hat) & _).
  rewrite Hm. rewrite (matching_filter n L q Hwf Hq) in Hat.
  apply (iterate_loop_spec n L q Hwf Hq _ _ c Hat).
  pose proof (filter_length_le (fun e => region_intersects n q (fst e)) (all_entries n L)).
  lia.
Qed.

End QueryFacts.
(** In a flowspace in a consistent state, for a query region [q] with no
    empty interval, [begin(q)] and [++] up to [end()] visit the stored
    elements whose region intersects [q] in every dimension, in the order
    in which they are stored. *)
Lemma visit_filter_sorted (P : Type) (n : nat) (L : layer P n) (q : region n) :
  layer_wf n L -> region_valid n q ->
  exists es,
    visit n q L = Some es /\
    es = filter (fun e => region_intersects n q (fst e)) (all_entries n L) /\
    StronglySorted (fun a b => region_le n (fst a) (fst b)) es.
Proof.
  intros Hwf Hq. eexists. split; [apply visit_spec; assumption|]. split; [reflexivity|].
  apply sorted_filter. apply all_entries_sorted. exact Hwf.
Qed.

Section ProjFacts.
Context {X A : Type}.
Variable f : node X -> A.
Hypothesis Hf : stable f.
Implicit Types (t l r x : tree X) (n : node X) (p : path X).

Lemma proj_nodes t : proj f t = map f (nodes t).
Proof.
  induction t as [|l IHl n r IHr]; [reflexivity|].
  cbn [proj nodes]. rewrite map_app. cbn [map]. congruence.
Qed.

Lemma proj_set_tree_color c t : proj f (set_tree_color c t) = proj f t.
Proof. destruct t; [reflexivity|]. cbn. rewrite (proj1 Hf). reflexivity. Qed.

Lemma proj_structure_fixup t : proj f (structure_fixup t) = proj f t.
Proof. destruct t; [reflexivity|]. cbn. rewrite (proj2 Hf). reflexivity. Qed.

Lemma proj_ripple k t : proj f (ripple_structure_fixup k t) = proj f t.
Proof.
  induction t as [|l IHl n r IHr]; cbn [ripple_structure_fixup]; auto.
  destruct (has_key k l); [cbn; rewrite (proj2 Hf), IHl; reflexivity|].
  destruct (has_key k r); [cbn; rewrite (proj2 Hf), IHr; reflexivity|].
  destruct (m_metric n =? k); [|reflexivity]. cbn. rewrite (proj2 Hf). reflexivity.
Qed.

Lemma proj_rotate d t : proj f (rotate d t) = proj f t.
Proof.
  destruct t as [|l n r]; [reflexivity|].
  destruct d; cbn [rotate]; try reflexivity.
  - destruct r as [|cl cn cr]; [destruct l; reflexivity|].
    destruct l; cbn [structure_fixup fixup_child proj]; rewrite !(proj2 Hf);
      rewrite <- app_assoc; reflexivity.
  - destruct l as [|cl cn cr]; [reflexivity|].
    cbn [structure_fixup fixup_child proj]. rewrite !(proj2 Hf).
    rewrite <- app_assoc. reflexivity.
Qed.

Lemma proj_mk_congr d (c c' : tree X) (n n' : node X) (s s' : tree X) :
  proj f c = proj f c' -> f n = f n' -> proj f s = proj f s' ->
  proj f (mk d c n s) = proj f (mk d c' n' s').
Proof. intros E1 E2 E3. destruct d; cbn [mk proj]; rewrite E1, E2, E3; reflexivity. Qed.

Lemma proj_plug p : forall t, proj f (plug t p) = plefts f p ++ proj f t ++ prights f p.
Proof.
  induction p as [|[d n s] p IH]; intros t.
  - cbn. rewrite app_nil_r. reflexivity.
  - cbn [plug]. rewrite IH. destruct d; cbn [mk proj plefts prights];
      repeat rewrite <- app_assoc; cbn [app]; reflexivity.
Qed.

Lemma proj_plug_congr p t t' :
  proj f t = proj f t' -> proj f (plug t p) = proj f (plug t' p).
Proof. intros E. rewrite !proj_plug, E. reflexivity. Qed.

Lemma rebalance_insert_loop_proj m : forall p x,
  (length p <= m)%nat ->
  proj f (rebalance_insert_loop x p) = proj f (plug x p).
Proof.
  induction m as [|m IH]; intros p x Hlen.
  - destruct p; [reflexivity | cbn in Hlen; lia].
  - destruct p as [|[dx pn sx] [|[dp gn sg] rest]]; try reflexivity.
    cbn [rebalance_insert_loop].
    destruct (color_eqb (m_color pn) RED); [|reflexivity].
    destruct (is_red sg).
    + rewrite IH by (cbn in Hlen; lia). cbn [plug].
      apply proj_plug_congr. apply proj_mk_congr; auto using proj_set_tree_color.
      * apply proj_mk_congr; auto. apply (proj1 Hf).
      * apply (proj1 Hf).
    + cbn [plug]. apply proj_plug_congr. rewrite proj_rotate.
      apply proj_mk_congr; auto; [|apply (proj1 Hf)]. rewrite proj_set_tree_color.
      destruct (direction_eqb dx (flip dp)); [apply proj_rotate | reflexivity].
Qed.

Lemma rebalance_after_insert_proj k x p :
  proj f (rebalance_after_insert k x p) = proj f (plug x p).
Proof.
  unfold rebalance_after_insert.
  rewrite proj_set_tree_color, proj_ripple.
  apply (rebalance_insert_loop_proj (length p)). lia.
Qed.

End ProjFacts.

Section ViewFacts.
Context {X : Type}.
Implicit Types (t l r x : tree X) (n : node X) (p : path X).

Lemma view_stable : stable (@view X).
Proof. split; intros; destruct n; reflexivity. Qed.

Lemma threaded_views (a b : list (node X)) :
  map (@view X) a = map (@view X) b -> threaded a -> threaded b.
Proof.
  revert b. induction a as [|n a IH]; intros [|n' b] E H; try discriminate; [exact I|].
  cbn [map] in E. unfold view at 1 3 in E. injection E as E1 E2 E3 E4. cbn [threaded] in *.
  destruct H as [H1 H2]. split; [|apply IH; assumption].
  rewrite <- E3, H1. destruct a as [|a1 a]; destruct b as [|b1 b]; try discriminate; auto.
  cbn [map] in E4. unfold view at 1 3 in E4. injection E4 as E5 _ _ _. rewrite E5. reflexivity.
Qed.

Lemma threaded_links (a b : list (node X)) :
  map (fun n => (m_metric n, m_next n)) a = map (fun n => (m_metric n, m_next n)) b ->
  threaded a -> threaded b.
Proof.
  revert b. induction a as [|n a IH]; intros [|n' b] E H; try discriminate; [exact I|].
  cbn [map] in E. injection E as E1 E3 E4. cbn [threaded] in *.
  destruct H as [H1 H2]. split; [|apply IH; assumption].
  rewrite <- E3, H1. destruct a as [|a1 a]; destruct b as [|b1 b]; try discriminate; auto.
  cbn [map] in E4. injection E4 as E5 _ _. rewrite E5. reflexivity.
Qed.

Lemma node_inv_views (R : Z -> list (Z * X) -> Prop) (a b : list (node X)) :
  map (@view X) a = map (@view X) b -> Forall (node_inv R) a -> Forall (node_inv R) b.
Proof.
  revert b. induction a as [|n a IH]; intros [|n' b] E H; try discriminate; [constructor|].
  cbn [map] in E. unfold view at 1 3 in E. injection E as E1 E2 E3 E4.
  inversion H; subst.
  constructor; [|apply IH; assumption]. unfold node_inv in *. rewrite <- E1, <- E2. assumption.
Qed.

(** *** Threading after an insertion *)

Lemma set_last_next_app k (A : list (node X)) n :
  set_last_next k (A ++ [n]) = A ++ [set_next k n].
Proof.
  induction A as [|a A IH]; [reflexivity|]. cbn [app].
  destruct (A ++ [n]) as [|b B] eqn:E; [destruct A; discriminate|].
  change (set_last_next k (a :: b :: B)) with (a :: set_last_next k (b :: B)).
  rewrite IH. reflexivity.
Qed.

Lemma threaded_head (A : list (node X)) n (B : list (node X)) :
  threaded (A ++ [n] ++ B) -> m_next n = head_key B.
Proof. intros H. apply (threaded_next A B n). exact H. Qed.

Lemma head_key_in (B : list (node X)) k :
  head_key B = Some k -> In k (map (@m_metric X) B).
Proof. destruct B; [discriminate|]. cbn. intros H. inversion H. auto. Qed.

Lemma retarget_spec this newk : forall p (M : list (node X)),
  head_key M = Some this ->
  threaded (nlefts p ++ M ++ nrights p) ->
  NoDup (map (@m_metric X) (nlefts p ++ M ++ nrights p)) ->
  nlefts (retarget_next this newk p) = set_last_next (Some newk) (nlefts p) /\
  nrights (retarget_next this newk p) = nrights p.
Proof.
  induction p as [|[d n s] p IH]; intros M HM Hth Hnd; [auto|].
  assert (Hleft : d <> RIGHT ->
    nlefts (retarget_next this newk (F d n s :: p))
      = set_last_next (Some newk) (nlefts (F d n s :: p)) /\
    nrights (retarget_next this newk (F d n s :: p)) = nrights (F d n s :: p)).
  { intros Hd.
    assert (Hl : nlefts (F d n s :: p) = nlefts p)
      by (destruct d; [reflexivity|reflexivity|congruence]).
    assert (Hr : nrights (F d n s :: p) = n :: nodes s ++ nrights p)
      by (destruct d; [reflexivity|reflexivity|congruence]).
    rewrite Hl, Hr in *.
    assert (Hn : m_next n = head_key (nodes s ++ nrights p)).
    { apply (threaded_next (nlefts p ++ M) _ n). rewrite <- app_assoc. exact Hth. }
    assert (Hne : match m_next n with Some k => k =? this | None => false end = false).
    { destruct (m_next n) as [k|] eqn:E; [|reflexivity]. apply Z.eqb_neq. intros ->.
      symmetry in Hn. apply head_key_in in Hn. apply head_key_in in HM.
      rewrite !map_app in Hnd. apply NoDup_app_remove_l in Hnd.
      apply in_split in HM. destruct HM as (M1 & M2 & HM). rewrite HM in Hnd.
      rewrite <- app_assoc in Hnd. cbn [app] in Hnd. apply NoDup_remove_2 in Hnd.
      apply Hnd. rewrite !in_app_iff. right. right. cbn [map In]. right.
      exact Hn. }
    destruct (IH (M ++ n :: nodes s)) as [IH1 IH2].
    - destruct M; [discriminate|]. exact HM.
    - repeat rewrite <- app_assoc. cbn [app]. repeat rewrite <- app_assoc in Hth. exact Hth.
    - repeat rewrite <- app_assoc. cbn [app]. repeat rewrite <- app_assoc in Hnd. exact Hnd.
    - cbn [retarget_next]. destruct (m_next n) as [k|].
      + rewrite Hne. destruct d; try congruence; cbn [nlefts nrights]; rewrite IH1, IH2; auto.
      + destruct d; try congruence; cbn [nlefts nrights]; rewrite IH1, IH2; auto. }
  destruct d; [apply Hleft; discriminate|apply Hleft; discriminate|].
  cbn [nlefts nrights] in *.
  assert (Hn : m_next n = Some this).
  { rewrite <- HM.
    assert (Hth' : threaded ((nlefts p ++ nodes s) ++ n :: M ++ nrights p))
      by (repeat rewrite <- app_assoc in *; exact Hth).
    apply threaded_next in Hth'. rewrite Hth'. destruct M; [discriminate|reflexivity]. }
  cbn [retarget_next]. rewrite Hn, Z.eqb_refl. cbn [nlefts nrights].
  split; [|reflexivity].
  rewrite (app_assoc (nlefts p) (nodes s) [n]), set_last_next_app, <- app_assoc.
  reflexivity.
Qed.

Lemma threaded_cons n (B : list (node X)) :
  threaded (n :: B) <-> m_next n = head_key B /\ threaded B.
Proof. cbn [threaded]. destruct B; reflexivity. Qed.

Lemma threaded_insert_before (L R : list (node X)) this new :
  threaded (L ++ this :: R) -> m_next new = Some (m_metric this) ->
  threaded (set_last_next (Some (m_metric new)) L ++ new :: this :: R).
Proof.
  intros H Hn. induction L as [|a L IH].
  - cbn [app set_last_next] in *. apply threaded_cons. split; [exact Hn|exact H].
  - cbn [app] in H. apply threaded_cons in H. destruct H as [H1 H2].
    destruct L as [|b L].
    + cbn [app set_last_next]. apply threaded_cons. split; [reflexivity|].
      apply threaded_cons. split; [exact Hn|exact H2].
    + change (set_last_next (Some (m_metric new)) (a :: b :: L))
        with (a :: set_last_next (Some (m_metric new)) (b :: L)).
      cbn [app]. apply threaded_cons. split; [|apply IH; exact H2].
      rewrite H1. cbn [app head_key]. destruct L; reflexivity.
Qed.

Lemma threaded_insert_after (L R : list (node X)) this new :
  threaded (L ++ this :: R) -> m_next new = m_next this ->
  threaded (L ++ set_next (Some (m_metric new)) this :: new :: R).
Proof.
  intros H Hn. induction L as [|a L IH].
  - cbn [app] in *. apply threaded_cons in H. destruct H as [H1 H2].
    apply threaded_cons. split; [reflexivity|]. apply threaded_cons.
    split; [rewrite Hn, H1; reflexivity|exact H2].
  - cbn [app] in *. apply threaded_cons in H. destruct H as [H1 H2].
    apply threaded_cons. split; [|apply IH; exact H2].
    rewrite H1. destruct L; reflexivity.
Qed.

Lemma node_inv_set_last_next (R : Z -> list (Z * X) -> Prop) k (L : list (node X)) :
  Forall (node_inv R) L -> Forall (node_inv R) (set_last_next k L).
Proof.
  induction 1 as [|a L Ha HL IH]; [constructor|]. destruct L as [|b L].
  - constructor; [exact Ha|constructor].
  - change (set_last_next k (a :: b :: L)) with (a :: set_last_next k (b :: L)).
    constructor; assumption.
Qed.

(** [tree_insert] keeps the threading and what holds of the inner sets. *)
Lemma tree_insert_nodes ins head t (R : Z -> list (Z * X) -> Prop) :
  ordered t -> threaded (nodes t) -> Forall (node_inv R) (nodes t) ->
  R (_min head) (ins []) ->
  (forall c, R (_min head) c -> R (_min head) (ins c)) ->
  threaded (nodes (tree_insert ins head t)) /\
  Forall (node_inv R) (nodes (tree_insert ins head t)).
Proof.
  intros Hs Hth Hinv Hnew Hupd.
  destruct t as [|l n r].
  - cbn. split; [auto|]. constructor; [exact Hnew|constructor].
  - unfold tree_insert.
    destruct (search (_min head) (T l n r) []) as [[x p] d] eqn:E.
    pose proof (search_plug _ _ _ _ _ _ E) as Hplug. cbn [plug] in Hplug.
    apply search_found in E; auto; try congruence; try (intros k []).
    destruct E as (Hf & _ & _ & _).
    destruct x as [|xl xn xr]; [destruct Hf|].
    assert (Hn : nodes (T l n r) = nlefts p ++ (nodes xl ++ xn :: nodes xr) ++ nrights p)
      by (rewrite <- Hplug; exact (nodes_plug p (T xl xn xr))).
    rewrite Hn in Hth, Hinv.
    assert (Hnd : NoDup (map (@m_metric X) (nodes (T l n r)))).
    { rewrite <- keys_nodes. apply sorted_NoDup. exact Hs. }
    rewrite Hn in Hnd.
    assert (Hfin : forall x' p' k,
       threaded (nodes (plug x' p')) -> Forall (node_inv R) (nodes (plug x' p')) ->
       threaded (nodes (rebalance_after_insert k x' p')) /\
       Forall (node_inv R) (nodes (rebalance_after_insert k x' p'))).
    { intros x' p' k H1 H2.
      pose proof (rebalance_after_insert_proj (@view X) view_stable k x' p') as Hv.
      rewrite !proj_nodes in Hv. split.
      - apply (threaded_views _ _ (eq_sym Hv)). exact H1.
      - apply (node_inv_views R _ _ (eq_sym Hv)). exact H2. }
    destruct d; cbn [found] in Hf.
    + pose proof (proj_ripple (@view X) view_stable (m_metric xn)
                    (plug (T xl (set_sti (widen (m_sti xn) head)
                                   (set_maxima (ins (m_maxima xn)) xn)) xr) p)) as Hv.
      rewrite !proj_nodes, nodes_plug in Hv. cbn [nodes] in Hv. split.
      * apply (threaded_views _ _ (eq_sym Hv)).
        apply (threaded_links (nlefts p ++ (nodes xl ++ xn :: nodes xr) ++ nrights p));
          [|exact Hth].
        rewrite !map_app. cbn [map]. reflexivity.
      * apply (node_inv_views R _ _ (eq_sym Hv)).
        rewrite !Forall_app in *. destruct Hinv as (H1 & (H2 & H3) & H4).
        inversion H3; subst. repeat split; auto. constructor; auto.
        unfold node_inv in *. cbn [set_sti set_maxima m_metric m_maxima].
        rewrite Hf. apply Hupd. rewrite <- Hf. assumption.
    + destruct Hf as [-> Hlt]. cbn [insert_child].
      cbn [nodes app] in Hth, Hinv, Hnd.
      destruct (retarget_spec (m_metric xn) (m_metric (new_node ins head)) p
                  (xn :: nodes xr)) as [H1 H2]; auto.
      apply Hfin.
      * cbn [plug mk]. rewrite nodes_plug. cbn [nodes app nlefts nrights].
        rewrite H1, H2.
        apply (threaded_insert_before (nlefts p) (nodes xr ++ nrights p) xn
                 (set_next (Some (m_metric xn)) (new_node ins head))); auto.
      * cbn [plug mk]. rewrite nodes_plug. cbn [nodes app nlefts nrights].
        rewrite H1, H2.
        rewrite !Forall_app in *. destruct Hinv as (H3 & H4).
        split; [apply node_inv_set_last_next; exact H3|].
        constructor; [exact Hnew|]. exact H4.
    + destruct Hf as [-> Hlt]. cbn [insert_child]. apply Hfin.
      * cbn [plug mk]. rewrite nodes_plug. cbn [nodes app nlefts nrights].
        repeat rewrite <- app_assoc. cbn [app].
        repeat rewrite <- app_assoc in Hth. cbn [app] in Hth.
        rewrite app_assoc. rewrite app_assoc in Hth.
        apply (threaded_insert_after _ (nrights p) xn
                 (set_next (m_next xn) (new_node ins head))); auto.
      * cbn [plug mk]. rewrite nodes_plug. cbn [nodes app nlefts nrights].
        rewrite !Forall_app in *. destruct Hinv as (H3 & (H4 & H5) & H6).
        inversion H5; subst.
        repeat split; auto.
Qed.

End ViewFacts.

(** *** The inserters of the inner sets *)

Section Inserters.
Context {V : Type}.
Implicit Types (c : list (Z * V)) (Q : Z * V -> Prop).

Lemma bottom_inserter_Forall Q m v c :
  Q (m, v) -> Forall Q c -> Forall Q (bottom_inner_tree_inserter m v c).
Proof.
  intros Hq. induction 1 as [|[k w] c Hk Hc IH]; cbn [bottom_inner_tree_inserter].
  - constructor; [exact Hq|constructor].
  - destruct (m <? k); repeat constructor; auto.
Qed.

Lemma bottom_inserter_not_nil m v c : bottom_inner_tree_inserter m v c <> [].
Proof.
  destruct c as [|[k w] c]; cbn [bottom_inner_tree_inserter]; [discriminate|].
  destruct (m <? k); discriminate.
Qed.

Lemma bottom_inserter_keys m v c :
  Forall (fun k => k = m \/ In k (map fst c))
         (map fst (bottom_inner_tree_inserter m v c)).
Proof.
  induction c as [|[k w] c IH]; cbn [bottom_inner_tree_inserter map fst].
  - constructor; [left; reflexivity|constructor].
  - destruct (m <? k); cbn [map fst].
    + constructor; [left; reflexivity|].
      apply Forall_forall. intros x Hx. right. exact Hx.
    + constructor; [right; left; reflexivity|].
      eapply Forall_impl; [|exact IH]. cbn beta. intros x [Hx|Hx]; [left|right; right]; auto.
Qed.

Lemma bottom_inserter_sorted m v c :
  StronglySorted Z.le (map fst c) ->
  StronglySorted Z.le (map fst (bottom_inner_tree_inserter m v c)).
Proof.
  induction c as [|[k w] c IH]; cbn [bottom_inner_tree_inserter map fst]; intros Hs.
  - repeat constructor.
  - inversion Hs as [|? ? Hs' Hk]; subst.
    destruct (m <? k) eqn:E; cbn [map fst].
    + apply Z.ltb_lt in E. constructor; [exact Hs|].
      constructor; [lia|]. eapply Forall_impl; [|exact Hk]. cbn beta. intros; lia.
    + apply Z.ltb_ge in E. constructor; [auto|].
      pose proof (bottom_inserter_keys m v c) as Hin.
      apply Forall_forall. intros x Hx.
      rewrite Forall_forall in Hin, Hk.
      destruct (Hin x Hx) as [->|Hx']; [exact E|auto].
Qed.

Lemma upper_inserter_Forall Q m (e : V) (f : V -> V) c :
  Q (m, f e) -> (forall w, Q (m, w) -> Q (m, f w)) ->
  Forall Q c -> Forall Q (upper_inner_tree_inserter m e f c).
Proof.
  intros Hq Hf. induction 1 as [|[k w] c Hk Hc IH]; cbn [upper_inner_tree_inserter].
  - constructor; [exact Hq|constructor].
  - destruct (m <? k); [repeat constructor; auto|].
    destruct (m =? k) eqn:E; [|constructor; auto].
    apply Z.eqb_eq in E. subst k. constructor; auto.
Qed.

Lemma upper_inserter_not_nil m (e : V) (f : V -> V) c :
  upper_inner_tree_inserter m e f c <> [].
Proof.
  destruct c as [|[k w] c]; cbn [upper_inner_tree_inserter]; [discriminate|].
  destruct (m <? k); [discriminate|]. destruct (m =? k); discriminate.
Qed.

Lemma upper_inserter_keys m (e : V) (f : V -> V) c :
  Forall (fun k => k = m \/ In k (map fst c))
         (map fst (upper_inner_tree_inserter m e f c)).
Proof.
  induction c as [|[k w] c IH]; cbn [upper_inner_tree_inserter map fst].
  - constructor; [left; reflexivity|constructor].
  - destruct (m <? k); cbn [map fst].
    + constructor; [left; reflexivity|].
      apply Forall_forall. intros x Hx. right. exact Hx.
    + destruct (m =? k); cbn [map fst].
      * apply Forall_forall. intros x Hx. right. exact Hx.
      * constructor; [right; left; reflexivity|].
        eapply Forall_impl; [|exact IH]. cbn beta.
        intros x [Hx|Hx]; [left|right; right]; auto.
Qed.

Lemma upper_inserter_sorted m (e : V) (f : V -> V) c :
  StronglySorted Z.lt (map fst c) ->
  StronglySorted Z.lt (map fst (upper_inner_tree_inserter m e f c)).
Proof.
  induction c as [|[k w] c IH]; cbn [upper_inner_tree_inserter map fst]; intros Hs.
  - repeat constructor.
  - inversion Hs as [|? ? Hs' Hk]; subst.
    destruct (m <? k) eqn:E; cbn [map fst].
    + apply Z.ltb_lt in E. constructor; [exact Hs|].
      constructor; [lia|]. eapply Forall_impl; [|exact Hk]. cbn beta. intros; lia.
    + apply Z.ltb_ge in E. destruct (m =? k) eqn:E'; cbn [map fst]; [exact Hs|].
      apply Z.eqb_neq in E'. constructor; [auto|].
      pose proof (upper_inserter_keys m e f c) as Hin.
      apply Forall_forall. intros x Hx.
      rewrite Forall_forall in Hin, Hk.
      destruct (Hin x Hx) as [->|Hx']; [lia|auto].
Qed.

Lemma sorted_lt_le (l : list Z) : StronglySorted Z.lt l -> StronglySorted Z.le l.
Proof.
  induction 1 as [|a l Hs IH Ha]; constructor; auto.
  eapply Forall_impl; [|exact Ha]. cbn beta. intros; lia.
Qed.

Lemma bottom_inserter_perm m v c :
  Permutation (bottom_inner_tree_inserter m v c) ((m, v) :: c).
Proof.
  induction c as [|[k w] c IH]; cbn [bottom_inner_tree_inserter]; [reflexivity|].
  destruct (m <? k); [reflexivity|].
  rewrite IH. apply perm_swap.
Qed.

Lemma upper_inserter_entries {B : Type} (h : Z * V -> list B) m (e : V) (f : V -> V) c b :
  Permutation (h (m, f e)) [b] ->
  (forall w, In (m, w) c -> Permutation (h (m, f w)) (b :: h (m, w))) ->
  Permutation (flat_map h (upper_inner_tree_inserter m e f c)) (b :: flat_map h c).
Proof.
  intros Hnew. induction c as [|[k w] c IH]; intros Hupd;
    cbn [upper_inner_tree_inserter flat_map].
  - rewrite app_nil_r. exact Hnew.
  - destruct (m <? k); [cbn [flat_map]; rewrite Hnew; reflexivity|].
    destruct (m =? k) eqn:E; cbn [flat_map].
    + apply Z.eqb_eq in E. subst k. rewrite (Hupd w (or_introl eq_refl)). reflexivity.
    + rewrite IH by (intros w' Hw'; apply Hupd; right; exact Hw').
      symmetry. apply Permutation_middle.
Qed.

Lemma make_of_valid (i : interval) : valid i -> Interval.make (_min i) (_max i) = i.
Proof.
  unfold valid, Interval.make. destruct i as [a b]. cbn. intros H.
  rewrite Z.min_l, Z.max_r by lia. reflexivity.
Qed.

End Inserters.


(** *** The elements after an insertion *)

Section Content.
Context {X : Type}.
Implicit Types (t l r x : tree X) (n : node X) (p : path X).

Lemma content_stable : stable (@content X).
Proof. split; intros; destruct n; reflexivity. Qed.

Lemma content_set_next k n : content (set_next k n) = content n.
Proof. destruct n; reflexivity. Qed.

Lemma content_retarget this new : forall p,
  plefts (@content X) (retarget_next this new p) = plefts (@content X) p /\
  prights (@content X) (retarget_next this new p) = prights (@content X) p.
Proof.
  induction p as [|[d n s] p [IH1 IH2]]; [split; reflexivity|].
  cbn [retarget_next].
  destruct (m_next n) as [k|].
  - destruct (k =? this).
    + destruct d; cbn [plefts prights]; rewrite ?content_set_next; split; reflexivity.
    + destruct d; cbn [plefts prights]; rewrite ?IH1, ?IH2; split; reflexivity.
  - destruct d; cbn [plefts prights]; rewrite ?IH1, ?IH2; split; reflexivity.
Qed.

(** [tree_insert] changes the inner set of the node of that metric, or
    adds a node in its place in the order. *)
Lemma tree_insert_content ins head t :
  ordered t ->
  (exists A c B,
     proj (@content X) t = A ++ (_min head, c) :: B /\
     proj (@content X) (tree_insert ins head t) = A ++ (_min head, ins c) :: B) \/
  (exists A B,
     proj (@content X) t = A ++ B /\
     proj (@content X) (tree_insert ins head t) = A ++ (_min head, ins []) :: B).
Proof.
  intros Hs. destruct t as [|l n r].
  - right. exists [], []. split; reflexivity.
  - unfold tree_insert.
    destruct (search (_min head) (T l n r) []) as [[x p] d] eqn:E.
    pose proof (search_plug _ _ _ _ _ _ E) as Hplug. cbn [plug] in Hplug.
    apply search_found in E; auto; try congruence; try (intros k []).
    destruct E as (Hf & _ & _ & _).
    destruct x as [|xl xn xr]; [destruct Hf|].
    rewrite <- Hplug.
    rewrite (proj_plug (@content X) p (T xl xn xr)). cbn [proj].
    destruct d; cbn [found] in Hf.
    + left. exists (plefts (@content X) p ++ proj (@content X) xl), (m_maxima xn),
        (proj (@content X) xr ++ prights (@content X) p).
      rewrite (proj_ripple (@content X) content_stable), (proj_plug (@content X)).
      cbn [proj]. rewrite <- Hf.
      assert (Hc : content (set_sti (widen (m_sti xn) head)
                              (set_maxima (ins (m_maxima xn)) xn)) =
                   (m_metric xn, ins (m_maxima xn))) by (destruct xn; reflexivity).
      rewrite Hc. change (m_metric xn, m_maxima xn) with (content xn).
      repeat rewrite <- app_assoc. cbn [app]. split; reflexivity.
    + destruct Hf as [-> Hlt]. right. cbn [insert_child].
      exists (plefts (@content X) p), (content xn :: proj (@content X) xr ++ prights (@content X) p).
      rewrite (rebalance_after_insert_proj (@content X) content_stable).
      rewrite (proj_plug (@content X)). cbn [proj plefts prights].
      destruct (content_retarget (m_metric xn) (m_metric (new_node ins head)) p) as [-> ->].
      rewrite content_set_next. cbn [app]. split; reflexivity.
    + destruct Hf as [-> Hlt]. right. cbn [insert_child].
      exists (plefts (@content X) p ++ proj (@content X) xl ++ [content xn]),
             (prights (@content X) p).
      rewrite (rebalance_after_insert_proj (@content X) content_stable).
      rewrite (proj_plug (@content X)). cbn [proj plefts prights].
      rewrite !content_set_next.
      repeat rewrite <- app_assoc. cbn [app]. split; reflexivity.
Qed.

Lemma flat_map_proj {B : Type} (g : Z * list (Z * X) -> list B) t :
  flat_map (fun nd => g (content nd)) (nodes t) = flat_map g (proj (@content X) t).
Proof.
  rewrite proj_nodes. induction (nodes t) as [|n ns IH]; [reflexivity|].
  cbn [map flat_map]. rewrite IH. reflexivity.
Qed.

Lemma content_in c t :
  In c (proj (@content X) t) -> exists nd, In nd (nodes t) /\ content nd = c.
Proof.
  rewrite proj_nodes, in_map_iff. intros (nd & E & H). exists nd. auto.
Qed.

(** The elements of the tree after [tree_insert], when the elements of a
    node with inner set [ins c] are those with [c] and one more. *)
Lemma tree_insert_entries {B : Type} (g : Z * list (Z * X) -> list B) ins head t b :
  ordered t ->
  Permutation (g (_min head, ins [])) [b] ->
  (forall c, In (_min head, c) (proj (@content X) t) ->
             Permutation (g (_min head, ins c)) (b :: g (_min head, c))) ->
  Permutation (flat_map g (proj (@content X) (tree_insert ins head t)))
              (b :: flat_map g (proj (@content X) t)).
Proof.
  intros Hs Hnew Hupd.
  destruct (tree_insert_content ins head t Hs) as [(A & c & B' & E1 & E2)|(A & B' & E1 & E2)].
  - rewrite E2. rewrite E1 in Hupd |- *.
    rewrite !flat_map_app. cbn [flat_map].
    rewrite (Hupd c) by (apply in_elt).
    cbn [app]. symmetry. apply Permutation_middle.
  - rewrite E2, E1. rewrite !flat_map_app. cbn [flat_map].
    rewrite Hnew. cbn [app]. symmetry. apply Permutation_middle.
Qed.

End Content.

(** *** [insert] keeps the flowspace consistent *)

Section BuildFacts.
Context {P : Type}.

Lemma layer_wf_empty (n : nat) : layer_wf (P := P) n (empty n).
Proof.
  destruct n; cbn [layer_wf empty]; unfold well_formed, ordered;
    cbn [keys hull_all nodes threaded]; repeat split; constructor.
Qed.

Lemma insert_wf (n : nat) : forall (r : region n) (v : P) (L : layer P n),
  layer_wf n L -> region_valid n r -> layer_wf n (insert n r v L).
Proof.
  induction n as [|k IH]; intros r v L Hwf Hr; cbn [layer_wf insert region_valid] in *.
  - destruct Hwf as (Ho & Hh & Ht & Hi).
    unfold well_formed. split; [apply tree_insert_ordered; exact Ho|].
    split; [apply tree_insert_hull; auto|].
    unfold valid in Hr.
    apply (tree_insert_nodes _ r L
             (fun m c => c <> [] /\ StronglySorted Z.le (map fst c) /\
                         Forall (fun e => m <= fst e) c)); auto.
    + cbn. repeat split; [discriminate|repeat constructor|].
      constructor; [cbn; lia|constructor].
    + intros c (_ & Hs & Hf). split; [apply bottom_inserter_not_nil|].
      split; [apply bottom_inserter_sorted; exact Hs|].
      apply bottom_inserter_Forall; [cbn; lia|exact Hf].
  - destruct Hwf as ((Ho & Hh & Ht & Hi) & Hdeep & Hstrict).
    destruct Hr as [Hr1 Hr2]. unfold valid in Hr1.
    pose proof (tree_insert_nodes
                  (upper_inner_tree_inserter (_max (fst r)) (empty k) (insert k (snd r) v))
                  (fst r) L
                  (fun m c => (c <> [] /\ StronglySorted Z.le (map fst c) /\
                               Forall (fun e => m <= fst e) c) /\
                              Forall (fun e => layer_wf k (snd e)) c /\
                              StronglySorted Z.lt (map fst c))) as Hn.
    assert (Hall : Forall (node_inv
                (fun m c => (c <> [] /\ StronglySorted Z.le (map fst c) /\
                             Forall (fun e => m <= fst e) c) /\
                            Forall (fun e => layer_wf k (snd e)) c /\
                            StronglySorted Z.lt (map fst c))) (nodes L)).
    { rewrite Forall_forall in *. intros x Hx. unfold node_inv.
      split; [exact (Hi x Hx)|]. split; [exact (Hdeep x Hx)|exact (Hstrict x Hx)]. }
    destruct (Hn Ho Ht Hall) as [Ht' Hall'].
    + cbn. repeat split; try discriminate; repeat constructor; cbn; try lia.
      apply IH; [apply layer_wf_empty|exact Hr2].
    + intros c ((_ & Hs & Hf) & Hd & Hst).
      split; [split; [apply upper_inserter_not_nil|split]|split].
      * apply sorted_lt_le. apply upper_inserter_sorted. exact Hst.
      * apply upper_inserter_Forall; [cbn; lia|cbn; auto|exact Hf].
      * apply upper_inserter_Forall;
          [cbn; apply IH; [apply layer_wf_empty|exact Hr2]
          |cbn; intros w Hw; apply IH; [exact Hw|exact Hr2]
          |exact Hd].
      * apply upper_inserter_sorted. exact Hst.
    + unfold well_formed. split; [split|].
      * apply tree_insert_ordered; exact Ho.
      * split; [apply tree_insert_hull; auto|].
        split; [exact Ht'|].
        rewrite Forall_forall in *. intros x Hx. exact (proj1 (Hall' x Hx)).
      * split; rewrite Forall_forall in *; intros x Hx;
          destruct (Hall' x Hx) as (_ & H1 & H2); assumption.
Qed.

Lemma all_entries_insert (n : nat) : forall (r : region n) (v : P) (L : layer P n),
  layer_wf n L -> region_valid n r ->
  Permutation (all_entries n (insert n r v L)) ((r, v) :: all_entries n L).
Proof.
  induction n as [|k IH]; intros r v L Hwf Hr; cbn [layer_wf insert region_valid] in *.
  - destruct Hwf as (Ho & _).
    assert (Hall : forall t : tree P,
              all_entries 0 t =
              flat_map (fun mc : Z * list (Z * P) =>
                          flat_map (fun e => [(Interval.make (fst mc) (fst e), snd e)])
                                   (snd mc)) (proj (@content P) t))
      by (intros t; rewrite <- flat_map_proj; reflexivity).
    rewrite !Hall.
    apply tree_insert_entries; [exact Ho| |].
    + cbn. rewrite make_of_valid by exact Hr. reflexivity.
    + intros c _. cbn [fst snd].
      rewrite (Permutation_flat_map _ (bottom_inserter_perm (_max r) v c)).
      cbn [flat_map fst snd app]. rewrite make_of_valid by exact Hr. reflexivity.
  - destruct Hwf as ((Ho & _) & Hdeep & _). destruct Hr as [Hr1 Hr2].
    destruct r as [r1 r2]. cbn [fst snd] in *.
    assert (Hall : forall t : tree (layer P k),
              all_entries (S k) t =
              flat_map (fun mc : Z * list (Z * layer P k) =>
                          flat_map (fun e => map (fun x : region k * P =>
                                                    ((Interval.make (fst mc) (fst e), fst x),
                                                     snd x))
                                                 (all_entries k (snd e)))
                                   (snd mc)) (proj (@content (layer P k)) t))
      by (intros t; rewrite <- flat_map_proj; reflexivity).
    rewrite !Hall.
    assert (Hone : forall w, layer_wf k w ->
              Permutation
                (map (fun x : region k * P => ((Interval.make (_min r1) (_max r1), fst x), snd x))
                     (all_entries k (insert k r2 v w)))
                (((r1, r2), v) ::
                 map (fun x : region k * P => ((Interval.make (_min r1) (_max r1), fst x), snd x))
                     (all_entries k w))).
    { intros w Hw. rewrite (Permutation_map _ (IH r2 v w Hw Hr2)).
      cbn [map fst snd]. rewrite make_of_valid by exact Hr1. reflexivity. }
    apply tree_insert_entries; [exact Ho| |].
    + cbn [fst snd upper_inner_tree_inserter flat_map]. rewrite app_nil_r.
      rewrite (Hone (empty k) (layer_wf_empty k)).
      replace (all_entries k (empty k)) with (@nil (region k * P))
        by (destruct k; reflexivity).
      reflexivity.
    + intros c Hc. cbn [fst snd].
      apply content_in in Hc. destruct Hc as (nd & Hnd & Ec).
      rewrite Forall_forall in Hdeep. specialize (Hdeep nd Hnd).
      unfold content in Ec. injection Ec as _ Ec. subst c.
      apply (upper_inserter_entries
               (fun e : Z * layer P k =>
                  map (fun x : region k * P =>
                         ((Interval.make (_min r1) (fst e), fst x), snd x))
                      (all_entries k (snd e)))).
      * cbn [fst snd]. rewrite (Hone (empty k) (layer_wf_empty k)).
        replace (all_entries k (empty k)) with (@nil (region k * P))
          by (destruct k; reflexivity).
        reflexivity.
      * intros w Hw. cbn [fst snd]. apply Hone.
        rewrite Forall_forall in Hdeep. exact (Hdeep _ Hw).
Qed.

Lemma build_wf (n : nat) (elems : list (region n * P)) :
  Forall (fun e => region_valid n (fst e)) elems ->
  layer_wf n (build n elems) /\ Permutation (all_entries n (build n elems)) elems.
Proof.
  induction 1 as [|[r v] elems Hr _ [IH1 IH2]]; cbn [build fold_right fst snd].
  - split; [apply layer_wf_empty|]. destruct n; reflexivity.
  - split; [apply insert_wf; assumption|].
    rewrite all_entries_insert by assumption. apply perm_skip. exact IH2.
Qed.

Lemma filter_perm {A : Type} (f : A -> bool) (a b : list A) :
  Permutation a b -> Permutation (filter f a) (filter f b).
Proof.
  induction 1 as [|x a b _ IH|x y a|a b c _ IH1 _ IH2]; cbn [filter].
  - constructor.
  - destruct (f x); [apply perm_skip|]; exact IH.
  - destruct (f x), (f y); try reflexivity. apply perm_swap.
  - exact (perm_trans IH1 IH2).
Qed.

End BuildFacts.

(** C1: for a query region [q] with no empty interval, [begin(q)] and [++]
    up to [end()] visit the stored elements [(r, p)] whose region [r]
    intersects [q] in every dimension: all of them, each one once, in the
    lexicographic order of (minimum, then maximum) through the dimensions.
    In a flowspace in a consistent state the visited list is the list of
    the stored elements with the others filtered out; and a flowspace made
    by [insert] from the empty one is in a consistent state and stores what
    was inserted, so that the visited list holds each inserted element that
    intersects [q] as many times as it was inserted. *)
Theorem C1_region_query_iteration (P : Type) (n : nat) :
  (forall (L : layer P n) (q : region n),
     layer_wf n L -> region_valid n q ->
     exists es,
       visit n q L = Some es /\
       es = filter (fun e => region_intersects n q (fst e)) (all_entries n L) /\
       StronglySorted (fun a b => region_le n (fst a) (fst b)) es) /\
  (forall (elems : list (region n * P)) (q : region n),
     Forall (fun e => region_valid n (fst e)) elems -> region_valid n q ->
     exists es,
       visit n q (build n elems) = Some es /\
       Permutation es (filter (fun e => region_intersects n q (fst e)) elems) /\
       StronglySorted (fun a b => region_le n (fst a) (fst b)) es).
Proof.
  split.
  - intros L q Hwf Hq. apply visit_filter_sorted; assumption.
  - intros elems q He Hq.
    destruct (build_wf n elems He) as [Hwf Hp].
    destruct (visit_filter_sorted P n (build n elems) q Hwf Hq) as (es & Hv & Hes & Hs).
    exists es. split; [exact Hv|]. split; [|exact Hs].
    rewrite Hes. apply filter_perm. exact Hp.
Qed.

Lemma C1_region_query_iteration_witness :
  exists es,
    visit 1 sample_query (build 1 sample_elems) = Some es /\
    Permutation es
      (filter (fun e => region_intersects 1 sample_query (fst e))
              sample_elems) /\
    StronglySorted (fun a b => region_le 1 (fst a) (fst b)) es.
Proof.
  apply (proj2 (C1_region_query_iteration nat 1)).
  - repeat constructor; vm_compute; discriminate.
  - repeat constructor; vm_compute; discriminate.
Defined.

Section InsertBalance.
Context {X : Type}.
Implicit Types (t l r x s : tree X) (n : node X) (p : path X).

Lemma tree_color_structure_fixup t : tree_color (structure_fixup t) = tree_color t.
Proof. destruct t; reflexivity. Qed.

Lemma balanced_structure_fixup t h : balanced (structure_fixup t) h <-> balanced t h.
Proof. destruct t; reflexivity. Qed.

Lemma tree_color_ripple k t : tree_color (ripple_structure_fixup k t) = tree_color t.
Proof.
  destruct t as [|l n r]; [reflexivity|]. cbn [ripple_structure_fixup].
  destruct (has_key k l); [reflexivity|].
  destruct (has_key k r); [reflexivity|].
  destruct (m_metric n =? k); reflexivity.
Qed.

Lemma balanced_ripple k t : forall h, balanced (ripple_structure_fixup k t) h <-> balanced t h.
Proof.
  induction t as [|l IHl n r IHr]; intros h; [reflexivity|].
  cbn [ripple_structure_fixup].
  destruct (has_key k l).
  { cbn [structure_fixup balanced set_sti m_color]. rewrite tree_color_ripple.
    destruct (m_color n); [rewrite IHl; reflexivity|].
    destruct h; [reflexivity|]. rewrite IHl. reflexivity. }
  destruct (has_key k r).
  { cbn [structure_fixup balanced set_sti m_color]. rewrite tree_color_ripple.
    destruct (m_color n); [rewrite IHr; reflexivity|].
    destruct h; [reflexivity|]. rewrite IHr. reflexivity. }
  destruct (m_metric n =? k); reflexivity.
Qed.

Lemma balanced_black_ripple k t h :
  balanced (set_tree_color BLACK (ripple_structure_fixup k t)) h <->
  balanced (set_tree_color BLACK t) h.
Proof.
  destruct t as [|l n r]; [reflexivity|]. cbn [ripple_structure_fixup].
  destruct (has_key k l).
  { cbn [structure_fixup set_tree_color balanced set_sti set_color m_color].
    destruct h; [reflexivity|]. rewrite balanced_ripple. reflexivity. }
  destruct (has_key k r).
  { cbn [structure_fixup set_tree_color balanced set_sti set_color m_color].
    destruct h; [reflexivity|]. rewrite balanced_ripple. reflexivity. }
  destruct (m_metric n =? k); reflexivity.
Qed.

Lemma tree_color_black t : tree_color (set_tree_color BLACK t) = BLACK.
Proof. destruct t; reflexivity. Qed.

Lemma balanced_black t h :
  balanced t h -> exists h', balanced (set_tree_color BLACK t) h'.
Proof.
  destruct t as [|l n r]; [exists h; assumption|].
  cbn [balanced set_tree_color set_color m_color].
  destruct (m_color n).
  - intros (_ & _ & Hl & Hr). exists (S h). auto.
  - destruct h; [intros []|]. intros H. exists (S h). exact H.
Qed.

Lemma balanced_nil_height h : balanced (@Nil X) h -> h = O.
Proof. intros H. exact H. Qed.

(** A subtree put where it belongs. *)
Lemma plug_balanced p : forall x h H,
  balanced x h -> pbal p h H -> (tree_color x = RED -> parent_black p) ->
  balanced (plug x p) H /\ (p <> [] \/ tree_color x = BLACK -> tree_color (plug x p) = BLACK).
Proof.
  induction p as [|[d n s] p IH]; intros x h H Hx Hp Hc.
  - cbn in *. subst. split; [assumption|]. intros [E|E]; congruence.
  - cbn [plug pbal] in *. destruct Hp as (Hd & Hs & Hp).
    assert (IH' : forall h', balanced (mk d x n s) h' -> pbal p h' H ->
                    (m_color n = RED -> parent_black p) ->
                    balanced (plug (mk d x n s) p) H /\
                    tree_color (plug (mk d x n s) p) = BLACK).
    { intros h' H1 H2 H3.
      destruct (IH (mk d x n s) h' H H1 H2) as [H4 H5].
      - destruct d; cbn [mk tree_color]; exact H3.
      - split; [exact H4|]. destruct p as [|f p']; [|apply H5; left; discriminate].
        apply H5. right. cbn [plug].
        destruct (m_color n) eqn:E.
        + destruct (H3 eq_refl).
        + destruct d; exact E. }
    assert (Hxc : m_color n = RED -> tree_color x = BLACK).
    { intros E. destruct (tree_color x) eqn:Ex; [|reflexivity].
      specialize (Hc eq_refl). cbn in Hc. congruence. }
    destruct (m_color n) eqn:E.
    + destruct Hp as (Hsc & Hpb & Hp).
      destruct (IH' h) as [H1 H2]; auto.
      destruct d; cbn [mk balanced]; rewrite E; auto; congruence.
    + destruct (IH' (S h)) as [H1 H2]; auto; [|discriminate].
      destruct d; cbn [mk balanced]; rewrite E; auto; congruence.
Qed.

(** The conditions around a subtree of a red-black tree. *)
Lemma pbal_inv p : forall x H,
  dirs_ok p -> tree_color (plug x p) = BLACK -> balanced (plug x p) H ->
  exists h, balanced x h /\ pbal p h H /\ (tree_color x = RED -> parent_black p).
Proof.
  induction p as [|[d n s] p IH]; intros x H Hd Hc Hb.
  - cbn in *. exists H. repeat split; auto. congruence.
  - cbn [plug] in *. inversion Hd as [|? ? Hd1 Hd2]; subst.
    destruct (IH _ _ Hd2 Hc Hb) as (h' & Hm & Hp & Hpb).
    assert (Hcm : tree_color (mk d x n s) = m_color n) by (destruct d; reflexivity).
    rewrite Hcm in Hpb.
    assert (Hmk : balanced (T x n s) h' /\ balanced (T s n x) h').
    { destruct d; cbn [mk balanced] in *; [congruence| |];
        destruct (m_color n); try destruct h'; tauto. }
    destruct Hmk as [Hmk _]. cbn [balanced pbal parent_black] in *.
    destruct (m_color n) eqn:E.
    + destruct Hmk as (H1 & H2 & H3 & H4). exists h'. repeat split; auto. congruence.
    + destruct h' as [|h']; [destruct Hmk|]. destruct Hmk as (H3 & H4).
      exists h'. repeat split; auto.
Qed.

Lemma balanced_rotate_left l n cl cn cr h :
  balanced (rotate LEFT (T l n (T cl cn cr))) h <-> balanced (T (T l n cl) cn cr) h.
Proof. reflexivity. Qed.

Lemma balanced_rotate_right cl cn cr n r h :
  balanced (rotate RIGHT (T (T cl cn cr) n r)) h <-> balanced (T cl cn (T cr n r)) h.
Proof. reflexivity. Qed.

Lemma is_red_spec t : is_red t = true <-> tree_color t = RED.
Proof. unfold is_red. destruct (tree_color t); cbn; split; congruence. Qed.

Lemma is_red_false t : is_red t = false <-> tree_color t = BLACK.
Proof. unfold is_red. destruct (tree_color t); cbn; split; congruence. Qed.

Lemma color_eqb_red c : color_eqb c RED = true <-> c = RED.
Proof. destruct c; cbn; split; congruence. Qed.

(** The loop of [rebalance_after_insert] restores the conditions, up to
    the color of the root. *)
Lemma rebalance_insert_loop_balanced m : forall p x h H,
  (length p <= m)%nat ->
  tree_color x = RED -> balanced x h -> pbal p h H ->
  exists H', balanced (set_tree_color BLACK (rebalance_insert_loop x p)) H'.
Proof.
  induction m as [|m IH]; intros p x h H Hlen Hc Hx Hp.
  - destruct p; [|cbn in Hlen; lia]. cbn. eapply balanced_black; eassumption.
  - assert (Hplug : parent_black p ->
              exists H', balanced (set_tree_color BLACK (plug x p)) H').
    { intros Hpb. destruct (plug_balanced p x h H Hx Hp (fun _ => Hpb)) as [H1 _].
      eapply balanced_black; eassumption. }
    destruct p as [|[dx pn sx] [|[dp gn sg] rest]].
    + cbn. eapply balanced_black; eassumption.
    + cbn [rebalance_insert_loop]. apply Hplug. cbn [pbal parent_black] in *.
      destruct (m_color pn); [|reflexivity]. tauto.
    + cbn [rebalance_insert_loop].
      destruct (color_eqb (m_color pn) RED) eqn:Epn.
      2:{ apply Hplug. cbn. destruct (m_color pn); [discriminate|reflexivity]. }
      apply color_eqb_red in Epn.
      cbn [pbal parent_black] in Hp. rewrite Epn in Hp.
      destruct Hp as (Hdx & Hsx & Hsxc & Hgn & Hdp & Hsg & Hrest).
      rewrite Hgn in Hrest.
      destruct x as [|xl xn xr]; [discriminate|]. cbn [tree_color] in Hc.
      cbn [balanced] in Hx. rewrite Hc in Hx. destruct Hx as (Hxlc & Hxrc & Hxl & Hxr).
      destruct (is_red sg) eqn:Ey.
      * apply is_red_spec in Ey.
        apply (IH rest _ (S h) H); [cbn in Hlen; lia| | |exact Hrest].
        -- destruct dp; reflexivity.
        -- destruct sg as [|yl yn yr]; [discriminate|]. cbn [tree_color] in Ey.
           cbn [balanced] in Hsg. rewrite Ey in Hsg.
           destruct dp; [congruence| |]; destruct dx; try congruence;
             cbn [mk balanced set_tree_color set_color m_color tree_color];
             rewrite ?Hc; tauto.
      * apply is_red_false in Ey.
        assert (Hsub : balanced
                  (rotate (flip dp)
                     (mk dp (set_tree_color BLACK
                               (if direction_eqb dx (flip dp)
                                then rotate dp (mk dx (T xl xn xr) pn sx)
                                else mk dx (T xl xn xr) pn sx))
                         (set_color RED gn) sg)) (S h) /\
                tree_color
                  (rotate (flip dp)
                     (mk dp (set_tree_color BLACK
                               (if direction_eqb dx (flip dp)
                                then rotate dp (mk dx (T xl xn xr) pn sx)
                                else mk dx (T xl xn xr) pn sx))
                         (set_color RED gn) sg)) = BLACK).
        { destruct dp; [congruence| |]; destruct dx; try congruence;
            cbn [flip direction_eqb mk rotate structure_fixup fixup_child set_tree_color
                 set_color set_sti m_color tree_color balanced];
            rewrite ?Epn, ?Hc; tauto. }
        destruct Hsub as [Hb Hcb].
        destruct (plug_balanced rest _ (S h) H Hb Hrest) as [H1 _]; [congruence|].
        eapply balanced_black. exact H1.
Qed.

Lemma balanced_rebalance_after_insert k x p h H :
  tree_color x = RED -> balanced x h -> pbal p h H ->
  red_black (rebalance_after_insert k x p).
Proof.
  intros Hc Hx Hp. unfold rebalance_after_insert, red_black.
  split; [apply tree_color_black|].
  destruct (rebalance_insert_loop_balanced (length p) p x h H (le_n _) Hc Hx Hp) as [H' Hb].
  exists H'. apply balanced_black_ripple. exact Hb.
Qed.

Lemma search_dirs m : forall t p x p' d,
  dirs_ok p -> search m t p = (x, p', d) -> dirs_ok p'.
Proof.
  induction t as [|l IHl n r IHr]; intros p x p' d Hd H; cbn [search] in H.
  - injection H as _ <- _. exact Hd.
  - destruct (compare_metric n m).
    + injection H as _ <- _. exact Hd.
    + destruct l as [|ll ln lr]; [injection H as _ <- _; exact Hd|].
      eapply IHl; [|exact H]. constructor; [discriminate|exact Hd].
    + destruct r as [|rl rn rr]; [injection H as _ <- _; exact Hd|].
      eapply IHr; [|exact H]. constructor; [discriminate|exact Hd].
Qed.

Lemma pbal_retarget a b : forall p h H,
  (parent_black (retarget_next a b p) <-> parent_black p) /\
  (pbal (retarget_next a b p) h H <-> pbal p h H).
Proof.
  induction p as [|[d n s] p IH]; intros h H; [split; reflexivity|].
  cbn [retarget_next].
  assert (Hrec : (parent_black (F d n s :: retarget_next a b p) <->
                  parent_black (F d n s :: p)) /\
                 (pbal (F d n s :: retarget_next a b p) h H <-> pbal (F d n s :: p) h H)).
  { split; [reflexivity|]. cbn [pbal].
    destruct (m_color n).
    - rewrite (proj1 (IH h H)), (proj2 (IH h H)). reflexivity.
    - rewrite (proj2 (IH (S h) H)). reflexivity. }
  destruct (m_next n) as [k|]; [|exact Hrec].
  destruct (k =? a); [|exact Hrec].
  split; reflexivity.
Qed.

(** [tree_insert] leaves a red-black tree. *)
Lemma tree_insert_red_black ins head t :
  ordered t -> red_black t -> red_black (tree_insert ins head t).
Proof.
  intros Hs [Hc [H Hb]]. destruct t as [|l n r].
  - split; [reflexivity|]. exists 1%nat. cbn. auto.
  - unfold tree_insert.
    destruct (search (_min head) (T l n r) []) as [[x p] d] eqn:E.
    pose proof (search_plug _ _ _ _ _ _ E) as Hplug. cbn [plug] in Hplug.
    pose proof (search_dirs _ _ _ _ _ _ (Forall_nil _) E) as Hd.
    apply search_found in E; auto; try congruence; try (intros k []).
    destruct E as (Hf & _ & _ & _).
    destruct x as [|xl xn xr]; [destruct Hf|].
    rewrite <- Hplug in Hc, Hb.
    destruct d; cbn [found] in Hf.
    + destruct (pbal_inv p _ H Hd Hc Hb) as (h & Hx & Hp & Hpb).
      destruct (plug_balanced p
                  (T xl (set_sti (widen (m_sti xn) head) (set_maxima (ins (m_maxima xn)) xn)) xr)
                  h H Hx Hp Hpb) as [H1 H2].
      split.
      * rewrite tree_color_ripple. apply H2.
        destruct p as [|f p']; [right; exact Hc|left; discriminate].
      * exists H. apply balanced_ripple. exact H1.
    + destruct Hf as [-> Hlt]. cbn [insert_child].
      assert (Hd' : dirs_ok (F LEFT xn xr :: p)) by (constructor; [discriminate|exact Hd]).
      destruct (pbal_inv (F LEFT xn xr :: p) Nil H Hd' Hc Hb) as (h & Hx & Hp & _).
      cbn in Hx. subst h.
      apply (balanced_rebalance_after_insert _ _ _ O H); [reflexivity|cbn; auto|].
      cbn [pbal] in *. destruct Hp as (H1 & H2 & H3). split; [exact H1|]. split; [exact H2|].
      destruct (m_color xn).
      * destruct H3 as (H4 & H5 & H6). split; [exact H4|].
        split; [apply (proj1 (pbal_retarget _ _ p O H)); exact H5
               |apply (proj2 (pbal_retarget _ _ p O H)); exact H6].
      * apply (proj2 (pbal_retarget _ _ p 1%nat H)); exact H3.
    + destruct Hf as [-> Hlt]. cbn [insert_child].
      assert (Hd' : dirs_ok (F RIGHT xn xl :: p)) by (constructor; [discriminate|exact Hd]).
      destruct (pbal_inv (F RIGHT xn xl :: p) Nil H Hd' Hc Hb) as (h & Hx & Hp & _).
      cbn in Hx. subst h.
      apply (balanced_rebalance_after_insert _ _ _ O H); [reflexivity|cbn; auto|].
      exact Hp.
Qed.

End InsertBalance.

(** *** [validate] *)

Section Validate.
Context {X : Type}.
Implicit Types (t l r x s : tree X) (n : node X) (p : path X).

Lemma extend_bound (b : Z) (i : interval) t :
  valid i -> b <= _min i ->
  match t with
  | Nil => True
  | T _ rn _ => b <= _min (m_sti rn) /\ valid (m_sti rn)
  end ->
  b <= _min (extend i t) /\ valid (extend i t).
Proof.
  intros Hi Hb Ht. destruct t as [|tl tn tr]; cbn [extend]; [auto|].
  destruct Ht as [H1 H2]. rewrite hull_min by assumption.
  split; [lia|apply hull_valid; assumption].
Qed.

Lemma sti_min_bound (b : Z) t :
  hull_all t -> Forall inner_ok (nodes t) -> Forall (fun k => b <= k) (keys t) ->
  match t with
  | Nil => True
  | T _ rn _ => b <= _min (m_sti rn) /\ valid (m_sti rn)
  end.
Proof.
  induction t as [|l IHl n r IHr]; [auto|]. intros (Hloc & Hl & Hr) Hin Hk.
  cbn [nodes keys] in Hin, Hk. rewrite Forall_app in Hin, Hk.
  destruct Hin as [Hinl Hin]. destruct Hk as [Hkl Hk].
  inversion Hin as [|? ? Hn Hinr]; subst. inversion Hk as [|? ? Hkn Hkr]; subst.
  specialize (IHl Hl Hinl Hkl). specialize (IHr Hr Hinr Hkr).
  destruct (local_interval_ok n Hn) as [H1 H2].
  pose proof (local_interval_valid n) as Hv.
  unfold local_ok, fixup_value in Hloc. rewrite Hloc.
  destruct (extend_bound b (local_interval n) l Hv) as [H3 H4]; [lia|exact IHl|].
  apply extend_bound; assumption.
Qed.

Lemma structure_validate_ok l n r :
  ordered (T l n r) -> hull_all (T l n r) -> Forall inner_ok (nodes (T l n r)) ->
  structure_validate (T l n r) = true.
Proof.
  intros Ho (Hloc & Hl & Hr) Hin.
  cbn [nodes] in Hin. rewrite Forall_app in Hin. destruct Hin as [Hinl Hin].
  inversion Hin as [|? ? Hn Hinr]; subst.
  unfold ordered in Ho. cbn [keys] in Ho. apply sorted_app in Ho.
  destruct Ho as (_ & Ho & _). inversion Ho as [|? ? _ Hgt]; subst.
  assert (Hr' : match r with
                | Nil => True
                | T _ rn _ => m_metric n <= _min (m_sti rn) /\ valid (m_sti rn)
                end).
  { apply sti_min_bound; auto. eapply Forall_impl; [|exact Hgt]. cbn beta. intros; lia. }
  pose proof (hull_all_sti_valid l Hl) as Hlv.
  destruct (local_interval_ok n Hn) as [H1 H2].
  pose proof (local_interval_valid n) as Hv.
  assert (Hlast : _max (local_interval n) = last (map fst (m_maxima n)) (m_metric n)
                  /\ m_maxima n <> []).
  { split; [|exact (proj1 Hn)]. destruct Hn as (Hne & _ & Hle).
    assert (Hlin : In (last (map fst (m_maxima n)) (m_metric n)) (map fst (m_maxima n))).
    { apply last_in. destruct (m_maxima n); [congruence|discriminate]. }
    apply in_map_iff in Hlin. destruct Hlin as (e & He & Hlin).
    rewrite Forall_forall in Hle. specialize (Hle e Hlin).
    unfold local_interval, Interval.make. cbn [_max]. lia. }
  destruct Hlast as [Hlast Hne].
  unfold local_ok, fixup_value in Hloc.
  unfold structure_validate. rewrite Hloc.
  destruct (m_maxima n) as [|e c] eqn:Em; [congruence|]. cbv iota.
  rewrite <- Hlast.
  destruct l as [|ll ln lr], r as [|rl rn rr]; cbn [extend sti_valid] in *;
    try destruct Hr' as [Hr1 Hr2];
    rewrite ?hull_min, ?hull_max
      by (repeat first [assumption | apply local_interval_valid | apply hull_valid]);
    apply negb_true_iff, orb_false_iff; split; apply negb_false_iff, Z.eqb_eq; lia.
Qed.

(** [validate] on a tree in a consistent state counts the black nodes. *)
Lemma validate_balanced t : forall h,
  ordered t -> hull_all t -> Forall inner_ok (nodes t) -> balanced t h ->
  validate t = Z.of_nat h + 1.
Proof.
  induction t as [|l IHl n r IHr]; intros h Ho Hh Hin Hb.
  - cbn in *. subst. reflexivity.
  - pose proof (structure_validate_ok l n r Ho Hh Hin) as Hsv.
    pose proof Hh as (_ & Hl & Hr).
    cbn [nodes] in Hin. rewrite Forall_app in Hin. destruct Hin as [Hinl Hin].
    inversion Hin as [|? ? Hn Hinr]; subst.
    unfold ordered in Ho. cbn [keys] in Ho. pose proof Ho as Ho'. apply sorted_app in Ho'.
    destruct Ho' as (Hol & Hor & _). inversion Hor as [|? ? Hor' _]; subst.
    change (validate (T l n r)) with
      (let black_ht1 := validate l in
       let black_ht2 := if 0 <? black_ht1 then validate r else 1 in
       let black_ht :=
         if black_ht1 =? black_ht2 then
           if color_eqb (m_color n) BLACK then black_ht1 + 1
           else if is_red l then 0
           else if is_red r then 0
           else black_ht1
         else 0 in
       if (0 <? black_ht) && negb (structure_validate (T l n r)) then 0 else black_ht).
    rewrite Hsv. cbn [negb]. rewrite andb_false_r. cbv zeta.
    cbn [balanced] in Hb. destruct (m_color n) eqn:Ec.
    + destruct Hb as (Hlc & Hrc & Hbl & Hbr).
      rewrite (IHl h), (IHr h) by assumption.
      replace (0 <? Z.of_nat h + 1) with true by (symmetry; apply Z.ltb_lt; lia).
      rewrite Z.eqb_refl. cbn [color_eqb].
      rewrite (proj2 (is_red_false l) Hlc), (proj2 (is_red_false r) Hrc). reflexivity.
    + destruct h as [|h]; [destruct Hb|]. destruct Hb as (Hbl & Hbr).
      rewrite (IHl h), (IHr h) by assumption.
      replace (0 <? Z.of_nat h + 1) with true by (symmetry; apply Z.ltb_lt; lia).
      rewrite Z.eqb_refl. cbn [color_eqb]. lia.
Qed.

End Validate.

Section ValidateLayers.
Context {P : Type}.

Lemma layer_wf_well_formed (n : nat) (L : layer P n) :
  layer_wf n L ->
  match n return layer P n -> Prop with
  | O => fun t => well_formed t
  | S _ => fun t => well_formed t
  end L.
Proof. destruct n; cbn [layer_wf]; tauto. Qed.

Lemma build_red_black (n : nat) (elems : list (region n * P)) :
  Forall (fun e => region_valid n (fst e)) elems ->
  match n return layer P n -> Prop with
  | O => fun t => red_black t
  | S _ => fun t => red_black t
  end (build n elems).
Proof.
  induction 1 as [|[r v] elems Hr Hall IH]; cbn [build fold_right fst snd].
  - destruct n; split; try reflexivity; exists O; reflexivity.
  - pose proof (layer_wf_well_formed n _ (proj1 (build_wf n elems Hall))) as Hwf.
    fold (build n elems). destruct n; cbn [insert]; apply tree_insert_red_black;
      try exact IH; exact (proj1 Hwf).
Qed.

Lemma validate_layer (n : nat) (L : layer P n) :
  layer_wf n L ->
  match n return layer P n -> Prop with
  | O => fun t => red_black t
  | S _ => fun t => red_black t
  end L ->
  layer_validate L = true.
Proof.
  intros Hwf Hrb. apply layer_wf_well_formed in Hwf.
  destruct n; cbn [layer_validate]; destruct L as [|l x r]; try reflexivity;
    destruct Hwf as (Ho & Hh & _ & Hin); destruct Hrb as [_ [h Hb]];
    rewrite (validate_balanced _ h Ho Hh Hin Hb);
    apply negb_true_iff, Z.eqb_neq; lia.
Qed.

End ValidateLayers.

(** X1: [validate()], the check of the red-black conditions and of the
    cached hulls that the library has for debug builds, accepts every
    flowspace that [insert] makes from the empty one out of regions with
    no empty interval. *)
Theorem validate_after_inserts (P : Type) (n : nat) (elems : list (region n * P)) :
  Forall (fun e => region_valid n (fst e)) elems ->
  layer_validate (build n elems) = true.
Proof.
  intros H. apply validate_layer.
  - exact (proj1 (build_wf n elems H)).
  - apply build_red_black. exact H.
Qed.

Lemma validate_after_inserts_witness : layer_validate (build 1 sample_elems) = true.
Proof.
  apply (validate_after_inserts nat 1 sample_elems).
  repeat constructor; vm_compute; discriminate.
Defined.

Section RemoveBalance.
Context {X A : Type}.
Variable f : node X -> A.
Hypothesis Hf : stable f.
Implicit Types (t l r x s w : tree X) (n : node X) (p : path X).

Lemma balanced_red_inv l n r h :
  m_color n = RED -> balanced (T l n r) h ->
  tree_color l = BLACK /\ tree_color r = BLACK /\ balanced l h /\ balanced r h.
Proof. intros E H. cbn [balanced] in H. rewrite E in H. exact H. Qed.

Lemma balanced_black_inv l n r h :
  m_color n = BLACK -> balanced (T l n r) (S h) -> balanced l h /\ balanced r h.
Proof. intros E H. cbn [balanced] in H. rewrite E in H. exact H. Qed.

Lemma balanced_succ_not_nil t h : balanced t (S h) -> t <> Nil.
Proof. destruct t; [discriminate|discriminate]. Qed.

Lemma proj_remove_cases_3_4 near x (pn : node X) w :
  near <> NONE -> w <> Nil ->
  proj f (remove_cases_3_4 near x pn w) = proj f (mk near x pn w).
Proof.
  intros Hnear Hw. destruct w as [|wl wn wr]; [congruence|].
  unfold remove_cases_3_4.
  destruct near; [congruence| |]; cbn [flip get_child].
  - destruct (is_red wr).
    + rewrite (proj_rotate f Hf). cbn [mk proj]. rewrite !(proj1 Hf).
      rewrite (proj_set_tree_color f Hf). reflexivity.
    + destruct (rotate RIGHT (mk LEFT (set_tree_color BLACK wl) (set_color RED wn) wr))
        as [|a m b] eqn:E.
      * apply (f_equal (proj f)) in E. rewrite (proj_rotate f Hf) in E. cbn [mk proj] in E.
        destruct (proj f (set_tree_color BLACK wl)); discriminate.
      * apply (f_equal (proj f)) in E. rewrite (proj_rotate f Hf) in E.
        cbn [mk proj] in E. rewrite (proj_set_tree_color f Hf), (proj1 Hf) in E.
        rewrite (proj_rotate f Hf). cbn [mk proj get_child].
        rewrite (proj_set_tree_color f Hf), !(proj1 Hf).
        change (proj f a ++ f m :: proj f b) with (proj f (T a m b)) in E.
        cbn [proj] in E. rewrite <- E. reflexivity.
  - destruct (is_red wl).
    + rewrite (proj_rotate f Hf). cbn [mk proj]. rewrite !(proj1 Hf).
      rewrite (proj_set_tree_color f Hf). reflexivity.
    + destruct (rotate LEFT (mk RIGHT (set_tree_color BLACK wr) (set_color RED wn) wl))
        as [|a m b] eqn:E.
      * apply (f_equal (proj f)) in E. rewrite (proj_rotate f Hf) in E. cbn [mk proj] in E.
        destruct (proj f wl); discriminate.
      * apply (f_equal (proj f)) in E. rewrite (proj_rotate f Hf) in E.
        cbn [mk proj] in E. rewrite (proj_set_tree_color f Hf), (proj1 Hf) in E.
        rewrite (proj_rotate f Hf). cbn [mk proj get_child].
        rewrite (proj_set_tree_color f Hf), !(proj1 Hf).
        cbn [proj] in E. rewrite <- E. reflexivity.
Qed.

Lemma remove_cases_3_4_balanced near x (pn : node X) wl wn wr h :
  near <> NONE -> balanced x h -> m_color wn = BLACK ->
  balanced (T wl wn wr) (S h) -> both_black (T wl wn wr) = false ->
  balanced (remove_cases_3_4 near x pn (T wl wn wr))
           (match m_color pn with BLACK => S (S h) | RED => S h end) /\
  tree_color (remove_cases_3_4 near x pn (T wl wn wr)) = m_color pn.
Proof.
  intros Hnear Hx Hwn Hw Hbb.
  apply (balanced_black_inv _ _ _ _ Hwn) in Hw. destruct Hw as [Hwl Hwr].
  unfold both_black in Hbb. cbn [get_child] in Hbb.
  unfold remove_cases_3_4.
  destruct near; [congruence| |]; cbn [flip get_child].
  - destruct (is_red wr) eqn:Er.
    + apply is_red_spec in Er. destruct wr as [|a b c]; [discriminate|].
      cbn [tree_color] in Er.
      destruct (balanced_red_inv _ _ _ _ Er Hwr) as (Ha & Hc & Hba & Hbc).
      cbn [mk rotate structure_fixup fixup_child set_tree_color set_color set_sti
           m_color tree_color balanced].
      destruct (m_color pn); repeat split; auto.
    + cbn [negb] in Hbb. rewrite andb_true_r in Hbb. apply negb_false_iff in Hbb.
      apply is_red_spec in Hbb. apply is_red_false in Er.
      destruct wl as [|a b c]; [discriminate|]. cbn [tree_color] in Hbb.
      destruct (balanced_red_inv _ _ _ _ Hbb Hwl) as (Ha & Hc & Hba & Hbc).
      cbn [mk rotate structure_fixup fixup_child set_tree_color set_color set_sti
           m_color tree_color balanced get_child].
      destruct (m_color pn); repeat split; auto.
  - destruct (is_red wl) eqn:El.
    + apply is_red_spec in El. destruct wl as [|a b c]; [discriminate|].
      cbn [tree_color] in El.
      destruct (balanced_red_inv _ _ _ _ El Hwl) as (Ha & Hc & Hba & Hbc).
      cbn [mk rotate structure_fixup fixup_child set_tree_color set_color set_sti
           m_color tree_color balanced].
      destruct (m_color pn); repeat split; auto.
    + cbn [negb andb] in Hbb. apply negb_false_iff in Hbb.
      apply is_red_spec in Hbb. apply is_red_false in El.
      destruct wr as [|a b c]; [discriminate|]. cbn [tree_color] in Hbb.
      destruct (balanced_red_inv _ _ _ _ Hbb Hwr) as (Ha & Hc & Hba & Hbc).
      cbn [mk rotate structure_fixup fixup_child set_tree_color set_color set_sti
           m_color tree_color balanced get_child].
      destruct (m_color pn); repeat split; auto.
Qed.

Lemma both_black_spec w :
  both_black w = true <->
  tree_color (get_child LEFT w) = BLACK /\ tree_color (get_child RIGHT w) = BLACK.
Proof.
  unfold both_black. rewrite andb_true_iff, !negb_true_iff, !is_red_false. reflexivity.
Qed.

(** The turn of the loop of [rebalance_after_remove] for a red sibling. *)
Lemma remove_red_sibling near x (pn : node X) wl wn wr rest h :
  near <> NONE -> balanced x h -> m_color wn = RED -> balanced (T wl wn wr) (S h) ->
  exists Y,
    (let top := rotate near (mk near x (set_color RED pn) (T wl (set_color BLACK wn) wr)) in
     match top, get_child near top with
     | T _ topn _, T _ pn2 _ =>
         let far := flip near in
         let w2 := get_child far (get_child near top) in
         let rest2 := F near topn (get_child far top) :: rest in
         match w2 with
         | Nil => None
         | T _ w2n _ =>
             if both_black w2 then
               Some (plug (set_tree_color BLACK (mk near x pn2 (set_tree_color RED w2))) rest2)
             else Some (plug (remove_cases_3_4 near x pn2 w2) rest2)
         end
     | _, _ => None
     end) = Some (plug Y rest) /\
    balanced Y (S (S h)) /\ tree_color Y = BLACK /\
    proj f Y = proj f (mk near x pn (T wl wn wr)).
Proof.
  intros Hnear Hx Hwn Hw.
  destruct (balanced_red_inv _ _ _ _ Hwn Hw) as (Hlc & Hrc & Hbl & Hbr).
  destruct near; [congruence| |].
  - destruct wl as [|a b c]; [discriminate|]. cbn [tree_color] in Hlc.
    cbn [mk rotate structure_fixup fixup_child get_child flip].
    cbv zeta.
    destruct (both_black (T a b c)) eqn:Ebb.
    + eexists. split; [cbn [plug mk]; reflexivity|].
      apply both_black_spec in Ebb. cbn [get_child] in Ebb. destruct Ebb as [Eb1 Eb2].
      destruct (balanced_black_inv _ _ _ _ Hlc Hbl) as [Hba Hbc].
      split; [|split].
      * cbn [set_tree_color set_color set_sti m_color tree_color balanced]. auto 10.
      * reflexivity.
      * cbn [set_tree_color proj]. rewrite !(proj1 Hf), !(proj2 Hf), !(proj1 Hf).
        repeat first [rewrite <- app_assoc | progress cbn [app]]. reflexivity.
    + eexists. split; [cbn [plug mk]; reflexivity|].
      destruct (remove_cases_3_4_balanced LEFT x
                  (set_sti (fixup_value x (set_color RED pn) (T a b c)) (set_color RED pn))
                  a b c h ltac:(discriminate) Hx Hlc Hbl Ebb) as [Hb Hc].
      cbn [set_sti set_color m_color] in Hb, Hc.
      split; [|split].
      * cbn [set_sti set_color m_color balanced]. split; [exact Hb|exact Hbr].
      * reflexivity.
      * cbn [proj]. rewrite (proj_remove_cases_3_4 LEFT) by discriminate.
        cbn [mk proj]. rewrite !(proj2 Hf), !(proj1 Hf).
        repeat first [rewrite <- app_assoc | progress cbn [app]]. reflexivity.
  - destruct wr as [|a b c]; [discriminate|]. cbn [tree_color] in Hrc.
    cbn [mk rotate structure_fixup fixup_child get_child flip].
    cbv zeta.
    destruct (both_black (T a b c)) eqn:Ebb.
    + eexists. split; [cbn [plug mk]; reflexivity|].
      apply both_black_spec in Ebb. cbn [get_child] in Ebb. destruct Ebb as [Eb1 Eb2].
      destruct (balanced_black_inv _ _ _ _ Hrc Hbr) as [Hba Hbc].
      split; [|split].
      * cbn [set_tree_color set_color set_sti m_color tree_color balanced]. auto 10.
      * reflexivity.
      * cbn [set_tree_color proj]. rewrite !(proj1 Hf), !(proj2 Hf), !(proj1 Hf).
        repeat first [rewrite <- app_assoc | progress cbn [app]]. reflexivity.
    + eexists. split; [cbn [plug mk]; reflexivity|].
      destruct (remove_cases_3_4_balanced RIGHT x
                  (set_sti (fixup_value (T a b c) (set_color RED pn) x) (set_color RED pn))
                  a b c h ltac:(discriminate) Hx Hrc Hbr Ebb) as [Hb Hc].
      cbn [set_sti set_color m_color] in Hb, Hc.
      split; [|split].
      * cbn [set_sti set_color m_color balanced]. split; [exact Hbl|exact Hb].
      * reflexivity.
      * cbn [proj]. rewrite (proj_remove_cases_3_4 RIGHT) by discriminate.
        cbn [mk proj]. rewrite !(proj2 Hf), !(proj1 Hf).
        repeat first [rewrite <- app_assoc | progress cbn [app]]. reflexivity.
Qed.

(** The loop of [rebalance_after_remove] ends with a tree, which has the
    red-black conditions up to the color of the root and the same nodes in
    the same order. *)
Lemma rebalance_remove_loop_ok : forall p x h H,
  hole_ok x h -> pbal p (S h) H ->
  exists t, rebalance_remove_loop x p = Some t /\
            (exists H', balanced (set_tree_color BLACK t) H') /\
            proj f t = proj f (plug x p).
Proof.
  induction p as [|[d pn w] rest IH]; intros x h H Hx Hp.
  - exists x. split; [reflexivity|]. split; [|reflexivity].
    destruct Hx as [[_ Hb]|[_ Hb]]; [eapply balanced_black; eassumption|eauto].
  - pose proof Hp as Hp0. cbn [pbal] in Hp. destruct Hp as (Hd & Hw & Hpn).
    cbn [rebalance_remove_loop]. destruct (is_red x) eqn:Ex.
    + destruct Hx as [[Hc _]|[_ Hb]]; [apply is_red_spec in Ex; congruence|].
      eexists. split; [reflexivity|]. split.
      * destruct (plug_balanced (F d pn w :: rest) (set_tree_color BLACK x) (S h) H Hb Hp0)
          as [H1 _].
        -- rewrite tree_color_black. discriminate.
        -- eapply balanced_black. exact H1.
      * apply (proj_plug_congr f). apply (proj_set_tree_color f Hf).
    + destruct Hx as [[Hc Hb]|[Hc _]]; [|apply is_red_false in Ex; congruence].
      destruct w as [|wl wn wr]; [discriminate Hw|].
      set (near := match d with RIGHT => RIGHT | _ => LEFT end).
      assert (Hnear : near <> NONE) by (subst near; destruct d; congruence).
      assert (Hmk : forall y s, mk d y pn s = mk near y pn s)
        by (intros y s; subst near; destruct d; reflexivity).
      destruct (color_eqb (m_color wn) RED) eqn:Ewn.
      * apply color_eqb_red in Ewn.
        assert (Hpnb : m_color pn = BLACK).
        { destruct (m_color pn); [|reflexivity].
          destruct Hpn as (Hwc & _). cbn [tree_color] in Hwc. congruence. }
        rewrite Hpnb in Hpn.
        destruct (remove_red_sibling near x pn wl wn wr rest h Hnear Hb Ewn Hw)
          as (Y & HY & HbY & HcY & HpY).
        exists (plug Y rest). split; [exact HY|]. split.
        -- destruct (plug_balanced rest Y (S (S h)) H HbY Hpn) as [H1 _]; [congruence|].
           eapply balanced_black. exact H1.
        -- cbn [plug]. apply (proj_plug_congr f). rewrite Hmk. exact HpY.
      * assert (Hwnb : m_color wn = BLACK)
          by (destruct (m_color wn); [discriminate|reflexivity]).
        destruct (balanced_black_inv _ _ _ _ Hwnb Hw) as [Hbl Hbr].
        destruct (both_black (T wl wn wr)) eqn:Ebb.
        -- apply both_black_spec in Ebb. cbn [get_child] in Ebb. destruct Ebb as [El Er].
           assert (Hred : balanced (set_tree_color RED (T wl wn wr)) h)
             by (cbn [set_tree_color set_color m_color balanced]; auto).
           assert (Hrec : exists h', hole_ok (mk near x pn (set_tree_color RED (T wl wn wr))) h'
                                     /\ pbal rest (S h') H).
           { destruct (m_color pn) eqn:Epn.
             - destruct Hpn as (_ & _ & Hrest). exists h. split; [|exact Hrest].
               right. subst near. destruct d; [congruence| |];
                 cbn [mk set_tree_color set_color m_color tree_color balanced];
                 rewrite ?Epn; auto.
             - exists (S h). split; [|exact Hpn].
               left. subst near. destruct d; [congruence| |];
                 cbn [mk set_tree_color set_color m_color tree_color balanced];
                 rewrite ?Epn; auto. }
           destruct Hrec as (h' & Hh' & Hp').
           destruct (IH _ h' H Hh' Hp') as (t & Ht & Hbt & Hpt).
           exists t. split; [exact Ht|]. split; [exact Hbt|].
           rewrite Hpt. cbn [plug]. apply (proj_plug_congr f). rewrite Hmk.
           apply (proj_mk_congr f); auto. apply (proj_set_tree_color f Hf).
        -- destruct (remove_cases_3_4_balanced near x pn wl wn wr h Hnear Hb Hwnb Hw Ebb)
             as [HbY HcY].
           eexists. split; [reflexivity|]. split.
           ++ destruct (m_color pn) eqn:Epn.
              ** destruct Hpn as (_ & Hpb & Hrest).
                 destruct (plug_balanced rest _ (S h) H HbY Hrest (fun _ => Hpb)) as [H1 _].
                 eapply balanced_black. exact H1.
              ** destruct (plug_balanced rest _ (S (S h)) H HbY Hpn) as [H1 _];
                   [congruence|].
                 eapply balanced_black. exact H1.
           ++ cbn [plug]. apply (proj_plug_congr f). rewrite Hmk.
              apply proj_remove_cases_3_4; [exact Hnear|discriminate].
Qed.

End RemoveBalance.

Section RemoveNodes.
Context {X : Type}.
Implicit Types (t l r x s w : tree X) (n : node X) (p : path X).

Lemma set_last_next_nil k (L : list (node X)) : set_last_next k L = [] -> L = [].
Proof. destruct L as [|a [|b L]]; [auto|discriminate|discriminate]. Qed.

Lemma set_last_next_app_r k (A B : list (node X)) :
  B <> [] -> set_last_next k (A ++ B) = A ++ set_last_next k B.
Proof.
  intros HB. induction A as [|a A IH]; [reflexivity|]. cbn [app].
  destruct (A ++ B) as [|b C] eqn:E.
  - destruct A; [cbn in E; congruence|discriminate].
  - change (set_last_next k (a :: b :: C)) with (a :: set_last_next k (b :: C)).
    rewrite IH. reflexivity.
Qed.

Lemma nodes_set_next_rightmost k t :
  nodes (set_next_rightmost k t) = set_last_next k (nodes t).
Proof.
  induction t as [|l IHl n r IHr]; [reflexivity|].
  cbn [set_next_rightmost]. destruct r as [|rl rn rr].
  - cbn [nodes]. rewrite (set_last_next_app_r k (nodes l) [n]) by discriminate. reflexivity.
  - cbn [nodes] in *. rewrite IHr.
    rewrite (set_last_next_app_r k (nodes l) (n :: nodes rl ++ rn :: nodes rr))
      by discriminate.
    f_equal.
    destruct (nodes rl ++ rn :: nodes rr) as [|b C] eqn:E;
      [destruct (nodes rl); discriminate|].
    reflexivity.
Qed.

Lemma nlefts_set_next_first_right k p :
  nlefts (set_next_first_right k p) = set_last_next k (nlefts p) /\
  nrights (set_next_first_right k p) = nrights p.
Proof.
  induction p as [|[d n s] p [IH1 IH2]]; [split; reflexivity|].
  destruct d; cbn [set_next_first_right nlefts nrights].
  - rewrite IH1, IH2. split; reflexivity.
  - rewrite IH1, IH2. split; reflexivity.
  - split; [|reflexivity].
    rewrite (set_last_next_app_r k (nlefts p) (nodes s ++ [n]))
      by (destruct (nodes s); discriminate).
    rewrite set_last_next_app. reflexivity.
Qed.

Lemma nlefts_app p q : nlefts (p ++ q) = nlefts q ++ nlefts p.
Proof.
  induction p as [|[d n s] p IH]; cbn [app nlefts].
  - rewrite app_nil_r. reflexivity.
  - destruct d; rewrite IH; repeat rewrite <- app_assoc; reflexivity.
Qed.

Lemma nrights_app p q : nrights (p ++ q) = nrights p ++ nrights q.
Proof.
  induction p as [|[d n s] p IH]; cbn [app nrights]; [reflexivity|].
  destruct d; rewrite IH; cbn [app]; repeat rewrite <- app_assoc; reflexivity.
Qed.

Lemma plug_app p q : forall x, plug x (p ++ q) = plug (plug x p) q.
Proof. induction p as [|[d n s] p IH]; intros x; [reflexivity|]. cbn [app plug]. apply IH. Qed.

Lemma leftmost_nodes : forall t p sn sr ps,
  leftmost t p = Some (sn, sr, ps) ->
  exists q, ps = q ++ p /\ plug (T Nil sn sr) q = t /\ nlefts q = [] /\ dirs_ok q /\
            nodes t = sn :: nodes sr ++ nrights q.
Proof.
  induction t as [|l IHl n r IHr]; intros p sn sr ps H; [discriminate|].
  cbn [leftmost] in H. destruct l as [|ll ln lr].
  - injection H as <- <- <-. exists []. repeat split; try reflexivity.
    + constructor.
    + cbn [nodes nrights app]. rewrite app_nil_r. reflexivity.
  - apply IHl in H. destruct H as (q & Hq & Hplug & Hnl & Hd & Hn).
    exists (q ++ [F LEFT n r]). repeat split.
    + rewrite <- app_assoc. exact Hq.
    + rewrite plug_app, Hplug. reflexivity.
    + rewrite nlefts_app, Hnl. reflexivity.
    + apply Forall_app. split; [exact Hd|]. constructor; [discriminate|constructor].
    + cbn [nodes] in *. rewrite Hn, nrights_app. cbn [nrights app].
      repeat first [rewrite <- app_assoc | progress cbn [app]]. rewrite app_nil_r.
      reflexivity.
Qed.

Lemma leftmost_some t p : t <> Nil -> exists z, leftmost t p = Some z.
Proof.
  revert p. induction t as [|l IHl n r IHr]; intros p H; [congruence|].
  cbn [leftmost]. destruct l as [|ll ln lr]; [eauto|]. apply IHl. discriminate.
Qed.

(** A node with one child in a red-black tree is black and the child is a
    red leaf. *)
Lemma balanced_one_child c n h :
  balanced (T Nil n c) h \/ balanced (T c n Nil) h -> c <> Nil ->
  m_color n = BLACK /\ h = 1%nat /\
  exists cn, c = T Nil cn Nil /\ m_color cn = RED.
Proof.
  intros H Hc. destruct c as [|cl cn cr]; [congruence|].
  assert (Hb : match m_color n with
               | RED => tree_color (T cl cn cr) = BLACK /\ h = O /\ balanced (T cl cn cr) h
               | BLACK => match h with O => False | S h' => h' = O /\ balanced (T cl cn cr) h' end
               end).
  { destruct H as [H|H]; cbn [balanced] in H; destruct (m_color n); try destruct h;
      try tauto; cbn [tree_color] in *; tauto. }
  destruct (m_color n).
  - destruct Hb as (Hc1 & -> & Hb). cbn [balanced tree_color] in *.
    rewrite Hc1 in Hb. destruct Hb.
  - destruct h as [|h]; [destruct Hb|]. destruct Hb as [-> Hb].
    split; [reflexivity|]. split; [reflexivity|].
    cbn [balanced] in Hb. destruct (m_color cn) eqn:Ec; [|destruct Hb].
    destruct Hb as (Hcl & Hcr & Hl & Hr).
    destruct cl as [|? cln ?];
      [|cbn [balanced tree_color] in Hl, Hcl; rewrite Hcl in Hl; destruct Hl].
    destruct cr as [|? crn ?];
      [|cbn [balanced tree_color] in Hr, Hcr; rewrite Hcr in Hr; destruct Hr].
    exists cn. auto.
Qed.

Lemma pbal_set_next_first_right k : forall p h H,
  (parent_black (set_next_first_right k p) <-> parent_black p) /\
  (pbal (set_next_first_right k p) h H <-> pbal p h H).
Proof.
  induction p as [|[d n s] p IH]; intros h H; [split; reflexivity|].
  destruct d; cbn [set_next_first_right parent_black pbal set_next m_color].
  - split; [reflexivity|]. destruct (m_color n).
    + rewrite (proj1 (IH h H)), (proj2 (IH h H)). reflexivity.
    + rewrite (proj2 (IH (S h) H)). reflexivity.
  - split; [reflexivity|]. destruct (m_color n).
    + rewrite (proj1 (IH h H)), (proj2 (IH h H)). reflexivity.
    + rewrite (proj2 (IH (S h) H)). reflexivity.
  - split; reflexivity.
Qed.

Lemma balanced_set_next_rightmost k t : forall h,
  (balanced (set_next_rightmost k t) h <-> balanced t h) /\
  tree_color (set_next_rightmost k t) = tree_color t.
Proof.
  induction t as [|l IHl n r IHr]; intros h; [split; reflexivity|].
  cbn [set_next_rightmost]. destruct r as [|rl rn rr]; [split; reflexivity|].
  split; [|reflexivity]. cbn [balanced].
  rewrite (proj2 (IHr h)).
  destruct (m_color n).
  - rewrite (proj1 (IHr h)). reflexivity.
  - destruct h; [reflexivity|]. rewrite (proj1 (IHr h)). reflexivity.
Qed.

(** A frame of the path replaced by one of the same color, with a sibling
    of the same color and the same black heights. *)
Lemma pbal_replace q d n n' s s' p : forall h H,
  m_color n' = m_color n -> tree_color s' = tree_color s ->
  (forall h, balanced s h -> balanced s' h) ->
  (parent_black (q ++ F d n s :: p) -> parent_black (q ++ F d n' s' :: p)) /\
  (pbal (q ++ F d n s :: p) h H -> pbal (q ++ F d n' s' :: p) h H).
Proof.
  intros h H Hc Hsc Hs. revert h.
  induction q as [|[d0 n0 s0] q IH]; intros h; cbn [app parent_black pbal].
  - rewrite Hc, Hsc. split; [auto|]. intros (H1 & H2 & H3). split; [exact H1|].
    split; [apply Hs; exact H2|exact H3].
  - split; [auto|]. intros (H1 & H2 & H3). split; [exact H1|]. split; [exact H2|].
    destruct (m_color n0).
    + destruct H3 as (H4 & H5 & H6). split; [exact H4|].
      split; [apply (proj1 (IH h)); exact H5|apply (proj2 (IH h)); exact H6].
    + apply (proj2 (IH (S h))). exact H3.
Qed.

End RemoveNodes.

Section RemoveTree.
Context {X A : Type}.
Variable f : node X -> A.
Hypothesis Hf : stable f.
Implicit Types (t l r x s w : tree X) (n : node X) (p : path X).

Lemma remove_finish_ok k c x p hX H :
  pbal p hX H ->
  (c = RED -> balanced x hX /\ tree_color x = BLACK) ->
  (c = BLACK -> exists h, hX = S h /\ hole_ok x h) ->
  exists t,
    option_map (set_tree_color BLACK) (rebalance_after_remove k c x p) = Some t /\
    red_black t /\ proj f t = proj f (plug x p).
Proof.
  intros Hp Hred Hblack. unfold rebalance_after_remove. destruct c; cbn [color_eqb].
  - destruct (Hred eq_refl) as [Hb Hc].
    eexists. split; [reflexivity|]. split; [split|].
    + apply tree_color_black.
    + destruct (plug_balanced p x hX H Hb Hp) as [H1 _]; [congruence|].
      destruct (balanced_black _ _ H1) as [H' H2]. exists H'.
      apply balanced_black_ripple. exact H2.
    + rewrite (proj_set_tree_color f Hf), (proj_ripple f Hf). reflexivity.
  - destruct (Hblack eq_refl) as (h & -> & Hh).
    destruct (rebalance_remove_loop_ok f Hf p x h H Hh Hp) as (t & Ht & [H' Hbt] & Hpt).
    rewrite Ht. eexists. split; [reflexivity|]. split; [split|].
    + apply tree_color_black.
    + exists H'. apply balanced_black_ripple. exact Hbt.
    + rewrite (proj_set_tree_color f Hf), (proj_ripple f Hf). exact Hpt.
Qed.

Lemma dirs_ok_set_next_first_right k p : dirs_ok p -> dirs_ok (set_next_first_right k p).
Proof.
  induction 1 as [|[d n s] p Hd Hp IH]; [constructor|].
  destruct d; cbn [set_next_first_right]; constructor; auto.
Qed.

Lemma leaf_hole n h H p :
  balanced (T Nil n Nil) h -> pbal p h H -> (m_color n = RED -> parent_black p) ->
  (m_color n = RED -> balanced (@Nil X) h /\ tree_color (@Nil X) = BLACK) /\
  (m_color n = BLACK -> exists h', h = S h' /\ hole_ok (@Nil X) h').
Proof.
  intros Hb _ _. cbn [balanced] in Hb. split; intros E; rewrite E in Hb.
  - destruct Hb as (_ & _ & Hb & _). split; [exact Hb|reflexivity].
  - destruct h as [|h]; [destruct Hb|]. destruct Hb as [Hb _]. exists h.
    split; [reflexivity|]. left. split; [reflexivity|exact Hb].
Qed.

(** [remove] gives a tree: the red-black tree without the node, the other
    nodes in their order, with [m_next] of the node before it set to the
    node after it. *)
Lemma remove_ok l this r p :
  dirs_ok p -> red_black (plug (T l this r) p) ->
  threaded (nodes (plug (T l this r) p)) ->
  exists t, remove l this r p = Some t /\ red_black t /\
    proj f t = map f (set_last_next (m_next this) (nlefts p ++ nodes l)
                      ++ nodes r ++ nrights p).
Proof.
  intros Hd [Hc [H Hb]] Hth.
  destruct (pbal_inv p _ H Hd Hc Hb) as (h & Hx & Hp & Hpb). cbn [tree_color] in Hpb.
  assert (Hnext : forall sn rest, nodes r = sn :: rest -> m_next this = Some (m_metric sn)).
  { intros sn rest E. rewrite nodes_plug in Hth. cbn [nodes] in Hth. rewrite E in Hth.
    rewrite <- !app_assoc in Hth. rewrite app_assoc in Hth. cbn [app] in Hth.
    apply threaded_next in Hth. exact Hth. }
  unfold remove. set (k := m_next this) in *.
  set (l' := match l with Nil => l | _ => set_next_rightmost k l end).
  assert (Hl1 : nodes l' = set_last_next k (nodes l))
    by (subst l'; destruct l; [reflexivity|apply nodes_set_next_rightmost]).
  assert (Hl2 : forall h, balanced l h -> balanced l' h)
    by (subst l'; destruct l; [auto|intros h0; apply balanced_set_next_rightmost]).
  assert (Hl3 : tree_color l' = tree_color l)
    by (subst l'; destruct l; [auto|apply balanced_set_next_rightmost; exact O]).
  assert (Hl4 : l' = Nil <-> l = Nil).
  { subst l'. destruct l as [|ll ln lr]; [tauto|]. split; [|discriminate].
    intros E. apply set_next_rightmost_nil in E. exact E. }
  set (p' := match l' with Nil => set_next_first_right k p | _ => p end).
  assert (Hp1 : nlefts p' ++ nodes l' = set_last_next k (nlefts p ++ nodes l)).
  { subst p'. destruct l' as [|a b c] eqn:El'.
    - rewrite (proj1 Hl4 eq_refl). cbn [nodes]. rewrite !app_nil_r.
      apply nlefts_set_next_first_right.
    - rewrite Hl1. symmetry. apply set_last_next_app_r.
      intros E. rewrite E in Hl1. cbn [set_last_next nodes] in Hl1.
      destruct (nodes a); discriminate. }
  assert (Hp2 : nrights p' = nrights p)
    by (subst p'; destruct l'; [apply nlefts_set_next_first_right|reflexivity]).
  assert (Hp3 : pbal p' h H)
    by (subst p'; destruct l'; [apply pbal_set_next_first_right|]; exact Hp).
  assert (Hp4 : m_color this = RED -> parent_black p')
    by (subst p'; destruct l'; [intros E; apply pbal_set_next_first_right|]; auto).
  assert (Hp5 : dirs_ok p')
    by (subst p'; destruct l'; [apply dirs_ok_set_next_first_right|]; exact Hd).
  assert (Hx' : balanced (T l' this r) h).
  { cbn [balanced] in Hx |- *. rewrite Hl3. destruct (m_color this).
    - destruct Hx as (H1 & H2 & H3 & H4). auto.
    - destruct h; [exact Hx|]. destruct Hx as (H3 & H4). auto. }
  replace (set_last_next k (nlefts p ++ nodes l) ++ nodes r ++ nrights p)
    with (nlefts p' ++ nodes l' ++ nodes r ++ nrights p')
    by (rewrite app_assoc, Hp1, Hp2; reflexivity).
  clearbody p' l'. clear Hl1 Hl2 Hl3 Hl4 Hp1 Hp2 Hp Hpb Hx Hd Hb Hc Hth l p.
  setoid_rewrite (proj_nodes f).
  assert (Hfin : forall kk c x q hX,
     pbal q hX H ->
     (c = RED -> balanced x hX /\ tree_color x = BLACK) ->
     (c = BLACK -> exists h, hX = S h /\ hole_ok x h) ->
     map f (nodes (plug x q)) = map f (nlefts p' ++ nodes l' ++ nodes r ++ nrights p') ->
     exists t,
       option_map (set_tree_color BLACK) (rebalance_after_remove kk c x q) = Some t /\
       red_black t /\
       map f (nodes t) = map f (nlefts p' ++ nodes l' ++ nodes r ++ nrights p')).
  { intros kk c x q hX H1 H2 H3 H4.
    destruct (remove_finish_ok kk c x q hX H H1 H2 H3) as (t & Ht & Hrb & Hpt).
    exists t. rewrite !proj_nodes in Hpt. rewrite Hpt. auto. }
  destruct l' as [|ll ln lr]; destruct r as [|rl rn rr].
  - destruct p' as [|[d pn s] rest].
    + exists Nil. split; [reflexivity|]. split; [|reflexivity].
      split; [reflexivity|exists O; reflexivity].
    + destruct (leaf_hole this h H _ Hx' Hp3 Hp4) as [Hr1 Hr2].
      apply (Hfin _ _ _ _ h); auto.
      rewrite nodes_plug. reflexivity.
  - destruct (balanced_one_child (T rl rn rr) this h (or_introl Hx') ltac:(discriminate))
      as (Ht & -> & cn & Ecn & Hcn).
    injection Ecn as -> -> ->.
    destruct p' as [|[d pn s] rest].
    + eexists. split; [reflexivity|]. split.
      * split; [reflexivity|]. exists 1%nat. cbn. auto.
      * cbn [set_tree_color nodes nlefts nrights app map]. rewrite (proj1 Hf). reflexivity.
    + cbv beta iota. apply (Hfin _ _ _ _ 1%nat); auto.
      * intros _. cbn [as_leaf set_color m_color balanced tree_color]. rewrite Ht. cbn. auto.
      * rewrite Hcn. discriminate.
      * rewrite nodes_plug. cbn [as_leaf nodes app]. rewrite !map_app. cbn [map].
        rewrite (proj1 Hf). reflexivity.
  - destruct (balanced_one_child (T ll ln lr) this h (or_intror Hx') ltac:(discriminate))
      as (Ht & -> & cn & Ecn & Hcn).
    injection Ecn as -> -> ->.
    destruct p' as [|[d pn s] rest].
    + eexists. split; [reflexivity|]. split.
      * split; [reflexivity|]. exists 1%nat. cbn. auto.
      * cbn [set_tree_color nodes nlefts nrights app map]. rewrite (proj1 Hf). reflexivity.
    + cbv beta iota. apply (Hfin _ _ _ _ 1%nat); auto.
      * intros _. cbn [as_leaf set_color m_color balanced tree_color]. rewrite Ht. cbn. auto.
      * rewrite Hcn. discriminate.
      * rewrite nodes_plug. cbn [as_leaf nodes app]. rewrite !map_app. cbn [map].
        rewrite (proj1 Hf). reflexivity.
  - assert (Hm : forall (a b c e : option (tree X)),
              match p', T ll ln lr, T rl rn rr with
              | [], Nil, _ => a
              | [], _, Nil => b
              | _, T _ _ _, T _ _ _ => c
              | _, _, _ => e
              end = c) by (intros; destruct p' as [|[? ? ?] ?]; reflexivity).
    rewrite (fun c => Hm None None c None).
    clear Hm.
    destruct (leftmost_some (T rl rn rr) [] ltac:(discriminate)) as [[[sn sr] ps] El].
    rewrite El.
    destruct (leftmost_nodes _ _ _ _ _ El) as (q & Hq & Hplug & Hnl & Hdq & Hn).
    rewrite app_nil_r in Hq. subst q.
    rewrite (Hnext _ _ Hn), Z.eqb_refl. cbv zeta.
    set (sn' := set_color (m_color this) sn).
    assert (Horig : plug (T Nil sn sr) (ps ++ F RIGHT this (T ll ln lr) :: p')
                    = plug (T (T ll ln lr) this (T rl rn rr)) p').
    { rewrite plug_app, Hplug. reflexivity. }
    assert (Hwhole : balanced (plug (T (T ll ln lr) this (T rl rn rr)) p') H /\
                     tree_color (plug (T (T ll ln lr) this (T rl rn rr)) p') = BLACK).
    { destruct (plug_balanced p' _ h H Hx' Hp3 Hp4) as [H1 H2]. split; [exact H1|].
      destruct (m_color this) eqn:Et.
      - apply H2. left. intros E. rewrite E in Hp4. exact (Hp4 eq_refl).
      - apply H2. right. exact Et. }
    destruct Hwhole as [Hwb Hwc]. rewrite <- Horig in Hwb, Hwc.
    assert (Hdall : dirs_ok (ps ++ F RIGHT this (T ll ln lr) :: p')).
    { apply Forall_app. split; [exact Hdq|]. constructor; [discriminate|exact Hp5]. }
    destruct (pbal_inv _ _ H Hdall Hwc Hwb) as (hs & Hsx & Hsp & Hspb).
    cbn [tree_color] in Hspb.
    assert (Hsp' : pbal (removal_path ps sn' (T ll ln lr) p') hs H /\
                   (m_color sn = RED -> parent_black (removal_path ps sn' (T ll ln lr) p'))).
    { unfold removal_path. split.
      - apply (proj2 (pbal_replace ps RIGHT this sn' (T ll ln lr) (T ll ln lr) p' hs H
                        eq_refl eq_refl (fun _ Hh => Hh))). exact Hsp.
      - intros E.
        apply (proj1 (pbal_replace ps RIGHT this sn' (T ll ln lr) (T ll ln lr) p' hs H
                        eq_refl eq_refl (fun _ Hh => Hh))). auto. }
    destruct Hsp' as [Hsp1 Hsp2].
    assert (Hnodes : forall hole : tree X,
              map f (nodes hole) = map f (nodes sr) ->
              map f (nodes (plug hole (removal_path ps sn' (T ll ln lr) p')))
              = map f (nlefts p' ++ nodes (T ll ln lr) ++ nodes (T rl rn rr) ++ nrights p')).
    { intros hole Hh. unfold removal_path. rewrite nodes_plug, nlefts_app, nrights_app, Hnl, Hn.
      cbn [nlefts nrights]. rewrite app_nil_r.
      rewrite !map_app. cbn [map]. rewrite !map_app. cbn [map].
      rewrite Hh. unfold sn'. rewrite (proj1 Hf).
      repeat first [rewrite <- app_assoc | progress cbn [app]]. reflexivity. }
    destruct sr as [|sl srn srr].
    + destruct (leaf_hole sn hs H _ Hsx Hsp1 Hsp2) as [Hr1 Hr2].
      apply (Hfin _ _ _ _ hs); auto.
    + destruct (balanced_one_child (T sl srn srr) sn hs (or_introl Hsx) ltac:(discriminate))
        as (Ht & -> & cn & Ecn & Hcn).
      injection Ecn as -> -> ->.
      apply (Hfin _ _ _ _ 1%nat); auto.
      * intros _. cbn [as_leaf set_color m_color balanced tree_color]. rewrite Ht. cbn. auto.
      * rewrite Hcn. discriminate.
      * apply Hnodes. cbn [as_leaf nodes app map]. rewrite (proj1 Hf). reflexivity.
Qed.

End RemoveTree.

(** *** [erase_inner] and [set_inner] *)

Section EraseTree.
Context {X : Type}.
Implicit Types (t l r x s w : tree X) (n : node X) (p : path X).

Lemma locate_dirs k : forall t p x p',
  locate k t p = Some (x, p') -> dirs_ok p -> dirs_ok p'.
Proof.
  induction t as [|l IHl n r IHr]; intros p x p' H Hp; [discriminate|].
  cbn [locate] in H. destruct (m_metric n =? k).
  - injection H as _ <-. exact Hp.
  - destruct (locate k l (F LEFT n r :: p)) as [z|] eqn:El.
    + injection H as ->. eapply IHl; [exact El|]. constructor; [discriminate|exact Hp].
    + eapply IHr; [exact H|]. constructor; [discriminate|exact Hp].
Qed.

Lemma balanced_plug_congr p : forall x x',
  tree_color x = tree_color x' -> (forall h, balanced x h <-> balanced x' h) ->
  tree_color (plug x p) = tree_color (plug x' p) /\
  (forall h, balanced (plug x p) h <-> balanced (plug x' p) h).
Proof.
  induction p as [|[d n s] p IH]; intros x x' Hc Hb; [split; assumption|].
  cbn [plug]. apply IH.
  - destruct d; reflexivity.
  - intros h. destruct d; cbn [mk balanced]; rewrite Hc;
      destruct (m_color n); try rewrite Hb; try reflexivity;
      destruct h; try reflexivity; rewrite Hb; reflexivity.
Qed.

Lemma red_black_set_maxima c l n r p :
  red_black (plug (T l n r) p) -> red_black (plug (T l (set_maxima c n) r) p).
Proof.
  intros [Hc [h Hb]].
  destruct (balanced_plug_congr p (T l n r) (T l (set_maxima c n) r)) as [E1 E2];
    [reflexivity|intros h'; reflexivity|].
  split; [rewrite <- E1; exact Hc|]. exists h. apply E2. exact Hb.
Qed.

Lemma head_key_set_last_next k (A B : list (node X)) :
  head_key (set_last_next k A ++ B) = head_key (A ++ B).
Proof. destruct A as [|a [|b A]]; reflexivity. Qed.

Lemma threaded_head_key n (B : list (node X)) :
  threaded (n :: B) <-> m_next n = head_key B /\ threaded B.
Proof. cbn [threaded]. destruct B; reflexivity. Qed.

Lemma threaded_remove_node (A B : list (node X)) n :
  threaded (A ++ n :: B) -> threaded (set_last_next (m_next n) A ++ B).
Proof.
  induction A as [|a A IH]; cbn [app]; intros H.
  - apply threaded_head_key in H. exact (proj2 H).
  - apply threaded_head_key in H. destruct H as [Ha Hrest].
    destruct A as [|b A].
    + cbn [app set_last_next] in *. apply threaded_head_key.
      apply threaded_head_key in Hrest. destruct Hrest as [Hn HB].
      split; [exact Hn|exact HB].
    + change (set_last_next (m_next n) (a :: b :: A)) with
        (a :: set_last_next (m_next n) (b :: A)).
      cbn [app]. apply threaded_head_key. split.
      * rewrite head_key_set_last_next. exact Ha.
      * apply IH. exact Hrest.
Qed.

Lemma threaded_set_maxima c (A B : list (node X)) n :
  threaded (A ++ n :: B) -> threaded (A ++ set_maxima c n :: B).
Proof.
  apply threaded_links. rewrite !map_app. reflexivity.
Qed.

Lemma erase_nth_nil_content i (c : list (Z * X)) :
  erase_nth i c = [] -> c = [] \/ exists e, c = [e].
Proof.
  destruct i as [|i]; destruct c as [|e c]; cbn [erase_nth]; intros H; auto.
  - subst c. right. eauto.
  - discriminate.
Qed.

Lemma erase_nth_Forall (Q : Z * X -> Prop) : forall i c,
  Forall Q c -> Forall Q (erase_nth i c).
Proof.
  induction i as [|i IH]; intros c H; destruct H as [|e c He Hc]; cbn [erase_nth];
    try constructor; auto.
Qed.

Lemma erase_nth_sorted (Q : Z -> Z -> Prop) : forall i (c : list (Z * X)),
  StronglySorted Q (map fst c) -> StronglySorted Q (map fst (erase_nth i c)).
Proof.
  induction i as [|i IH]; intros [|e c] H; cbn [erase_nth map] in *; try exact H;
    inversion H as [|? ? Hs Hf]; subst; [exact Hs|].
  constructor; [apply IH; exact Hs|].
  rewrite Forall_map in *. apply erase_nth_Forall. exact Hf.
Qed.

Section ErasedViews.
Context {A : Type}.
Variable f : node X -> A.
Hypothesis Hf : stable f.

(** [erase_inner] on a node of a consistent red-black tree gives a
    red-black tree: the node is taken out when its inner set is empty
    afterwards, and keeps its place otherwise. *)
Lemma erase_inner_ok t (L R : list (node X)) n i :
  ordered t -> threaded (nodes t) -> red_black t -> nodes t = L ++ n :: R ->
  exists t', erase_inner (m_metric n) i t = Some t' /\ red_black t' /\
    proj f t' = map f (match erase_nth i (m_maxima n) with
                       | [] => set_last_next (m_next n) L ++ R
                       | c => L ++ set_maxima c n :: R
                       end).
Proof.
  intros Ho Ht Hrb Hn.
  destruct (locate_node t L R n (sorted_NoDup _ Ho) Hn) as (l & r & p & Hl & Hp & HL & HR).
  pose proof (locate_dirs _ _ _ _ _ Hl (Forall_nil _)) as Hd.
  unfold erase_inner. rewrite Hl. cbv zeta.
  remember (erase_nth i (m_maxima n)) as c eqn:Ec.
  set (n' := set_maxima c n).
  assert (Hrb' : red_black (plug (T l n' r) p))
    by (apply red_black_set_maxima; rewrite Hp; exact Hrb).
  assert (Hn' : nodes (plug (T l n' r) p) = L ++ n' :: R).
  { rewrite nodes_plug. cbn [nodes]. rewrite HL, HR, <- !app_assoc. reflexivity. }
  assert (Ht' : threaded (nodes (plug (T l n' r) p))).
  { rewrite Hn'. apply threaded_set_maxima. rewrite <- Hn. exact Ht. }
  change (m_maxima n') with c. subst n'. clear Ec. destruct c as [|e c].
  - destruct (remove_ok f Hf l _ r p Hd Hrb' Ht') as (t' & H1 & H2 & H3).
    exists t'. split; [exact H1|]. split; [exact H2|].
    rewrite H3, HL, HR. reflexivity.
  - eexists. split; [reflexivity|]. split.
    + destruct Hrb' as [Hc [h Hb]]. split; [rewrite tree_color_ripple; exact Hc|].
      exists h. apply balanced_ripple. exact Hb.
    + rewrite (proj_ripple f Hf), (proj_nodes f), Hn'. reflexivity.
Qed.

End ErasedViews.

(** The consistent state is kept as well, with what holds of the inner
    sets when it holds of the inner set with the entry taken out. *)
Lemma erase_inner_wf (Q : Z -> list (Z * X) -> Prop) t (L R : list (node X)) n i :
  well_formed t -> red_black t -> nodes t = L ++ n :: R ->
  Forall (node_inv Q) (nodes t) ->
  (Q (m_metric n) (m_maxima n) -> Q (m_metric n) (erase_nth i (m_maxima n))) ->
  exists t', erase_inner (m_metric n) i t = Some t' /\
    well_formed t' /\ red_black t' /\ Forall (node_inv Q) (nodes t') /\
    proj (@content X) t' =
      map (@content X) L ++
      match erase_nth i (m_maxima n) with
      | [] => []
      | c => [(m_metric n, c)]
      end ++ map (@content X) R.
Proof.
  intros (Ho & Hh & Ht & Hi) Hrb Hn HQ Hupd.
  destruct (erase_inner_ok (@view X) view_stable t L R n i Ho Ht Hrb Hn)
    as (t' & He & Hrb' & Hv).
  destruct (erase_inner_ok (@content X) content_stable t L R n i Ho Ht Hrb Hn)
    as (t2 & He2 & _ & Hc).
  rewrite He in He2. injection He2 as <-.
  destruct (erase_inner_spec _ _ _ _ He Ho Hh) as [Ho' Hh'].
  exists t'. split; [exact He|].
  rewrite (proj_nodes (@view X)) in Hv. symmetry in Hv.
  rewrite Hn in Ht, Hi, HQ.
  assert (Hkeep : forall (S : Z -> list (Z * X) -> Prop),
            Forall (node_inv S) (L ++ n :: R) ->
            (S (m_metric n) (m_maxima n) -> erase_nth i (m_maxima n) <> [] ->
             S (m_metric n) (erase_nth i (m_maxima n))) ->
            Forall (node_inv S) (nodes t')).
  { intros S HS HSu. apply (node_inv_views S _ _ Hv).
    apply Forall_app in HS. destruct HS as [HSL HSR].
    apply Forall_cons_iff in HSR. destruct HSR as [HSn HSR'].
    destruct (erase_nth i (m_maxima n)) as [|e c] eqn:Ec.
    - apply Forall_app. split; [apply node_inv_set_last_next; exact HSL|exact HSR'].
    - apply Forall_app. split; [exact HSL|]. constructor; [|exact HSR'].
      unfold node_inv in *. cbn [set_maxima m_metric m_maxima]. apply HSu; [exact HSn|discriminate]. }
  split; [|split; [exact Hrb'|split]].
  - split; [exact Ho'|]. split; [exact Hh'|]. split.
    + apply (threaded_views _ _ Hv).
      destruct (erase_nth i (m_maxima n)) as [|e c].
      * apply threaded_remove_node. exact Ht.
      * apply threaded_set_maxima. exact Ht.
    + apply (Hkeep (fun m c => c <> [] /\ StronglySorted Z.le (map fst c) /\
                               Forall (fun e => m <= fst e) c)); [exact Hi|].
      intros (_ & Hs & Hf) Hne. split; [exact Hne|].
      split; [apply erase_nth_sorted; exact Hs|apply erase_nth_Forall; exact Hf].
  - apply (Hkeep Q); [exact HQ|]. intros H _. apply Hupd. exact H.
  - rewrite Hc. destruct (erase_nth i (m_maxima n)) as [|e c].
    + rewrite map_app. f_equal. clear. induction L as [|a [|b L] IH]; try reflexivity.
      change (set_last_next (m_next n) (a :: b :: L)) with
        (a :: set_last_next (m_next n) (b :: L)).
      cbn [map]. rewrite IH. reflexivity.
    + rewrite map_app. reflexivity.
Qed.

(** [set_inner] puts the value into the inner set of the node and changes
    nothing else. *)
Lemma set_inner_wf (Q : Z -> list (Z * X) -> Prop) t (L R : list (node X)) n i v :
  well_formed t -> red_black t -> nodes t = L ++ n :: R ->
  Forall (node_inv Q) (nodes t) ->
  (Q (m_metric n) (m_maxima n) -> Q (m_metric n) (set_nth i v (m_maxima n))) ->
  exists t', set_inner (m_metric n) i v t = Some t' /\
    well_formed t' /\ red_black t' /\ Forall (node_inv Q) (nodes t') /\
    nodes t' = L ++ set_maxima (set_nth i v (m_maxima n)) n :: R.
Proof.
  intros (Ho & Hh & Ht & Hi) Hrb Hn HQ Hupd.
  destruct (locate_node t L R n (sorted_NoDup _ Ho) Hn) as (l & r & p & Hl & Hp & HL & HR).
  assert (He : set_inner (m_metric n) i v t
               = Some (plug (T l (set_maxima (set_nth i v (m_maxima n)) n) r) p))
    by (unfold set_inner; rewrite Hl; reflexivity).
  set (n' := set_maxima (set_nth i v (m_maxima n)) n) in *.
  assert (Hn' : nodes (plug (T l n' r) p) = L ++ n' :: R).
  { rewrite nodes_plug. cbn [nodes]. rewrite HL, HR, <- !app_assoc. reflexivity. }
  destruct (set_inner_spec _ _ _ _ _ He) as [Hk Hh'].
  exists (plug (T l n' r) p). split; [exact He|].
  rewrite Hn in Ht, Hi, HQ.
  apply Forall_app in Hi. destruct Hi as [HiL HiR].
  apply Forall_cons_iff in HiR. destruct HiR as [Hin HiR'].
  apply Forall_app in HQ. destruct HQ as [HQL HQR].
  apply Forall_cons_iff in HQR. destruct HQR as [HQn HQR'].
  split; [|split; [|split]].
  - split; [unfold ordered; rewrite Hk; exact Ho|]. split; [auto|]. rewrite Hn'. split.
    + apply threaded_set_maxima. exact Ht.
    + apply Forall_app. split; [exact HiL|]. constructor; [|exact HiR'].
      destruct Hin as (H1 & H2 & H3). unfold inner_ok, n'. cbn [set_maxima m_metric m_maxima].
      rewrite map_fst_set_nth. split; [|split; [exact H2|]].
      * intros E. apply H1. destruct (m_maxima n) as [|[? ?] ?]; [reflexivity|].
        destruct i; discriminate.
      * clear - H3. revert i. induction (m_maxima n) as [|[m w] c IH]; intros i;
          destruct i; cbn [set_nth]; inversion H3; subst; constructor; auto.
  - apply red_black_set_maxima. rewrite Hp. exact Hrb.
  - rewrite Hn'. apply Forall_app. split; [exact HQL|]. constructor; [|exact HQR'].
    unfold node_inv, n' in *. cbn [set_maxima m_metric m_maxima]. apply Hupd. exact HQn.
  - exact Hn'.
Qed.

End EraseTree.

(** *** The node and the inner entry that a cursor refers to *)

Section Handles.
Context {X : Type}.
Implicit Types (t : tree X) (n : node X).

Lemma node_of_split k t n :
  node_of k t = Some n ->
  exists L R, nodes t = L ++ n :: R /\ m_metric n = k.
Proof.
  unfold node_of. destruct (locate k t []) as [[[|l n' r] p]|] eqn:E; try discriminate.
  intros H. injection H as ->.
  destruct (locate_spec _ _ _ _ _ E) as [Hp Hk]. cbn [plug] in Hp. cbn in Hk.
  exists (nlefts p ++ nodes l), (nodes r ++ nrights p). split; [|congruence].
  rewrite <- Hp, nodes_plug. cbn [nodes]. rewrite <- !app_assoc. reflexivity.
Qed.

Lemma inner_of_node_of k t : inner_of k t = option_map (@m_maxima X) (node_of k t).
Proof.
  unfold inner_of, node_of. destruct (locate k t []) as [[[|l n r] p]|]; reflexivity.
Qed.

Lemma inner_at_split (c : option Z * nat) t iv v :
  inner_at c t = Some (iv, v) ->
  exists n L R c1 mx c2,
    fst c = Some (m_metric n) /\ node_of (m_metric n) t = Some n /\
    nodes t = L ++ n :: R /\
    m_maxima n = c1 ++ (mx, v) :: c2 /\ length c1 = snd c /\
    iv = Interval.make (m_metric n) mx.
Proof.
  unfold inner_at. destruct c as [[k|] i]; cbn [fst snd]; [|discriminate].
  destruct (node_of k t) as [n|] eqn:En; [|discriminate].
  destruct (nth_error (m_maxima n) i) as [[mx w]|] eqn:Ei; [|discriminate].
  intros H. injection H as <- <-.
  destruct (node_of_split _ _ _ En) as (L & R & Hn & Hk). subst k.
  destruct (nth_error_split _ _ Ei) as (c1 & c2 & Hc & Hlen).
  exists n, L, R, c1, mx, c2. repeat split; auto.
Qed.

Lemma erase_nth_split (c1 c2 : list (Z * X)) e :
  erase_nth (length c1) (c1 ++ e :: c2) = c1 ++ c2.
Proof. induction c1 as [|a c1 IH]; cbn [length app erase_nth]; [|rewrite IH]; reflexivity. Qed.

Lemma set_nth_split (c1 c2 : list (Z * X)) m w v :
  set_nth (length c1) v (c1 ++ (m, w) :: c2) = c1 ++ (m, v) :: c2.
Proof. induction c1 as [|a c1 IH]; cbn [length app set_nth]; [|rewrite IH]; reflexivity. Qed.

Lemma nth_error_middle (c1 c2 : list (Z * X)) e :
  nth_error (c1 ++ e :: c2) (length c1) = Some e.
Proof. induction c1 as [|a c1 IH]; cbn [length app nth_error]; auto. Qed.

(** The elements under the nodes, for what is under an inner entry. *)
Section Entries.
Context {E : Type}.
Variable h : Z -> Z * X -> list E.

Local Abbreviation under := (fun nd : node X => flat_map (h (m_metric nd)) (m_maxima nd)).

Lemma entries_content t :
  flat_map under (nodes t) =
  flat_map (fun mc : Z * list (Z * X) => flat_map (h (fst mc)) (snd mc)) (proj (@content X) t).
Proof. rewrite <- flat_map_proj. reflexivity. Qed.

Lemma entries_erased t' (L R : list (node X)) n c :
  proj (@content X) t' =
    map (@content X) L ++ match c with [] => [] | e :: c' => [(m_metric n, e :: c')] end
    ++ map (@content X) R ->
  flat_map under (nodes t') =
  flat_map under L ++ flat_map (h (m_metric n)) c ++ flat_map under R.
Proof.
  intros H. rewrite entries_content, H, !flat_map_app.
  assert (Hm : forall B : list (node X),
            flat_map (fun mc : Z * list (Z * X) => flat_map (h (fst mc)) (snd mc))
                     (map (@content X) B) = flat_map under B).
  { induction B as [|b B IH]; [reflexivity|]. cbn [map flat_map]. rewrite IH. reflexivity. }
  rewrite !Hm. f_equal. f_equal.
  destruct c as [|e c]; [reflexivity|]. cbn [flat_map fst snd]. rewrite app_nil_r. reflexivity.
Qed.

End Entries.
End Handles.

(** *** [insert] and [erase] through the layers *)

Section EraseLayers.
Context {P : Type}.

Lemma layer_red_black_empty (n : nat) : layer_red_black (P := P) n (empty n).
Proof.
  destruct n; cbn [layer_red_black empty nodes]; repeat split; try constructor;
    exists O; reflexivity.
Qed.

Lemma layer_red_black_top (n : nat) (L : layer P n) :
  layer_red_black n L ->
  match n return layer P n -> Prop with
  | O => fun t => red_black t
  | S _ => fun t => red_black t
  end L.
Proof. destruct n; cbn [layer_red_black]; tauto. Qed.

Lemma insert_red_black (n : nat) : forall (r : region n) (v : P) (L : layer P n),
  layer_wf n L -> layer_red_black n L -> region_valid n r ->
  layer_red_black n (insert n r v L).
Proof.
  induction n as [|k IH]; intros r v L Hwf Hrb Hr;
    cbn [layer_wf layer_red_black insert region_valid] in *.
  - apply tree_insert_red_black; [exact (proj1 Hwf)|exact Hrb].
  - destruct Hwf as ((Ho & Hh & Ht & Hi) & Hdeep & Hstrict). destruct Hrb as [Hrb Hdrb].
    destruct Hr as [Hr1 Hr2].
    split; [apply tree_insert_red_black; assumption|].
    pose proof (tree_insert_nodes
                  (upper_inner_tree_inserter (_max (fst r)) (empty k) (insert k (snd r) v))
                  (fst r) L
                  (fun m c => Forall (fun e => layer_wf k (snd e) /\
                                               layer_red_black k (snd e)) c)) as Hn.
    destruct Hn as [_ Hall]; auto.
    + rewrite Forall_forall in *. intros x Hx. unfold node_inv.
      rewrite Forall_forall. intros e He.
      pose proof (Hdeep x Hx) as H1. pose proof (Hdrb x Hx) as H2.
      rewrite Forall_forall in H1, H2. auto.
    + cbn. constructor; [|constructor]. cbn [snd].
      split; [apply insert_wf|apply IH]; auto using layer_wf_empty, layer_red_black_empty.
    + intros c Hc. apply upper_inserter_Forall; [| |exact Hc]; cbn [snd].
      * split; [apply insert_wf|apply IH]; auto using layer_wf_empty, layer_red_black_empty.
      * intros w [Hw1 Hw2]. split; [apply insert_wf|apply IH]; auto.
    + rewrite Forall_forall in *. intros x Hx. specialize (Hall x Hx). unfold node_inv in Hall.
      rewrite Forall_forall in *. intros e He. exact (proj2 (Hall e He)).
Qed.

Lemma is_empty_entries (n : nat) (L : layer P n) :
  is_empty L = true -> all_entries n L = [].
Proof. destruct n; destruct L; cbn; congruence. Qed.

(** [erase] at a cursor that refers to an element. *)
Lemma erase_ok (n : nat) : forall (spot : cursor n) (L : layer P n) (e : region n * P),
  layer_wf n L -> layer_red_black n L -> deref n spot L = Some e ->
  exists L' a b, erase n spot L = Some L' /\ layer_wf n L' /\ layer_red_black n L' /\
    all_entries n L = a ++ e :: b /\ all_entries n L' = a ++ b.
Proof.
  induction n as [|k IH]; intros spot L e Hwf Hrb Hd;
    cbn [layer_wf layer_red_black deref erase all_entries] in *.
  - destruct e as [iv v].
    destruct (inner_at_split _ _ _ _ Hd) as (n & A & B & c1 & mx & c2 & Hk & Hno & Hn & Hc & Hi & ->).
    destruct spot as [o i]. cbn [fst snd] in Hk, Hi. subst o i.
    rewrite inner_of_node_of, Hno. cbn [option_map].
    assert (Hlt : (length c1 <? length (m_maxima n))%nat = true).
    { apply Nat.ltb_lt. rewrite Hc, length_app. cbn [length]. lia. }
    rewrite Hlt.
    destruct (erase_inner_wf (fun _ _ => True) L A B n (length c1) Hwf Hrb Hn)
      as (t' & He & Hwf' & Hrb' & _ & Hcont).
    { rewrite Forall_forall. intros; exact I. }
    { auto. }
    rewrite Hc, erase_nth_split in Hcont.
    pose proof (entries_erased
                  (fun m (e : Z * P) => [(Interval.make m (fst e), snd e)])
                  t' A B n (c1 ++ c2) Hcont) as Hent.
    exists t'.
    exists (flat_map (fun nd => flat_map (bottom_expand nd) (m_maxima nd)) A
            ++ flat_map (bottom_expand n) c1).
    exists (flat_map (bottom_expand n) c2
            ++ flat_map (fun nd => flat_map (bottom_expand nd) (m_maxima nd)) B).
    split; [exact He|]. split; [exact Hwf'|]. split; [exact Hrb'|]. split.
    + rewrite Hn, flat_map_app. cbn [flat_map]. rewrite Hc, flat_map_app. cbn [flat_map].
      unfold bottom_expand at 3. cbn [fst snd app].
      rewrite <- !app_assoc. reflexivity.
    + unfold bottom_expand in *. rewrite Hent, flat_map_app, <- !app_assoc. reflexivity.
  - change ((fix layer (n : nat) : Type :=
               match n with
               | O => tree P
               | S k0 => tree (layer k0)
               end) k) with (layer P k) in *.
    destruct Hwf as (Hwf & Hdeep & Hstrict). destruct Hrb as [Hrb Hdrb].
    unfold upper_deref in Hd. destruct spot as [c lc]. cbn [fst snd] in Hd.
    revert Hd.
    match goal with
    | |- match ?t with _ => _ end = _ -> _ => destruct t as [[iv lo]|] eqn:Ei
    end; [|discriminate].
    match goal with
    | |- match ?t with _ => _ end = _ -> _ => destruct t as [[r v]|] eqn:Edl
    end; [|discriminate].
    intros Hd. injection Hd as <-.
    destruct (inner_at_split _ _ _ _ Ei) as (n & A & B & c1 & mx & c2 & Hk & Hno & Hn & Hc & Hi & ->).
    destruct c as [o i]. cbn [fst snd] in Hk, Hi. subst o i.
    rewrite inner_of_node_of, Hno. cbn [option_map].
    rewrite Hc, nth_error_middle.
    assert (Hin : In n (nodes (X := layer P k) L)) by (rewrite Hn; apply in_or_app; right; left; reflexivity).
    assert (Hlo : In (mx, lo) (m_maxima n))
      by (rewrite Hc; apply in_or_app; right; left; reflexivity).
    pose proof (proj1 (Forall_forall _ _) Hdeep n Hin) as Hdn.
    pose proof (proj1 (Forall_forall _ _) Hdrb n Hin) as Hrn.
    pose proof (proj1 (Forall_forall _ _) Hstrict n Hin) as Hsn.
    pose proof (proj1 (Forall_forall _ _) Hdn _ Hlo) as Hwlo.
    pose proof (proj1 (Forall_forall _ _) Hrn _ Hlo) as Hrlo.
    cbn [snd] in Hwlo, Hrlo.
    destruct (IH lc lo (r, v) Hwlo Hrlo Edl) as (lo' & a & b & Hel & Hwl' & Hrl' & Hea & Heb).
    rewrite Hel.
    set (Q := fun (m : Z) (c : list (Z * layer P k)) =>
                Forall (fun e => layer_wf k (snd e)) c /\
                StronglySorted Z.lt (map fst c) /\
                Forall (fun e => layer_red_black k (snd e)) c).
    assert (HQ : Forall (node_inv Q) (nodes (X := layer P k) L)).
    { rewrite Forall_forall in *. intros x Hx. unfold node_inv, Q. auto. }
    assert (Hback : forall t' : tree (layer P k),
              well_formed t' -> red_black t' -> Forall (node_inv Q) (nodes t') ->
              (well_formed t' /\
               Forall (fun nd => Forall (fun e => layer_wf k (snd e)) (m_maxima nd)) (nodes t') /\
               Forall (fun nd => StronglySorted Z.lt (map fst (m_maxima nd))) (nodes t')) /\
              (red_black t' /\
               Forall (fun nd => Forall (fun e => layer_red_black k (snd e)) (m_maxima nd))
                      (nodes t'))).
    { intros t' H1 H2 H3. rewrite Forall_forall in H3. unfold node_inv, Q in H3.
      split; [split; [exact H1|split]|split; [exact H2|]];
        rewrite Forall_forall; intros x Hx; apply (H3 x Hx). }
    set (pre := fun (m : Z) (e : Z * layer P k) =>
                  map (fun x : region k * P => ((Interval.make m (fst e), fst x), snd x))
                      (all_entries k (snd e))).
    destruct (is_empty lo') eqn:Eemp.
    + apply is_empty_entries in Eemp. rewrite Eemp in Heb.
      symmetry in Heb. apply app_eq_nil in Heb. destruct Heb as [-> ->].
      cbn [app] in Hea.
      destruct (erase_inner_wf Q L A B n (length c1) Hwf Hrb Hn HQ)
        as (t' & He & Hwf' & Hrb' & HQ' & Hcont).
      { unfold Q. intros (H1 & H2 & H3).
        split; [apply erase_nth_Forall; exact H1|].
        split; [apply erase_nth_sorted; exact H2|apply erase_nth_Forall; exact H3]. }
      rewrite Hc, erase_nth_split in Hcont.
      pose proof (entries_erased pre t' A B n (c1 ++ c2) Hcont) as Hent.
      destruct (Hback t' Hwf' Hrb' HQ') as [Hw Hr].
      exists t'.
      exists (flat_map (fun nd => flat_map (pre (m_metric nd)) (m_maxima nd)) A
              ++ flat_map (pre (m_metric n)) c1).
      exists (flat_map (pre (m_metric n)) c2
              ++ flat_map (fun nd => flat_map (pre (m_metric nd)) (m_maxima nd)) B).
      split; [exact He|]. split; [exact Hw|]. split; [exact Hr|]. split.
      * change (flat_map (fun nd => flat_map (pre (m_metric nd)) (m_maxima nd)) (nodes (X := layer P k) L)
                = (flat_map (fun nd => flat_map (pre (m_metric nd)) (m_maxima nd)) A
                   ++ flat_map (pre (m_metric n)) c1)
                  ++ ((Interval.make (m_metric n) mx, r), v)
                     :: flat_map (pre (m_metric n)) c2
                        ++ flat_map (fun nd => flat_map (pre (m_metric nd)) (m_maxima nd)) B).
        rewrite Hn, flat_map_app. cbn [flat_map]. rewrite Hc, flat_map_app. cbn [flat_map].
        unfold pre at 3. cbn [fst snd]. rewrite Hea. cbn [map fst snd app].
        rewrite <- !app_assoc. reflexivity.
      * change (flat_map (fun nd => flat_map (pre (m_metric nd)) (m_maxima nd)) (nodes t')
                = (flat_map (fun nd => flat_map (pre (m_metric nd)) (m_maxima nd)) A
                   ++ flat_map (pre (m_metric n)) c1)
                  ++ flat_map (pre (m_metric n)) c2
                     ++ flat_map (fun nd => flat_map (pre (m_metric nd)) (m_maxima nd)) B).
        rewrite Hent, flat_map_app, <- !app_assoc. reflexivity.
    + destruct (set_inner_wf Q L A B n (length c1) lo' Hwf Hrb Hn HQ)
        as (t' & He & Hwf' & Hrb' & HQ' & Hn').
      { unfold Q. rewrite Hc, set_nth_split. intros (H1 & H2 & H3).
        rewrite map_app in *. cbn [map fst] in *.
        split; [|split; [exact H2|]].
        - apply Forall_app in H1. destruct H1 as [H1 H1']. apply Forall_cons_iff in H1'.
          apply Forall_app. split; [exact H1|]. constructor; [exact Hwl'|exact (proj2 H1')].
        - apply Forall_app in H3. destruct H3 as [H3 H3']. apply Forall_cons_iff in H3'.
          apply Forall_app. split; [exact H3|]. constructor; [exact Hrl'|exact (proj2 H3')]. }
      rewrite Hc, set_nth_split in Hn'.
      destruct (Hback t' Hwf' Hrb' HQ') as [Hw Hr].
      exists t'.
      exists (flat_map (fun nd => flat_map (pre (m_metric nd)) (m_maxima nd)) A
              ++ flat_map (pre (m_metric n)) c1
              ++ map (fun x : region k * P => ((Interval.make (m_metric n) mx, fst x), snd x)) a).
      exists (map (fun x : region k * P => ((Interval.make (m_metric n) mx, fst x), snd x)) b
              ++ flat_map (pre (m_metric n)) c2
              ++ flat_map (fun nd => flat_map (pre (m_metric nd)) (m_maxima nd)) B).
      split; [exact He|]. split; [exact Hw|]. split; [exact Hr|]. split.
      * change (all_entries (S k) L) with
          (flat_map (fun nd => flat_map (pre (m_metric nd)) (m_maxima nd)) (nodes (X := layer P k) L)).
        rewrite Hn, flat_map_app. cbn [flat_map]. rewrite Hc, flat_map_app. cbn [flat_map].
        unfold pre at 3. cbn [fst snd]. rewrite Hea, map_app. cbn [map fst snd].
        repeat first [rewrite <- app_assoc | progress cbn [app]]. reflexivity.
      * change (all_entries (S k) t') with
          (flat_map (fun nd => flat_map (pre (m_metric nd)) (m_maxima nd)) (nodes t')).
        rewrite Hn', flat_map_app. cbn [flat_map set_maxima m_maxima m_metric].
        rewrite flat_map_app. cbn [flat_map].
        unfold pre at 3. cbn [fst snd]. rewrite Heb, map_app.
        repeat first [rewrite <- app_assoc | progress cbn [app]]. reflexivity.
Qed.

End EraseLayers.













(** X21: [erase] at a cursor that refers to an
    element of a consistent flowspace with the red-black conditions in
    every layer ends without a fault and gives a flowspace that is
    consistent and has the red-black conditions again, so that
    [validate()] accepts it; a lower layer that is empty afterwards is
    taken out of the inner set, and a node whose inner set is empty
    afterwards out of the tree. *)
Theorem erase_keeps_consistent (P : Type) (n : nat) (spot : cursor n) (L : layer P n)
        (e : region n * P) :
  layer_wf n L -> layer_red_black n L -> deref n spot L = Some e ->
  exists L', erase n spot L = Some L' /\
    layer_wf n L' /\ layer_red_black n L' /\ layer_validate L' = true.
Proof.
  intros Hwf Hrb Hd.
  destruct (erase_ok n spot L e Hwf Hrb Hd) as (L' & a & b & He & Hwf' & Hrb' & _).
  exists L'. repeat split; auto.
  apply validate_layer; [exact Hwf'|]. apply layer_red_black_top. exact Hrb'.
Qed.

Lemma erase_keeps_consistent_witness :
  exists L',
    erase 1 ((Some 10, 0%nat), (Some 3, 0%nat)) (build 1 sample_elems) = Some L' /\
    layer_wf 1 L' /\ layer_red_black 1 L' /\ layer_validate L' = true.
Proof.
  apply (erase_keeps_consistent nat 1 _ _ ((Interval.make 10 20, Interval.make 3 4), 7%nat)).
  - vm_compute. repeat (split || constructor); vm_compute; congruence.
  - vm_compute. repeat (split || constructor); try (exists 1%nat; vm_compute; tauto).
  - reflexivity.
Defined.

(** X22: [erase] at a cursor that refers to the
    element [e] takes this one element out and nothing else: the
    flowspace stores afterwards what it stored before, in the same order,
    without the one occurrence of [e] that the cursor referred to. *)
Theorem erase_removes_element (P : Type) (n : nat) (spot : cursor n) (L : layer P n)
        (e : region n * P) :
  layer_wf n L -> layer_red_black n L -> deref n spot L = Some e ->
  exists L' a b, erase n spot L = Some L' /\
    all_entries n L = a ++ e :: b /\ all_entries n L' = a ++ b.
Proof.
  intros Hwf Hrb Hd.
  destruct (erase_ok n spot L e Hwf Hrb Hd) as (L' & a & b & He & _ & _ & Ha & Hb).
  exists L', a, b. auto.
Qed.

Lemma erase_removes_element_witness :
  exists L' a b,
    erase 1 ((Some 10, 0%nat), (Some 3, 0%nat)) (build 1 sample_elems) = Some L' /\
    all_entries 1 (build 1 sample_elems)
    = a ++ ((Interval.make 10 20, Interval.make 3 4), 7%nat) :: b /\
    all_entries 1 L' = a ++ b.
Proof.
  apply (erase_removes_element nat 1).
  - vm_compute. repeat (split || constructor); vm_compute; congruence.
  - vm_compute. repeat (split || constructor); try (exists 1%nat; vm_compute; tauto).
  - reflexivity.
Defined.

(** X23: after [erase] at a cursor that refers to the
    element [e], the iteration from [begin(q)] to [end()] visits what it
    visited before without that occurrence of [e] when the region of [e]
    intersects [q] in every dimension, and the same elements as before
    when it does not. *)
Theorem erase_then_query (P : Type) (n : nat) (spot : cursor n) (L : layer P n)
        (e : region n * P) (q : region n) :
  layer_wf n L -> layer_red_black n L -> deref n spot L = Some e -> region_valid n q ->
  exists L' es es',
    erase n spot L = Some L' /\ visit n q L = Some es /\ visit n q L' = Some es' /\
    if region_intersects n q (fst e)
    then exists a b, es = a ++ e :: b /\ es' = a ++ b
    else es' = es.
Proof.
  intros Hwf Hrb Hd Hq.
  destruct (erase_ok n spot L e Hwf Hrb Hd) as (L' & a & b & He & Hwf' & _ & Ha & Hb).
  destruct (visit_filter_sorted P n L q Hwf Hq) as (es & Hv & Hes & _).
  destruct (visit_filter_sorted P n L' q Hwf' Hq) as (es' & Hv' & Hes' & _).
  exists L', es, es'. split; [exact He|]. split; [exact Hv|]. split; [exact Hv'|].
  rewrite Ha in Hes. rewrite Hb in Hes'. rewrite filter_app in Hes, Hes'.
  cbn [filter] in Hes. destruct (region_intersects n q (fst e)).
  - eexists _, _. split; [exact Hes|exact Hes'].
  - congruence.
Qed.

Lemma erase_then_query_witness :
  exists L' es es',
    erase 1 ((Some 10, 0%nat), (Some 3, 0%nat)) (build 1 sample_elems) = Some L' /\
    visit 1 sample_query (build 1 sample_elems) = Some es /\
    visit 1 sample_query L' = Some es' /\
    if region_intersects 1 sample_query
         (fst ((Interval.make 10 20, Interval.make 3 4), 7%nat))
    then exists a b, es = a ++ ((Interval.make 10 20, Interval.make 3 4), 7%nat) :: b /\
                     es' = a ++ b
    else es' = es.
Proof.
  apply (erase_then_query nat 1).
  - vm_compute. repeat (split || constructor); vm_compute; congruence.
  - vm_compute. repeat (split || constructor); try (exists 1%nat; vm_compute; tauto).
  - reflexivity.
  - vm_compute. repeat split; discriminate.
Defined.

Section ExtentLayers.
Context {P : Type}.

Lemma all_entries_valid (n : nat) : forall L : layer P n,
  layer_wf n L -> Forall (fun e => region_valid n (fst e)) (all_entries n L).
Proof.
  induction n as [|k IH]; intros L Hwf; rewrite Forall_forall; intros e He;
    cbn [layer_wf all_entries region_valid] in *.
  - destruct Hwf as (_ & _ & _ & Hi). rewrite Forall_forall in Hi.
    apply in_flat_map in He. destruct He as (nd & Hnd & He).
    apply in_flat_map in He. destruct He as ([key w] & Hin & He).
    destruct He as [<-|[]]. cbn [fst snd].
    destruct (Hi nd Hnd) as (_ & _ & Hle). rewrite Forall_forall in Hle.
    specialize (Hle _ Hin). cbn [fst] in Hle.
    rewrite make_ordered by exact Hle. exact Hle.
  - destruct Hwf as ((_ & _ & _ & Hi) & Hdeep & _). rewrite Forall_forall in Hi, Hdeep.
    apply in_flat_map in He. destruct He as (nd & Hnd & He).
    apply in_flat_map in He. destruct He as ([key lo] & Hin & He).
    apply in_map_iff in He. destruct He as (x & <- & Hx). unfold prefix. cbn [fst snd].
    destruct (Hi nd Hnd) as (_ & _ & Hle). rewrite Forall_forall in Hle.
    specialize (Hle _ Hin). cbn [fst] in Hle.
    pose proof (Hdeep nd Hnd) as Hd. rewrite Forall_forall in Hd.
    specialize (Hd _ Hin). cbn [snd] in Hd.
    pose proof (IH lo Hd) as Hv. rewrite Forall_forall in Hv.
    split; [rewrite make_ordered by exact Hle; exact Hle|exact (Hv x Hx)].
Qed.

Lemma maximize_region_valid (MINv MAXv : Z) (n : nat) :
  region_valid n (maximize_region MINv MAXv n).
Proof.
  induction n as [|k IH]; cbn [maximize_region region_valid fst snd];
    [|split; [|exact IH]]; unfold valid, Interval.all, Interval.make; cbn [_min _max]; lia.
Qed.

Lemma maximize_region_intersects (MINv MAXv : Z) (n : nat) : forall r : region n,
  region_valid n r -> in_bounds MINv MAXv n r ->
  region_intersects n (maximize_region MINv MAXv n) r = true.
Proof.
  assert (H1 : forall i, valid i -> MINv <= _min i /\ _max i <= MAXv ->
                 has_intersection (Interval.all MINv MAXv) i = true).
  { intros i Hv [Hlo Hhi]. unfold valid in Hv.
    unfold has_intersection, Interval.all, Interval.make. cbn [_min _max].
    apply orb_true_iff. right. apply andb_true_iff. split; apply Z.leb_le; lia. }
  induction n as [|k IH]; intros r Hv Hb;
    cbn [maximize_region region_intersects region_valid in_bounds fst snd] in *.
  - apply H1; assumption.
  - destruct Hv as [Hv1 Hv2]. destruct Hb as [Hb1 Hb2].
    rewrite (H1 _ Hv1 Hb1), (IH _ Hv2 Hb2). reflexivity.
Qed.

End ExtentLayers.

(** X26: [find_intersecting] on a tree with the
    subtree hull invariant and distinct metrics ends without a fault (the
    node asserted to be there is there, and the backtracking does not
    leave the tree before it meets the candidate) and gives the first
    node in the order of the metrics whose local interval intersects the
    query interval, or the null handle when there is no such node. *)
Theorem find_intersecting_first (X : Type) (q : interval) (t : tree X) :
  hull_all t -> NoDup (keys t) ->
  (find_intersecting q t = Some None /\
   Forall (fun n => intersects_local q n = false) (nodes t)) \/
  (exists A n B, find_intersecting q t = Some (Some (m_metric n)) /\
     nodes t = A ++ n :: B /\ intersects_local q n = true /\
     Forall (fun n' => intersects_local q n' = false) A).
Proof.
  intros Hh Hnd. rewrite (find_intersecting_spec q t Hh Hnd).
  destruct (find (intersects_local q) (nodes t)) as [n|] eqn:Ef.
  - right. destruct (find_split _ _ _ Ef) as (A & B & Hn & HA & Hq).
    exists A, n, B. auto.
  - left. split; [reflexivity|]. rewrite Forall_forall. intros n Hn.
    exact (List.find_none _ _ Ef n Hn).
Qed.

Lemma find_intersecting_first_witness :
  (find_intersecting (Interval.make 8 45) (build 1 sample_elems) = Some None /\
   Forall (fun n => intersects_local (Interval.make 8 45) n = false)
          (nodes (build 1 sample_elems))) \/
  (exists A n B,
     find_intersecting (Interval.make 8 45) (build 1 sample_elems)
     = Some (Some (m_metric n)) /\
     nodes (build 1 sample_elems) = A ++ n :: B /\
     intersects_local (Interval.make 8 45) n = true /\
     Forall (fun n' => intersects_local (Interval.make 8 45) n' = false) A).
Proof.
  apply (find_intersecting_first (layer nat 0)).
  - vm_compute. repeat (split || constructor).
  - vm_compute. repeat constructor; cbn; intuition lia.
Defined.

(** X27: the iteration from [begin()] to [end()]
    over a consistent flowspace whose stored regions lie in the range of
    the metric type ends and visits every stored element once, in the
    order in which the flowspace holds them. *)
Theorem begin_visits_everything (P : Type) (MINv MAXv : Z) (n : nat) (L : layer P n) :
  layer_wf n L ->
  Forall (fun e => in_bounds MINv MAXv n (fst e)) (all_entries n L) ->
  visit_all MINv MAXv n L = Some (all_entries n L).
Proof.
  intros Hwf Hb. unfold visit_all.
  destruct (visit_filter_sorted P n L (maximize_region MINv MAXv n) Hwf
              (maximize_region_valid MINv MAXv n)) as (es & Hv & Hes & _).
  rewrite Hv, Hes. f_equal.
  pose proof (all_entries_valid n L Hwf) as Hval.
  clear Hv Hes. revert Hb Hval. generalize (all_entries n L). intros l.
  induction l as [|e l IH]; intros Hb Hval; [reflexivity|].
  apply Forall_cons_iff in Hb. apply Forall_cons_iff in Hval.
  destruct Hb as [Hb1 Hb2]. destruct Hval as [Hv1 Hv2]. cbn [filter].
  rewrite (maximize_region_intersects MINv MAXv n (fst e) Hv1 Hb1). f_equal.
  apply IH; assumption.
Qed.

Lemma begin_visits_everything_witness :
  visit_all 0 100 1 (build 1 sample_elems) = Some (all_entries 1 (build 1 sample_elems)).
Proof.
  apply (begin_visits_everything nat 0 100 1).
  - vm_compute. repeat (split || constructor); vm_compute; congruence.
  - vm_compute. repeat (split || constructor); congruence.
Defined.

Import Exact.

(** *** The node that [find] looks at *)

Section ExactTree.
Context {X : Type}.
Implicit Types (t l r x : tree X) (n : node X) (p : path X).

Lemma search_node m t x p d :
  t <> Nil -> ordered t -> search m t [] = (x, p, d) ->
  match x, d with
  | T _ n _, NONE => m_metric n = m /\ exists L R, nodes t = L ++ n :: R
  | _, _ => ~ In m (keys t)
  end.
Proof.
  intros Hnil Ho Hs.
  destruct (search_found m t [] x p d Hnil Ho) as (Hf & Hox & Hl & Hr);
    [intros k []|intros k []|exact Hs|].
  pose proof (search_plug _ _ _ _ _ _ Hs) as Hp. cbn [plug] in Hp.
  destruct x as [|xl xn xr]; [destruct Hf|].
  assert (Hk : keys t = lefts p ++ keys (T xl xn xr) ++ rights p)
    by (rewrite <- Hp; apply keys_plug).
  unfold ordered in Hox. cbn [keys] in Hox.
  apply sorted_app in Hox. destruct Hox as (Hsl & Hsr & Hlr).
  apply sorted_cons in Hsr. destruct Hsr as [Hsr Hnr].
  assert (Hout : forall k, k <> m -> (forall a, In a (keys xl) -> a <> m) ->
                 (forall a, In a (keys xr) -> a <> m) -> m_metric xn = k -> ~ In m (keys t)).
  { intros k Hkm H1 H2 Hxn Hin. rewrite Hk in Hin. cbn [keys] in Hin.
    rewrite !in_app_iff in Hin. cbn [In] in Hin.
    destruct Hin as [Hin|[[Hin|[Hin|Hin]]|Hin]].
    - apply Hl in Hin. lia.
    - exact (H1 _ Hin eq_refl).
    - congruence.
    - exact (H2 _ Hin eq_refl).
    - apply Hr in Hin. lia. }
  destruct d; cbn [found] in Hf.
  - split; [exact Hf|].
    exists (nlefts p ++ nodes xl), (nodes xr ++ nrights p).
    rewrite <- Hp, nodes_plug. cbn [nodes]. rewrite <- !app_assoc. reflexivity.
  - destruct Hf as [-> Hm].
    apply (Hout (m_metric xn));
      [lia|intros a []|intros a Ha; apply Hnr in Ha; lia|reflexivity].
  - destruct Hf as [-> Hm].
    apply (Hout (m_metric xn));
      [lia| |intros a []|reflexivity].
    intros a Ha. specialize (Hlr a (m_metric xn) Ha (or_introl eq_refl)). lia.
Qed.

Lemma node_by_metric t (L R : list (node X)) n n' :
  ordered t -> nodes t = L ++ n :: R -> In n' (nodes t) -> m_metric n' = m_metric n -> n' = n.
Proof.
  intros Ho Hn Hin Hm. apply sorted_NoDup in Ho. rewrite keys_nodes in Ho.
  apply in_split in Hin. destruct Hin as (L' & R' & Hn').
  rewrite Hn in Ho, Hn'.
  destruct (split_unique _ _ _ _ _ _ Ho Hn' (eq_sym Hm)) as (_ & H & _). auto.
Qed.

(** *** The inner set *)

Lemma lower_bound_key (mx : Z) (c : list (Z * X)) w :
  StronglySorted Z.le (map fst c) -> In (mx, w) c ->
  exists w', nth_error c (lower_bound mx c) = Some (mx, w').
Proof.
  induction c as [|[k v] c IH]; intros Hs Hin; [destruct Hin|].
  cbn [map fst] in Hs. inversion Hs as [|? ? Hs' Hall]; subst.
  cbn [lower_bound]. destruct (k <? mx) eqn:E.
  - apply Z.ltb_lt in E. destruct Hin as [Hin|Hin]; [inversion Hin; lia|].
    cbn [nth_error]. apply IH; assumption.
  - apply Z.ltb_ge in E. cbn [nth_error].
    destruct Hin as [Hin|Hin]; [inversion Hin; subst; eauto|].
    rewrite Forall_forall in Hall.
    assert (k <= mx) by (apply Hall; apply in_map_iff; exists (mx, w); auto).
    assert (k = mx) by lia. subst k. eauto.
Qed.

Lemma sorted_key_unique (mx : Z) (c : list (Z * X)) w w' :
  StronglySorted Z.lt (map fst c) -> In (mx, w) c -> In (mx, w') c -> w = w'.
Proof.
  induction c as [|[k v] c IH]; intros Hs H1 H2; [destruct H1|].
  cbn [map fst] in Hs. inversion Hs as [|? ? Hs' Hall]; subst.
  rewrite Forall_forall in Hall.
  assert (Hno : forall u, In (k, u) c -> False).
  { intros u Hu. assert (k < k); [|lia].
    apply Hall. apply in_map_iff. exists (k, u). auto. }
  destruct H1 as [H1|H1]; destruct H2 as [H2|H2].
  - congruence.
  - inversion H1; subst. destruct (Hno _ H2).
  - inversion H2; subst. destruct (Hno _ H1).
  - apply IH; assumption.
Qed.

End ExactTree.

Section ExactBottom.
Context {P : Type}.
Variable payload_eqb : P -> P -> bool.
Hypothesis payload_eqb_spec : forall a b, payload_eqb a b = true <-> a = b.

Lemma fill_exact_loop_spec (mx : Z) (p : P) : forall (rest : list (Z * P)) (i : nat),
  StronglySorted Z.le (map fst rest) -> Forall (fun e => mx <= fst e) rest ->
  match fill_exact_loop payload_eqb mx p rest i with
  | Some j => (i <= j)%nat /\ nth_error rest (j - i) = Some (mx, p)
  | None => ~ In (mx, p) rest
  end.
Proof.
  induction rest as [|[k v] rest IH]; intros i Hs Hf; cbn [fill_exact_loop]; [intros []|].
  cbn [map fst] in Hs. inversion Hs as [|? ? Hs' Hall]; subst.
  inversion Hf as [|? ? Hk Hf']; subst. cbn [fst] in Hk.
  destruct (k =? mx) eqn:E.
  - apply Z.eqb_eq in E. subst k. destruct (payload_eqb v p) eqn:Ev.
    + apply payload_eqb_spec in Ev. subst v. split; [lia|].
      rewrite Nat.sub_diag. reflexivity.
    + specialize (IH (S i) Hs' Hf').
      destruct (fill_exact_loop payload_eqb mx p rest (S i)) as [j|].
      * destruct IH as [Hij Hn]. split; [lia|].
        replace (j - i)%nat with (S (j - S i)) by lia. exact Hn.
      * intros [Hin|Hin]; [|exact (IH Hin)].
        inversion Hin; subst. rewrite (proj2 (payload_eqb_spec p p) eq_refl) in Ev.
        discriminate.
  - apply Z.eqb_neq in E. intros [Hin|Hin]; [inversion Hin; congruence|].
    rewrite Forall_forall in Hall.
    assert (k <= mx) by (apply Hall; apply in_map_iff; exists (mx, p); auto). lia.
Qed.

Lemma lower_bound_skipn (mx : Z) (c : list (Z * P)) :
  StronglySorted Z.le (map fst c) ->
  StronglySorted Z.le (map fst (skipn (lower_bound mx c) c)) /\
  Forall (fun e => mx <= fst e) (skipn (lower_bound mx c) c) /\
  (forall w, In (mx, w) c -> In (mx, w) (skipn (lower_bound mx c) c)).
Proof.
  induction c as [|[k v] c IH]; intros Hs.
  - cbn. repeat split; auto; constructor.
  - cbn [map fst] in Hs. inversion Hs as [|? ? Hs' Hall]; subst.
    cbn [lower_bound]. destruct (k <? mx) eqn:E.
    + apply Z.ltb_lt in E. cbn [skipn]. destruct (IH Hs') as (H1 & H2 & H3).
      split; [exact H1|]. split; [exact H2|].
      intros w [Hin|Hin]; [inversion Hin; lia|auto].
    + apply Z.ltb_ge in E. cbn [skipn]. split; [exact Hs|]. split; [|auto].
      constructor; [cbn; lia|]. rewrite Forall_forall in *. intros e He.
      assert (k <= fst e) by (apply Hall; apply in_map; exact He). lia.
Qed.

(** The cursor that [find] makes in the bottom layer. *)
Lemma bottom_find_spec (iv : interval) (pl : P) (t : tree P) :
  well_formed t ->
  let c := bottom_cursor_exact payload_eqb (find_local iv t) iv pl t in
  (In (iv, pl) (flat_map (fun nd => flat_map (bottom_expand nd) (m_maxima nd)) (nodes t)) /\
   inner_at c t = Some (iv, pl) /\ is_valid c t = true) \/
  (~ In (iv, pl) (flat_map (fun nd => flat_map (bottom_expand nd) (m_maxima nd)) (nodes t)) /\
   fst c = None).
Proof.
  intros (Ho & Hh & Ht & Hi) c.
  assert (Hin : In (iv, pl)
                   (flat_map (fun nd => flat_map (bottom_expand nd) (m_maxima nd)) (nodes t)) ->
                exists nd, In nd (nodes t) /\ m_metric nd = _min iv /\
                           In (_max iv, pl) (m_maxima nd)).
  { intros H. apply in_flat_map in H. destruct H as (nd & Hnd & H).
    apply in_flat_map in H. destruct H as ([k w] & He & H).
    unfold bottom_expand in H. cbn [fst snd] in H. destruct H as [H|[]].
    rewrite Forall_forall in Hi. destruct (Hi nd Hnd) as (_ & _ & Hle).
    rewrite Forall_forall in Hle. specialize (Hle _ He). cbn [fst] in Hle.
    rewrite make_ordered in H by exact Hle. injection H as <- <-.
    exists nd. cbn [_min _max]. auto. }
  assert (Hnone : ~ In (_min iv) (keys t) ->
                  ~ In (iv, pl) (flat_map (fun nd => flat_map (bottom_expand nd) (m_maxima nd))
                                          (nodes t))).
  { intros Hk H. apply Hin in H. destruct H as (nd & Hnd & Hm & _). apply Hk.
    rewrite keys_nodes, <- Hm. apply in_map. exact Hnd. }
  subst c. unfold find_local. destruct t as [|tl tn tr].
  { right. split; [intros []|reflexivity]. }
  destruct (search (_min iv) (T tl tn tr) []) as [[x p] d] eqn:Es.
  pose proof (search_node (_min iv) (T tl tn tr) x p d ltac:(discriminate) Ho Es) as Hs.
  destruct x as [|xl n xr]; [right; split; [destruct d; auto|destruct d; reflexivity]|].
  destruct d; [|right; split; [auto|reflexivity]|right; split; [auto|reflexivity]].
  destruct Hs as (Hm & L & R & Hn).
  assert (Hok : inner_ok n).
  { rewrite Forall_forall in Hi. apply Hi. rewrite Hn. apply in_or_app. right. left. reflexivity. }
  destruct Hok as (_ & Hsort & Hle).
  assert (Hother : forall w, In (iv, w)
                     (flat_map (fun nd => flat_map (bottom_expand nd) (m_maxima nd))
                               (nodes (T tl tn tr))) <-> In (_max iv, w) (m_maxima n)).
  { intros w. split.
    - intros H.
      assert (Hin' : exists nd, In nd (nodes (T tl tn tr)) /\ m_metric nd = _min iv /\
                                In (_max iv, w) (m_maxima nd)).
      { apply in_flat_map in H. destruct H as (nd & Hnd & H).
        apply in_flat_map in H. destruct H as ([k w'] & He & H).
        unfold bottom_expand in H. cbn [fst snd] in H. destruct H as [H|[]].
        rewrite Forall_forall in Hi. destruct (Hi nd Hnd) as (_ & _ & Hle').
        rewrite Forall_forall in Hle'. specialize (Hle' _ He). cbn [fst] in Hle'.
        rewrite make_ordered in H by exact Hle'. injection H as <- <-.
        exists nd. cbn [_min _max]. auto. }
      destruct Hin' as (nd & Hnd & Hmd & He).
      rewrite (node_by_metric _ L R n nd Ho Hn Hnd) in He by congruence. exact He.
    - intros H. apply in_flat_map. exists n. split.
      + rewrite Hn. apply in_or_app. right. left. reflexivity.
      + apply in_flat_map. exists (_max iv, w). split; [exact H|].
        unfold bottom_expand. cbn [fst snd]. left.
        rewrite Forall_forall in Hle. specialize (Hle _ H). cbn [fst] in Hle.
        rewrite make_ordered by lia. rewrite Hm. destruct iv; reflexivity. }
  destruct (lower_bound_skipn (_max iv) (m_maxima n) Hsort) as (Hs1 & Hs2 & Hs3).
  destruct (nth_error (m_maxima n) (lower_bound (_max iv) (m_maxima n))) as [[mx w0]|] eqn:En.
  - destruct (mx =? _max iv) eqn:Emx.
    + cbn [bottom_cursor_exact].
      rewrite (node_of_node _ L R n (sorted_NoDup _ Ho) Hn).
      pose proof (fill_exact_loop_spec (_max iv) pl _
                    (lower_bound (_max iv) (m_maxima n)) Hs1 Hs2) as Hloop.
      destruct (fill_exact_loop payload_eqb (_max iv) pl
                  (skipn (lower_bound (_max iv) (m_maxima n)) (m_maxima n))
                  (lower_bound (_max iv) (m_maxima n))) as [j|].
      * destruct Hloop as [Hij Hj]. rewrite nth_error_skipn in Hj.
        replace (lower_bound (_max iv) (m_maxima n) + (j - lower_bound (_max iv) (m_maxima n)))%nat
          with j in Hj by lia.
        left. split; [apply Hother; eapply nth_error_In; exact Hj|].
        split.
        -- rewrite (inner_at_node _ L R n j _ (sorted_NoDup _ Ho) Hn Hj). cbn [fst snd].
           rewrite Forall_forall in Hle. pose proof (Hle _ (nth_error_In _ _ Hj)) as Hb.
           cbn [fst] in Hb. rewrite make_ordered by lia. rewrite Hm. destruct iv; reflexivity.
        -- rewrite (is_valid_node _ L R n j (sorted_NoDup _ Ho) Hn).
           apply Nat.ltb_lt. apply nth_error_Some. rewrite Hj. discriminate.
      * right. split; [|reflexivity]. intros H. apply Hother in H. apply Hloop. auto.
    + right. split; [|reflexivity]. intros H. apply Hother in H.
      destruct (lower_bound_key _ _ _ Hsort H) as (w' & Hw). rewrite En in Hw.
      injection Hw as -> _. rewrite Z.eqb_refl in Emx. discriminate.
  - right. split; [|reflexivity]. intros H. apply Hother in H.
    destruct (lower_bound_key _ _ _ Hsort H) as (w' & Hw). rewrite En in Hw. discriminate.
Qed.

End ExactBottom.

(** *** Through the layers *)

Section ExactLayers.
Context {P : Type}.
Variable payload_eqb : P -> P -> bool.
Hypothesis payload_eqb_spec : forall a b, payload_eqb a b = true <-> a = b.

Lemma upper_entry_in (k : nat) (t : tree (layer P k)) (iv : interval) (r2 : region k) (pl : P) :
  Forall (@inner_ok (layer P k)) (nodes t) ->
  (In ((iv, r2), pl) (all_entries (S k) t) <->
   exists nd lo, In nd (nodes t) /\ m_metric nd = _min iv /\
                 In (_max iv, lo) (m_maxima nd) /\ In (r2, pl) (all_entries k lo)).
Proof.
  intros Hi. rewrite Forall_forall in Hi. cbn [all_entries]. split.
  - intros H. apply in_flat_map in H. destruct H as (nd & Hnd & H).
    apply in_flat_map in H. destruct H as ([key lo] & He & H).
    apply in_map_iff in H. destruct H as ([x y] & Hx & Hin).
    unfold prefix in Hx. cbn [fst snd] in Hx.
    destruct (Hi nd Hnd) as (_ & _ & Hle).
    rewrite Forall_forall in Hle. specialize (Hle _ He). cbn [fst] in Hle.
    rewrite make_ordered in Hx by exact Hle. injection Hx as <- <- <-.
    exists nd, lo. cbn [_min _max]. auto.
  - intros (nd & lo & Hnd & Hm & He & Hx).
    apply in_flat_map. exists nd. split; [exact Hnd|].
    apply in_flat_map. exists (_max iv, lo). split; [exact He|].
    apply in_map_iff. exists (r2, pl). split; [|exact Hx].
    unfold prefix. cbn [fst snd].
    destruct (Hi nd Hnd) as (_ & _ & Hle).
    rewrite Forall_forall in Hle. specialize (Hle _ He). cbn [fst] in Hle.
    rewrite make_ordered by lia. rewrite Hm. destruct iv; reflexivity.
Qed.

(** The cursor of [make_cursor_exact] refers to the element looked for
    when the flowspace stores it, and is the end cursor when not. *)
Lemma make_cursor_exact_spec (n : nat) : forall (r : region n) (pl : P) (L : layer P n),
  layer_wf n L ->
  (In (r, pl) (all_entries n L) /\
   deref n (make_cursor_exact payload_eqb n r pl L) L = Some (r, pl) /\
   cursor_is_valid n (make_cursor_exact payload_eqb n r pl L) L = true) \/
  (~ In (r, pl) (all_entries n L) /\
   at_end (make_cursor_exact payload_eqb n r pl L) = true /\
   cursor_is_valid n (make_cursor_exact payload_eqb n r pl L) L = false).
Proof.
  induction n as [|k IH]; intros r pl L Hwf.
  - cbn [layer_wf all_entries deref make_cursor_exact cursor_is_valid at_end] in *.
    destruct (bottom_find_spec payload_eqb payload_eqb_spec r pl L Hwf) as [H|[H1 H2]].
    + left. exact H.
    + right. split; [exact H1|]. unfold is_valid. rewrite H2. auto.
  - destruct r as [iv r2].
    cbn [layer_wf deref make_cursor_exact cursor_is_valid at_end fst snd] in *.
    change ((fix layer (n : nat) : Type :=
               match n with
               | O => tree P
               | S k0 => tree (layer k0)
               end) k) with (layer P k) in *.
    destruct Hwf as ((Ho & Hh & Ht & Hi) & Hdeep & Hstrict).
    pose proof (upper_entry_in k L iv r2 pl Hi) as Hchar.
    assert (Hnone : ~ In (_min iv) (keys L) -> ~ In ((iv, r2), pl) (all_entries (S k) L)).
    { intros Hk H. apply Hchar in H. destruct H as (nd & lo & Hnd & Hm & _). apply Hk.
      rewrite keys_nodes, <- Hm. apply in_map. exact Hnd. }
    assert (Hend : forall lc : cursor k,
              ~ In ((iv, r2), pl) (all_entries (S k) L) ->
              ~ In ((iv, r2), pl) (all_entries (S k) L) /\
              match fst (fst ((@None Z, O), lc)) with None => true | Some _ => false end = true /\
              is_valid (X := layer P k) (fst ((@None Z, O), lc)) L = false).
    { intros lc H. split; [exact H|]. split; reflexivity. }
    unfold find_local. destruct L as [|tl tn tr].
    { right. apply Hend. intros []. }
    destruct (search (_min iv) (T tl tn tr) []) as [[x p] d] eqn:Es.
    pose proof (search_node (_min iv) (T tl tn tr) x p d ltac:(discriminate) Ho Es) as Hs.
    destruct x as [|xl n xr]; [right; apply Hend; destruct d; auto|].
    destruct d; [|right; apply Hend; auto|right; apply Hend; auto].
    destruct Hs as (Hm & A & B & Hn).
    assert (Hnin : In n (nodes (T tl tn tr)))
      by (rewrite Hn; apply in_or_app; right; left; reflexivity).
    pose proof (proj1 (Forall_forall _ _) Hi n Hnin) as (_ & Hsort & Hle).
    pose proof (proj1 (Forall_forall _ _) Hdeep n Hnin) as Hdn.
    pose proof (proj1 (Forall_forall _ _) Hstrict n Hnin) as Hsn.
    assert (Hkey : forall lo, In ((iv, r2), pl) (all_entries (S k) (T tl tn tr)) ->
                   In (_max iv, lo) (m_maxima n) -> In (r2, pl) (all_entries k lo)).
    { intros lo H Hlo. apply Hchar in H. destruct H as (nd & lo' & Hnd & Hmd & He & Hx).
      rewrite (node_by_metric _ A B n nd Ho Hn Hnd) in He by congruence.
      rewrite (sorted_key_unique _ _ _ _ Hsn Hlo He). exact Hx. }
    assert (Hmiss : (forall lo, ~ In (_max iv, lo) (m_maxima n)) ->
                    ~ In ((iv, r2), pl) (all_entries (S k) (T tl tn tr))).
    { intros Hno H. apply Hchar in H. destruct H as (nd & lo' & Hnd & Hmd & He & Hx).
      rewrite (node_by_metric _ A B n nd Ho Hn Hnd) in He by congruence.
      exact (Hno _ He). }
    destruct (nth_error (m_maxima n) (lower_bound (_max iv) (m_maxima n)))
      as [[mx lo0]|] eqn:En.
    + destruct (mx =? _max iv) eqn:Emx.
      * apply Z.eqb_eq in Emx. subst mx. unfold upper_cursor_exact.
        rewrite (is_valid_node _ A B n _ (sorted_NoDup _ Ho) Hn).
        assert (Hlt : (lower_bound (_max iv) (m_maxima n) <? length (m_maxima n))%nat = true).
        { apply Nat.ltb_lt. apply nth_error_Some. rewrite En. discriminate. }
        rewrite Hlt. unfold lower_of.
        rewrite (inner_at_node _ A B n _ _ (sorted_NoDup _ Ho) Hn En). cbn [option_map fst snd].
        assert (Hw0 : layer_wf k lo0).
        { rewrite Forall_forall in Hdn. apply (Hdn (_max iv, lo0)).
          eapply nth_error_In. exact En. }
        destruct (IH r2 pl lo0 Hw0) as [(H1 & H2 & H3)|(H1 & H2 & H3)]; rewrite H3.
        -- left. split.
           ++ apply Hchar. exists n, lo0. repeat split; auto.
              eapply nth_error_In. exact En.
           ++ cbn [fst snd]. unfold upper_deref. cbn [fst snd].
              rewrite (inner_at_node _ A B n _ _ (sorted_NoDup _ Ho) Hn En). cbn [fst snd].
              rewrite H2. split.
              ** pose proof (proj1 (Forall_forall _ _) Hle _ (nth_error_In _ _ En)) as Hb.
                 cbn [fst] in Hb. rewrite make_ordered by lia. rewrite Hm.
                 destruct iv; reflexivity.
              ** rewrite (is_valid_node _ A B n _ (sorted_NoDup _ Ho) Hn). exact Hlt.
        -- right. apply Hend. intros H. apply H1. apply (Hkey lo0 H).
           eapply nth_error_In. exact En.
      * right. apply Hend. apply Hmiss. intros lo Hlo.
        destruct (lower_bound_key _ _ _ Hsort Hlo) as (w' & Hw). rewrite En in Hw.
        injection Hw as -> _. rewrite Z.eqb_refl in Emx. discriminate.
    + right. apply Hend. apply Hmiss. intros lo Hlo.
      destruct (lower_bound_key _ _ _ Hsort Hlo) as (w' & Hw). rewrite En in Hw. discriminate.
Qed.

End ExactLayers.

(** X24: [find(v)] in a consistent flowspace, for a
    payload type whose [operator ==] is equality: when the flowspace
    stores the element [v] (the region and the payload), the iterator
    refers to an element equal to [v]; when it does not, the iterator is
    [end()].  Elements with an intersecting or a containing region, or
    with the same region and another payload, are not taken for [v]. *)
Theorem find_stored_element (P : Type) (payload_eqb : P -> P -> bool) (n : nat)
        (v : region n * P) (L : layer P n) :
  (forall a b, payload_eqb a b = true <-> a = b) -> layer_wf n L ->
  (In v (all_entries n L) /\ deref n (find payload_eqb n v L) L = Some v) \/
  (~ In v (all_entries n L) /\ at_end (find payload_eqb n v L) = true).
Proof.
  intros Heq Hwf. destruct v as [r pl]. unfold find. cbn [fst snd].
  destruct (make_cursor_exact_spec payload_eqb Heq n r pl L Hwf) as [(H1 & H2 & _)|(H1 & H2 & _)];
    [left|right]; auto.
Qed.

Lemma find_stored_element_witness :
  (In ((Interval.make 5 30, Interval.make 1 2), 8%nat) (all_entries 1 (build 1 sample_elems)) /\
   deref 1 (find Nat.eqb 1 ((Interval.make 5 30, Interval.make 1 2), 8%nat)
                 (build 1 sample_elems)) (build 1 sample_elems)
   = Some ((Interval.make 5 30, Interval.make 1 2), 8%nat)) \/
  (~ In ((Interval.make 5 30, Interval.make 1 2), 8%nat) (all_entries 1 (build 1 sample_elems)) /\
   at_end (find Nat.eqb 1 ((Interval.make 5 30, Interval.make 1 2), 8%nat)
                (build 1 sample_elems)) = true).
Proof.
  apply (find_stored_element nat Nat.eqb 1).
  - exact Nat.eqb_eq.
  - vm_compute. repeat (split || constructor); vm_compute; congruence.
Defined.

(** X25: an element that was inserted is found by
    [find], and [erase] at the iterator that [find] gives takes it out
    again: after [insert(v)], [erase(find(v))] ends without a fault and
    the flowspace stores the elements that it stored before the insert,
    in a consistent state with the red-black conditions in every layer. *)
Theorem insert_find_erase (P : Type) (payload_eqb : P -> P -> bool) (n : nat)
        (r : region n) (v : P) (L : layer P n) :
  (forall a b, payload_eqb a b = true <-> a = b) ->
  layer_wf n L -> layer_red_black n L -> region_valid n r ->
  deref n (find payload_eqb n (r, v) (insert n r v L)) (insert n r v L) = Some (r, v) /\
  exists L',
    erase n (find payload_eqb n (r, v) (insert n r v L)) (insert n r v L) = Some L' /\
    Permutation (all_entries n L') (all_entries n L) /\
    layer_wf n L' /\ layer_red_black n L'.
Proof.
  intros Heq Hwf Hrb Hr.
  pose proof (insert_wf n r v L Hwf Hr) as Hwf1.
  pose proof (insert_red_black n r v L Hwf Hrb Hr) as Hrb1.
  pose proof (all_entries_insert n r v L Hwf Hr) as Hperm.
  unfold find. cbn [fst snd].
  destruct (make_cursor_exact_spec payload_eqb Heq n r v (insert n r v L) Hwf1)
    as [(H1 & H2 & _)|(H1 & _)].
  - split; [exact H2|].
    destruct (erase_ok n _ _ _ Hwf1 Hrb1 H2) as (L' & a & b & He & Hwf' & Hrb' & Ha & Hb).
    exists L'. split; [exact He|]. split; [|split; assumption].
    rewrite Hb. rewrite Ha in Hperm.
    apply (Permutation_cons_inv (a := (r, v))).
    rewrite <- Hperm. apply Permutation_middle.
  - exfalso. apply H1. apply (Permutation_in _ (Permutation_sym Hperm)). left. reflexivity.
Qed.

Lemma insert_find_erase_witness :
  deref 1 (find Nat.eqb 1 ((Interval.make 10 20, Interval.make 3 4), 7%nat)
             (insert 1 (Interval.make 10 20, Interval.make 3 4) 7%nat
                (build 1 (tl sample_elems))))
        (insert 1 (Interval.make 10 20, Interval.make 3 4) 7%nat (build 1 (tl sample_elems)))
  = Some ((Interval.make 10 20, Interval.make 3 4), 7%nat) /\
  exists L',
    erase 1 (find Nat.eqb 1 ((Interval.make 10 20, Interval.make 3 4), 7%nat)
               (insert 1 (Interval.make 10 20, Interval.make 3 4) 7%nat
                  (build 1 (tl sample_elems))))
          (insert 1 (Interval.make 10 20, Interval.make 3 4) 7%nat (build 1 (tl sample_elems)))
    = Some L' /\
    Permutation (all_entries 1 L') (all_entries 1 (build 1 (tl sample_elems))) /\
    layer_wf 1 L' /\ layer_red_black 1 L'.
Proof.
  apply (insert_find_erase nat Nat.eqb 1).
  - exact Nat.eqb_eq.
  - vm_compute. repeat (split || constructor); vm_compute; congruence.
  - vm_compute. repeat (split || constructor); try (exists 1%nat; vm_compute; tauto).
  - vm_compute. repeat split; discriminate.
Defined.

End FlowspaceFacts.

Module IntervalRelationFacts.
Import Interval IntervalRelations.

Local Ltac bools :=
  repeat match goal with
         | H : _ && _ = true |- _ => apply andb_true_iff in H; destruct H
         | H : _ || _ = true |- _ => apply orb_true_iff in H; destruct H
         | H : _ && _ = false |- _ => apply andb_false_iff in H; destruct H
         | H : _ || _ = false |- _ => apply orb_false_iff in H; destruct H
         | H : negb _ = true |- _ => apply negb_true_iff in H
         | H : negb _ = false |- _ => apply negb_false_iff in H
         | H : (_ <=? _) = true |- _ => apply Z.leb_le in H
         | H : (_ <=? _) = false |- _ => apply Z.leb_gt in H
         | H : (_ <? _) = true |- _ => apply Z.ltb_lt in H
         | H : (_ <? _) = false |- _ => apply Z.ltb_ge in H
         | H : (_ =? _) = true |- _ => apply Z.eqb_eq in H
         | H : (_ =? _) = false |- _ => apply Z.eqb_neq in H
         end.

Local Ltac cases :=
  repeat match goal with
         | |- context [?a <=? ?b] => destruct (a <=? b) eqn:?
         | |- context [?a <? ?b] => destruct (a <? b) eqn:?
         | |- context [?a =? ?b] => destruct (a =? b) eqn:?
         end; bools.

Lemma not_empty_valid i : is_empty i = false <-> _min i <= _max i.
Proof. unfold is_empty. rewrite Z.ltb_ge. reflexivity. Qed.

Lemma has_intersection_iff a b :
  is_empty a = false -> is_empty b = false ->
  (has_intersection a b = true <-> exists x, member x a /\ member x b).
Proof.
  rewrite !not_empty_valid. unfold has_intersection, member. intros Ha Hb. split.
  - intros H. bools.
    + exists (_min a). lia.
    + exists (_min b). lia.
  - intros (x & H1 & H2). cases; try reflexivity; lia.
Qed.

(** X6: for intervals that are not empty,
    [has_intersection] is true exactly when some value is in both, the
    test is symmetric, and then [intersection] is not empty and holds
    exactly the values that are in both. *)
Theorem has_intersection_common_value (a b : interval) :
  is_empty a = false -> is_empty b = false ->
  (has_intersection a b = true <-> exists x, member x a /\ member x b) /\
  has_intersection a b = has_intersection b a /\
  (has_intersection a b = true ->
   forall x, member x (intersection a b) <-> member x a /\ member x b).
Proof.
  intros Ha Hb. split; [apply has_intersection_iff; assumption|]. split.
  - unfold has_intersection. rewrite not_empty_valid in Ha, Hb.
    cases; try reflexivity; lia.
  - intros H x. apply has_intersection_iff in H; try assumption.
    destruct H as (y & Hy1 & Hy2).
    unfold member, intersection, make in *. cbn [_min _max]. lia.
Qed.

Lemma has_intersection_common_value_witness :
  (has_intersection (make 1 5) (make 4 9) = true <->
   exists x, member x (make 1 5) /\ member x (make 4 9)) /\
  has_intersection (make 1 5) (make 4 9) = has_intersection (make 4 9) (make 1 5) /\
  (has_intersection (make 1 5) (make 4 9) = true ->
   forall x, member x (intersection (make 1 5) (make 4 9)) <->
             member x (make 1 5) /\ member x (make 4 9)).
Proof. apply (has_intersection_common_value (make 1 5) (make 4 9)); reflexivity. Defined.

(** X7: [hull] of two intervals that are not empty
    contains both and is contained in every interval that contains both;
    [hull] with an empty interval is the other interval. *)
Theorem hull_least_cover (a b : interval) :
  (is_empty a = true -> hull a b = b) /\
  (is_empty a = false -> is_empty b = true -> hull a b = a) /\
  (is_empty a = false -> is_empty b = false ->
   is_superset_of (hull a b) a = true /\ is_superset_of (hull a b) b = true /\
   forall c, is_superset_of c a = true -> is_superset_of c b = true ->
             is_superset_of c (hull a b) = true).
Proof.
  unfold hull, op_not, is_empty. split; [intros ->; reflexivity|].
  split; [intros -> ->; reflexivity|]. intros Ha Hb. rewrite Ha, Hb.
  unfold is_superset_of, make. cbn [_min _max]. bools.
  repeat split.
  - apply andb_true_iff. split; apply Z.leb_le; lia.
  - apply andb_true_iff. split; apply Z.leb_le; lia.
  - intros c H1 H2. bools. apply andb_true_iff. split; apply Z.leb_le; lia.
Qed.

Lemma hull_least_cover_witness :
  is_superset_of (hull (make 1 5) (make 7 9)) (make 1 5) = true /\
  is_superset_of (hull (make 1 5) (make 7 9)) (make 7 9) = true /\
  forall c, is_superset_of c (make 1 5) = true -> is_superset_of c (make 7 9) = true ->
            is_superset_of c (hull (make 1 5) (make 7 9)) = true.
Proof.
  apply (proj2 (proj2 (hull_least_cover (make 1 5) (make 7 9)))); reflexivity.
Defined.

(** X8: what [relationship] tells of two intervals that
    are not empty: [EQUAL] for the same interval only, [SUBSET] and
    [SUPERSET] for a containment that is not an equality, [OVERLAP] for
    intervals with a common value of which none contains the other,
    [ADJACENT] for intervals with no common value of which one ends just
    before the other starts, [NONE] for intervals with no common value and
    at least one value between them; [ADJACENT_OVERLAP] is never the
    result. *)
Theorem relationship_cases (a b : interval) :
  is_empty a = false -> is_empty b = false ->
  match relationship a b with
  | EQUAL => a = b
  | SUBSET => (forall x, member x a -> member x b) /\ a <> b
  | SUPERSET => (forall x, member x b -> member x a) /\ a <> b
  | OVERLAP => (exists x, member x a /\ member x b) /\
               (exists x, member x a /\ ~ member x b) /\
               (exists x, member x b /\ ~ member x a)
  | ADJACENT => (forall x, ~ (member x a /\ member x b)) /\
                (_max a + 1 = _min b \/ _max b + 1 = _min a)
  | NONE => (forall x, ~ (member x a /\ member x b)) /\
            (_max a + 1 < _min b \/ _max b + 1 < _min a)
  | ADJACENT_OVERLAP => False
  end.
Proof.
  rewrite !not_empty_valid. intros Ha Hb.
  unfold relationship, has_intersection, eqb, is_subset_of, is_superset_of, is_adjacent_to.
  destruct a as [a1 a2], b as [b1 b2]. unfold member. cbn [_min _max] in *.
  destruct (((b1 <=? a1) && (a1 <=? b2)) || ((a1 <=? b1) && (b1 <=? a2))) eqn:Hi.
  - destruct ((a1 =? b1) && (a2 =? b2)) eqn:He; [bools; f_equal; lia|].
    destruct ((b1 <=? a1) && (a2 <=? b2)) eqn:Hs.
    { split; [bools; intros; lia|]. intros E. injection E as -> ->.
      rewrite !Z.eqb_refl in He. discriminate. }
    destruct ((a1 <=? b1) && (b2 <=? a2)) eqn:Hp.
    { split; [bools; intros; lia|]. intros E. injection E as -> ->.
      rewrite !Z.eqb_refl in He. discriminate. }
    assert (Hc : (b1 < a1 /\ b2 < a2 /\ a1 <= b2) \/ (a1 < b1 /\ a2 < b2 /\ b1 <= a2))
      by (bools; lia).
    destruct Hc as [Hc|Hc].
    + split; [exists a1; lia|]. split; [exists a2; lia|exists b1; lia].
    + split; [exists b1; lia|]. split; [exists a1; lia|exists b2; lia].
  - assert (Hd : a2 < b1 \/ b2 < a1) by (bools; lia).
    destruct (a2 <? b1) eqn:H1.
    + destruct (a2 + 1 =? b1) eqn:H2; bools; (split; [intros; lia|lia]).
    + destruct (b2 <? a1) eqn:H3; [|bools; lia].
      destruct (b2 + 1 =? a1) eqn:H2; bools; (split; [intros; lia|lia]).
Qed.

Lemma relationship_cases_witness :
  match relationship (make 1 5) (make 6 9) with
  | EQUAL => make 1 5 = make 6 9
  | SUBSET => (forall x, member x (make 1 5) -> member x (make 6 9)) /\ make 1 5 <> make 6 9
  | SUPERSET => (forall x, member x (make 6 9) -> member x (make 1 5)) /\ make 1 5 <> make 6 9
  | OVERLAP => (exists x, member x (make 1 5) /\ member x (make 6 9)) /\
               (exists x, member x (make 1 5) /\ ~ member x (make 6 9)) /\
               (exists x, member x (make 6 9) /\ ~ member x (make 1 5))
  | ADJACENT => (forall x, ~ (member x (make 1 5) /\ member x (make 6 9))) /\
                (_max (make 1 5) + 1 = _min (make 6 9) \/
                 _max (make 6 9) + 1 = _min (make 1 5))
  | NONE => (forall x, ~ (member x (make 1 5) /\ member x (make 6 9))) /\
            (_max (make 1 5) + 1 < _min (make 6 9) \/
             _max (make 6 9) + 1 < _min (make 1 5))
  | ADJACENT_OVERLAP => False
  end.
Proof. apply (relationship_cases (make 1 5) (make 6 9)); reflexivity. Defined.

(** X9: [lexicographic_order] is a strict total
    order of the intervals, as a container that asks for a strict weak
    ordering needs: no interval is before itself, the order is transitive,
    and of two different intervals one is before the other. *)
Theorem lexicographic_strict_order :
  (forall a, lexicographic_order a a = false) /\
  (forall a b c, lexicographic_order a b = true -> lexicographic_order b c = true ->
                 lexicographic_order a c = true) /\
  (forall a b, lexicographic_order a b = true \/ a = b \/ lexicographic_order b a = true).
Proof.
  unfold lexicographic_order. split; [|split].
  - intros a. rewrite Z.eqb_refl. apply Z.ltb_irrefl.
  - intros [a1 a2] [b1 b2] [c1 c2]. cbn [_min _max].
    destruct (a1 =? b1) eqn:E1, (b1 =? c1) eqn:E2, (a1 =? c1) eqn:E3;
      intros H1 H2; bools; try apply Z.ltb_lt; lia.
  - intros [a1 a2] [b1 b2]. cbn [_min _max].
    destruct (a1 =? b1) eqn:E1, (b1 =? a1) eqn:E2; bools; try lia.
    destruct (Z.lt_trichotomy a2 b2) as [H|[H|H]].
    + left. apply Z.ltb_lt. exact H.
    + right. left. f_equal; lia.
    + right. right. apply Z.ltb_lt. exact H.
Qed.

Lemma lexicographic_strict_order_witness :
  lexicographic_order (make 1 5) (make 3 4) = true.
Proof.
  apply (proj1 (proj2 lexicographic_strict_order) (make 1 5) (make 2 9) (make 3 4));
    reflexivity.
Defined.

(** X10: [is_subset_of] is true exactly when every value
    of the first interval is in the second one (for a first interval that
    is not empty), and the strict containment [operator <] is
    irreflexive and transitive and is containment without equality. *)
Theorem containment_order :
  (forall a b, is_empty a = false ->
     (is_subset_of a b = true <-> forall x, member x a -> member x b)) /\
  (forall a, lt a a = false) /\
  (forall a b c, lt a b = true -> lt b c = true -> lt a c = true) /\
  (forall a b, lt a b = true <-> is_subset_of a b = true /\ a <> b).
Proof.
  unfold lt, is_subset_of, is_strict_superset_of, is_superset_of, member.
  split; [|split; [|split]].
  - intros [a1 a2] [b1 b2]. rewrite not_empty_valid. cbn [_min _max]. intros Ha. split.
    + intros H x Hx. bools. lia.
    + intros H. pose proof (H a1 ltac:(lia)). pose proof (H a2 ltac:(lia)).
      apply andb_true_iff. split; apply Z.leb_le; lia.
  - intros [a1 a2]. cbn [_min _max]. cases; try reflexivity; lia.
  - intros [a1 a2] [b1 b2] [c1 c2]. cbn [_min _max]. intros H1 H2. bools;
      apply orb_true_iff;
      (destruct (Z_lt_dec c1 a1); [left|right]);
      apply andb_true_iff; split;
      try apply Z.leb_le; try apply Z.ltb_lt; lia.
  - intros [a1 a2] [b1 b2]. cbn [_min _max]. split.
    + intros H. split.
      * bools; apply andb_true_iff; split; apply Z.leb_le; lia.
      * intros E. injection E as -> ->. bools; lia.
    + intros [H Hne]. bools. apply orb_true_iff.
      destruct (Z.eq_dec a1 b1) as [->|Hd].
      * right. apply andb_true_iff. split; [apply Z.leb_le; lia|apply Z.ltb_lt].
        destruct (Z.eq_dec a2 b2) as [->|Hd2]; [congruence|lia].
      * left. apply andb_true_iff. split; [apply Z.ltb_lt; lia|apply Z.leb_le; lia].
Qed.

Lemma containment_order_witness :
  is_subset_of (make 2 3) (make 1 5) = true <->
  forall x, member x (make 2 3) -> member x (make 1 5).
Proof. apply (proj1 containment_order (make 2 3) (make 1 5)). reflexivity. Defined.

(** X11: for intervals that are not empty, [has_union] is
    true exactly when the values of the two intervals together are an
    interval: every value from the smaller minimum to the larger maximum
    is in one of them. *)
Theorem has_union_convex (a b : interval) :
  is_empty a = false -> is_empty b = false ->
  (has_union a b = true <->
   forall x, Z.min (_min a) (_min b) <= x <= Z.max (_max a) (_max b) ->
             member x a \/ member x b).
Proof.
  rewrite !not_empty_valid. intros Ha Hb.
  unfold has_union, has_intersection, is_adjacent_to, member.
  destruct a as [a1 a2], b as [b1 b2]. cbn [_min _max] in *. split.
  - intros H x Hx. bools; try lia.
    destruct (a2 <? b1) eqn:E1; [bools; lia|].
    destruct (b2 <? a1) eqn:E2; [bools; lia|discriminate].
  - intros H. apply orb_true_iff.
    destruct (Z_lt_dec a2 b1) as [Hlt|Hge].
    + right. rewrite (proj2 (Z.ltb_lt _ _) Hlt). apply Z.eqb_eq.
      destruct (Z.eq_dec (a2 + 1) b1) as [E|E]; [exact E|].
      specialize (H (a2 + 1)). lia.
    + destruct (Z_lt_dec b2 a1) as [Hlt|Hge2].
      * right. rewrite (proj2 (Z.ltb_ge _ _)) by lia.
        rewrite (proj2 (Z.ltb_lt _ _) Hlt). apply Z.eqb_eq.
        destruct (Z.eq_dec (b2 + 1) a1) as [E|E]; [exact E|].
        specialize (H (b2 + 1)). lia.
      * left. apply orb_true_iff.
        destruct (Z_le_dec b1 a1); [left|right]; apply andb_true_iff; split;
          apply Z.leb_le; lia.
Qed.

Lemma has_union_convex_witness :
  has_union (make 1 5) (make 6 9) = true <->
  forall x, Z.min (_min (make 1 5)) (_min (make 6 9)) <= x
            <= Z.max (_max (make 1 5)) (_max (make 6 9)) ->
            member x (make 1 5) \/ member x (make 6 9).
Proof. apply (has_union_convex (make 1 5) (make 6 9)); reflexivity. Defined.

Lemma relationship_overlapping a b :
  match relationship a b with
  | NONE | ADJACENT => has_intersection a b = false
  | ADJACENT_OVERLAP => False
  | _ => has_intersection a b = true
  end.
Proof.
  unfold relationship. destruct (has_intersection a b).
  - destruct (eqb a b); [reflexivity|].
    destruct (is_subset_of a b); [reflexivity|].
    destruct (is_superset_of a b); reflexivity.
  - destruct (is_adjacent_to a b); reflexivity.
Qed.

Lemma calc_region_fold dims : forall acc,
  overlaps (fold_left (fun acc d => calc_region_step acc (fst d) (snd d)) dims acc)
  = overlaps acc && forallb (fun d => has_intersection (fst d) (snd d)) dims.
Proof.
  induction dims as [|[r1 r2] dims IH]; intros acc; cbn [fold_left forallb fst snd].
  - rewrite andb_true_r. reflexivity.
  - rewrite IH. rewrite andb_assoc. f_equal.
    pose proof (relationship_overlapping r1 r2) as H.
    unfold calc_region_step.
    destruct acc, (relationship r1 r2); cbn in *; rewrite ?H; try reflexivity;
      destruct H.
Qed.

(** X12: after a [calc_region_functor] has been applied
    to the intervals of two regions, dimension by dimension, [overlaps()]
    is true exactly when the intervals of every dimension have a common
    value by [has_intersection]. *)
Theorem calc_region_overlaps (dims : list (interval * interval)) :
  overlaps (calc_region dims) = forallb (fun d => has_intersection (fst d) (snd d)) dims.
Proof. unfold calc_region. rewrite calc_region_fold. reflexivity. Qed.

End IntervalRelationFacts.

Module Ip4NetFacts.
Import Interval Ip4 Ip4Facts Ip4Nets.

(** X13: [lsb_count(false)] is the number of zero
    bits at the low end of the address: the address is a multiple of two
    to that number and of no higher power of two, and the number is [32]
    when no bit below [2 ^ 32] is set. *)
Theorem lsb_count_trailing_zeros (a : Z) :
  0 <= lsb_count a false <= 32 /\
  a mod 2 ^ (lsb_count a false) = 0 /\
  (lsb_count a false < 32 -> a mod 2 ^ (lsb_count a false + 1) <> 0).
Proof. exact (lsb_count_spec a). Qed.

Lemma lsb_count_ge a w :
  0 <= w <= 32 -> (w <= lsb_count a false <-> a mod 2 ^ w = 0).
Proof.
  intros Hw. destruct (lsb_count_spec a) as (H1 & H2 & H3). cbv zeta in *.
  split.
  - intros H. apply (mod_pow2_le a w (lsb_count a false)); [lia|exact H2].
  - intros H. destruct (Z_le_gt_dec w (lsb_count a false)) as [Hle|Hgt]; [exact Hle|].
    exfalso. apply H3; [lia|].
    apply (mod_pow2_le a (lsb_count a false + 1) w); [lia|exact H].
Qed.

(** X14: [ip4_mask::cover] gives the least specific mask
    that keeps every bit of the address: the address and the mask give the
    address back, and no shorter mask does. *)
Theorem cover_mask_least (a : Z) :
  is_addr a ->
  0 <= cover_mask a <= 32 /\
  addr_and_mask a (cover_mask a) = a /\
  forall c, 0 <= c < cover_mask a -> addr_and_mask a c <> a.
Proof.
  intros Ha. destruct (lsb_count_spec a) as (H1 & H2 & H3). cbv zeta in *.
  unfold is_addr, MAX32 in Ha.
  assert (Hc : cover_mask a = 32 - lsb_count a false)
    by (unfold cover_mask, bounded_count, WIDTH; lia).
  rewrite Hc. split; [lia|]. split.
  - rewrite addr_and_mask_eq by lia.
    replace (32 - (32 - lsb_count a false)) with (lsb_count a false) by lia. lia.
  - intros c Hlt E. rewrite addr_and_mask_eq in E by lia.
    assert (Hm : a mod 2 ^ (32 - c) = 0) by lia.
    apply (lsb_count_ge a (32 - c)) in Hm; lia.
Qed.

Lemma cover_mask_least_witness :
  0 <= cover_mask 40 <= 32 /\
  addr_and_mask 40 (cover_mask 40) = 40 /\
  forall c, 0 <= c < cover_mask 40 -> addr_and_mask 40 c <> 40.
Proof. apply (cover_mask_least 40). unfold is_addr, MAX32, two32. lia. Defined.

(** X15: a mask put into an address and read back is the same
    mask: for every bit count from [0] to [32], the constructor of a mask
    from the address of the mask ([msb_count(true)]) and [cover] of that
    address both give the bit count. *)
Theorem mask_round_trip (c : Z) :
  0 <= c <= 32 ->
  mask_of_addr (mask_host_order c) = c /\ cover_mask (mask_host_order c) = c.
Proof.
  intros Hc.
  assert (exists n, (n <= 32)%nat /\ c = Z.of_nat n) as (n & Hn & ->)
    by (exists (Z.to_nat c); lia).
  clear Hc.
  do 33 (destruct n as [|n]; [vm_compute; split; reflexivity|]). lia.
Qed.

Lemma mask_round_trip_witness :
  mask_of_addr (mask_host_order 24) = 24 /\ cover_mask (mask_host_order 24) = 24.
Proof. apply (mask_round_trip 24). lia. Defined.

(** X16: a network made of an address and a mask of [c]
    bits holds the [2 ^ (32 - c)] addresses from [addr()] to [max_addr()]:
    [contains] is true exactly for these. *)
Theorem net_contains_block (n : ip4_net) (a : Z) :
  is_cidr n -> is_addr a ->
  max_addr n = m_addr n + 2 ^ (32 - m_mask n) - 1 /\
  (contains n a = true <-> m_addr n <= a <= max_addr n).
Proof.
  intros Hn Ha. split; [apply cidr_max_addr; exact Hn|apply contains_iff; assumption].
Qed.

Lemma net_contains_block_witness :
  max_addr (net_make (quad 10 1 2 3) 24)
  = m_addr (net_make (quad 10 1 2 3) 24) + 2 ^ (32 - m_mask (net_make (quad 10 1 2 3) 24)) - 1 /\
  (contains (net_make (quad 10 1 2 3) 24) (quad 10 1 2 200) = true <->
   m_addr (net_make (quad 10 1 2 3) 24) <= quad 10 1 2 200
   <= max_addr (net_make (quad 10 1 2 3) 24)).
Proof.
  apply (net_contains_block (net_make (quad 10 1 2 3) 24) (quad 10 1 2 200)).
  - repeat split; vm_compute; congruence.
  - split; vm_compute; congruence.
Defined.

(** *** Blocks of addresses *)

Lemma block_of a b k :
  0 <= k -> b mod 2 ^ k = 0 -> b <= a < b + 2 ^ k -> a - a mod 2 ^ k = b.
Proof.
  intros Hk Hb Ha. assert (Hp : 0 < 2 ^ k) by (apply pow2_pos; exact Hk).
  apply Z.mod_divide in Hb; [|lia]. destruct Hb as [q Hq].
  assert (E : a mod 2 ^ k = a - b).
  { replace a with ((a - b) + q * 2 ^ k) at 1 by lia.
    rewrite Z.mod_add by lia. apply Z.mod_small. lia. }
  lia.
Qed.

Lemma block_nest a1 a2 k1 k2 :
  0 <= k2 <= k1 -> a1 mod 2 ^ k1 = 0 -> a2 mod 2 ^ k2 = 0 ->
  a1 <= a2 < a1 + 2 ^ k1 -> a2 + 2 ^ k2 <= a1 + 2 ^ k1.
Proof.
  intros Hk H1 H2 Ha.
  assert (Hp2 : 0 < 2 ^ k2) by (apply pow2_pos; lia).
  assert (Hpd : 0 < 2 ^ (k1 - k2)) by (apply pow2_pos; lia).
  assert (E : 2 ^ k1 = 2 ^ k2 * 2 ^ (k1 - k2)).
  { rewrite <- Z.pow_add_r by lia. f_equal. lia. }
  apply Z.mod_divide in H1; [|lia]. destruct H1 as [x Hx].
  apply Z.mod_divide in H2; [|lia]. destruct H2 as [y Hy].
  rewrite E in *. set (d := 2 ^ k2) in *. set (q := 2 ^ (k1 - k2)) in *.
  assert (Hy2 : y < q * x + q) by nia.
  nia.
Qed.

Lemma pow2_le_inv k1 k2 : 0 <= k1 -> 0 <= k2 -> 2 ^ k1 <= 2 ^ k2 -> k1 <= k2.
Proof. intros H1 H2 H. apply (Z.pow_le_mono_r_iff 2); lia. Qed.

Lemma cidr_facts n :
  is_cidr n ->
  0 <= 32 - m_mask n <= 32 /\ 0 <= m_addr n /\
  m_addr n mod 2 ^ (32 - m_mask n) = 0 /\
  max_addr n = m_addr n + 2 ^ (32 - m_mask n) - 1 /\
  m_addr n + 2 ^ (32 - m_mask n) <= two32 /\
  0 < 2 ^ (32 - m_mask n).
Proof.
  intros H. pose proof (cidr_aligned n H) as Hal.
  pose proof (cidr_max_addr n H) as Hm. pose proof (cidr_max_addr_bound n H) as Hb.
  destruct H as (Hc & Ha & _). unfold is_addr, MAX32 in *.
  repeat split; try lia; apply pow2_pos; lia.
Qed.

Lemma is_subset_of_iff n1 n2 :
  is_cidr n1 -> is_cidr n2 ->
  (is_subset_of n1 n2 = true <->
   m_mask n2 <= m_mask n1 /\ m_addr n2 <= m_addr n1 /\ max_addr n1 <= max_addr n2).
Proof.
  intros H1 H2.
  destruct (cidr_facts n1 H1) as (Hk1 & Ha1 & Hal1 & Hm1 & Hb1 & Hp1).
  destruct (cidr_facts n2 H2) as (Hk2 & Ha2 & Hal2 & Hm2 & Hb2 & Hp2).
  unfold is_subset_of. rewrite andb_true_iff, Z.eqb_eq, Z.leb_le.
  rewrite addr_and_mask_eq by lia. rewrite Hm1, Hm2. split.
  - intros [E Hc]. split; [exact Hc|].
    pose proof (Z.mod_pos_bound (m_addr n1) (2 ^ (32 - m_mask n2)) Hp2) as Hr.
    split; [lia|].
    pose proof (block_nest (m_addr n2) (m_addr n1) (32 - m_mask n2) (32 - m_mask n1)
                  ltac:(lia) Hal2 Hal1 ltac:(lia)). lia.
  - intros (Hc & Hlo & Hhi). split; [|exact Hc].
    apply block_of; [lia|exact Hal2|lia].
Qed.

(** X17: for networks made of an address and a mask,
    [is_subset_of] is true exactly when every address of the first is in
    the second, [has_intersection] exactly when some address is in both,
    and two networks with a common address are nested: one is a subset of
    the other. *)
Theorem net_relations (n1 n2 : ip4_net) :
  is_cidr n1 -> is_cidr n2 ->
  (is_subset_of n1 n2 = true <->
   forall a, is_addr a -> contains n1 a = true -> contains n2 a = true) /\
  (has_intersection n1 n2 = true <->
   exists a, is_addr a /\ contains n1 a = true /\ contains n2 a = true) /\
  (has_intersection n1 n2 = true <->
   is_subset_of n1 n2 = true \/ is_subset_of n2 n1 = true).
Proof.
  intros H1 H2.
  destruct (cidr_facts n1 H1) as (Hk1 & Ha1 & Hal1 & Hm1 & Hb1 & Hp1).
  destruct (cidr_facts n2 H2) as (Hk2 & Ha2 & Hal2 & Hm2 & Hb2 & Hp2).
  assert (Hsub : forall x y, is_cidr x -> is_cidr y ->
            (is_subset_of x y = true <->
             forall a, is_addr a -> contains x a = true -> contains y a = true)).
  { intros x y Hx Hy.
    destruct (cidr_facts x Hx) as (Hkx & Hax & Halx & Hmx & Hbx & Hpx).
    destruct (cidr_facts y Hy) as (Hky & Hay & Haly & Hmy & Hby & Hpy).
    rewrite is_subset_of_iff by assumption. split.
    - intros (Hc & Hlo & Hhi) a Ha Hin.
      apply contains_iff in Hin; try assumption. apply contains_iff; try assumption. lia.
    - intros H.
      assert (Hlo : contains y (m_addr x) = true).
      { apply H; [unfold is_addr, MAX32; lia|]. apply contains_iff; auto.
        - unfold is_addr, MAX32; lia.
        - lia. }
      assert (Hhi : contains y (max_addr x) = true).
      { apply H; [unfold is_addr, MAX32; lia|]. apply contains_iff; auto.
        - unfold is_addr, MAX32; lia.
        - lia. }
      apply contains_iff in Hlo; auto; [|unfold is_addr, MAX32; lia].
      apply contains_iff in Hhi; auto; [|unfold is_addr, MAX32; lia].
      split; [|lia].
      assert (Hpw : 2 ^ (32 - m_mask x) <= 2 ^ (32 - m_mask y)) by lia.
      apply pow2_le_inv in Hpw; lia. }
  assert (Hint : has_intersection n1 n2 = true <->
                 is_subset_of n1 n2 = true \/ is_subset_of n2 n1 = true).
  { unfold has_intersection. cbv zeta. rewrite Z.eqb_eq.
    destruct (Z_le_gt_dec (m_mask n1) (m_mask n2)) as [Hle|Hgt].
    - rewrite Z.min_l by lia. rewrite !addr_and_mask_eq by lia.
      rewrite Hal1, Z.sub_0_r. split.
      + intros E. right. unfold is_subset_of. rewrite andb_true_iff, Z.eqb_eq, Z.leb_le.
        rewrite addr_and_mask_eq by lia. lia.
      + intros [H|H].
        * apply is_subset_of_iff in H; try assumption. destruct H as (Hc & Hlo & Hhi).
          assert (Ec : m_mask n1 = m_mask n2) by lia. rewrite Ec in *.
          symmetry. apply block_of; [lia|exact Hal1|lia].
        * unfold is_subset_of in H. rewrite andb_true_iff, Z.eqb_eq, Z.leb_le in H.
          rewrite addr_and_mask_eq in H by lia. lia.
    - rewrite Z.min_r by lia. rewrite !addr_and_mask_eq by lia.
      rewrite Hal2, Z.sub_0_r. split.
      + intros E. left. unfold is_subset_of. rewrite andb_true_iff, Z.eqb_eq, Z.leb_le.
        rewrite addr_and_mask_eq by lia. lia.
      + intros [H|H].
        * unfold is_subset_of in H. rewrite andb_true_iff, Z.eqb_eq, Z.leb_le in H.
          rewrite addr_and_mask_eq in H by lia. lia.
        * apply is_subset_of_iff in H; try assumption. lia. }
  split; [apply Hsub; assumption|]. split; [|exact Hint].
  rewrite Hint. split.
  - intros [H|H].
    + exists (m_addr n1). assert (Hi : is_addr (m_addr n1)) by (unfold is_addr, MAX32; lia).
      assert (Hc : contains n1 (m_addr n1) = true) by (apply contains_iff; auto; lia).
      split; [exact Hi|]. split; [exact Hc|]. exact (proj1 (Hsub n1 n2 H1 H2) H _ Hi Hc).
    + exists (m_addr n2). assert (Hi : is_addr (m_addr n2)) by (unfold is_addr, MAX32; lia).
      assert (Hc : contains n2 (m_addr n2) = true) by (apply contains_iff; auto; lia).
      split; [exact Hi|]. split; [exact (proj1 (Hsub n2 n1 H2 H1) H _ Hi Hc)|exact Hc].
  - intros (a & Ha & Hc1 & Hc2).
    apply contains_iff in Hc1; auto. apply contains_iff in Hc2; auto.
    assert (Hpa : 0 <= a) by (unfold is_addr in Ha; lia).
    pose proof (block_of a (m_addr n1) (32 - m_mask n1) ltac:(lia) Hal1 ltac:(lia)) as E1.
    pose proof (block_of a (m_addr n2) (32 - m_mask n2) ltac:(lia) Hal2 ltac:(lia)) as E2.
    destruct (Z_le_gt_dec (m_mask n1) (m_mask n2)) as [Hle|Hgt].
    + right. apply is_subset_of_iff; try assumption. split; [exact Hle|].
      assert (Hlo : m_addr n1 <= m_addr n2).
      { pose proof (Z.mod_pos_bound (m_addr n2) (2 ^ (32 - m_mask n1)) Hp1) as Hr.
        pose proof (block_of (m_addr n2) (m_addr n2 - m_addr n2 mod 2 ^ (32 - m_mask n1))
                      (32 - m_mask n1) ltac:(lia)) as Hb.
        assert (Hmod : (a - a mod 2 ^ (32 - m_mask n1)) <= m_addr n2).
        { destruct (Z_le_gt_dec (a - a mod 2 ^ (32 - m_mask n1)) (m_addr n2)) as [?|Hgt2];
            [assumption|exfalso].
          pose proof (block_nest (m_addr n2)
                        (a - a mod 2 ^ (32 - m_mask n1)) (32 - m_mask n2) (32 - m_mask n2)
                        ltac:(lia) Hal2) as Hn.
          assert (Hal : (a - a mod 2 ^ (32 - m_mask n1)) mod 2 ^ (32 - m_mask n2) = 0).
          { rewrite E1. apply (mod_pow2_le _ _ (32 - m_mask n1)); [lia|exact Hal1]. }
          specialize (Hn Hal). pose proof (Z.mod_pos_bound a (2 ^ (32 - m_mask n1)) Hp1).
          lia. }
        lia. }
      split; [exact Hlo|].
      pose proof (block_nest (m_addr n1) (m_addr n2) (32 - m_mask n1) (32 - m_mask n2)
                    ltac:(lia) Hal1 Hal2 ltac:(lia)). lia.
    + left. apply is_subset_of_iff; try assumption. split; [lia|].
      assert (Hlo : m_addr n2 <= m_addr n1).
      { destruct (Z_le_gt_dec (m_addr n2) (m_addr n1)) as [?|Hgt2]; [assumption|exfalso].
        assert (Hal : m_addr n2 mod 2 ^ (32 - m_mask n1) = 0)
          by (apply (mod_pow2_le _ _ (32 - m_mask n2)); [lia|exact Hal2]).
        pose proof (block_nest (m_addr n1) (m_addr n2) (32 - m_mask n1) (32 - m_mask n1)
                      ltac:(lia) Hal1 Hal ltac:(lia)). lia. }
      split; [exact Hlo|].
      pose proof (block_nest (m_addr n2) (m_addr n1) (32 - m_mask n2) (32 - m_mask n1)
                    ltac:(lia) Hal2 Hal1 ltac:(lia)). lia.
Qed.

Lemma net_relations_witness :
  has_intersection (net_make (quad 10 1 2 0) 24) (net_make (quad 10 1 0 0) 16) = true <->
  is_subset_of (net_make (quad 10 1 2 0) 24) (net_make (quad 10 1 0 0) 16) = true \/
  is_subset_of (net_make (quad 10 1 0 0) 16) (net_make (quad 10 1 2 0) 24) = true.
Proof.
  apply (net_relations (net_make (quad 10 1 2 0) 24) (net_make (quad 10 1 0 0) 16)).
  - repeat split; vm_compute; congruence.
  - repeat split; vm_compute; congruence.
Defined.

Lemma lsb_count_pow2 k : 0 <= k < 32 -> lsb_count (2 ^ k) false = k.
Proof.
  intros Hk. assert (Hp : 0 < 2 ^ k) by (apply pow2_pos; lia).
  pose proof (proj2 (lsb_count_ge (2 ^ k) k ltac:(lia)) (Z.mod_same (2 ^ k) ltac:(lia))) as H1.
  destruct (Z_le_gt_dec (k + 1) (lsb_count (2 ^ k) false)) as [H2|H2]; [exfalso|lia].
  apply (lsb_count_ge (2 ^ k) (k + 1)) in H2; [|lia].
  rewrite Z.mod_small in H2; [lia|]. split; [lia|].
  apply Z.pow_lt_mono_r; lia.
Qed.

(** X18: for a range of addresses that is not empty,
    [is_network] is true exactly when the range is a network: some network
    made of an address and a mask has the minimum of the range as its
    address and the maximum as its last address. *)
Theorem is_network_block (r : ip4_range) :
  is_addr (_min r) -> is_addr (_max r) -> _min r <= _max r ->
  (is_network r = true <->
   exists n, is_cidr n /\ m_addr n = _min r /\ max_addr n = _max r).
Proof.
  intros Hlo Hhi Hle. unfold is_addr, MAX32 in Hlo, Hhi.
  assert (Htwo : two32 = 2 ^ 32) by reflexivity.
  unfold is_network, op_not. rewrite (proj2 (Z.ltb_ge _ _) Hle). cbn [negb]. cbv zeta.
  set (size := wrap32 (_max r - _min r + 1)).
  destruct (lsb_count_spec size) as (Hw1 & Hw2 & Hw3). cbv zeta in *.
  assert (Hsz : 0 <= size < two32) by (unfold size, wrap32; apply Z.mod_pos_bound; lia).
  assert (Hsize : (_max r - _min r + 1 = two32 /\ size = 0) \/
                  (_max r - _min r + 1 < two32 /\ size = _max r - _min r + 1)).
  { destruct (Z.eq_dec (_max r - _min r + 1) two32) as [E|E].
    - left. split; [exact E|]. unfold size, wrap32. rewrite E. apply Z.mod_same. lia.
    - right. split; [lia|]. unfold size. apply wrap32_small. lia. }
  rewrite Z.shiftl_1_l.
  destruct (lsb_count size false =? 32) eqn:E32; cbn [orb].
  - apply Z.eqb_eq in E32. rewrite E32 in *.
    assert (Hz : size = 0).
    { rewrite <- Htwo in Hw2. rewrite Z.mod_small in Hw2 by lia. exact Hw2. }
    destruct Hsize as [[Hfull _]|[_ Hs]]; [|lia].
    assert (Hmin : _min r = 0) by lia. assert (Hmax : _max r = two32 - 1) by lia.
    rewrite Z.leb_le. rewrite (lsb_count_ge (_min r) 32) by lia. rewrite Hmin. split.
    + intros _. exists (Net 0 0). split; [apply is_cidr_intro; try lia; reflexivity|].
      split; [reflexivity|]. rewrite Hmax. reflexivity.
    + intros _. reflexivity.
  - apply Z.eqb_neq in E32. assert (Hw : 0 <= lsb_count size false < 32) by lia.
    assert (Hpw : 0 < 2 ^ lsb_count size false < two32) by (apply pow2_lt_two32; lia).
    rewrite (wrap32_small (2 ^ lsb_count size false)) by lia.
    destruct (size =? 2 ^ lsb_count size false) eqn:Es.
    + apply Z.eqb_eq in Es. rewrite Z.leb_le. rewrite lsb_count_ge by lia.
      destruct Hsize as [[_ Hs]|[Hlt Hs]]; [lia|].
      split.
      * intros Hal. exists (Net (_min r) (32 - lsb_count size false)).
        assert (Hc : is_cidr (Net (_min r) (32 - lsb_count size false))).
        { apply is_cidr_intro; try lia.
          replace (32 - (32 - lsb_count size false)) with (lsb_count size false) by lia.
          exact Hal. }
        split; [exact Hc|]. split; [reflexivity|].
        rewrite (cidr_max_addr _ Hc). cbn [m_addr m_mask].
        replace (32 - (32 - lsb_count size false)) with (lsb_count size false) by lia. lia.
      * intros (n & Hn & Ha & Hm).
        destruct (cidr_facts n Hn) as (Hk & Hpa & Hal & Hmx & Hb & Hp).
        assert (Ek : 2 ^ (32 - m_mask n) = 2 ^ lsb_count size false) by lia.
        assert (Ek' : 32 - m_mask n = lsb_count size false).
        { apply Z.le_antisymm; apply pow2_le_inv; lia. }
        rewrite <- Ha, <- Ek'. exact Hal.
    + apply Z.eqb_neq in Es. split; [discriminate|].
      intros (n & Hn & Ha & Hm). exfalso.
      destruct (cidr_facts n Hn) as (Hk & Hpa & Hal & Hmx & Hb & Hp).
      destruct Hsize as [[Hfull Hs]|[Hlt Hs]].
      * rewrite Hs in *. apply E32. apply Z.le_antisymm; [lia|].
        apply lsb_count_ge; [lia|]. apply Z.mod_0_l. lia.
      * assert (Ek : size = 2 ^ (32 - m_mask n)) by lia.
        assert (Hk32 : 32 - m_mask n < 32).
        { destruct (Z.eq_dec (32 - m_mask n) 32) as [E|E]; [|lia].
          rewrite E in Ek. rewrite <- Htwo in Ek. lia. }
        apply Es. rewrite Ek at 2. rewrite lsb_count_pow2 by lia. exact Ek.
Qed.

Lemma is_network_block_witness :
  is_network (Interval.make (quad 10 1 2 0) (quad 10 1 2 255)) = true <->
  exists n, is_cidr n /\ m_addr n = _min (Interval.make (quad 10 1 2 0) (quad 10 1 2 255)) /\
            max_addr n = _max (Interval.make (quad 10 1 2 0) (quad 10 1 2 255)).
Proof.
  apply (is_network_block (Interval.make (quad 10 1 2 0) (quad 10 1 2 255)));
    vm_compute; try split; congruence.
Defined.

End Ip4NetFacts.

Module CnRangeFacts.
Import Cn CnRanges.

Local Ltac bools :=
  repeat match goal with
         | H : _ /\ _ |- _ => destruct H
         | H : _ && _ = true |- _ => apply andb_true_iff in H; destruct H
         | H : _ || _ = true |- _ => apply orb_true_iff in H; destruct H
         | H : _ && _ = false |- _ => apply andb_false_iff in H; destruct H
         | H : _ || _ = false |- _ => apply orb_false_iff in H; destruct H
         | H : (_ <=? _) = true |- _ => apply Z.leb_le in H
         | H : (_ <=? _) = false |- _ => apply Z.leb_gt in H
         | H : (_ =? _) = true |- _ => apply Z.eqb_eq in H
         | H : (_ =? _) = false |- _ => apply Z.eqb_neq in H
         end.

Local Ltac cases :=
  repeat match goal with
         | |- context [?a <=? ?b] => destruct (a <=? b) eqn:?
         | |- context [?a =? ?b] => destruct (a =? b) eqn:?
         end; bools.

Lemma compatible_iff (r : IpRange) (x : Z) :
  IsCompatible r x = true <-> m_low r <= x <= m_high r.
Proof. unfold IsCompatible. rewrite andb_true_iff, !Z.leb_le. reflexivity. Qed.

Lemma has_overlap_iff (a b : IpRange) :
  m_low a <= m_high a -> m_low b <= m_high b ->
  (HasOverlap a b = true <-> Z.max (m_low a) (m_low b) <= Z.min (m_high a) (m_high b)).
Proof.
  intros Ha Hb. unfold HasOverlap, IsCompatible. split.
  - intros H. bools; lia.
  - intros H. cases; cbn; try reflexivity; lia.
Qed.

(** X28: for ranges of the [IpRange]
    constructor (the lower bound is not above the upper bound),
    [HasOverlap] is true exactly when some address is in both ranges, it
    is symmetric, [CalcOverlap] then writes the range of exactly the
    addresses in both and leaves the output alone otherwise, and
    [IsSubset] is true exactly when every address of the range is in the
    other one. *)
Theorem range_overlap_common_addresses (a b : IpRange) :
  m_low a <= m_high a -> m_low b <= m_high b ->
  (HasOverlap a b = true <->
   exists x, IsCompatible a x = true /\ IsCompatible b x = true) /\
  HasOverlap a b = HasOverlap b a /\
  (forall out,
     (HasOverlap a b = true ->
      snd (CalcOverlap a out b) = true /\
      forall x, IsCompatible (fst (CalcOverlap a out b)) x = true <->
                IsCompatible a x = true /\ IsCompatible b x = true) /\
     (HasOverlap a b = false -> CalcOverlap a out b = (out, false))) /\
  (IsSubset a b = true <->
   forall x, IsCompatible a x = true -> IsCompatible b x = true).
Proof.
  intros Ha Hb. split; [|split; [|split]].
  - rewrite (has_overlap_iff a b Ha Hb). split.
    + intros H. exists (Z.max (m_low a) (m_low b)). rewrite !compatible_iff. lia.
    + intros (x & H1 & H2). rewrite compatible_iff in H1, H2. lia.
  - destruct (HasOverlap a b) eqn:E1; destruct (HasOverlap b a) eqn:E2; try reflexivity.
    + apply (has_overlap_iff a b Ha Hb) in E1.
      assert (HasOverlap b a = true) by (apply (has_overlap_iff b a Hb Ha); lia). congruence.
    + apply (has_overlap_iff b a Hb Ha) in E2.
      assert (HasOverlap a b = true) by (apply (has_overlap_iff a b Ha Hb); lia). congruence.
  - intros out. unfold CalcOverlap. split; intros H; rewrite H; [|reflexivity].
    split; [reflexivity|]. intros x. cbn [fst]. rewrite !compatible_iff. cbn [m_low m_high].
    lia.
  - unfold IsSubset. rewrite andb_true_iff, !Z.leb_le. split.
    + intros [H1 H2] x. rewrite !compatible_iff. lia.
    + intros H. pose proof (H (m_low a)) as H1. pose proof (H (m_high a)) as H2.
      rewrite !compatible_iff in H1, H2. lia.
Qed.

Lemma range_overlap_common_addresses_witness :
  (HasOverlap (Range 0 10) (Range 5 20) = true <->
   exists x, IsCompatible (Range 0 10) x = true /\ IsCompatible (Range 5 20) x = true) /\
  HasOverlap (Range 0 10) (Range 5 20) = HasOverlap (Range 5 20) (Range 0 10) /\
  (forall out,
     (HasOverlap (Range 0 10) (Range 5 20) = true ->
      snd (CalcOverlap (Range 0 10) out (Range 5 20)) = true /\
      forall x, IsCompatible (fst (CalcOverlap (Range 0 10) out (Range 5 20))) x = true <->
                IsCompatible (Range 0 10) x = true /\ IsCompatible (Range 5 20) x = true) /\
     (HasOverlap (Range 0 10) (Range 5 20) = false ->
      CalcOverlap (Range 0 10) out (Range 5 20) = (out, false))) /\
  (IsSubset (Range 0 10) (Range 5 20) = true <->
   forall x, IsCompatible (Range 0 10) x = true -> IsCompatible (Range 5 20) x = true).
Proof.
  apply (range_overlap_common_addresses (Range 0 10) (Range 5 20)); cbn; lia.
Defined.

(** X29: for two ranges of addresses below the
    largest address, [HasUnion] is true exactly when the addresses of the
    two ranges together are a range with no gap, and [CalcUnion] then
    writes the range of exactly the addresses in one or the other. *)
Theorem range_union_below_max (a b : IpRange) :
  0 <= m_low a <= m_high a -> m_high a < MAX32 ->
  0 <= m_low b <= m_high b -> m_high b < MAX32 ->
  (HasUnion a b = true <->
   forall x, Z.min (m_low a) (m_low b) <= x <= Z.max (m_high a) (m_high b) ->
             IsCompatible a x = true \/ IsCompatible b x = true) /\
  (forall out, HasUnion a b = true ->
     snd (CalcUnion a out b) = true /\
     forall x, IsCompatible (fst (CalcUnion a out b)) x = true <->
               IsCompatible a x = true \/ IsCompatible b x = true) /\
  (forall out, HasUnion a b = false -> CalcUnion a out b = (out, false)).
Proof.
  intros Ha Hamax Hb Hbmax.
  assert (Hadd : forall z, 0 <= z < MAX32 -> addr_add z 1 = z + 1).
  { intros z Hz. unfold addr_add, wrap32. apply Z.mod_small.
    unfold MAX32 in Hz. lia. }
  assert (Hu : HasUnion a b = true <->
               Z.max (m_low a) (m_low b) <= Z.min (m_high a) (m_high b) + 1).
  { unfold HasUnion, IsAdjacentTo. rewrite !Hadd by lia.
    rewrite !orb_true_iff, !Z.eqb_eq.
    rewrite (has_overlap_iff a b ltac:(lia) ltac:(lia)). lia. }
  split; [|split].
  - rewrite Hu. split.
    + intros H x Hx. rewrite !compatible_iff. lia.
    + intros H.
      destruct (Z_le_gt_dec (Z.max (m_low a) (m_low b))
                            (Z.min (m_high a) (m_high b) + 1)) as [Hle|Hgt]; [exact Hle|].
      specialize (H (Z.min (m_high a) (m_high b) + 1)).
      rewrite !compatible_iff in H. lia.
  - intros out H. unfold CalcUnion. rewrite H. split; [reflexivity|].
    apply Hu in H. intros x. cbn [fst]. rewrite !compatible_iff. cbn [m_low m_high]. lia.
  - intros out H. unfold CalcUnion. rewrite H. reflexivity.
Qed.

Lemma range_union_below_max_witness :
  (HasUnion (Range 0 10) (Range 11 20) = true <->
   forall x, Z.min (m_low (Range 0 10)) (m_low (Range 11 20)) <= x
             <= Z.max (m_high (Range 0 10)) (m_high (Range 11 20)) ->
             IsCompatible (Range 0 10) x = true \/ IsCompatible (Range 11 20) x = true) /\
  (forall out, HasUnion (Range 0 10) (Range 11 20) = true ->
     snd (CalcUnion (Range 0 10) out (Range 11 20)) = true /\
     forall x, IsCompatible (fst (CalcUnion (Range 0 10) out (Range 11 20))) x = true <->
               IsCompatible (Range 0 10) x = true \/ IsCompatible (Range 11 20) x = true) /\
  (forall out, HasUnion (Range 0 10) (Range 11 20) = false ->
     CalcUnion (Range 0 10) out (Range 11 20) = (out, false)).
Proof.
  apply (range_union_below_max (Range 0 10) (Range 11 20)); cbn; unfold MAX32, two32; lia.
Defined.

(** *** [IpSet::Contains] *)

Lemma range_eqb_eq (x y : IpRange) : range_eqb x y = true <-> x = y.
Proof.
  destruct x, y. unfold range_eqb. cbn [m_low m_high].
  rewrite andb_true_iff, !Z.eqb_eq. split; [intros [-> ->]; reflexivity|].
  intros H. injection H as -> ->. auto.
Qed.

Lemma set_find_in (s : IpSet) (e : IpRange) :
  In e s -> find set_key s e = Some e.
Proof.
  induction s as [|x s IH]; intros H; [destruct H|]. cbn [find]. unfold set_key at 1.
  destruct (range_eqb x e) eqn:E.
  - apply range_eqb_eq in E. congruence.
  - destruct H as [H|H]; [subst; rewrite (proj2 (range_eqb_eq e e) eq_refl) in E; discriminate|].
    exact (IH H).
Qed.

Lemma set_after_app (done rest : IpSet) (e : IpRange) :
  NoDup (done ++ e :: rest) -> after set_key (done ++ e :: rest) e = begin set_key rest.
Proof.
  induction done as [|d done IH]; intros Hnd; cbn [app after]; unfold set_key at 1.
  - rewrite (proj2 (range_eqb_eq e e) eq_refl). reflexivity.
  - inversion Hnd as [|? ? Hni Hnd']; subst.
    destruct (range_eqb d e) eqn:E.
    + apply range_eqb_eq in E. subst d. exfalso. apply Hni. apply in_or_app. right. left.
      reflexivity.
    + exact (IH Hnd').
Qed.

Lemma Contains_loop_spec (range : IpRange) : forall (rest done : IpSet),
  NoDup (done ++ rest) ->
  Contains_loop (S (length rest)) (done ++ rest) (begin set_key rest) range
  = Ok (match List.find (IsSubset range) rest with
        | Some e => It e
        | None => End
        end).
Proof.
  induction rest as [|e rest IH]; intros done Hnd; [reflexivity|].
  cbn [length begin List.find]. unfold set_key at 1.
  change (Contains_loop (S (S (length rest))) (done ++ e :: rest) (It e) range)
    with (cur <- deref set_key (done ++ e :: rest) (It e) ;;
          if negb (IsSubset range cur) then
            iter' <- incr set_key (done ++ e :: rest) (It e) ;;
            Contains_loop (S (length rest)) (done ++ e :: rest) iter' range
          else Ok (It e)).
  unfold deref, incr.
  rewrite (set_find_in (done ++ e :: rest) e) by (apply in_or_app; right; left; reflexivity).
  cbn [bind]. destruct (IsSubset range e); cbn [negb]; [reflexivity|].
  rewrite (set_after_app done rest e Hnd).
  replace (done ++ e :: rest) with ((done ++ [e]) ++ rest) in *
    by (rewrite <- app_assoc; reflexivity).
  apply IH. exact Hnd.
Qed.

(** X30: [IpSet::Contains(range)] on a set (its
    ranges are distinct) ends without a fault and returns true exactly
    when one stored range alone contains every address of [range]; a
    range that is covered only by several stored ranges together is not
    contained. *)
Theorem set_contains_some_range (s : IpSet) (range : IpRange) :
  NoDup s -> m_low range <= m_high range ->
  exists b, Contains (S (length s)) s range = Ok b /\
    (b = true <->
     exists r, In r s /\ forall x, IsCompatible range x = true -> IsCompatible r x = true).
Proof.
  intros Hnd Hr. unfold Contains.
  pose proof (Contains_loop_spec range s [] Hnd) as Hloop. cbn [app] in Hloop.
  rewrite Hloop. cbn [bind].
  destruct (List.find (IsSubset range) s) as [e|] eqn:Ef.
  - exists true. split; [reflexivity|]. split; [|reflexivity]. intros _.
    apply List.find_some in Ef. destruct Ef as [Hin Hsub]. exists e. split; [exact Hin|].
    unfold IsSubset in Hsub. apply andb_true_iff in Hsub. rewrite !Z.leb_le in Hsub.
    intros x. rewrite !compatible_iff. lia.
  - exists false. split; [reflexivity|]. split; [discriminate|].
    intros (r & Hin & Hall). pose proof (List.find_none _ _ Ef r Hin) as Hno.
    unfold IsSubset in Hno. apply andb_false_iff in Hno. rewrite !Z.leb_gt in Hno.
    pose proof (Hall (m_low range)) as H1. pose proof (Hall (m_high range)) as H2.
    rewrite !compatible_iff in H1, H2. lia.
Qed.

Lemma set_contains_some_range_witness :
  exists b, Contains 3 [Range 0 10; Range 20 30] (Range 22 25) = Ok b /\
    (b = true <->
     exists r, In r [Range 0 10; Range 20 30] /\
               forall x, IsCompatible (Range 22 25) x = true -> IsCompatible r x = true).
Proof.
  apply (set_contains_some_range [Range 0 10; Range 20 30] (Range 22 25)).
  - repeat constructor; cbn; intuition discriminate.
  - cbn. lia.
Defined.

End CnRangeFacts.
